(** * Snakemake job scheduling ([snakemake/jobs.py])

    A shallow embedding of the [Job] class and of the two schedulers
    ([KnapsackJobScheduler], [ClusterJobScheduler]) of [snakemake/jobs.py],
    together with the properties of the specification that concern them.

    Python objects live in an arena: a job is named by its [jobid], which is
    the value of the class counter [Job.count] at construction time and hence
    the position of the job in the arena.  Methods are state transformers
    over the [World]; a raised Python exception keeps the state reached so
    far, as in Python. *)

From stdpp Require Import gmap strings list fin_maps pretty.
From Stdlib Require Import ZArith Lia Ascii.

Open Scope Z_scope.

(** ** Data model *)

Abbreviation JobId := nat (only parsing).
Abbreviation RuleId := nat (only parsing).

(** [IOFile] is a [str] subclass carrying flags; it compares and hashes as
    its path. *)
Record IOFile := mkIOFile {
  file : string;
  is_temp : bool;
  is_protected : bool
}.

(** Modelled from the spec: the class [Rule] ([snakemake.rules]) is not part
    of [jobs.py]; only the interface used there is kept: [name], [input],
    [output], and the dynamic flags read by [is_dynamic(file)] and written by
    [set_dynamic(file, bool)], kept as the set of flagged paths. *)
Record Rule := mkRule {
  rule_name : string;
  rule_input : list IOFile;
  rule_output : list IOFile;
  rule_dynamic : gset string
}.

(** The callables that [jobs.py] registers with [add_callback] and
    [add_error_callback] are bound methods of the scheduler; a callback of
    another origin only leaves its mark in the trace. *)
Inductive Callback :=
| KnapsackFinished      (* KnapsackJobScheduler._finished *)
| ClusterFinished       (* ClusterJobScheduler._finished *)
| OtherCallback (n : nat).

Inductive ErrorCallback :=
| KnapsackError         (* KnapsackJobScheduler._error *)
| OtherErrorCallback (n : nat).

(** The arguments of [Job.__init__] that are stored unchanged. *)
Record JobInit := mkJobInit {
  rule : RuleId;
  message : option string;
  input : list IOFile;
  output : list IOFile;
  init_threads : Z;
  log : option IOFile;
  init_depends : gset JobId;
  dryrun : bool;
  quiet : bool;
  touch : bool;
  needrun : bool;
  pseudo : bool;
  dynamic_output : bool;
  forced : bool
}.

Record Job := mkJob {
  init : JobInit;
  threads : Z;
  depends : gset JobId;
  depending : list JobId;
  is_finished : bool;
  _callbacks : list Callback;
  _error_callbacks : list ErrorCallback;
  jobid : JobId;
  ignore : bool;
  scheduler : bool     (* [false]: the attribute is still [None] *)
}.

Definition set_threads (t : Z) (j : Job) : Job :=
  mkJob (init j) t (depends j) (depending j) (is_finished j) (_callbacks j)
        (_error_callbacks j) (jobid j) (ignore j) (scheduler j).
Definition set_depends (d : gset JobId) (j : Job) : Job :=
  mkJob (init j) (threads j) d (depending j) (is_finished j) (_callbacks j)
        (_error_callbacks j) (jobid j) (ignore j) (scheduler j).
Definition set_depending (d : list JobId) (j : Job) : Job :=
  mkJob (init j) (threads j) (depends j) d (is_finished j) (_callbacks j)
        (_error_callbacks j) (jobid j) (ignore j) (scheduler j).
Definition set_is_finished (b : bool) (j : Job) : Job :=
  mkJob (init j) (threads j) (depends j) (depending j) b (_callbacks j)
        (_error_callbacks j) (jobid j) (ignore j) (scheduler j).
Definition set_callbacks (c : list Callback) (j : Job) : Job :=
  mkJob (init j) (threads j) (depends j) (depending j) (is_finished j) c
        (_error_callbacks j) (jobid j) (ignore j) (scheduler j).
Definition set_error_callbacks (c : list ErrorCallback) (j : Job) : Job :=
  mkJob (init j) (threads j) (depends j) (depending j) (is_finished j)
        (_callbacks j) c (jobid j) (ignore j) (scheduler j).
Definition set_ignore (b : bool) (j : Job) : Job :=
  mkJob (init j) (threads j) (depends j) (depending j) (is_finished j)
        (_callbacks j) (_error_callbacks j) (jobid j) b (scheduler j).
Definition set_scheduler (b : bool) (j : Job) : Job :=
  mkJob (init j) (threads j) (depends j) (depending j) (is_finished j)
        (_callbacks j) (_error_callbacks j) (jobid j) (ignore j) b.

(** Python exceptions seen by [jobs.py]. *)
Inductive Exn :=
| RuleException (msg : string)
| MissingOutputException (f : string)
| OSError (f : string)
| KeyError
| ValueError
| IndexError
| AttributeError
| RecursionError
| ClusterJobException (j : JobId)
| ExternalError.

(** A [concurrent.futures.Future] that is done: either the exception of the
    worker or the value returned by [run_wrapper] (the elapsed time, kept as
    an opaque number). *)
Inductive Future :=
| FutureException (ex : Exn)
| FutureResult (runtime : Z).

(** Modelled from the spec: the workflow object is external; [jobs.py] reads
    [cores] and [scriptpath] and uses the job counter through [done()] and
    [count]. *)
Record Workflow := mkWorkflow {
  cores : option Z;
  scriptpath : option string;
  jobcounter_count : Z;
  jobcounter_done : Z
}.

Record KnapsackJobScheduler := mkKnapsack {
  ks_maxcores : Z;
  ks_cores : Z;
  ks_pool : list JobId;     (* submitted futures that are not done yet *)
  ks_shutdown : bool;
  ks_jobs : gset JobId;
  ks_open_jobs : bool;
  ks_errors : bool
}.

Record ClusterJobScheduler := mkCluster {
  cs_jobs : gset JobId;
  cs_submitcmd : string;
  cs_open_jobs : bool;
  cs_error : bool;
  cs_cores : option Z;
  (* the threads running [_wait_for_job]: job, jobfinished, jobfailed, jobscript *)
  cs_watchers : list (JobId * (string * (string * string)))
}.

Inductive Scheduler :=
| Knapsack (s : KnapsackJobScheduler)
| Cluster (s : ClusterJobScheduler).

(** What the program does to its collaborators, in order. *)
Inductive Event :=
| LogInfoJob (j : JobId)               (* logger.info(job message) *)
| LogInfoCounter
| LogWarning (msg : string)
| LogWarningThreads (j : JobId) (t maxcores : Z)   (* "Rule ... defines too many threads" *)
| PrintException (ex : Exn)
| EvCallback (cb : Callback) (j : JobId)
| EvErrorCallback (cb : ErrorCallback)
| EvCreated (f : string)
| EvUsed (f : string)
| EvRemove (f : string)
| EvTouch (f : string)
| EvPrepare (f : string)
| EvReportRuntime (r : RuleId) (runtime : Z)
| EvRun (j : JobId) (deps : gset JobId)    (* entry of Job.run, with job.depends *)
| EvSubmit (j : JobId)                     (* pool.submit(run_wrapper, ...) *)
| EvShell (jobscript jobfinished jobfailed : string) (j : JobId)
| EvPoolShutdown.

#[global] Instance Callback_eq_dec : EqDecision Callback.
Proof. solve_decision. Defined.
#[global] Instance ErrorCallback_eq_dec : EqDecision ErrorCallback.
Proof. solve_decision. Defined.
#[global] Instance Exn_eq_dec : EqDecision Exn.
Proof. solve_decision. Defined.
#[global] Instance Event_eq_dec : EqDecision Event.
Proof. solve_decision. Defined.

Record World := mkWorld {
  w_jobs : list Job;
  w_rules : list Rule;
  w_fs : gset string;                (* the paths that exist on disk *)
  w_workflow : Workflow;
  w_scheduler : option Scheduler;
  w_trace : list Event
}.

Definition set_jobs (x : list Job) (w : World) : World :=
  mkWorld x (w_rules w) (w_fs w) (w_workflow w) (w_scheduler w) (w_trace w).
Definition set_rules (x : list Rule) (w : World) : World :=
  mkWorld (w_jobs w) x (w_fs w) (w_workflow w) (w_scheduler w) (w_trace w).
Definition set_fs (x : gset string) (w : World) : World :=
  mkWorld (w_jobs w) (w_rules w) x (w_workflow w) (w_scheduler w) (w_trace w).
Definition set_workflow (x : Workflow) (w : World) : World :=
  mkWorld (w_jobs w) (w_rules w) (w_fs w) x (w_scheduler w) (w_trace w).
Definition set_sched (x : option Scheduler) (w : World) : World :=
  mkWorld (w_jobs w) (w_rules w) (w_fs w) (w_workflow w) x (w_trace w).
Definition emit (e : Event) (w : World) : World :=
  mkWorld (w_jobs w) (w_rules w) (w_fs w) (w_workflow w) (w_scheduler w)
          (w_trace w ++ [e]).

(** The mapping [jobs] handed to [Rule.run]: [(output, rule) -> job]. *)
Definition JobCache := list ((list IOFile * RuleId) * JobId).

(** What a call of [Rule.run] does: the jobs it constructs, in order, the
    mapping [jobs] as it leaves it, and then either the job it returns or an
    exception. *)
Record RunOutcome := mkRunOutcome {
  run_new : list JobInit;
  run_cache : JobCache;
  run_result : option JobId
}.

(** Modelled from the spec: the collaborators that are not part of
    [jobs.py].  [listfiles] enumerates the files on disk that match a
    pattern, with the wildcard values of each; [expand] instantiates a
    pattern with the zipped wildcard values and may fail; [io_remove] deletes
    a path and may fail with [OSError]; [rule_run] is the factory
    [Rule.run(target, jobs, forcethis)]; [set_iter] is the order in which
    CPython iterates over a set of jobs; [cpu_count] is
    [multiprocessing.cpu_count()]; [recursion_limit] is the number of
    nested frames of [Job.descendants] that fit under the recursion limit
    of CPython where [Job.all_jobs] is called. *)
Record Externals := mkExternals {
  listfiles : gset string → string → list (string * list (string * string));
  expand : string → gmap string (gset string) → option (list string);
  io_remove : gset string → string → option (gset string);
  rule_run : World → RuleId → option IOFile → JobCache → bool → RunOutcome;
  set_iter : gset JobId → list JobId;
  cpu_count : Z;
  recursion_limit : nat
}.

(** ** State and exceptions *)

Inductive Result (A : Type) :=
| Ok (a : A) (w : World)
| Raise (ex : Exn) (w : World)
| Abort.      (* no Python run: out of fuel, or a reference to no object *)
Arguments Ok {A} a w.
Arguments Raise {A} ex w.
Arguments Abort {A}.

Definition M (A : Type) : Type := World → Result A.

Definition ret {A} (a : A) : M A := λ w, Ok a w.
Definition bind {A B} (m : M A) (k : A → M B) : M B :=
  λ w, match m w with
       | Ok a w' => k a w'
       | Raise ex w' => Raise ex w'
       | Abort => Abort
       end.
Definition raise {A} (ex : Exn) : M A := λ w, Raise ex w.
Definition abort {A} : M A := λ _, Abort.
Definition get : M World := λ w, Ok w w.
Definition modify (f : World → World) : M unit := λ w, Ok tt (f w).
Definition log_event (e : Event) : M unit := modify (emit e).

Notation "'do' x <- m ; k" := (bind m (λ x, k))
  (at level 10, x name, m at level 100, k at level 200,
   format "'[v' 'do'  x  <-  m ; '/' k ']'").
Notation "'do' ' p <- m ; k" := (bind m (λ x, match x with p => k end))
  (at level 10, p pattern, m at level 100, k at level 200).
Notation "m ;; k" := (bind m (λ _, k))
  (at level 100, k at level 200, right associativity).

(** [try: m except <classes>: h] *)
Definition try_except {A} (m : M A) (catches : Exn → bool) (h : Exn → M A) : M A :=
  λ w, match m w with
       | Raise ex w' => if catches ex then h ex w' else Raise ex w'
       | r => r
       end.

(** [for x in l: body x] *)
Fixpoint for_ {A} (l : list A) (body : A → M unit) : M unit :=
  match l with
  | [] => ret tt
  | x :: l' => body x ;; for_ l' body
  end.

Definition when (b : bool) (m : M unit) : M unit := if b then m else ret tt.

Definition get_job (j : JobId) : M Job :=
  λ w, match w_jobs w !! j with Some x => Ok x w | None => Abort end.
Definition modify_job (j : JobId) (f : Job → Job) : M unit :=
  λ w, match w_jobs w !! j with
       | Some x => Ok tt (set_jobs (<[j := f x]> (w_jobs w)) w)
       | None => Abort
       end.
Definition get_rule (r : RuleId) : M Rule :=
  λ w, match w_rules w !! r with Some x => Ok x w | None => Abort end.
Definition modify_rule (r : RuleId) (f : Rule → Rule) : M unit :=
  λ w, match w_rules w !! r with
       | Some x => Ok tt (set_rules (<[r := f x]> (w_rules w)) w)
       | None => Abort
       end.

(** [for x in l: acc = body x acc] *)
Fixpoint fold_ {A S} (l : list A) (body : A → S → M S) (acc : S) : M S :=
  match l with
  | [] => ret acc
  | x :: l' => do acc' <- body x acc; fold_ l' body acc'
  end.

(** [list.remove(x)]: drops the first occurrence, [ValueError] without one. *)
Fixpoint list_remove {A} `{EqDecision A} (x : A) (l : list A) : option (list A) :=
  match l with
  | [] => None
  | y :: l' => if decide (x = y) then Some l'
               else option_map (cons y) (list_remove x l')
  end.

(** [str.replace("/", "_")] *)
Fixpoint replace_slash (s : string) : string :=
  match s with
  | EmptyString => EmptyString
  | String c s' =>
      String (if Ascii.eqb c "/"%char then "_"%char else c) (replace_slash s')
  end.

Definition set_rule_input (x : list IOFile) (r : Rule) : Rule :=
  mkRule (rule_name r) x (rule_output r) (rule_dynamic r).
Definition set_rule_dynamic (x : gset string) (r : Rule) : Rule :=
  mkRule (rule_name r) (rule_input r) (rule_output r) x.

Definition set_ks_cores (x : Z) (s : KnapsackJobScheduler) :=
  mkKnapsack (ks_maxcores s) x (ks_pool s) (ks_shutdown s) (ks_jobs s)
             (ks_open_jobs s) (ks_errors s).
Definition set_ks_pool (x : list JobId) (s : KnapsackJobScheduler) :=
  mkKnapsack (ks_maxcores s) (ks_cores s) x (ks_shutdown s) (ks_jobs s)
             (ks_open_jobs s) (ks_errors s).
Definition set_ks_shutdown (x : bool) (s : KnapsackJobScheduler) :=
  mkKnapsack (ks_maxcores s) (ks_cores s) (ks_pool s) x (ks_jobs s)
             (ks_open_jobs s) (ks_errors s).
Definition set_ks_jobs (x : gset JobId) (s : KnapsackJobScheduler) :=
  mkKnapsack (ks_maxcores s) (ks_cores s) (ks_pool s) (ks_shutdown s) x
             (ks_open_jobs s) (ks_errors s).
Definition set_ks_open_jobs (x : bool) (s : KnapsackJobScheduler) :=
  mkKnapsack (ks_maxcores s) (ks_cores s) (ks_pool s) (ks_shutdown s)
             (ks_jobs s) x (ks_errors s).
Definition set_ks_errors (x : bool) (s : KnapsackJobScheduler) :=
  mkKnapsack (ks_maxcores s) (ks_cores s) (ks_pool s) (ks_shutdown s)
             (ks_jobs s) (ks_open_jobs s) x.

Definition set_cs_jobs (x : gset JobId) (s : ClusterJobScheduler) :=
  mkCluster x (cs_submitcmd s) (cs_open_jobs s) (cs_error s) (cs_cores s)
            (cs_watchers s).
Definition set_cs_open_jobs (x : bool) (s : ClusterJobScheduler) :=
  mkCluster (cs_jobs s) (cs_submitcmd s) x (cs_error s) (cs_cores s)
            (cs_watchers s).
Definition set_cs_error (x : bool) (s : ClusterJobScheduler) :=
  mkCluster (cs_jobs s) (cs_submitcmd s) (cs_open_jobs s) x (cs_cores s)
            (cs_watchers s).
Definition set_cs_watchers (x : list (JobId * (string * (string * string))))
    (s : ClusterJobScheduler) :=
  mkCluster (cs_jobs s) (cs_submitcmd s) (cs_open_jobs s) (cs_error s)
            (cs_cores s) x.

(** The scheduler object, seen as one or the other class. *)
Definition get_knapsack : M KnapsackJobScheduler :=
  λ w, match w_scheduler w with
       | Some (Knapsack s) => Ok s w
       | _ => Abort
       end.
Definition modify_knapsack (f : KnapsackJobScheduler → KnapsackJobScheduler) : M unit :=
  λ w, match w_scheduler w with
       | Some (Knapsack s) => Ok tt (set_sched (Some (Knapsack (f s))) w)
       | _ => Abort
       end.
Definition get_cluster : M ClusterJobScheduler :=
  λ w, match w_scheduler w with
       | Some (Cluster s) => Ok s w
       | _ => Abort
       end.
Definition modify_cluster (f : ClusterJobScheduler → ClusterJobScheduler) : M unit :=
  λ w, match w_scheduler w with
       | Some (Cluster s) => Ok tt (set_sched (Some (Cluster (f s))) w)
       | _ => Abort
       end.

(** ** The knapsack of the local scheduler *)

(** [l[k]] for a Python list: a negative index counts from the end, an
    index outside the list is an [IndexError] ([None]). *)
Definition py_index {A} (l : list A) (k : Z) : option A :=
  if decide (0 ≤ k) then l !! Z.to_nat k
  else if decide (- Z.of_nat (length l) ≤ k)
       then l !! Z.to_nat (Z.of_nat (length l) + k)
       else None.

(** [K[i][j]] *)
Definition K_get (K : list (list Z)) (i j : Z) : option Z :=
  row ← py_index K i; py_index row j.

(** [K[i][j] = v], for [0 <= i] and [0 <= j] inside the table. *)
Definition K_set (K : list (list Z)) (i j : Z) (v : Z) : list (list Z) :=
  alter (λ row, <[Z.to_nat j := v]> row) (Z.to_nat i) K.

(** The body of the inner loop of [_knapsack]. *)
Definition knapsack_cell (jobs : list Job) (i j : Z) (K : list (list Z))
    : option (list (list Z)) :=
  job ← py_index jobs (i - 1);
  let t := threads job in
  if decide (t > j) then
    v ← K_get K (i - 1) j;
    Some (K_set K i j v)
  else
    a ← K_get K (i - 1) j;
    b ← K_get K (i - 1) (j - t);
    Some (K_set K i j (Z.max a (t + b))).

(** [for x in l: K = body x K], stopping at the first [IndexError]. *)
Definition table_loop (l : list Z) (body : Z → list (list Z) → option (list (list Z)))
    (K : list (list Z)) : option (list (list Z)) :=
  foldl (λ acc x, K' ← acc; body x K') (Some K) l.

Definition knapsack_table (jobs : list Job) (dimi dimj : Z) : option (list (list Z)) :=
  let K := replicate (Z.to_nat dimi) (replicate (Z.to_nat dimj) 0) in
  table_loop (seqZ 1 (dimi - 1))
    (λ i, table_loop (seqZ 1 (dimj - 1)) (λ j, knapsack_cell jobs i j)) K.

(** The [while i > 0] loop of [_knapsack]; it runs [i] times. *)
Fixpoint knapsack_solution (jobs : list Job) (K : list (list Z)) (i : nat) (j : Z)
    (solution : gset JobId) : option (gset JobId) :=
  match i with
  | O => Some solution
  | S i' =>
      a ← K_get K (Z.of_nat i) j;
      b ← K_get K (Z.of_nat i - 1) j;
      if decide (a ≠ b) then
        job ← py_index jobs (Z.of_nat i - 1);
        knapsack_solution jobs K i' (j - threads job) ({[jobid job]} ∪ solution)
      else knapsack_solution jobs K i' j solution
  end.

(** [KnapsackJobScheduler._knapsack(jobs)] with [self._cores = cores];
    [None] stands for an [IndexError]. *)
Definition _knapsack (cores : Z) (jobs : list Job) : option (gset JobId) :=
  let dimi := Z.of_nat (length jobs) + 1 in
  let dimj := cores + 1 in
  K ← knapsack_table jobs dimi dimj;
  knapsack_solution jobs K (Z.to_nat (dimi - 1)) (dimj - 1) ∅.

(** [sum(job.threads for job in S)] for a set [S] of jobs of the list. *)
Definition sum_threads (jobs : list Job) (S : gset JobId) : Z :=
  foldr (λ job acc, if decide (jobid job ∈ S) then threads job + acc else acc) 0 jobs.

(** *** The recurrence behind the table

    [opt jobs i j] is the entry that the loops of [_knapsack] leave in
    [K[i][j]]: column [0] and row [0] are never written and keep their
    initial [0]. *)
Fixpoint opt (jobs : list Job) (i : nat) (j : Z) : Z :=
  match i with
  | O => 0
  | S i' =>
      if decide (j ≤ 0) then 0
      else
        let t := default 0 (threads <$> jobs !! i') in
        if decide (t > j) then opt jobs i' j
        else Z.max (opt jobs i' j) (t + opt jobs i' (j - t))
  end.

Definition opt_row (jobs : list Job) (c : nat) (i : nat) : list Z :=
  (λ j : nat, opt jobs i (Z.of_nat j)) <$> seq 0 (S c).

(** The table after the outer loop has filled the rows [1..r]. *)
Definition table_upto (jobs : list Job) (n c r : nat) : list (list Z) :=
  (λ i : nat, if decide (i ≤ r)%nat then opt_row jobs c i else replicate (S c) 0)
    <$> seq 0 (S n).

(** Row [i] while the inner loop has filled the columns [1..k]. *)
Definition row_upto (jobs : list Job) (c i k : nat) : list Z :=
  (λ j : nat, if decide (j ≤ k)%nat then opt jobs i (Z.of_nat j) else 0)
    <$> seq 0 (S c).

Definition sum_list_threads (l : list Job) : Z :=
  foldr (λ job acc, threads job + acc) 0 l.

(** A job with the given [jobid] and [threads], every other attribute at the
    default of [Job.__init__]; used in examples. *)
Definition example_job (i : JobId) (t : Z) : Job :=
  mkJob (mkJobInit 0%nat None [] [] t None ∅ false false false true false false false)
        t ∅ [] false [] [] i false false.

(** Scenario (c) of the specification: three ready jobs with threads 3, 2, 2. *)
Definition scenario_c : list Job :=
  [example_job 0%nat 3; example_job 1%nat 2; example_job 2%nat 2].

(** ** The methods of [Job] and of the schedulers *)

Section Model.
Context (E : Externals).

(** [rule.is_dynamic(f)] and [rule.set_dynamic(f, b)] *)
Definition is_dynamic (r : RuleId) (f : IOFile) : M bool :=
  do x <- get_rule r;
  ret (bool_decide (file f ∈ rule_dynamic x)).

Definition set_dynamic (r : RuleId) (f : IOFile) (b : bool) : M unit :=
  modify_rule r (λ x,
    set_rule_dynamic (if b then {[file f]} ∪ rule_dynamic x
                      else rule_dynamic x ∖ {[file f]}) x).

(** Modelled from the spec: the operations of [IOFile] and of
    [snakemake.io].  [remove] deletes the path, or fails with [OSError];
    [created] fails with [MissingOutputException] when the file is absent;
    [used], [touch] and [prepare] are only recorded. *)
Definition remove (f : string) : M unit :=
  λ w, match io_remove E (w_fs w) f with
       | Some fs' => Ok tt (emit (EvRemove f) (set_fs fs' w))
       | None => Raise (OSError f) w
       end.

Definition created (o : IOFile) : M unit :=
  do w <- get;
  if bool_decide (file o ∈ w_fs w) then log_event (EvCreated (file o))
  else raise (MissingOutputException (file o)).

Definition used (f : IOFile) : M unit := log_event (EvUsed (file f)).
Definition touch_file (f : string) : M unit := log_event (EvTouch f).
Definition prepare (f : IOFile) : M unit := log_event (EvPrepare (file f)).

Definition get_listfiles (pattern : IOFile)
    : M (list (string * list (string * string))) :=
  do w <- get;
  ret (listfiles E (w_fs w) (file pattern)).

(** [Job.__init__]: the new job takes the next [jobid] and appends itself
    to the [depending] list of every job it depends on.  The jobs passed
    as [depends] are objects, hence exist already. *)
Definition __init__ (a : JobInit) : M JobId :=
  do w <- get;
  let self := length (w_jobs w) in
  if bool_decide (set_Forall (λ other, (other < self)%nat) (init_depends a)) then
    modify (set_jobs (w_jobs w ++
      [mkJob a (init_threads a) (init_depends a) [] false [] [] self false false]));;
    for_ (set_iter E (init_depends a)) (λ other,
      modify_job other (λ o, set_depending (depending o ++ [self]) o));;
    ret self
  else abort.

Definition add_callback (self : JobId) (callback : Callback) : M unit :=
  modify_job self (λ j, set_callbacks (_callbacks j ++ [callback]) j).

Definition add_error_callback (self : JobId) (callback : ErrorCallback) : M unit :=
  modify_job self (λ j, set_error_callbacks (_error_callbacks j ++ [callback]) j).

Definition print_message (self : JobId) : M unit := log_event (LogInfoJob self).

(** [Job.cleanup] *)
Definition cleanup (self : JobId) : M unit :=
  do j <- get_job self;
  when (negb (is_finished j))
    (for_ (output (init j)) (λ o,
       do dyn <- is_dynamic (rule (init j)) o;
       if dyn then
         do fs <- get_listfiles o;
         for_ fs (λ '(f, _), remove f)
       else remove (file o))).

(** [Job.descendants] and [Job.all_jobs].  Every level of the DAG takes
    one frame of the generator; [fuel] is the number of frames left, and
    Python raises [RecursionError] when there is none. *)
Fixpoint descendants (fuel : nat) (self : JobId) : M (list JobId) :=
  match fuel with
  | O => raise RecursionError
  | S fuel' =>
      do j <- get_job self;
      fold_ (set_iter E (depends j)) (λ job acc,
        do ds <- descendants fuel' job;
        ret (acc ++ job :: ds)) []
  end.

Definition all_jobs (self : JobId) : M (list JobId) :=
  do ds <- descendants (recursion_limit E) self;
  ret (self :: ds).

(** [job.depends.remove(self)] and [job.depending.remove(self)] *)
Definition depends_remove (job self : JobId) : M unit :=
  do j <- get_job job;
  if bool_decide (self ∈ depends j)
  then modify_job job (set_depends (depends j ∖ {[self]}))
  else raise KeyError.

Definition depending_remove (job self : JobId) : M unit :=
  do j <- get_job job;
  match list_remove self (depending j) with
  | Some l => modify_job job (set_depending l)
  | None => raise ValueError
  end.

(** [KnapsackJobScheduler] and [ClusterJobScheduler]: [add_jobs],
    [_finished], [_error]. *)
Definition add_jobs (jobs : gset JobId) : M unit :=
  for_ (set_iter E jobs) (λ job,
    modify_job job (set_scheduler true);;
    λ w, match w_scheduler w with
         | Some (Knapsack s) =>
             Ok tt (set_sched (Some (Knapsack (set_ks_jobs ({[job]} ∪ ks_jobs s) s))) w)
         | Some (Cluster s) =>
             Ok tt (set_sched (Some (Cluster (set_cs_jobs ({[job]} ∪ cs_jobs s) s))) w)
         | None => Abort
         end).

Definition Knapsack_finished (job : JobId) : M unit :=
  do j <- get_job job;
  when (needrun (init j))
    (modify_knapsack (λ s, set_ks_cores (ks_cores s + threads j) s));;
  modify_knapsack (set_ks_open_jobs true).

Definition Knapsack_error : M unit :=
  modify_knapsack (set_ks_errors true);;
  modify_knapsack (set_ks_jobs ∅);;
  modify_knapsack (set_ks_open_jobs true).

Definition Cluster_finished (job : JobId) : M unit :=
  modify_cluster (set_cs_open_jobs true).

Definition call_callback (callback : Callback) (job : JobId) : M unit :=
  log_event (EvCallback callback job);;
  match callback with
  | KnapsackFinished => Knapsack_finished job
  | ClusterFinished => Cluster_finished job
  | OtherCallback _ => ret tt
  end.

Definition call_error_callback (callback : ErrorCallback) : M unit :=
  log_event (EvErrorCallback callback);;
  match callback with
  | KnapsackError => Knapsack_error
  | OtherErrorCallback _ => ret tt
  end.

(** The first loop of [handle_dynamic_input]: the expansion of every
    dynamic input of the rule, by position; [None] when an expansion
    fails (the [return] of the [except] branch).  A position is present
    only if the expansion yields at least one file. *)
Fixpoint dynamic_expansion (dynamic : gset string)
    (wildcard_expansion : gmap string (gset string))
    (i : nat) (inputs : list IOFile) : option (list (nat * list IOFile)) :=
  match inputs with
  | [] => Some []
  | f :: rest =>
      if bool_decide (file f ∈ dynamic) then
        match expand E (file f) wildcard_expansion with
        | None => None
        | Some es =>
            expansion ← dynamic_expansion dynamic wildcard_expansion (S i) rest;
            Some (match es with
                  | [] => expansion
                  | _ => (i, (λ e, mkIOFile e (is_temp f) (is_protected f))
                               <$> reverse es) :: expansion
                  end)
        end
      else dynamic_expansion dynamic wildcard_expansion (S i) rest
  end.

(** [self.rule.set_dynamic(self.rule.input[i], False);
     self.rule.input[i:i+1] = e] *)
Definition replace_dynamic_input (r : RuleId) (ie : nat * list IOFile) : M unit :=
  do x <- get_rule r;
  match rule_input x !! ie.1 with
  | Some f =>
      set_dynamic r f false;;
      modify_rule r (λ x,
        set_rule_input (take ie.1 (rule_input x) ++ ie.2
                        ++ drop (S ie.1) (rule_input x)) x)
  | None => raise IndexError
  end.

(** "remove current job from DAG", in [handle_dynamic_input] *)
Definition remove_from_dag (self : JobId) : M unit :=
  do j <- get_job self;
  for_ (set_iter E (depends j)) (λ d, depending_remove d self);;
  do j <- get_job self;
  for_ (depending j) (λ d, depends_remove d self);;
  modify_job self (set_depends ∅);;
  modify_job self (set_ignore true).

(** The [try] block of [handle_dynamic_input]: the call of [Rule.run]
    with outcome [out], then the removal of the job from the DAG. *)
Definition replace_job (self : JobId) (out : RunOutcome) : M (option JobId) :=
  for_ (run_new out) (λ a, __init__ a;; ret tt);;
  match run_result out with
  | None => raise ExternalError
  | Some job =>
      remove_from_dag self;;
      ret (Some job)
  end.

(** [Job.handle_dynamic_input]; returns the new job, if any, and the
    mapping [jobs] as [Rule.run] leaves it. *)
Definition handle_dynamic_input (self : JobId)
    (wildcard_expansion : gmap string (gset string)) (jobs : JobCache)
    : M (option JobId * JobCache) :=
  do j <- get_job self;
  do r <- get_rule (rule (init j));
  match dynamic_expansion (rule_dynamic r) wildcard_expansion 0 (rule_input r) with
  | None => ret (None, jobs)
  | Some [] => ret (None, jobs)
  | Some expansion =>
      for_ (reverse expansion) (replace_dynamic_input (rule (init j)));;
      do w <- get;
      let out := rule_run E w (rule (init j)) (head (output (init j))) jobs
                          (forced (init j)) in
      do res <- try_except (replace_job self out) (λ _, true) (λ _, ret None);
      ret (res, run_cache out)
  end.

(** [wildcard_expansion[name].add(value)] for every item of [wildcards] *)
Definition add_wildcards (wildcards : list (string * string))
    (wildcard_expansion : gmap string (gset string)) : gmap string (gset string) :=
  foldl (λ acc nv, <[nv.1 := {[nv.2]} ∪ default ∅ (acc !! nv.1)]> acc)
        wildcard_expansion wildcards.

(** The first loop of [handle_dynamic_output]. *)
Definition collect_wildcards (self : JobId) : M (gmap string (gset string)) :=
  do j <- get_job self;
  fold_ (imap pair (output (init j))) (λ io wildcard_expansion,
    do dyn <- is_dynamic (rule (init j)) io.2;
    if dyn then
      do r <- get_rule (rule (init j));
      match rule_output r !! io.1 with
      | None => raise IndexError
      | Some pattern =>
          do fs <- get_listfiles pattern;
          ret (foldl (λ acc fw, add_wildcards fw.2 acc) wildcard_expansion fs)
      end
    else ret wildcard_expansion) ∅.

(** [for job in self.ancestors(): acc = body job acc].  [ancestors] is a
    generator: a job is taken from the queue and its [depending] list is
    read just before the body runs on it, so jobs that the body appends
    to later lists are visited too.  The loop need not end; it stops
    without a result when [fuel] runs out. *)
Fixpoint ancestors_loop {S} (fuel : nat) (queue : list JobId) (visited : gset JobId)
    (body : JobId → S → M S) (acc : S) : M S :=
  match queue with
  | [] => ret acc
  | job :: queue' =>
      match fuel with
      | O => abort
      | Datatypes.S fuel' =>
          do jb <- get_job job;
          let qv := foldl (λ qv j, if bool_decide (j ∈ qv.2) then qv
                                   else (qv.1 ++ [j], {[j]} ∪ qv.2))
                          (queue', visited) (depending jb) in
          do acc' <- body job acc;
          ancestors_loop fuel' qv.1 qv.2 body acc'
      end
  end.

(** The state of the second loop of [handle_dynamic_output]:
    [new_jobs], [dynamic] and the mapping [jobs]. *)
Definition expand_ancestor (wildcard_expansion : gmap string (gset string))
    (job : JobId) (st : gset JobId * Z * JobCache) : M (gset JobId * Z * JobCache) :=
  do r <- handle_dynamic_input job wildcard_expansion st.2;
  match r.1 with
  | Some j =>
      do all <- all_jobs j;
      ret (list_to_set all ∪ st.1.1, st.1.2 + 1, r.2)
  | None => ret (st.1.1, st.1.2, r.2)
  end.

(** [Job.handle_dynamic_output], up to the comment "calculate how many
    jobs have to be added": the set [new_jobs] and the count [dynamic]. *)
Definition dynamic_new_jobs (fuel : nat) (self : JobId) : M (gset JobId * Z) :=
  do wildcard_expansion <- collect_wildcards self;
  do j <- get_job self;
  do st <- ancestors_loop fuel (depending j) (list_to_set (depending j))
             (expand_ancestor wildcard_expansion)
             (∅, 0, [((output (init j), rule (init j)), self)]);
  let new_jobs := st.1.1 in
  let dynamic := st.1.2 in
  if bool_decide (self ∈ new_jobs) then
    do j <- get_job self;
    for_ (depending j) (λ job,
      try_except (depends_remove job self) (λ _, true) (λ _, ret tt));;
    ret (new_jobs ∖ {[self]}, dynamic)
  else ret (new_jobs, dynamic).

(** The rest of [Job.handle_dynamic_output]. *)
Definition attach_new_jobs (self : JobId) (new_jobs : gset JobId) (dynamic : Z)
    : M unit :=
  let n := Z.of_nat (size new_jobs) - dynamic in
  when (bool_decide (n ≠ 0))
    (log_event (LogWarning ("Dynamically adding " +:+ pretty n +:+ " new jobs")));;
  do j <- get_job self;
  (if scheduler j then add_jobs new_jobs else raise AttributeError);;
  modify (λ w, set_workflow
    (mkWorkflow (cores (w_workflow w)) (scriptpath (w_workflow w))
                (jobcounter_count (w_workflow w) + n)
                (jobcounter_done (w_workflow w))) w).

(** [Job.handle_dynamic_output] *)
Definition handle_dynamic_output (fuel : nat) (self : JobId) : M unit :=
  do nd <- dynamic_new_jobs fuel self;
  attach_new_jobs self nd.1 nd.2.

(** The expansion of the ancestors, in the words of the specification:
    [handle_dynamic_input] is called on the ancestors [visited], one after
    the other, each call handing the mapping [jobs] to the next.  The list
    [expanded] has, in that order, every ancestor for which a job was
    returned, with that job and with the jobs that [all_jobs] yields for
    it; these are the ancestors expanded and the newly generated jobs. *)
Inductive expansions (wildcard_expansion : gmap string (gset string))
  : list JobId → JobCache → World → list (JobId * JobId * list JobId) → World → Prop :=
| expansions_done jobs w :
    expansions wildcard_expansion [] jobs w [] w
| expansions_expanded ancestor visited jobs w job jobs' w1 all w2 expanded w3 :
    handle_dynamic_input ancestor wildcard_expansion jobs w = Ok (Some job, jobs') w1 →
    all_jobs job w1 = Ok all w2 →
    expansions wildcard_expansion visited jobs' w2 expanded w3 →
    expansions wildcard_expansion (ancestor :: visited) jobs w
               ((ancestor, job, all) :: expanded) w3
| expansions_kept ancestor visited jobs w jobs' w1 expanded w3 :
    handle_dynamic_input ancestor wildcard_expansion jobs w = Ok (None, jobs') w1 →
    expansions wildcard_expansion visited jobs' w1 expanded w3 →
    expansions wildcard_expansion (ancestor :: visited) jobs w expanded w3.

(** [for callback in self._callbacks: callback(self)] *)
Definition fire_callbacks (self : JobId) : M unit :=
  do j <- get_job self;
  for_ (_callbacks j) (λ callback, call_callback callback self).

(** The [try] block of [Job.finished]. *)
Definition check_produced (self : JobId) (future : option Future) : M unit :=
  do j <- get_job self;
  match future with
  | Some (FutureException ex) => raise ex
  | _ => ret tt
  end;;
  when (negb (dryrun (init j)))
    (for_ (output (init j)) (λ o,
       do dyn <- is_dynamic (rule (init j)) o;
       when (negb dyn) (created o));;
     for_ (input (init j)) used).

(** The [except] block of [Job.finished]. *)
Definition handle_error (self : JobId) (ex : Exn) : M unit :=
  log_event (PrintException ex);;
  cleanup self;;
  do j <- get_job self;
  for_ (_error_callbacks j) call_error_callback.

(** [Job.finished(future)] *)
Definition finished (fuel : nat) (self : JobId) (future : option Future) : M unit :=
  modify_job self (set_is_finished true);;
  do j <- get_job self;
  if ignore j then fire_callbacks self
  else
    do failed <-
      (if needrun (init j) && negb (pseudo (init j)) then
         try_except (check_produced self future;; ret false) (λ _, true)
                    (λ ex, handle_error self ex;; ret true)
       else ret false);
    if failed : bool then ret tt
    else
      when (needrun (init j) && negb (pseudo (init j)) && negb (dryrun (init j)))
        (modify (λ w, set_workflow
           (mkWorkflow (cores (w_workflow w)) (scriptpath (w_workflow w))
                       (jobcounter_count (w_workflow w))
                       (jobcounter_done (w_workflow w) + 1)) w);;
         when (negb (quiet (init j))) (log_event LogInfoCounter);;
         match future with
         | Some (FutureResult runtime) =>
             log_event (EvReportRuntime (rule (init j)) runtime)
         | _ => ret tt
         end);;
      do j <- get_job self;
      for_ (depending j) (λ other, depends_remove other self);;
      when (negb (dryrun (init j)) && dynamic_output (init j))
        (handle_dynamic_output fuel self);;
      fire_callbacks self.

Definition is_OSError (ex : Exn) : bool :=
  match ex with OSError _ => true | _ => false end.

(** [Job.run(run_func)] *)
Definition run (fuel : nat) (self : JobId) (run_func : JobId → M unit) : M unit :=
  do j <- get_job self;
  log_event (EvRun self (depends j));;
  if negb (needrun (init j)) || pseudo (init j) || ignore j then
    finished fuel self None
  else if dryrun (init j) then
    print_message self;;
    finished fuel self None
  else if touch (init j) then
    log_event (LogInfoJob self);;
    for_ (output (init j)) (λ o,
      do dyn <- is_dynamic (rule (init j)) o;
      if dyn then
        do fs <- get_listfiles o;
        for_ fs (λ fw, touch_file fw.1)
      else touch_file (file o));;
    finished fuel self None
  else
    for_ (output (init j)) (λ o,
      do dyn <- is_dynamic (rule (init j)) o;
      when dyn
        (do fs <- get_listfiles o;
         for_ fs (λ fw,
           try_except (remove fw.1) is_OSError (λ _,
             raise (RuleException
               ("Could not remove dynamic output file " +:+ fw.1 +:+ ".")))));;
      prepare o);;
    match log (init j) with
    | Some l => prepare l
    | None => ret tt
    end;;
    run_func self.

(** *** [KnapsackJobScheduler] *)

(** [KnapsackJobScheduler.__init__].  [PoolExecutor(max_workers = n)]
    raises [ValueError] unless [n] is positive; the scheduler is then not
    constructed. *)
Definition Knapsack__init__ (jobs : gset JobId) : M unit :=
  do w <- get;
  let maxcores := match cores (w_workflow w) with
                  | Some c => if bool_decide (c = 0) then cpu_count E else c
                  | None => cpu_count E
                  end in
  if bool_decide (maxcores ≤ 0) then raise ValueError
  else
    modify (set_sched (Some (Knapsack
      (mkKnapsack maxcores maxcores [] false ∅ false false))));;
    add_jobs jobs;;
    modify_knapsack (set_ks_open_jobs true);;
    modify_knapsack (set_ks_errors false).

Definition Knapsack_run_job (job : JobId) : M unit :=
  log_event (EvSubmit job);;
  modify_knapsack (λ s, set_ks_pool (ks_pool s ++ [job]) s).

(** The body of the loop [for job in self._jobs] of [schedule]. *)
Definition Knapsack_select (job : JobId) (st : list JobId * gset JobId)
    : M (list JobId * gset JobId) :=
  do j <- get_job job;
  if bool_decide (depends j ≠ ∅) then ret st
  else if needrun (init j) then
    do s <- get_knapsack;
    when (bool_decide (threads j > ks_maxcores s))
      (when (negb (dryrun (init j)))
         (log_event (LogWarningThreads job (threads j) (ks_maxcores s)));;
       modify_job job (set_threads (ks_maxcores s)));;
    ret (st.1 ++ [job], st.2)
  else ret (st.1, {[job]} ∪ st.2).

Definition get_jobs (l : list JobId) : M (list Job) :=
  fold_ l (λ job acc, do j <- get_job job; ret (acc ++ [j])) [].

Definition pool_shutdown : M unit :=
  log_event EvPoolShutdown;;
  modify_knapsack (set_ks_shutdown true).

(** One round of the [while True] loop of [KnapsackJobScheduler.schedule],
    entered when [_open_jobs] is set: [Some b] when the loop returns [b],
    [None] when it goes round again. *)
Definition Knapsack_schedule (fuel : nat) : M (option bool) :=
  modify_knapsack (set_ks_open_jobs false);;
  do s <- get_knapsack;
  if ks_errors s then
    log_event (LogWarning "Will exit after finishing currently running jobs.");;
    pool_shutdown;;
    ret (Some false)
  else if bool_decide (ks_jobs s = ∅) then
    pool_shutdown;;
    ret (Some true)
  else
    do st <- fold_ (set_iter E (ks_jobs s)) Knapsack_select ([], ∅);
    let needrun_ := st.1 in
    let norun := st.2 in
    do js <- get_jobs needrun_;
    do s <- get_knapsack;
    do run_ <- match _knapsack (ks_cores s) js with
               | Some r => ret r
               | None => raise IndexError
               end;
    modify_knapsack (λ s, set_ks_jobs (ks_jobs s ∖ run_) s);;
    modify_knapsack (λ s, set_ks_jobs (ks_jobs s ∖ norun) s);;
    do js <- get_jobs (set_iter E run_);
    modify_knapsack (λ s, set_ks_cores (ks_cores s - sum_list_threads js) s);;
    for_ (set_iter E run_ ++ set_iter E norun) (λ job,
      add_callback job KnapsackFinished;;
      add_error_callback job KnapsackError;;
      run fuel job Knapsack_run_job);;
    ret None.

(** *** [ClusterJobScheduler] *)

Definition Cluster__init__ (jobs : gset JobId) (submitcmd : string) : M unit :=
  do w <- get;
  modify (set_sched (Some (Cluster
    (mkCluster ∅ submitcmd false false (cores (w_workflow w)) []))));;
  add_jobs jobs;;
  modify_cluster (set_cs_open_jobs true);;
  modify_cluster (set_cs_error false).

(** The names built by [ClusterJobScheduler._run_job]. *)
Definition Cluster_prefix (r : Rule) : string :=
  ".snakemake." +:+ rule_name r +:+ ".".
Definition Cluster_jobid (j : Job) : string :=
  replace_slash (String.concat "_" (file <$> output (init j))).
Definition Cluster_jobscript (r : Rule) (j : Job) : string :=
  Cluster_prefix r +:+ "." +:+ Cluster_jobid j +:+ ".sh".
Definition Cluster_jobfinished (r : Rule) (j : Job) : string :=
  Cluster_prefix r +:+ "." +:+ Cluster_jobid j +:+ ".jobfinished".
Definition Cluster_jobfailed (r : Rule) (j : Job) : string :=
  Cluster_prefix r +:+ "." +:+ Cluster_jobid j +:+ ".jobfailed".

(** [ClusterJobScheduler._run_job]: the shell command writes the script
    and submits it; a thread then waits for the sentinels. *)
Definition Cluster_run_job (job : JobId) : M unit :=
  print_message job;;
  do j <- get_job job;
  do r <- get_rule (rule (init j));
  let jobscript := Cluster_jobscript r j in
  let jobfinished := Cluster_jobfinished r j in
  let jobfailed := Cluster_jobfailed r j in
  log_event (EvShell jobscript jobfinished jobfailed job);;
  modify (λ w, set_fs ({[jobscript]} ∪ w_fs w) w);;
  modify_cluster (λ s,
    set_cs_watchers (cs_watchers s ++ [(job, (jobfinished, (jobfailed, jobscript)))]) s).

Definition Cluster_select (job : JobId) (st : gset JobId * gset JobId)
    : M (gset JobId * gset JobId) :=
  do j <- get_job job;
  if bool_decide (depends j ≠ ∅) then ret st
  else if needrun (init j) then ret ({[job]} ∪ st.1, st.2)
  else ret (st.1, {[job]} ∪ st.2).

(** One round of the loop of [ClusterJobScheduler.schedule]. *)
Definition Cluster_schedule (fuel : nat) : M (option bool) :=
  modify_cluster (set_cs_open_jobs false);;
  do s <- get_cluster;
  if cs_error s then
    log_event (LogWarning "Will exit after finishing currently running jobs.");;
    ret (Some false)
  else if bool_decide (cs_jobs s = ∅) then ret (Some true)
  else
    do st <- fold_ (set_iter E (cs_jobs s)) Cluster_select (∅, ∅);
    let needrun_ := st.1 in
    let norun := st.2 in
    modify_cluster (λ s, set_cs_jobs (cs_jobs s ∖ needrun_) s);;
    modify_cluster (λ s, set_cs_jobs (cs_jobs s ∖ norun) s);;
    for_ (set_iter E needrun_ ++ set_iter E norun) (λ job,
      add_callback job ClusterFinished;;
      run fuel job Cluster_run_job);;
    ret None.

(** [os.remove(path)] *)
Definition os_remove (f : string) : M unit :=
  do w <- get;
  if bool_decide (f ∈ w_fs w) then modify (set_fs (w_fs w ∖ {[f]}))
  else raise (OSError f).

(** One round of the loop of [ClusterJobScheduler._wait_for_job]; [true]
    when the thread returns. *)
Definition Cluster_wait_for_job (fuel : nat) (job : JobId)
    (jobfinished jobfailed jobscript : string) : M bool :=
  do w <- get;
  if bool_decide (jobfinished ∈ w_fs w) then
    os_remove jobfinished;;
    os_remove jobscript;;
    finished fuel job None;;
    ret true
  else if bool_decide (jobfailed ∈ w_fs w) then
    os_remove jobfailed;;
    os_remove jobscript;;
    log_event (PrintException (ClusterJobException job));;
    modify_cluster (set_cs_error true);;
    modify_cluster (set_cs_jobs ∅);;
    modify_cluster (set_cs_open_jobs true);;
    ret true
  else ret false.
End Model.

(** ** Worked examples *)

(** Collaborators for the examples: nothing matches a pattern, no pattern
    expands, a path is removed by deleting it, [Rule.run] fails at once,
    sets are iterated in the order of [elements], the machine has four
    cores, and a thousand frames are left to [Job.descendants]. *)
Definition plain_externals : Externals :=
  mkExternals (λ _ _, []) (λ _ _, None) (λ fs f, Some (fs ∖ {[f]}))
              (λ _ _ _ jobs _, mkRunOutcome [] jobs None) elements 4 1000.

Definition plain_file (f : string) : IOFile := mkIOFile f false false.

Definition plain_workflow : Workflow := mkWorkflow (Some 4) None 0 0.

(** A job of rule [0] that needs to run, with one input and one output. *)
Definition compile_init : JobInit :=
  mkJobInit 0%nat None [plain_file "in.txt"] [plain_file "out.txt"] 1 None ∅
            false false false true false false false.

Definition compile_rule : Rule :=
  mkRule "compile" [plain_file "in.txt"] [plain_file "out.txt"] ∅.

(** The job is under way: its output is on disk, partially written, and an
    error callback is registered. *)
Definition failing_world : World :=
  mkWorld [mkJob compile_init 1 ∅ [] false [OtherCallback 0] [OtherErrorCallback 0]
                 0%nat false false]
          [compile_rule] {["in.txt"; "out.txt"]} plain_workflow None [].

(** A job that does not need to run, with one completion callback. *)
Definition uptodate_world : World :=
  mkWorld [mkJob (mkJobInit 0%nat None [] [] 1 None ∅
                            false false false false false false false)
                 1 ∅ [] false [OtherCallback 0] [] 0%nat false false]
          [compile_rule] ∅ plain_workflow None [].

(** A cluster job of rule ["map"] with two outputs. *)
Definition cluster_rule : Rule :=
  mkRule "map" [] [plain_file "out/a.bam"; plain_file "b.bai"] ∅.
Definition cluster_job : Job :=
  mkJob (mkJobInit 0%nat None [] [plain_file "out/a.bam"; plain_file "b.bai"] 1 None ∅
                   false false false true false false false)
        1 ∅ [] false [] [] 0%nat false false.

(** The names of the specification, in its words: the script is
    [.snakemake.<rule>.<outkey>.sh], where [<outkey>] is the job's outputs
    joined by ["_"] with every ["/"] replaced by ["_"]. *)
Definition spec_outkey (j : Job) : string :=
  replace_slash (String.concat "_" (file <$> output (init j))).
Definition spec_jobscript (r : Rule) (j : Job) : string :=
  ".snakemake." +:+ rule_name r +:+ "." +:+ spec_outkey j +:+ ".sh".
Definition spec_jobfinished (r : Rule) (j : Job) : string :=
  ".snakemake." +:+ rule_name r +:+ "." +:+ spec_outkey j +:+ ".jobfinished".
Definition spec_jobfailed (r : Rule) (j : Job) : string :=
  ".snakemake." +:+ rule_name r +:+ "." +:+ spec_outkey j +:+ ".jobfailed".

(** The job of [failing_world] once it has finished. *)
Definition finished_world : World :=
  mkWorld [mkJob compile_init 1 ∅ [] true [] [] 0%nat false false]
          [compile_rule] {["in.txt"; "out.txt"]} plain_workflow None [].

(** A job of a rule whose only input is a dynamic pattern. *)
Definition gather_rule : Rule :=
  mkRule "gather" [plain_file "out/{sample}.txt"] [plain_file "all.txt"]
         {["out/{sample}.txt"]}.
Definition gather_world : World :=
  mkWorld [mkJob (mkJobInit 0%nat None [plain_file "out/{sample}.txt"]
                            [plain_file "all.txt"] 1 None ∅
                            false false false true false false false)
                 1 ∅ [] false [] [] 0%nat false false]
          [gather_rule] ∅ plain_workflow None [].

(** How often the trace records a call of [callback] on job [self]. *)
Definition fired (callback : Callback) (self : JobId) (trace : list Event) : nat :=
  length (filter (λ e, e = EvCallback callback self) trace).

(** The number of times [callback] was registered. *)
Definition registered (callback : Callback) (l : list Callback) : nat :=
  length (filter (λ c, c = callback) l).

(** [finished(future)] takes its error path: the job is not ignored, needs
    to run, is not a pseudo job, and the [try] block raises. *)
Definition takes_error_path (self : JobId) (future : option Future)
    (w : World) : Prop :=
  ∃ j, w_jobs w !! self = Some j ∧ ignore j = false
       ∧ needrun (init j) = true ∧ pseudo (init j) = false
       ∧ ∃ ex w1, check_produced self future w = Raise ex w1.

(** ** The running system *)

(** How a call ends: in the state [w], and [escaped] tells whether an
    exception left the call. *)
Inductive ends {A} : Result A → bool → World → Prop :=
| ends_ok a w : ends (Ok a w) false w
| ends_raise ex w : ends (Raise ex w) true w.

Definition drop_watcher (watcher : JobId * (string * (string * string)))
    (s : ClusterJobScheduler) : ClusterJobScheduler :=
  set_cs_watchers (default (cs_watchers s) (list_remove watcher (cs_watchers s))) s.

Section System.
Context (E : Externals).

(** The done-callback that [_run_job] attaches to the future of a pool
    job: the future is done, and [job.finished(future)] is called. *)
Definition Knapsack_complete (fuel : nat) (job : JobId) (future : Future) : M unit :=
  modify_knapsack (λ s,
    set_ks_pool (default (ks_pool s) (list_remove job (ks_pool s))) s);;
  finished E fuel job (Some future).

(** One look of a watcher thread of the cluster scheduler at its
    sentinels; the thread ends when [_wait_for_job] returns or raises. *)
Definition Cluster_watch (fuel : nat) (job : JobId)
    (jobfinished jobfailed jobscript : string) : M unit :=
  λ w, match Cluster_wait_for_job E fuel job jobfinished jobfailed jobscript w with
       | Ok true w' =>
           modify_cluster (drop_watcher (job, (jobfinished, (jobfailed, jobscript)))) w'
       | Ok false w' => Ok tt w'
       | Raise ex w' =>
           match modify_cluster
                   (drop_watcher (job, (jobfinished, (jobfailed, jobscript)))) w' with
           | Ok _ w'' => Raise ex w''
           | r => r
           end
       | Abort => Abort
       end.

(** The worlds that a run of the program reaches.  The DAG is built with
    [Job.__init__]; one scheduler is created on a set of existing jobs;
    then the rounds of [schedule], the completion of pool jobs and the
    watcher threads take turns, while the file system changes under the
    hands of the workers.  The index is [true] once an exception has
    left one of the calls. *)
Inductive reachable : bool → World → Prop :=
| reach_start rules fs workflow :
    reachable false (mkWorld [] rules fs workflow None [])
| reach_fs b w fs :
    reachable b w → reachable b (set_fs fs w)
| reach_new b b' w w' a :
    reachable b w →
    ends (__init__ E a w) b' w' →
    reachable (b || b') w'
| reach_knapsack b b' w w' jobs :
    reachable b w →
    w_scheduler w = None →
    ends (Knapsack__init__ E jobs w) b' w' →
    reachable (b || b') w'
| reach_cluster b b' w w' jobs submitcmd :
    reachable b w →
    w_scheduler w = None →
    ends (Cluster__init__ E jobs submitcmd w) b' w' →
    reachable (b || b') w'
| reach_knapsack_schedule b b' w w' s fuel :
    reachable b w →
    w_scheduler w = Some (Knapsack s) →
    ks_open_jobs s = true →
    ks_shutdown s = false →
    ends (Knapsack_schedule E fuel w) b' w' →
    reachable (b || b') w'
| reach_knapsack_complete b b' w w' s fuel job future :
    reachable b w →
    w_scheduler w = Some (Knapsack s) →
    job ∈ ks_pool s →
    ends (Knapsack_complete fuel job future w) b' w' →
    reachable (b || b') w'
| reach_cluster_schedule b b' w w' s fuel :
    reachable b w →
    w_scheduler w = Some (Cluster s) →
    cs_open_jobs s = true →
    ends (Cluster_schedule E fuel w) b' w' →
    reachable (b || b') w'
| reach_cluster_watch b b' w w' s fuel job jobfinished jobfailed jobscript :
    reachable b w →
    w_scheduler w = Some (Cluster s) →
    (job, (jobfinished, (jobfailed, jobscript))) ∈ cs_watchers s →
    ends (Cluster_watch fuel job jobfinished jobfailed jobscript w) b' w' →
    reachable (b || b') w'.
End System.

(** *** Observations on a world *)

Definition job_depends (w : World) (a : JobId) : gset JobId :=
  default ∅ (depends <$> w_jobs w !! a).
Definition job_depending (w : World) (b : JobId) : list JobId :=
  default [] (depending <$> w_jobs w !! b).

(** The invariant of the specification: [b ∈ a.depends ⇔ a ∈ b.depending]. *)
Definition edges_consistent (w : World) : Prop :=
  ∀ a b : JobId, b ∈ job_depends w a ↔ a ∈ job_depending w b.

(** A job that is still part of the DAG: neither finished nor ignored. *)
Definition live (w : World) (b : JobId) : Prop :=
  ∃ j, w_jobs w !! b = Some j ∧ is_finished j = false ∧ ignore j = false.

(** [available_cores + Σ threads(running)], for the local scheduler. *)
Definition pool_threads (w : World) (pool : list JobId) : Z :=
  foldr (λ job acc, default 0 (threads <$> w_jobs w !! job) + acc) 0 pool.

Definition cores_balanced (w : World) : Prop :=
  ∀ s, w_scheduler w = Some (Knapsack s) →
       ks_cores s + pool_threads w (ks_pool s) = ks_maxcores s.

(** *** A workflow with a dynamic rule

    Rule [0] ("split") writes the dynamic outputs [out/{s}.txt]; rule [1]
    ("merge") reads them and writes [merged.txt]; rule [2] ("report") reads
    [merged.txt]; rule [3] ("other") is unrelated.  The pattern matches
    [out/a.txt] once that file is on disk.  [Rule.run] on rule [1] constructs one job of
    rule [1] with two threads and returns it. *)
Definition split_pattern : IOFile := plain_file "out/{s}.txt".

Definition dynamic_rules : list Rule :=
  [mkRule "split" [plain_file "in.txt"] [split_pattern] {["out/{s}.txt"]};
   mkRule "merge" [split_pattern] [plain_file "merged.txt"] {["out/{s}.txt"]};
   mkRule "report" [plain_file "merged.txt"] [plain_file "report.txt"] ∅;
   mkRule "other" [] [plain_file "other.txt"] ∅].

Definition dynamic_externals : Externals :=
  mkExternals
    (λ fs pattern, if decide (pattern = "out/{s}.txt" ∧ "out/a.txt" ∈ fs)
                   then [("out/a.txt", [("s", "a")])] else [])
    (λ pattern _, if decide (pattern = "out/{s}.txt")
                  then Some ["out/a.txt"] else None)
    (λ fs f, Some (fs ∖ {[f]}))
    (λ w r target jobs forced,
       if decide (r = 1%nat) then
         mkRunOutcome
           [mkJobInit 1%nat None [plain_file "out/a.txt"] [plain_file "merged.txt"]
                      2 None ∅ false false false true false false false]
           jobs (Some (length (w_jobs w)))
       else mkRunOutcome [] jobs None)
    elements 4 1000.

Definition split_init : JobInit :=
  mkJobInit 0%nat None [plain_file "in.txt"] [split_pattern] 1 None ∅
            false false false true false true false.
Definition other_init : JobInit :=
  mkJobInit 3%nat None [] [plain_file "other.txt"] 1 None ∅
            false false false true false false false.
Definition merge_init : JobInit :=
  mkJobInit 1%nat None [split_pattern] [plain_file "merged.txt"] 2 None {[0%nat]}
            false false false true false false false.
Definition report_init : JobInit :=
  mkJobInit 2%nat None [plain_file "merged.txt"] [plain_file "report.txt"] 1 None
            {[2%nat]} false false false true false false false.

Definition dynamic_start : World :=
  mkWorld [] dynamic_rules {["in.txt"]} (mkWorkflow (Some 2) None 4 0) None [].

(** The state in which a call leaves the world; [w] itself when the call
    does not end. *)
Definition world_of {A} (r : Result A) (w : World) : World :=
  match r with
  | Ok _ w' => w'
  | Raise _ w' => w'
  | Abort => w
  end.

(** The DAG is built (jobs 0: split, 1: other, 2: merge, 3: report), *)
Definition dynamic_1 : World :=
  world_of (__init__ dynamic_externals split_init dynamic_start) dynamic_start.
Definition dynamic_2 : World :=
  world_of (__init__ dynamic_externals other_init dynamic_1) dynamic_1.
Definition dynamic_3 : World :=
  world_of (__init__ dynamic_externals merge_init dynamic_2) dynamic_2.
Definition dynamic_4 : World :=
  world_of (__init__ dynamic_externals report_init dynamic_3) dynamic_3.

(** the local scheduler is created on the four jobs, *)
Definition dynamic_5 : World :=
  world_of (Knapsack__init__ dynamic_externals {[0%nat; 1%nat; 2%nat; 3%nat]} dynamic_4)
           dynamic_4.

(** a round of [schedule] dispatches split and other, *)
Definition dynamic_6 : World :=
  world_of (Knapsack_schedule dynamic_externals 10 dynamic_5) dynamic_5.

(** the worker of split writes [out/a.txt], *)
Definition dynamic_written : World := set_fs {["in.txt"; "out/a.txt"]} dynamic_6.

(** split completes, and its dynamic output is expanded, *)
Definition dynamic_7 : World :=
  world_of (Knapsack_complete dynamic_externals 10 0%nat (FutureResult 7) dynamic_written)
           dynamic_written.

(** and the scheduler wakes up again. *)
Definition dynamic_8 : World :=
  world_of (Knapsack_schedule dynamic_externals 10 dynamic_7) dynamic_7.

(** The state in which [finished], called on split in [dynamic_written], calls
    [handle_dynamic_output]: split is finished and has been removed from
    the [depends] of merge. *)
Definition dynamic_detached : World :=
  world_of ((modify_job 0%nat (set_is_finished true);;
             depends_remove 2%nat 0%nat) dynamic_written) dynamic_written.

(** A variant in which [Rule.run] on rule [1] constructs three jobs: two
    of rule [3] and one of rule [1] that depends on them, which it
    returns. *)
Definition fanout_externals : Externals :=
  mkExternals
    (λ fs pattern, if decide (pattern = "out/{s}.txt" ∧ "out/a.txt" ∈ fs)
                   then [("out/a.txt", [("s", "a")])] else [])
    (λ pattern _, if decide (pattern = "out/{s}.txt")
                  then Some ["out/a.txt"] else None)
    (λ fs f, Some (fs ∖ {[f]}))
    (λ w r target jobs forced,
       if decide (r = 1%nat) then
         let n := length (w_jobs w) in
         mkRunOutcome
           [mkJobInit 3%nat None [] [plain_file "left.txt"] 1 None ∅
                      false false false true false false false;
            mkJobInit 3%nat None [] [plain_file "right.txt"] 1 None ∅
                      false false false true false false false;
            mkJobInit 1%nat None [plain_file "out/a.txt"] [plain_file "merged.txt"]
                      2 None {[n; S n]} false false false true false false false]
           jobs (Some (S (S n)))
       else mkRunOutcome [] jobs None)
    elements 4 1000.

(** *** A job that is replaced while a job it depends on runs

    Jobs 0: split, 1: other, 2: a merge job that depends on both.  One
    round of [schedule] dispatches split and other; split completes and
    its expansion replaces the merge job; the next round calls [run] on
    the replaced merge job while other is still running. *)
Definition late_merge_init : JobInit :=
  mkJobInit 1%nat None [split_pattern] [plain_file "merged.txt"] 2 None {[0%nat; 1%nat]}
            false false false true false false false.
Definition late_start : World :=
  mkWorld [] dynamic_rules {["in.txt"]} (mkWorkflow (Some 8) None 3 0) None [].
Definition late_1 : World :=
  world_of (__init__ dynamic_externals split_init late_start) late_start.
Definition late_2 : World :=
  world_of (__init__ dynamic_externals other_init late_1) late_1.
Definition late_3 : World :=
  world_of (__init__ dynamic_externals late_merge_init late_2) late_2.
Definition late_4 : World :=
  world_of (Knapsack__init__ dynamic_externals {[0%nat; 1%nat; 2%nat]} late_3) late_3.
Definition late_5 : World :=
  world_of (Knapsack_schedule dynamic_externals 10 late_4) late_4.
Definition late_written : World := set_fs {["in.txt"; "out/a.txt"]} late_5.
Definition late_6 : World :=
  world_of (Knapsack_complete dynamic_externals 10 0%nat (FutureResult 7) late_written)
           late_written.
Definition late_7 : World :=
  world_of (Knapsack_schedule dynamic_externals 10 late_6) late_6.

(** *** Two jobs in a chain

    Neither job needs to run; job [1] depends on job [0]. *)
Definition chain_rules : list Rule :=
  [mkRule "first" [] [plain_file "a.txt"] ∅;
   mkRule "second" [plain_file "a.txt"] [plain_file "b.txt"] ∅].
Definition first_init : JobInit :=
  mkJobInit 0%nat None [] [plain_file "a.txt"] 1 None ∅
            false false false false false false false.
Definition second_init : JobInit :=
  mkJobInit 1%nat None [plain_file "a.txt"] [plain_file "b.txt"] 1 None {[0%nat]}
            false false false false false false false.

Definition chain_start : World :=
  mkWorld [] chain_rules {["a.txt"; "b.txt"]} plain_workflow None [].
Definition chain_1 : World :=
  world_of (__init__ plain_externals first_init chain_start) chain_start.
Definition chain_2 : World :=
  world_of (__init__ plain_externals second_init chain_1) chain_1.
Definition chain_3 : World :=
  world_of (Knapsack__init__ plain_externals {[0%nat; 1%nat]} chain_2) chain_2.

(** One round of [schedule]: job [0] is up to date and finishes at once. *)
Definition chain_4 : World :=
  world_of (Knapsack_schedule plain_externals 10 chain_3) chain_3.

(** The local scheduler of a world. *)
Definition knapsack_of (w : World) : KnapsackJobScheduler :=
  match w_scheduler w with
  | Some (Knapsack s) => s
  | _ => mkKnapsack 0 0 [] false ∅ false false
  end.

(** ** A program logic for the methods

    [hoare P m Q X]: started in a state that satisfies [P], the call [m]
    either returns [a] in a state that satisfies [Q a], or raises [ex] in a
    state that satisfies [X ex]. *)

Definition hoare {A} (P : World → Prop) (m : M A)
    (Q : A → World → Prop) (X : Exn → World → Prop) : Prop :=
  ∀ w, P w → match m w with
             | Ok a w' => Q a w'
             | Raise ex w' => X ex w'
             | Abort => True
             end.

(** [I] holds after the call however it ends. *)
Definition preserves {A} (I : World → Prop) (m : M A) : Prop :=
  hoare I m (λ _, I) (λ _, I).


(** ** Invariants of the running system *)

(** [set_iter] enumerates the elements of the set, each once. *)
Definition set_iter_ok (E : Externals) : Prop :=
  ∀ X : gset JobId, set_iter E X ≡ₚ elements X.

Definition job_is_finished (w : World) (j : JobId) : Prop :=
  ∃ x, w_jobs w !! j = Some x ∧ is_finished x = true.

(** The job exists and its [depends] is empty. *)
Definition ready (w : World) (j : JobId) : Prop :=
  ∃ x, w_jobs w !! j = Some x ∧ depends x = ∅.

(** What holds of the edges at every observation point. *)
Record dag_inv (w : World) : Prop := mk_dag_inv {
  dag_fwd : ∀ a b, b ∈ job_depends w a → a ∈ job_depending w b;
  dag_bwd : ∀ a b, live w b → a ∈ job_depending w b → b ∈ job_depends w a;
  dag_nodup : ∀ b, NoDup (job_depending w b);
  dag_bound : ∀ a b, a ∈ job_depending w b → (a < length (w_jobs w))%nat;
  dag_order : ∀ a b, b ∈ job_depends w a → (b < a)%nat;
  dag_done : ∀ a x, w_jobs w !! a = Some x →
                    is_finished x = true ∨ ignore x = true → depends x = ∅;
  dag_id : ∀ a x, w_jobs w !! a = Some x → jobid x = a
}.

(** The part of a job that [dag_inv] looks at. *)
Definition dag_view (x : Job) : gset JobId * list JobId * bool * bool * JobId :=
  (depends x, depending x, is_finished x, ignore x, jobid x).

Definition same_dag (w w' : World) : Prop :=
  length (w_jobs w') = length (w_jobs w)
  ∧ ∀ a, dag_view <$> w_jobs w' !! a = dag_view <$> w_jobs w !! a.

(** Every recorded call of [Job.run] found [depends] empty. *)
Definition dispatched_ready (w : World) : Prop :=
  ∀ j d, EvRun j d ∈ w_trace w → d = ∅.

(** What the specification claims of the order of dispatch: when [run]
    was called on a job, [depends] was empty and every job it was created
    to depend on had finished.  A job that has finished stays finished, so
    this is read off at any later state. *)
Definition dispatched_after_dependencies (w : World) : Prop :=
  ∀ j d x, EvRun j d ∈ w_trace w → w_jobs w !! j = Some x →
    d = ∅ ∧ ∀ b, b ∈ init_depends (init x) → job_is_finished w b.

(** The jobs that a worker or the cluster is running. *)
Definition running (w : World) : list JobId :=
  match w_scheduler w with
  | Some (Knapsack s) => ks_pool s
  | Some (Cluster s) => fst <$> cs_watchers s
  | None => []
  end.

Definition running_ready (w : World) : Prop :=
  ∀ j, j ∈ running w → ready w j.

(** The job exists and has finished or is ignored. *)
Definition nonlive (w : World) (self : JobId) : Prop :=
  ∃ x, w_jobs w !! self = Some x ∧ (is_finished x = true ∨ ignore x = true).

(** A job that no dynamic expansion has replaced is still in the
    [depending] list of every job it was created to depend on. *)
Definition created_edges (w : World) : Prop :=
  ∀ a x b, w_jobs w !! a = Some x → ignore x = false →
    b ∈ init_depends (init x) → a ∈ job_depending w b.

(** The job has been replaced by a dynamic expansion, or every job it
    was created to depend on has finished or has been replaced by a
    dynamic expansion.  A flag that is set stays set: a job that is
    settled stays settled. *)
Definition settled (w : World) (j : JobId) : Prop :=
  ∃ x, w_jobs w !! j = Some x
       ∧ (ignore x = true ∨ ∀ b, b ∈ init_depends (init x) → nonlive w b).

(** The order of dispatch in a call that leads from [w] to [w']: whenever
    the call has called [run] on a job, the [depends] of the job was empty
    at that time, and the job was settled already when the call began. *)
Definition dispatched_in_order (w w' : World) : Prop :=
  ∃ evs, w_trace w' = w_trace w ++ evs
         ∧ ∀ j d, EvRun j d ∈ evs → d = ∅ ∧ settled w j.

(** The job [j] has not been replaced by a dynamic expansion and was
    created to depend on [b]. *)
Definition created_on (w : World) (j b : JobId) : Prop :=
  ∃ x, w_jobs w !! j = Some x ∧ ignore x = false ∧ b ∈ init_depends (init x).

(** The order of dispatch in a call that leads from [w] to [w']: whenever
    the call has called [run] on a job, the [depends] of the job was empty
    at that time; and when the call began, every job that the job was
    created to depend on, directly or through jobs that had not been
    replaced, had finished or had been replaced by a dynamic expansion. *)
Definition dispatched_after_created_dependencies (w w' : World) : Prop :=
  ∃ evs, w_trace w' = w_trace w ++ evs
         ∧ ∀ j d, EvRun j d ∈ evs →
             d = ∅ ∧ ∀ b, tc (created_on w) j b → nonlive w b.

(** No call of [run] is recorded. *)
Definition undispatched (w w' : World) : Prop :=
  ∃ evs, w_trace w' = w_trace w ++ evs ∧ ∀ j d, EvRun j d ∉ evs.

Definition sys_inv (w : World) : Prop :=
  dag_inv w ∧ dispatched_ready w ∧ running_ready w ∧ created_edges w.

(** [dag_inv] while the edges of [self] are under construction or being
    removed: nothing is claimed of the edges that leave [self], nor of the
    state of [self]. *)
Record dag_inv_except (self : JobId) (w : World) : Prop := mk_dag_inv_except {
  dx_fwd : ∀ a b, a ≠ self → b ∈ job_depends w a → a ∈ job_depending w b;
  dx_bwd : ∀ a b, b ≠ self → live w b → a ∈ job_depending w b → b ∈ job_depends w a;
  dx_nodup : ∀ b, NoDup (job_depending w b);
  dx_bound : ∀ a b, a ∈ job_depending w b → (a < length (w_jobs w))%nat;
  dx_order : ∀ a b, b ∈ job_depends w a → (b < a)%nat;
  dx_done : ∀ a x, a ≠ self → w_jobs w !! a = Some x →
                   is_finished x = true ∨ ignore x = true → depends x = ∅;
  dx_id : ∀ a x, w_jobs w !! a = Some x → jobid x = a
}.

(** The state with job [j] replaced by [y]. *)
Definition upd (w : World) (j : JobId) (y : Job) : World :=
  set_jobs (<[j := y]> (w_jobs w)) w.

(** *** Two kinds of state change

    [evolve w w']: the change leaves the edges, the flags and the
    constructor arguments of every job as they are, starts no job, and
    records no call of [Job.run]. *)
Definition evolve (w w' : World) : Prop :=
  length (w_jobs w') = length (w_jobs w)
  ∧ (∀ a, dag_view <$> w_jobs w' !! a = dag_view <$> w_jobs w !! a)
  ∧ (∀ a, init <$> w_jobs w' !! a = init <$> w_jobs w !! a)
  ∧ (∀ j, j ∈ running w' → j ∈ running w)
  ∧ (∃ evs, w_trace w' = w_trace w ++ evs ∧ ∀ j d, EvRun j d ∉ evs).

Definition stable (I : World → Prop) : Prop :=
  ∀ w w', evolve w w' → I w → I w'.

Definition benign {A} (m : M A) : Prop :=
  ∀ I, stable I → preserves I m.

(** [grow w w']: every job is still there with the same constructor
    arguments, its [depends] has not grown, and [is_finished] and [ignore]
    have not been reset. *)
Definition grow (w w' : World) : Prop :=
  ∀ a x, w_jobs w !! a = Some x →
    ∃ x', w_jobs w' !! a = Some x'
          ∧ init x' = init x
          ∧ depends x' ⊆ depends x
          ∧ (is_finished x = true → is_finished x' = true)
          ∧ (ignore x = true → ignore x' = true).

Definition persistent (I : World → Prop) : Prop :=
  ∀ w w', grow w w' → I w → I w'.

Definition monotone {A} (m : M A) : Prop :=
  ∀ I, persistent I → preserves I m.

(** The job that [Job.__init__] constructs. *)
Definition new_job (a : JobInit) (self : JobId) : Job :=
  mkJob a (init_threads a) (init_depends a) [] false [] [] self false false.

(** The jobs [l] of the arena changed by [g], the others as they are. *)
Definition update_jobs (l : list JobId) (g : Job → Job) (h : list Job) : list Job :=
  imap (λ k x, if decide (k ∈ l) then g x else x) h.

(** [l.remove(x)] on a list that holds [x]. *)
Definition remove_first (x : JobId) (l : list JobId) : list JobId :=
  default l (list_remove x l).

(** *** Changes along a relation

    [respects R m]: whatever is kept along [R] holds after the call [m],
    however it ends. *)
Definition closed_under (R : World → World → Prop) (I : World → Prop) : Prop :=
  ∀ w w', R w w' → I w → I w'.

Definition respects {A} (R : World → World → Prop) (m : M A) : Prop :=
  ∀ I, closed_under R I → preserves I m.

(** Nothing is logged and the job counter is as it was. *)
Definition silent (w w' : World) : Prop :=
  w_trace w' = w_trace w ∧ w_workflow w' = w_workflow w.

(** The set of jobs of the scheduler. *)
Definition scheduler_jobs (w : World) : gset JobId :=
  match w_scheduler w with
  | Some (Knapsack s) => ks_jobs s
  | Some (Cluster s) => cs_jobs s
  | None => ∅
  end.

(** [add_jobs] has been called on the job: [job.scheduler] is set, and
    the job is in [scheduler._jobs]. *)
Definition attached (w : World) (job : JobId) : Prop :=
  (∃ x, w_jobs w !! job = Some x ∧ scheduler x = true) ∧ job ∈ scheduler_jobs w.

(** The newly generated jobs of an expansion. *)
Definition expanded_jobs (expanded : list (JobId * JobId * list JobId)) : gset JobId :=
  ⋃ ((λ e, list_to_set e.2) <$> expanded).

(** The warning of [handle_dynamic_output], when it is logged. *)
Definition dynamic_warning (n : Z) : list Event :=
  if decide (n = 0) then []
  else [LogWarning ("Dynamically adding " +:+ pretty n +:+ " new jobs")].

(** An event other than the call of a callback and the print of an
    exception. *)
Definition plain_event (e : Event) : Prop :=
  match e with
  | EvCallback _ _ | PrintException _ => False
  | _ => True
  end.

(** How often the trace records a printed exception. *)
Definition is_print (e : Event) : bool :=
  match e with PrintException _ => true | _ => false end.

Definition printed (trace : list Event) : nat :=
  length (filter (λ e, is_print e = true) trace).

(** [calm w w']: the scheduler is as it was; every job keeps its
    constructor arguments, its threads and its callbacks, its [depends]
    does not grow, [is_finished] and [ignore] are not reset; and a job
    that is new has no callback. *)
Definition calm (w w' : World) : Prop :=
  w_scheduler w' = w_scheduler w
  ∧ (∀ a x, w_jobs w !! a = Some x →
       ∃ x', w_jobs w' !! a = Some x'
             ∧ init x' = init x ∧ threads x' = threads x
             ∧ depends x' ⊆ depends x
             ∧ (is_finished x = true → is_finished x' = true)
             ∧ (ignore x = true → ignore x' = true)
             ∧ _callbacks x' = _callbacks x
             ∧ _error_callbacks x' = _error_callbacks x)
  ∧ (∀ a x', (length (w_jobs w) ≤ a)%nat → w_jobs w' !! a = Some x' → _callbacks x' = []).

(** [calm], and no job is created. *)
Definition calm0 (w w' : World) : Prop :=
  calm w w' ∧ length (w_jobs w') = length (w_jobs w).

(** [hushed w w']: every job is still there with the callbacks it had,
    and the events recorded are plain. *)
Definition hushed (w w' : World) : Prop :=
  (∀ a x, w_jobs w !! a = Some x →
     ∃ x', w_jobs w' !! a = Some x' ∧ _callbacks x' = _callbacks x)
  ∧ ∃ evs, w_trace w' = w_trace w ++ evs ∧ Forall plain_event evs.

(** What the trace and the job [self] show of the callbacks: how often
    [callback] was called on [self], how many exceptions were printed, and
    the callbacks registered on [self]. *)
Definition callbacks_seen (callback : Callback) (self : JobId)
    (n p : nat) (cbs : list Callback) (w : World) : Prop :=
  fired callback self (w_trace w) = n
  ∧ printed (w_trace w) = p
  ∧ ∃ x, w_jobs w !! self = Some x ∧ _callbacks x = cbs.

(** *** The cores of the local scheduler

    The ids of the jobs in the mapping [jobs] of [Rule.run]. *)
Definition cache_ids (jobs : JobCache) : list JobId := snd <$> jobs.

(** What is assumed of [Rule.run]: a job that it returns, or on which a
    job that it constructs depends, or that it leaves in the mapping
    [jobs], is either found in the mapping or constructed during the
    call. *)
Definition rule_run_fresh (E : Externals) : Prop :=
  ∀ w r target jobs forced,
    let out := rule_run E w r target jobs forced in
    let known := λ d, d ∈ cache_ids jobs ∨ (length (w_jobs w) ≤ d)%nat in
    (∀ a d, a ∈ run_new out → d ∈ init_depends a → known d)
    ∧ (∀ j, run_result out = Some j → known j)
    ∧ (∀ d, d ∈ cache_ids (run_cache out) → known d).

(** The cores that the jobs of [pend] hold: [_finished] returns
    [job.threads] for a job that needs to run. *)
Definition held (x : Job) : Z := if needrun (init x) then threads x else 0.

Definition pend_threads (w : World) (pend : list JobId) : Z :=
  foldr (λ job acc, default 0 (held <$> w_jobs w !! job) + acc) 0 pend.

(** The state of the local scheduler [s] between and during its steps.
    The jobs of [armed] and of [waiting] have been taken out of [_jobs]
    and their threads deducted from [_cores], but they are not in the pool:
    the callbacks of the scheduler are registered on the jobs of [armed],
    not yet on those of [waiting]. *)
Record cores_body (w : World) (s : KnapsackJobScheduler)
    (armed waiting : list JobId) : Prop := mk_cores_body {
  cb_sum : ks_cores s + pool_threads w (ks_pool s) + pend_threads w (armed ++ waiting)
           = ks_maxcores s;
  cb_nodup : NoDup (ks_pool s ++ armed ++ waiting);
  cb_armed : ∀ j, j ∈ ks_pool s ++ armed →
    ∃ x, w_jobs w !! j = Some x ∧ _callbacks x = [KnapsackFinished]
         ∧ KnapsackError ∈ _error_callbacks x ∧ j ∉ ks_jobs s;
  cb_pool : ∀ j, j ∈ ks_pool s → ∃ x, w_jobs w !! j = Some x ∧ needrun (init x) = true;
  cb_jobs : ∀ j, j ∈ ks_jobs s → ∃ x, w_jobs w !! j = Some x ∧ _callbacks x = [];
  cb_waiting : ∀ j, j ∈ waiting →
    ∃ x, w_jobs w !! j = Some x ∧ _callbacks x = [] ∧ j ∉ ks_jobs s
}.

(** It holds as long as no job has failed. *)
Definition cores_inv (armed waiting : list JobId) (w : World) : Prop :=
  ∀ s, w_scheduler w = Some (Knapsack s) → ks_errors s = false →
       cores_body w s armed waiting.

Definition no_callbacks (w : World) : Prop :=
  ∀ j x, w_jobs w !! j = Some x → _callbacks x = [].

(** The invariant of the local scheduler, between its steps. *)
Definition knapsack_inv (w : World) : Prop :=
  (w_scheduler w = None → no_callbacks w) ∧ cores_inv [] [] w.

(** The kind of scheduler does not change. *)
Definition kept_kind (w w' : World) : Prop :=
  match w_scheduler w with
  | Some (Cluster _) => ∃ s', w_scheduler w' = Some (Cluster s')
  | Some (Knapsack _) => ∃ s', w_scheduler w' = Some (Knapsack s')
  | None => True
  end.

(** During a dynamic expansion started by the job [self] when there
    were [n0] jobs: the jobs constructed since then depend on [self] or on
    one another, and have no callback; the jobs of the pool are older. *)
Definition fresh (n0 : nat) (self : JobId) (k : JobId) : Prop :=
  k = self ∨ (n0 ≤ k)%nat.

Definition expanding (n0 : nat) (self : JobId) (w : World) : Prop :=
  (n0 ≤ length (w_jobs w))%nat
  ∧ ready w self
  ∧ ∀ k x, (n0 ≤ k)%nat → w_jobs w !! k = Some x →
           ∀ d, d ∈ depends x → fresh n0 self d.

(** The jobs constructed since there were [n0] jobs have no callback. *)
Definition new_no_callbacks (n0 : nat) (w : World) : Prop :=
  ∀ k x, (n0 ≤ k)%nat → w_jobs w !! k = Some x → _callbacks x = [].

(** The jobs of the pool and of [l] were there when there were [n0]
    jobs. *)
Definition older (n0 : nat) (l : list JobId) (w : World) : Prop :=
  ∀ s, w_scheduler w = Some (Knapsack s) → ks_errors s = false →
       ∀ j, j ∈ ks_pool s ++ l → (j < n0)%nat.

(** The invariant of the local scheduler during a dynamic expansion. *)
Definition expanding_inv (n0 : nat) (armed waiting : list JobId) (w : World) : Prop :=
  cores_inv armed waiting w ∧ new_no_callbacks n0 w ∧ older n0 (armed ++ waiting) w.

(** What the first loop of [schedule] has found so far, the scheduler
    being [s0]: the jobs of [st.1] and of [st.2] are jobs of the
    scheduler that depend on nothing; those of [st.1] need to run, those
    of [st.2] do not. *)
Definition selected (s0 : KnapsackJobScheduler) (st : list JobId * gset JobId)
    (w : World) : Prop :=
  w_scheduler w = Some (Knapsack s0)
  ∧ cores_inv [] [] w
  ∧ (∀ j, j ∈ st.1 → j ∈ ks_jobs s0
       ∧ ∃ x, w_jobs w !! j = Some x ∧ needrun (init x) = true ∧ depends x = ∅)
  ∧ (∀ j, j ∈ st.2 → j ∈ ks_jobs s0
       ∧ ∃ x, w_jobs w !! j = Some x ∧ needrun (init x) = false ∧ depends x = ∅).

(** What holds of the cores of the local scheduler at every state that
    is reached without an exception: as long as no job has failed,
    [available_cores + Σ threads(running) = max_cores]. *)
Definition cores_balanced_while_ok (w : World) : Prop :=
  ∀ s, w_scheduler w = Some (Knapsack s) → ks_errors s = false →
       ks_cores s + pool_threads w (ks_pool s) = ks_maxcores s.

(** If there is a local scheduler, a job has failed. *)
Definition stopped (w : World) : Prop :=
  ∀ s, w_scheduler w = Some (Knapsack s) → ks_errors s = true.

(** A job is chosen in a state with one job, which needs to run, and
    fails. *)
Definition failing_1 : World :=
  world_of (__init__ plain_externals compile_init
              (mkWorld [] [compile_rule] {["in.txt"]} plain_workflow None []))
           (mkWorld [] [compile_rule] {["in.txt"]} plain_workflow None []).
Definition failing_2 : World :=
  world_of (Knapsack__init__ plain_externals {[0%nat]} failing_1) failing_1.
Definition failing_3 : World :=
  world_of (Knapsack_schedule plain_externals 10 failing_2) failing_2.
Definition failing_4 : World :=
  world_of (Knapsack_complete plain_externals 10 0%nat
              (FutureException (RuleException "failed")) failing_3) failing_3.

(** ** Further methods of [jobs.py] *)

Section Further.
Context (E : Externals).

(** [Job.cleanup_unfinished(jobs)] *)
Definition cleanup_unfinished (jobs : list JobId) : M unit :=
  for_ jobs (cleanup E).

(** [list(self.ancestors())]: the generator of [Job.ancestors] run to its
    end, with nothing done between two jobs. *)
Definition ancestors (fuel : nat) (self : JobId) : M (list JobId) :=
  do j <- get_job self;
  ancestors_loop fuel (depending j) (list_to_set (depending j))
    (λ job acc, ret (acc ++ [job])) [].

(** *** The picture of the DAG

    The argument [wildcards] of [Job.__init__], a mapping from names to
    values, is stored unchanged and only read by [new_wildcards]; it is
    kept beside the arena, by [jobid], as the list of its items.
    [items_iter] is the order in which CPython iterates over a set of
    such items. *)
Section Display.
Context (wildcards : JobId → list (string * string)).
Context (items_iter : gset (string * string) → list (string * string)).

(** The loop [for job in self.depends] of [Job.new_wildcards]. *)
Fixpoint new_wildcards_loop (deps : list JobId) (new_wildcards : gset (string * string))
    : gset (string * string) :=
  match deps with
  | [] => new_wildcards
  | job :: rest =>
      if bool_decide (new_wildcards = ∅) then ∅
      else new_wildcards_loop rest
             (foldl (λ acc wildcard, acc ∖ {[wildcard]}) new_wildcards (wildcards job))
  end.

(** [Job.new_wildcards] *)
Definition new_wildcards (self : JobId) : M (gset (string * string)) :=
  do j <- get_job self;
  ret (new_wildcards_loop (set_iter E (depends j)) (list_to_set (wildcards self))).

(** The double quote and the tab. *)
Definition dquote : string := String "034"%char EmptyString.
Definition tab : string := String "009"%char EmptyString.

(** ["{} -> {};".format(j.jobid, self.jobid)] *)
Definition dot_edge (from to : JobId) : string :=
  pretty from +:+ " -> " +:+ pretty to +:+ ";".

(** ['{}[label = "{}"];'.format(self.jobid, label)] *)
Definition dot_node (self : JobId) (label : string) : string :=
  pretty self +:+ "[label = " +:+ dquote +:+ label +:+ dquote +:+ "];".

(** [label += "\\n{}: {}".format(wildcard, value)] for every item *)
Definition dot_label (name : string) (items : list (string * string)) : string :=
  foldl (λ label wv, label +:+ "\n" +:+ wv.1 +:+ ": " +:+ wv.2) name items.

(** [list(self.dot())]: the node, then an edge from every job of
    [depends] that needs to run. *)
Definition dot (self : JobId) : M (list string) :=
  do j <- get_job self;
  do r <- get_rule (rule (init j));
  do nw <- new_wildcards self;
  let label :=
    if bool_decide (depends j = ∅) || negb (bool_decide (nw = ∅))
    then dot_label (rule_name r) (items_iter nw)
    else rule_name r in
  do edges <- fold_ (set_iter E (depends j)) (λ d acc,
                do x <- get_job d;
                ret (if needrun (init x)
                     then acc ++ [dot_edge (jobid x) (jobid j)] else acc)) [];
  ret (dot_node (jobid j) label :: edges).

(** [print_job_dag(jobs)]; the result is the list of the lines printed. *)
Definition print_job_dag (jobs : list JobId) : M (list string) :=
  do body <- fold_ jobs (λ job out,
               do edges <- dot job;
               ret (out ++ ((λ edge, tab +:+ edge) <$> edges))) [];
  ret ("digraph snakemake_dag {" :: body ++ ["}"]).
End Display.
End Further.

(** *** Paths in the DAG *)

(** [a] depends on [b]; [a] is in the [depending] list of [b]. *)
Definition depends_on (w : World) (a b : JobId) : Prop := b ∈ job_depends w a.
Definition depended_by (w : World) (b a : JobId) : Prop := a ∈ job_depending w b.

(** *** What a call leaves as it is *)

(** The jobs are as they were. *)
Definition same_jobs (w w' : World) : Prop := w_jobs w' = w_jobs w.

(** Neither the jobs, nor the rules, the files or the workflow change. *)
Definition same_data (w w' : World) : Prop :=
  w_jobs w' = w_jobs w ∧ w_rules w' = w_rules w
  ∧ w_fs w' = w_fs w ∧ w_workflow w' = w_workflow w.

(** The job has not finished; a job that does not exist counts as
    unfinished. *)
Definition unfinished (w : World) (k : JobId) : bool :=
  match w_jobs w !! k with
  | Some x => negb (is_finished x)
  | None => true
  end.

(** The job [other] exists and does not depend on [self]. *)
Definition detached (w : World) (self other : JobId) : Prop :=
  ∃ x, w_jobs w !! other = Some x ∧ self ∉ depends x.

(** What a dry run records: the entry of [Job.run], the message of the
    job, and the calls of the completion callbacks. *)
Definition dry_event (e : Event) : Prop :=
  match e with
  | EvRun _ _ | LogInfoJob _ | EvCallback _ _ => True
  | _ => False
  end.

(** [dry w w']: the files, the rules and the workflow with its job
    counter are as they were, every job keeps its constructor arguments,
    and only events of a dry run are recorded. *)
Definition dry (w w' : World) : Prop :=
  w_fs w' = w_fs w ∧ w_rules w' = w_rules w ∧ w_workflow w' = w_workflow w
  ∧ (∀ a x, w_jobs w !! a = Some x → ∃ x', w_jobs w' !! a = Some x' ∧ init x' = init x)
  ∧ ∃ evs, w_trace w' = w_trace w ++ evs ∧ Forall dry_event evs.

(** A job of rule [0] that needs to run, in a dry run. *)
Definition dry_init : JobInit :=
  mkJobInit 0%nat None [plain_file "in.txt"] [plain_file "out.txt"] 1 None ∅
            true false false true false false false.

Definition dry_world : World :=
  mkWorld [new_job dry_init 0%nat] [compile_rule] {["in.txt"]} plain_workflow None [].

(** The scheduler with the jobs [X] added to its set [_jobs]. *)
Definition sched_add_jobs (X : gset JobId) (s : Scheduler) : Scheduler :=
  match s with
  | Knapsack s => Knapsack (set_ks_jobs (X ∪ ks_jobs s) s)
  | Cluster s => Cluster (set_cs_jobs (X ∪ cs_jobs s) s)
  end.

(** [workflow.cores if workflow.cores else multiprocessing.cpu_count()] *)
Definition cores_or_cpu_count (E : Externals) (workflow : Workflow) : Z :=
  match cores workflow with
  | Some c => if bool_decide (c = 0) then cpu_count E else c
  | None => cpu_count E
  end.

(** Collaborators for an example: every pattern expands to the one file
    [out/a.txt], and [Rule.run] fails at once. *)
Definition stubborn_externals : Externals :=
  mkExternals (λ _ _, []) (λ _ _, Some ["out/a.txt"]) (λ fs f, Some (fs ∖ {[f]}))
              (λ _ _ _ jobs _, mkRunOutcome [] jobs None) elements 4 1000.

(** The job is ignored, depends on nothing, and no job depends on it. *)
Definition spliced (w : World) (self : JobId) : Prop :=
  (∃ x, w_jobs w !! self = Some x ∧ ignore x = true ∧ depends x = ∅)
  ∧ ∀ k, self ∉ job_depends w k.

(** The local scheduler has stopped: a job has failed and no job is left
    in [_jobs]. *)
Definition halted (w : World) : Prop :=
  ∃ s, w_scheduler w = Some (Knapsack s) ∧ ks_errors s = true ∧ ks_jobs s = ∅.

(** A cluster scheduler that watches job [0] of rule ["map"], whose
    script is on disk; then the job has failed. *)
Definition watching_world : World :=
  mkWorld [cluster_job] [cluster_rule] {[".snakemake.map..out_a.bam_b.bai.sh"]}
          plain_workflow
          (Some (Cluster (mkCluster {[1%nat]} "qsub" false false None
            [(0%nat, (".snakemake.map..out_a.bam_b.bai.jobfinished",
                      (".snakemake.map..out_a.bam_b.bai.jobfailed",
                       ".snakemake.map..out_a.bam_b.bai.sh")))]))) [].

Definition watching_failed : World :=
  set_fs {[".snakemake.map..out_a.bam_b.bai.sh";
           ".snakemake.map..out_a.bam_b.bai.jobfailed"]} watching_world.

(** The success sentinel is on disk, but the script has been deleted. *)
Definition watching_orphan : World :=
  set_fs {[".snakemake.map..out_a.bam_b.bai.jobfinished"]} watching_world.

(** The job exists and needs to run. *)
Definition needs_run (w : World) (d : JobId) : bool :=
  default false ((λ x, needrun (init x)) <$> w_jobs w !! d).

(** The edges that [dot] draws into [self]: one from every job of
    [depends] that needs to run. *)
Definition dot_edges (w : World) (self : JobId) (deps : list JobId) : list string :=
  (λ d, dot_edge d self) <$> filter (λ d, needs_run w d = true) deps.

(** [items_iter] enumerates the items of the set, each once. *)
Definition items_iter_ok (items_iter : gset (string * string) → list (string * string))
    : Prop :=
  ∀ X, items_iter X ≡ₚ elements X.

(** The wildcards of the two jobs of the chain, for an example: job [1]
    has the wildcard of job [0] and one of its own. *)
Definition chain_wildcards (k : JobId) : list (string * string) :=
  match k with
  | O => [("sample", "a")]
  | _ => [("sample", "a"); ("lane", "1")]
  end.

(** Two jobs that need to run, the second depending on the first. *)
Definition pair_first : JobInit :=
  mkJobInit 0%nat None [] [plain_file "a.txt"] 1 None ∅
            false false false true false false false.
Definition pair_second : JobInit :=
  mkJobInit 1%nat None [plain_file "a.txt"] [plain_file "b.txt"] 1 None {[0%nat]}
            false false false true false false false.
Definition pair_1 : World :=
  world_of (__init__ plain_externals pair_first chain_start) chain_start.
Definition pair_world : World :=
  world_of (__init__ plain_externals pair_second pair_1) pair_1.
Definition second_rule : Rule :=
  mkRule "second" [plain_file "a.txt"] [plain_file "b.txt"] ∅.

(** The lines that [dot] yields for job [k]: its node, labelled with the
    name of the rule and the new wildcards, and then the edges from the
    jobs of [depends] that need to run, in the order in which the set is
    walked. *)
Definition dot_lines (E : Externals) (wildcards : JobId → list (string * string))
    (items_iter : gset (string * string) → list (string * string))
    (w : World) (k : JobId) (ls : list string) : Prop :=
  ∃ j r nw edges,
    w_jobs w !! k = Some j ∧ w_rules w !! rule (init j) = Some r
    ∧ new_wildcards E wildcards k w = Ok nw w
    ∧ ls = dot_node k (dot_label (rule_name r) (items_iter nw)) :: edges
    ∧ edges ≡ₚ dot_edges w k (elements (depends j)).

(** * Proofs *)

(** A closed decidable proposition, settled by evaluation. *)
Ltac by_evaluation := refine (bool_decide_unpack _ _); vm_compute; exact I.

Lemma opt_S jobs i j :
  opt jobs (S i) j
  = if decide (j ≤ 0) then 0
    else let t := default 0 (threads <$> jobs !! i) in
         if decide (t > j) then opt jobs i j
         else Z.max (opt jobs i j) (t + opt jobs i (j - t)).
Proof. reflexivity. Qed.

Lemma opt_O jobs j : opt jobs 0 j = 0.
Proof. reflexivity. Qed.

Global Arguments opt : simpl never.

Lemma opt_zero jobs i : opt jobs i 0 = 0.
Proof. destruct i; [done|]. rewrite opt_S. case_decide; [done|lia]. Qed.

Lemma opt_nonneg jobs i j : 0 ≤ opt jobs i j.
Proof.
  revert j. induction i as [|i IH]; intros j; [rewrite opt_O; lia|].
  rewrite opt_S. cbv zeta. repeat case_decide; auto; try lia.
  pose proof (IH j). lia.
Qed.

Lemma lookup_opt_row jobs c i (j : nat) :
  (j ≤ c)%nat → opt_row jobs c i !! j = Some (opt jobs i (Z.of_nat j)).
Proof.
  intros Hj. unfold opt_row. rewrite list_lookup_fmap, lookup_seq_lt by lia. done.
Qed.

Lemma length_opt_row jobs c i : length (opt_row jobs c i) = S c.
Proof. unfold opt_row. by rewrite length_fmap, length_seq. Qed.

Lemma lookup_row_upto jobs c i k (j : nat) :
  (j ≤ c)%nat →
  row_upto jobs c i k !! j
  = Some (if decide (j ≤ k)%nat then opt jobs i (Z.of_nat j) else 0).
Proof.
  intros Hj. unfold row_upto. rewrite list_lookup_fmap, lookup_seq_lt by lia. done.
Qed.

Lemma length_row_upto jobs c i k : length (row_upto jobs c i k) = S c.
Proof. unfold row_upto. by rewrite length_fmap, length_seq. Qed.

Lemma row_upto_0 jobs c i : row_upto jobs c i 0 = replicate (S c) 0.
Proof.
  apply list_eq. intros j. destruct (decide (j ≤ c)%nat) as [Hj|Hj].
  - rewrite lookup_row_upto by done. rewrite lookup_replicate_2 by lia.
    case_decide; [|done]. assert (j = 0%nat) as -> by lia. by rewrite opt_zero.
  - rewrite !lookup_ge_None_2; [done| |].
    + rewrite length_replicate. lia.
    + rewrite length_row_upto. lia.
Qed.

Lemma row_upto_full jobs c i : row_upto jobs c i c = opt_row jobs c i.
Proof.
  apply list_eq. intros j. destruct (decide (j ≤ c)%nat) as [Hj|Hj].
  - rewrite lookup_row_upto, lookup_opt_row by done. by case_decide.
  - rewrite !lookup_ge_None_2; [done| |].
    + rewrite length_opt_row. lia.
    + rewrite length_row_upto. lia.
Qed.

Lemma py_index_nat {A} (l : list A) (k : nat) : py_index l (Z.of_nat k) = l !! k.
Proof. unfold py_index. case_decide; [|lia]. by rewrite Nat2Z.id. Qed.

Lemma K_get_nat K (i j : nat) :
  K_get K (Z.of_nat i) (Z.of_nat j) = (row ← K !! i; row !! j).
Proof.
  unfold K_get. rewrite py_index_nat. destruct (K !! i); simpl; [|done].
  apply py_index_nat.
Qed.

Lemma table_loop_snoc l x body K :
  table_loop (l ++ [x]) body K = (K' ← table_loop l body K; body x K').
Proof. unfold table_loop. by rewrite foldl_app. Qed.

Lemma seqZ_snoc (k : nat) : seqZ 1 (Z.of_nat (S k)) = seqZ 1 (Z.of_nat k) ++ [Z.of_nat (S k)].
Proof.
  replace (Z.of_nat (S k)) with (Z.of_nat k + 1) at 1 by lia.
  rewrite seqZ_app by lia. f_equal. change (seqZ (1 + Z.of_nat k) 1) with
    ((λ i : nat, Z.of_nat i + (1 + Z.of_nat k)) <$> seq 0 (Z.to_nat 1)).
  simpl. f_equal. lia.
Qed.

Section Table.
Context (jobs : list Job) (c : nat).
Hypothesis threads_pos : ∀ job, job ∈ jobs → 0 < threads job.

Lemma row_upto_S (i k : nat) :
  (S k ≤ c)%nat →
  <[S k := opt jobs i (Z.of_nat (S k))]> (row_upto jobs c i k) = row_upto jobs c i (S k).
Proof.
  intros Hk. apply list_eq. intros j.
  destruct (decide (j ≤ c)%nat) as [Hj|Hj].
  - rewrite lookup_row_upto by done.
    destruct (decide (j = S k)) as [->|Hne].
    + rewrite list_lookup_insert_eq by (rewrite length_row_upto; lia).
      case_decide; [done|lia].
    + rewrite list_lookup_insert_ne by done. rewrite lookup_row_upto by done.
      repeat case_decide; try done; lia.
  - rewrite !lookup_ge_None_2; [done| |].
    + rewrite length_row_upto. lia.
    + rewrite length_insert, length_row_upto. lia.
Qed.

Lemma knapsack_cell_spec (K : list (list Z)) (i k : nat) :
  (i < length jobs)%nat → (S k ≤ c)%nat →
  K !! i = Some (opt_row jobs c i) →
  (S i < length K)%nat →
  knapsack_cell jobs (Z.of_nat (S i)) (Z.of_nat (S k))
                (<[S i := row_upto jobs c (S i) k]> K)
  = Some (<[S i := row_upto jobs c (S i) (S k)]> K).
Proof.
  intros Hi Hk Hrow Hlen. unfold knapsack_cell.
  replace (Z.of_nat (S i) - 1) with (Z.of_nat i) by lia.
  rewrite py_index_nat.
  destruct (jobs !! i) as [job|] eqn:Hjob; [|apply lookup_ge_None in Hjob; lia].
  simpl. assert (0 < threads job) as Ht by (apply threads_pos; by eapply list_elem_of_lookup_2).
  assert (∀ j : nat, (j ≤ c)%nat →
            K_get (<[S i := row_upto jobs c (S i) k]> K) (Z.of_nat i) (Z.of_nat j)
            = Some (opt jobs i (Z.of_nat j))) as Hget.
  { intros j Hj. rewrite K_get_nat, list_lookup_insert_ne by lia.
    rewrite Hrow. simpl. by apply lookup_opt_row. }
  assert (∀ v, K_set (<[S i := row_upto jobs c (S i) k]> K) (Z.of_nat (S i))
                     (Z.of_nat (S k)) v
               = <[S i := <[S k := v]> (row_upto jobs c (S i) k)]> K) as Hset.
  { intros v. unfold K_set. rewrite !Nat2Z.id.
    apply list_eq. intros i'. destruct (decide (i' = S i)) as [->|Hne].
    - rewrite list_lookup_alter_eq, !list_lookup_insert_eq by done. done.
    - rewrite list_lookup_alter_ne, !list_lookup_insert_ne by done. done. }
  pose proof (opt_S jobs i (Z.of_nat (S k))) as HS. rewrite Hjob in HS.
  change (default 0 (threads <$> Some job)) with (threads job) in HS. cbv zeta in HS.
  destruct (decide (Z.of_nat (S k) ≤ 0)) as [?|_]; [lia|].
  destruct (decide (threads job > Z.of_nat (S k))) as [Hgt|Hgt].
  - rewrite Hget by lia. simpl. rewrite Hset. do 2 f_equal.
    rewrite <- row_upto_S by done. by rewrite HS.
  - rewrite Hget by lia. simpl.
    replace (Z.of_nat (S k) - threads job)
      with (Z.of_nat (Z.to_nat (Z.of_nat (S k) - threads job))) by lia.
    rewrite Hget by lia. simpl. rewrite Hset. do 2 f_equal.
    rewrite <- row_upto_S by done. rewrite HS.
    by rewrite Z2Nat.id by lia.
Qed.

Lemma inner_loop_spec (K : list (list Z)) (i k : nat) :
  (i < length jobs)%nat → (k ≤ c)%nat →
  K !! i = Some (opt_row jobs c i) →
  K !! S i = Some (replicate (S c) 0) →
  table_loop (seqZ 1 (Z.of_nat k)) (knapsack_cell jobs (Z.of_nat (S i))) K
  = Some (<[S i := row_upto jobs c (S i) k]> K).
Proof.
  intros Hi Hk Hrow Hzero. induction k as [|k IH].
  - simpl. rewrite row_upto_0. by rewrite list_insert_id.
  - rewrite seqZ_snoc, table_loop_snoc, IH by lia. simpl.
    apply knapsack_cell_spec; try done. by eapply lookup_lt_Some.
Qed.

Lemma lookup_table_upto (n r i : nat) :
  (i ≤ n)%nat →
  table_upto jobs n c r !! i
  = Some (if decide (i ≤ r)%nat then opt_row jobs c i else replicate (S c) 0).
Proof.
  intros Hi. unfold table_upto. by rewrite list_lookup_fmap, lookup_seq_lt by lia.
Qed.

Lemma length_table_upto (n r : nat) : length (table_upto jobs n c r) = S n.
Proof. unfold table_upto. by rewrite length_fmap, length_seq. Qed.

Lemma table_upto_S (n r : nat) :
  (S r ≤ n)%nat →
  <[S r := row_upto jobs c (S r) c]> (table_upto jobs n c r) = table_upto jobs n c (S r).
Proof.
  intros Hr. apply list_eq. intros i.
  destruct (decide (i ≤ n)%nat) as [Hi|Hi].
  - rewrite lookup_table_upto by done.
    destruct (decide (i = S r)) as [->|Hne].
    + rewrite list_lookup_insert_eq by (rewrite length_table_upto; lia).
      rewrite row_upto_full. case_decide; [done|lia].
    + rewrite list_lookup_insert_ne by done. rewrite lookup_table_upto by done.
      repeat case_decide; try done; lia.
  - rewrite !lookup_ge_None_2; [done| |].
    + rewrite length_table_upto. lia.
    + rewrite length_insert, length_table_upto. lia.
Qed.

Lemma table_upto_0 (n : nat) :
  table_upto jobs n c 0 = replicate (S n) (replicate (S c) 0).
Proof.
  apply list_eq. intros i. destruct (decide (i ≤ n)%nat) as [Hi|Hi].
  - rewrite lookup_table_upto by done. rewrite lookup_replicate_2 by lia.
    case_decide; [|done]. assert (i = 0%nat) as -> by lia.
    rewrite <- row_upto_full, <- row_upto_0 with (jobs := jobs) (i := 0%nat).
    f_equal. apply list_eq. intros j. destruct (decide (j ≤ c)%nat).
    + rewrite !lookup_row_upto by done. by repeat case_decide.
    + rewrite !lookup_ge_None_2; [done| |]; rewrite length_row_upto; lia.
  - rewrite !lookup_ge_None_2; [done| |].
    + rewrite length_replicate. lia.
    + rewrite length_table_upto. lia.
Qed.

Lemma outer_loop_spec (r : nat) :
  (r ≤ length jobs)%nat →
  table_loop (seqZ 1 (Z.of_nat r))
    (λ i, table_loop (seqZ 1 (Z.of_nat c)) (knapsack_cell jobs i))
    (replicate (S (length jobs)) (replicate (S c) 0))
  = Some (table_upto jobs (length jobs) c r).
Proof.
  intros Hr. induction r as [|r IH].
  - simpl. by rewrite table_upto_0.
  - rewrite seqZ_snoc, table_loop_snoc, IH by lia. simpl.
    rewrite inner_loop_spec; try lia.
    + by rewrite table_upto_S.
    + rewrite lookup_table_upto by lia. case_decide; [done|lia].
    + rewrite lookup_table_upto by lia. case_decide; [lia|done].
Qed.

Lemma knapsack_table_spec :
  knapsack_table jobs (Z.of_nat (length jobs) + 1) (Z.of_nat c + 1)
  = Some (table_upto jobs (length jobs) c (length jobs)).
Proof.
  unfold knapsack_table.
  replace (Z.to_nat (Z.of_nat (length jobs) + 1)) with (S (length jobs)) by lia.
  replace (Z.to_nat (Z.of_nat c + 1)) with (S c) by lia.
  replace (Z.of_nat (length jobs) + 1 - 1) with (Z.of_nat (length jobs)) by lia.
  replace (Z.of_nat c + 1 - 1) with (Z.of_nat c) by lia.
  by apply outer_loop_spec.
Qed.

Lemma table_get (i j : nat) :
  (i ≤ length jobs)%nat → (j ≤ c)%nat →
  K_get (table_upto jobs (length jobs) c (length jobs)) (Z.of_nat i) (Z.of_nat j)
  = Some (opt jobs i (Z.of_nat j)).
Proof.
  intros Hi Hj. rewrite K_get_nat, lookup_table_upto by done. simpl.
  case_decide; [|lia]. by apply lookup_opt_row.
Qed.

Lemma table_get_Z (i : nat) (j : Z) :
  (i ≤ length jobs)%nat → 0 ≤ j ≤ Z.of_nat c →
  K_get (table_upto jobs (length jobs) c (length jobs)) (Z.of_nat i) j
  = Some (opt jobs i j).
Proof.
  intros Hi Hj. rewrite <- (Z2Nat.id j) by lia. apply table_get; lia.
Qed.
End Table.

Lemma sum_list_threads_app l1 l2 :
  sum_list_threads (l1 ++ l2) = sum_list_threads l1 + sum_list_threads l2.
Proof. induction l1 as [|x l1 IH]; simpl; lia. Qed.

Lemma sum_list_threads_nonneg l :
  (∀ job, job ∈ l → 0 < threads job) → 0 ≤ sum_list_threads l.
Proof.
  induction l as [|x l IH]; intros Hpos; simpl; [lia|].
  pose proof (Hpos x ltac:(left)).
  assert (0 ≤ sum_list_threads l); [|lia].
  apply IH. intros job Hjob. apply Hpos. by right.
Qed.

Section Optimal.
Context (jobs : list Job).
Hypothesis threads_pos : ∀ job, job ∈ jobs → 0 < threads job.

Lemma opt_le_capacity i j : 0 ≤ j → opt jobs i j ≤ j.
Proof.
  revert j. induction i as [|i IH]; intros j Hj; [rewrite opt_O; lia|].
  rewrite opt_S. cbv zeta. case_decide; [lia|].
  destruct (jobs !! i) as [job|] eqn:Hjob; simpl.
  - assert (0 < threads job) by (apply threads_pos; by eapply list_elem_of_lookup_2).
    case_decide; [by apply IH|].
    pose proof (IH j Hj). pose proof (IH (j - threads job)). lia.
  - case_decide; [lia|]. pose proof (IH j Hj). pose proof (IH (j - 0)). lia.
Qed.

Lemma opt_mono_items i j : opt jobs i j ≤ opt jobs (S i) j ∨ j ≤ 0.
Proof.
  destruct (decide (j ≤ 0)); [by right|left].
  rewrite opt_S. cbv zeta. case_decide; [lia|]. case_decide; lia.
Qed.

(** No selection among the first [i] jobs that fits in [j] beats the table. *)
Lemma opt_upper i s j :
  s `sublist_of` take i jobs → sum_list_threads s ≤ j →
  sum_list_threads s ≤ opt jobs i j.
Proof.
  revert s j. induction i as [|i IH]; intros s j Hsub Hsum.
  - rewrite take_0 in Hsub. apply sublist_nil_r in Hsub as ->.
    rewrite opt_O. simpl. lia.
  - assert (∀ job, job ∈ s → 0 < threads job) as Hs.
    { intros job Hjob. apply threads_pos.
      eapply elem_of_sublist; [|apply sublist_take].
      eapply elem_of_sublist; by eauto. }
    pose proof (sum_list_threads_nonneg s Hs) as Hnn.
    rewrite opt_S. cbv zeta. case_decide; [lia|].
    destruct (jobs !! i) as [job|] eqn:Hjob; simpl.
    + erewrite take_S_r in Hsub by done.
      apply sublist_app_r in Hsub as (s1 & s2 & -> & Hs1 & Hs2).
      rewrite sum_list_threads_app in *.
      assert (0 ≤ sum_list_threads s1).
      { apply sum_list_threads_nonneg. intros ??. apply Hs. set_solver. }
      apply sublist_cons_r in Hs2 as [Hs2|(s2' & -> & Hs2)];
        apply sublist_nil_r in Hs2 as ->; simpl in *.
      * pose proof (IH s1 j Hs1). case_decide; lia.
      * case_decide; [lia|].
        pose proof (IH s1 (j - threads job) Hs1). lia.
    + rewrite take_ge in Hsub by (apply lookup_ge_None in Hjob; lia).
      rewrite <- (take_ge jobs i) in Hsub by (by apply lookup_ge_None in Hjob).
      pose proof (IH s j Hsub). case_decide; lia.
Qed.

Context (c : nat).
Local Abbreviation K := (table_upto jobs (length jobs) c (length jobs)).

(** The walk back through the table picks jobs whose threads add up to
    the entry it starts from. *)
Lemma knapsack_solution_spec (i : nat) (j : Z) (sol : gset JobId) :
  (i ≤ length jobs)%nat → 0 ≤ j ≤ Z.of_nat c →
  ∃ picked,
    knapsack_solution jobs K i j sol = Some (list_to_set (jobid <$> picked) ∪ sol)
    ∧ picked `sublist_of` take i jobs
    ∧ sum_list_threads picked = opt jobs i j.
Proof.
  revert j sol. induction i as [|i IH]; intros j sol Hi Hj.
  - exists []. simpl. split_and!; [f_equal; set_solver|by rewrite take_0|done].
  - cbn [knapsack_solution].
    assert (Z.of_nat (S i) - 1 = Z.of_nat i) as -> by lia.
    rewrite !table_get_Z by (done || lia). simpl.
    rewrite py_index_nat.
    destruct (jobs !! i) as [job|] eqn:Hjob; [|apply lookup_ge_None in Hjob; lia].
    assert (0 < threads job) by (apply threads_pos; by eapply list_elem_of_lookup_2).
    pose proof (opt_S jobs i j) as HS. rewrite Hjob in HS.
    change (default 0 (threads <$> Some job)) with (threads job) in HS.
    cbv zeta in HS. simpl.
    destruct (decide (opt jobs (S i) j ≠ opt jobs i j)) as [Hne|Hne].
    + assert (¬ j ≤ 0 ∧ ¬ threads job > j ∧
              opt jobs (S i) j = threads job + opt jobs i (j - threads job))
        as (Hj0 & Ht & Heq).
      { destruct (decide (j ≤ 0)).
        - assert (j = 0) as -> by lia. by rewrite !opt_zero in Hne.
        - destruct (decide (threads job > j)); [done|].
          split_and!; [done..|]. lia. }
      destruct (IH (j - threads job) ({[jobid job]} ∪ sol)) as (picked & Hrun & Hsub & Hsum);
        [lia..|].
      exists (picked ++ [job]). split_and!.
      * rewrite Hrun. f_equal. rewrite fmap_app, list_to_set_app_L. simpl. set_solver.
      * erewrite take_S_r by done. by apply sublist_app.
      * rewrite sum_list_threads_app, Hsum, Heq. simpl. lia.
    + destruct (IH j sol) as (picked & Hrun & Hsub & Hsum); [lia..|].
      exists picked. split_and!; [done| |].
      * etrans; [done|]. erewrite take_S_r by done. by apply sublist_inserts_r.
      * rewrite Hsum. destruct (decide (opt jobs (S i) j = opt jobs i j)); [done|].
        by destruct Hne.
Qed.
End Optimal.

Lemma sum_threads_ext (l : list Job) (S1 S2 : gset JobId) :
  (∀ job, job ∈ l → jobid job ∈ S1 ↔ jobid job ∈ S2) →
  sum_threads l S1 = sum_threads l S2.
Proof.
  induction l as [|x l IH]; intros Heq; simpl; [done|].
  rewrite IH by (intros ??; apply Heq; by right).
  pose proof (Heq x ltac:(left)). repeat case_decide; tauto || done.
Qed.

Lemma sum_threads_sublist (l picked : list Job) :
  NoDup (jobid <$> l) → picked `sublist_of` l →
  sum_threads l (list_to_set (jobid <$> picked)) = sum_list_threads picked.
Proof.
  intros Hnd Hsub. induction Hsub as [|x p l Hsub IH|x p l Hsub IH]; simpl.
  - done.
  - rewrite fmap_cons in Hnd. apply NoDup_cons in Hnd as [Hx Hnd].
    case_decide as Hin; [|set_solver]. f_equal. rewrite <- IH by done.
    apply sum_threads_ext. intros job Hjob.
    assert (jobid job ≠ jobid x).
    { intros Heq. apply Hx. rewrite <- Heq. by apply list_elem_of_fmap_2. }
    set_solver.
  - rewrite fmap_cons in Hnd. apply NoDup_cons in Hnd as [Hx Hnd].
    case_decide as Hin; [|by apply IH].
    exfalso. apply Hx. apply elem_of_list_to_set in Hin.
    apply list_elem_of_fmap in Hin as (job & -> & Hjob).
    apply list_elem_of_fmap_2. by eapply elem_of_sublist.
Qed.

Lemma sum_threads_filter (l : list Job) (T : gset JobId) :
  sum_threads l T = sum_list_threads (filter (λ job, jobid job ∈ T) l).
Proof.
  induction l as [|x l IH]; simpl; [done|].
  rewrite filter_cons. case_decide; simpl; by rewrite IH.
Qed.

(** C2. For a ready list of distinct jobs with positive [threads] and a
    capacity [cores >= 0], [_knapsack] returns a set [S] of jobs of the
    list whose threads sum to at most [cores], and no subset of the ready
    list that fits in [cores] has a larger sum of threads. *)
Theorem knapsack_optimal (jobs : list Job) (cores : Z) :
  Forall (λ job, 0 < threads job) jobs →
  0 ≤ cores →
  NoDup (jobid <$> jobs) →
  ∃ S : gset JobId,
    _knapsack cores jobs = Some S
    ∧ S ⊆ list_to_set (jobid <$> jobs)
    ∧ sum_threads jobs S ≤ cores
    ∧ ∀ T : gset JobId,
        T ⊆ list_to_set (jobid <$> jobs) →
        sum_threads jobs T ≤ cores →
        sum_threads jobs T ≤ sum_threads jobs S.
Proof.
  intros Hpos Hc Hnd. rewrite Forall_forall in Hpos.
  assert (∃ c : nat, cores = Z.of_nat c) as [c ->] by (exists (Z.to_nat cores); lia).
  destruct (knapsack_solution_spec jobs Hpos c (length jobs) (Z.of_nat c) ∅)
    as (picked & Hrun & Hsub & Hsum); [lia..|].
  rewrite firstn_all in Hsub.
  exists (list_to_set (jobid <$> picked)). split_and!.
  - unfold _knapsack. rewrite knapsack_table_spec by done. simpl.
    replace (Z.to_nat (Z.of_nat (length jobs) + 1 - 1)) with (length jobs) by lia.
    replace (Z.of_nat c + 1 - 1) with (Z.of_nat c) by lia.
    rewrite Hrun. f_equal. set_solver.
  - intros x Hx. apply elem_of_list_to_set in Hx. apply elem_of_list_to_set.
    apply list_elem_of_fmap in Hx as (job & -> & Hjob).
    apply list_elem_of_fmap_2. by eapply elem_of_sublist.
  - rewrite sum_threads_sublist, Hsum by done. apply opt_le_capacity; [done|lia].
  - intros T _ HT. rewrite sum_threads_sublist, Hsum by done.
    rewrite sum_threads_filter in *.
    apply opt_upper; [done| |done].
    rewrite firstn_all. apply sublist_filter.
Qed.

Lemma knapsack_optimal_witness :
  ∃ S : gset JobId,
    _knapsack 4 scenario_c = Some S
    ∧ S ⊆ list_to_set (jobid <$> scenario_c)
    ∧ sum_threads scenario_c S ≤ 4
    ∧ ∀ T : gset JobId,
        T ⊆ list_to_set (jobid <$> scenario_c) →
        sum_threads scenario_c T ≤ 4 →
        sum_threads scenario_c T ≤ sum_threads scenario_c S.
Proof.
  apply knapsack_optimal.
  - repeat constructor; simpl; lia.
  - lia.
  - by_evaluation.
Defined.

(** Scenario (c): the knapsack picks the two jobs with 2 threads. *)
Example knapsack_scenario_c :
  _knapsack 4 scenario_c = Some {[1%nat; 2%nat]}.
Proof. vm_compute. reflexivity. Qed.

(** ** [Job.cleanup] and the error path of [Job.finished] *)

(** C10. On a job whose [is_finished] flag is set, [cleanup] returns at
    once: no file is removed, nothing is recorded and no job changes. *)
Theorem cleanup_finished_noop (E : Externals) (w : World) (self : JobId) (j : Job) :
  w_jobs w !! self = Some j →
  is_finished j = true →
  cleanup E self w = Ok tt w.
Proof.
  intros Hj Hfin. unfold cleanup, bind, get_job. rewrite Hj, Hfin. done.
Qed.

Lemma cleanup_finished_noop_witness :
  cleanup plain_externals 0%nat finished_world = Ok tt finished_world.
Proof. by apply (cleanup_finished_noop plain_externals finished_world 0%nat _ eq_refl). Defined.

(** C1, at the failing input.  The worker of the job of [failing_world]
    reports an exception.  [finished] sets [is_finished] before it calls
    [cleanup], which therefore removes nothing: the declared output
    ["out.txt"] is still on disk when the error callback fires, and the
    trace records no removal at all. *)
Theorem finished_error_keeps_outputs :
  ∃ w', finished plain_externals 0 0%nat
                 (Some (FutureException (RuleException "boom"))) failing_world
        = Ok tt w'
      ∧ "out.txt" ∈ w_fs w'
      ∧ w_trace w' = [PrintException (RuleException "boom");
                      EvErrorCallback (OtherErrorCallback 0)].
Proof.
  eexists. split_and!.
  - vm_compute. reflexivity.
  - by_evaluation.
  - reflexivity.
Qed.

(** C4, counterexample.  [finished] called twice on the job of
    [uptodate_world] fires its only completion callback twice. *)
Lemma finished_twice_fires_twice :
  ∃ w', (finished plain_externals 0 0%nat None ;;
         finished plain_externals 0 0%nat None) uptodate_world = Ok tt w'
      ∧ fired (OtherCallback 0) 0%nat (w_trace w') = 2%nat.
Proof. eexists. split; [vm_compute; reflexivity|]. vm_compute. reflexivity. Qed.

(** ** The files of a cluster job *)

Lemma string_app_assoc (s1 s2 s3 : string) : (s1 +:+ s2) +:+ s3 = s1 +:+ (s2 +:+ s3).
Proof.
  induction s1 as [|c s1 IH]; [reflexivity|]. exact (f_equal (String c) IH).
Qed.

(** C7, counterexample.  For the job of rule ["map"] with outputs
    ["out/a.bam"] and ["b.bai"] the script is not named as the
    specification says: the prefix already ends with a dot and the format
    string adds one. *)
Lemma cluster_script_name_differs :
  Cluster_jobscript cluster_rule cluster_job = ".snakemake.map..out_a.bam_b.bai.sh"
  ∧ spec_jobscript cluster_rule cluster_job = ".snakemake.map.out_a.bam_b.bai.sh"
  ∧ Cluster_jobscript cluster_rule cluster_job ≠ spec_jobscript cluster_rule cluster_job.
Proof. split_and!; [reflexivity|reflexivity|]. vm_compute. discriminate. Qed.

(** C7, amended.  For every job that the cluster scheduler dispatches,
    [_run_job] emits the script [.snakemake.<rule>..<outkey>.sh] and waits
    for the sentinels [.snakemake.<rule>..<outkey>.jobfinished] and
    [.snakemake.<rule>..<outkey>.jobfailed], with two dots between the rule
    name and [<outkey>], where [<outkey>] is the job's outputs joined by
    ["_"] with every ["/"] replaced by ["_"]. *)
Theorem cluster_script_names (w : World) (job : JobId) (j : Job) (r : Rule)
    (s : ClusterJobScheduler) :
  w_jobs w !! job = Some j →
  w_rules w !! rule (init j) = Some r →
  w_scheduler w = Some (Cluster s) →
  let jobscript := ".snakemake." +:+ rule_name r +:+ ".." +:+ spec_outkey j +:+ ".sh" in
  let jobfinished :=
    ".snakemake." +:+ rule_name r +:+ ".." +:+ spec_outkey j +:+ ".jobfinished" in
  let jobfailed :=
    ".snakemake." +:+ rule_name r +:+ ".." +:+ spec_outkey j +:+ ".jobfailed" in
  ∃ w', Cluster_run_job job w = Ok tt w'
      ∧ w_trace w' = w_trace w ++ [LogInfoJob job; EvShell jobscript jobfinished jobfailed job]
      ∧ jobscript ∈ w_fs w'
      ∧ w_scheduler w' = Some (Cluster (set_cs_watchers
          (cs_watchers s ++ [(job, (jobfinished, (jobfailed, jobscript)))]) s)).
Proof.
  intros Hj Hr Hs. cbv zeta.
  assert (∀ ext, Cluster_prefix r +:+ "." +:+ Cluster_jobid j +:+ ext
                 = ".snakemake." +:+ rule_name r +:+ ".." +:+ spec_outkey j +:+ ext) as Hname.
  { intros ext. unfold Cluster_prefix, Cluster_jobid, spec_outkey.
    by rewrite !string_app_assoc. }
  unfold Cluster_run_job.
  unfold bind, print_message, log_event, modify, get_job, get_rule, modify_cluster.
  simpl. rewrite Hj. simpl. rewrite Hr. simpl. rewrite Hs.
  unfold Cluster_jobscript, Cluster_jobfinished, Cluster_jobfailed.
  rewrite !Hname.
  eexists. split_and!; [reflexivity| | |reflexivity].
  - simpl. by rewrite <- app_assoc.
  - simpl. set_solver.
Qed.

Lemma cluster_script_names_witness :
  ∃ w', Cluster_run_job 0%nat
          (mkWorld [cluster_job] [cluster_rule] ∅ plain_workflow
                   (Some (Cluster (mkCluster ∅ "qsub" false false None []))) [])
        = Ok tt w'
      ∧ w_trace w' = [LogInfoJob 0%nat;
                      EvShell ".snakemake.map..out_a.bam_b.bai.sh"
                              ".snakemake.map..out_a.bam_b.bai.jobfinished"
                              ".snakemake.map..out_a.bam_b.bai.jobfailed" 0%nat]
      ∧ ".snakemake.map..out_a.bam_b.bai.sh" ∈ w_fs w'
      ∧ w_scheduler w' = Some (Cluster (mkCluster ∅ "qsub" false false None
          [(0%nat, (".snakemake.map..out_a.bam_b.bai.jobfinished",
                    (".snakemake.map..out_a.bam_b.bai.jobfailed",
                     ".snakemake.map..out_a.bam_b.bai.sh")))])).
Proof.
  exact (cluster_script_names
           (mkWorld [cluster_job] [cluster_rule] ∅ plain_workflow
                    (Some (Cluster (mkCluster ∅ "qsub" false false None []))) [])
           0%nat cluster_job cluster_rule _ eq_refl eq_refl eq_refl).
Defined.

(** ** Dynamic expansion of an ancestor *)

Lemma dynamic_expansion_fails (E : Externals) (dynamic : gset string)
    (wildcard_expansion : gmap string (gset string)) (inputs : list IOFile)
    (k i : nat) (f : IOFile) :
  inputs !! i = Some f →
  file f ∈ dynamic →
  expand E (file f) wildcard_expansion = None →
  dynamic_expansion E dynamic wildcard_expansion k inputs = None.
Proof.
  revert k i. induction inputs as [|g inputs IH]; intros k i Hi Hdyn Hfail; [done|].
  simpl. destruct i as [|i]; simpl in Hi.
  - injection Hi as ->. rewrite bool_decide_eq_true_2 by done. by rewrite Hfail.
  - rewrite (IH (S k) i) by done. case_bool_decide; [|done].
    by destruct (expand E (file g) wildcard_expansion).
Qed.

(** C9. If the expansion of some dynamic input of the ancestor's rule
    fails, [handle_dynamic_input] returns no job and leaves the whole state
    as it was: the input list of the rule, its dynamic flags and the edges
    of the ancestor are unchanged, and no job has been constructed. *)
Theorem handle_dynamic_input_expansion_fails (E : Externals) (w : World)
    (self : JobId) (j : Job) (r : Rule)
    (wildcard_expansion : gmap string (gset string)) (jobs : JobCache)
    (i : nat) (f : IOFile) :
  w_jobs w !! self = Some j →
  w_rules w !! rule (init j) = Some r →
  rule_input r !! i = Some f →
  file f ∈ rule_dynamic r →
  expand E (file f) wildcard_expansion = None →
  handle_dynamic_input E self wildcard_expansion jobs w = Ok (None, jobs) w.
Proof.
  intros Hj Hr Hi Hdyn Hfail.
  unfold handle_dynamic_input, bind, get_job, get_rule. rewrite Hj, Hr.
  by erewrite dynamic_expansion_fails.
Qed.

Lemma handle_dynamic_input_expansion_fails_witness :
  handle_dynamic_input plain_externals 0%nat {["sample" := {["a"]}]} [] gather_world
  = Ok (None, []) gather_world.
Proof.
  eapply (handle_dynamic_input_expansion_fails plain_externals gather_world 0%nat _
            gather_rule _ [] 0%nat (plain_file "out/{sample}.txt"));
    [reflexivity|reflexivity|reflexivity|by_evaluation|reflexivity].
Defined.

(** ** The rules of the program logic *)

Section Rules.
Context {A B : Type}.
Implicit Types (P : World → Prop) (X : Exn → World → Prop).

Lemma hoare_conseq P P' (m : M A) (Q Q' : A → World → Prop) X X' :
  hoare P' m Q' X' →
  (∀ w, P w → P' w) → (∀ a w, Q' a w → Q a w) → (∀ ex w, X' ex w → X ex w) →
  hoare P m Q X.
Proof.
  intros Hm HP HQ HX w Hw. specialize (Hm w (HP w Hw)).
  destruct (m w); auto.
Qed.

Lemma hoare_pre P P' (m : M A) Q X :
  hoare P' m Q X → (∀ w, P w → P' w) → hoare P m Q X.
Proof. intros Hm HP. eapply hoare_conseq; eauto. Qed.

Lemma hoare_ret P (a : A) (Q : A → World → Prop) X :
  (∀ w, P w → Q a w) → hoare P (ret a) Q X.
Proof. intros H w Hw. by apply H. Qed.

Lemma hoare_raise P (ex : Exn) (Q : A → World → Prop) X :
  (∀ w, P w → X ex w) → hoare P (raise ex) Q X.
Proof. intros H w Hw. by apply H. Qed.

Lemma hoare_abort P (Q : A → World → Prop) X : hoare P abort Q X.
Proof. by intros w Hw. Qed.

Lemma hoare_bind P (m : M A) (k : A → M B) (R : A → World → Prop)
    (Q : B → World → Prop) X :
  hoare P m R X → (∀ a, hoare (R a) (k a) Q X) → hoare P (bind m k) Q X.
Proof.
  intros Hm Hk w Hw. unfold bind. specialize (Hm w Hw).
  destruct (m w) as [a w'|ex w'|]; [|done..]. by apply Hk.
Qed.

Lemma hoare_try P (m : M A) catches (h : Exn → M A) (Q : A → World → Prop) X X' :
  hoare P m Q X' →
  (∀ ex, catches ex = true → hoare (X' ex) (h ex) Q X) →
  (∀ ex w, catches ex = false → X' ex w → X ex w) →
  hoare P (try_except m catches h) Q X.
Proof.
  intros Hm Hh HX w Hw. unfold try_except. specialize (Hm w Hw).
  destruct (m w) as [a w'|ex w'|]; [done| |done].
  destruct (catches ex) eqn:Hc; [by apply Hh|by apply HX].
Qed.

Lemma hoare_exists {T} (P : T → World → Prop) (m : M A) Q X :
  (∀ t, hoare (P t) m Q X) → hoare (λ w, ∃ t, P t w) m Q X.
Proof. intros H w [t Hw]. by apply (H t). Qed.

Lemma hoare_pure (φ : Prop) P (m : M A) Q X :
  (φ → hoare P m Q X) → hoare (λ w, φ ∧ P w) m Q X.
Proof. intros H w [Hφ Hw]. by apply H. Qed.

Lemma hoare_and P P' (m : M A) (Q Q' : A → World → Prop) X X' :
  hoare P m Q X → hoare P' m Q' X' →
  hoare (λ w, P w ∧ P' w) m (λ a w, Q a w ∧ Q' a w) (λ ex w, X ex w ∧ X' ex w).
Proof.
  intros H H' w [Hw Hw']. specialize (H w Hw). specialize (H' w Hw').
  destruct (m w); auto.
Qed.
End Rules.

Lemma hoare_get P Q X :
  (∀ w, P w → Q w w) → hoare P get Q X.
Proof. intros H w Hw. by apply H. Qed.

Lemma hoare_modify P (f : World → World) Q X :
  (∀ w, P w → Q tt (f w)) → hoare P (modify f) Q X.
Proof. intros H w Hw. by apply H. Qed.

Lemma hoare_get_job P (j : JobId) Q X :
  (∀ w x, P w → w_jobs w !! j = Some x → Q x w) → hoare P (get_job j) Q X.
Proof.
  intros H w Hw. unfold get_job. destruct (w_jobs w !! j) eqn:Hj; [|done].
  by apply H.
Qed.

Lemma hoare_modify_job P (j : JobId) (f : Job → Job) Q X :
  (∀ w x, P w → w_jobs w !! j = Some x → Q tt (set_jobs (<[j := f x]> (w_jobs w)) w)) →
  hoare P (modify_job j f) Q X.
Proof.
  intros H w Hw. unfold modify_job. destruct (w_jobs w !! j) eqn:Hj; [|done].
  by apply H.
Qed.

Lemma hoare_get_rule P (r : RuleId) Q X :
  (∀ w x, P w → w_rules w !! r = Some x → Q x w) → hoare P (get_rule r) Q X.
Proof.
  intros H w Hw. unfold get_rule. destruct (w_rules w !! r) eqn:Hr; [|done].
  by apply H.
Qed.

Lemma hoare_modify_rule P (r : RuleId) (f : Rule → Rule) Q X :
  (∀ w x, P w → w_rules w !! r = Some x → Q tt (set_rules (<[r := f x]> (w_rules w)) w)) →
  hoare P (modify_rule r f) Q X.
Proof.
  intros H w Hw. unfold modify_rule. destruct (w_rules w !! r) eqn:Hr; [|done].
  by apply H.
Qed.

Lemma hoare_get_knapsack P Q X :
  (∀ w s, P w → w_scheduler w = Some (Knapsack s) → Q s w) → hoare P get_knapsack Q X.
Proof.
  intros H w Hw. unfold get_knapsack.
  destruct (w_scheduler w) as [[s|s]|] eqn:Hs; [|done..]. by apply H.
Qed.

Lemma hoare_modify_knapsack P f Q X :
  (∀ w s, P w → w_scheduler w = Some (Knapsack s) →
          Q tt (set_sched (Some (Knapsack (f s))) w)) →
  hoare P (modify_knapsack f) Q X.
Proof.
  intros H w Hw. unfold modify_knapsack.
  destruct (w_scheduler w) as [[s|s]|] eqn:Hs; [|done..]. by apply H.
Qed.

Lemma hoare_get_cluster P Q X :
  (∀ w s, P w → w_scheduler w = Some (Cluster s) → Q s w) → hoare P get_cluster Q X.
Proof.
  intros H w Hw. unfold get_cluster.
  destruct (w_scheduler w) as [[s|s]|] eqn:Hs; [done| |done]. by apply H.
Qed.

Lemma hoare_modify_cluster P f Q X :
  (∀ w s, P w → w_scheduler w = Some (Cluster s) →
          Q tt (set_sched (Some (Cluster (f s))) w)) →
  hoare P (modify_cluster f) Q X.
Proof.
  intros H w Hw. unfold modify_cluster.
  destruct (w_scheduler w) as [[s|s]|] eqn:Hs; [done| |done]. by apply H.
Qed.

(** Loops, with an invariant that follows the part of the list that is
    still to be visited. *)
Lemma hoare_for {A} (I : list A → World → Prop) (l : list A) (body : A → M unit) X :
  (∀ x rest, hoare (I (x :: rest)) (body x) (λ _, I rest) X) →
  hoare (I l) (for_ l body) (λ _, I []) X.
Proof.
  intros Hbody. induction l as [|x l IH]; simpl.
  - by apply hoare_ret.
  - eapply hoare_bind; [apply Hbody|]. intros ?. apply IH.
Qed.

Lemma hoare_fold {A T} (I : list A → T → World → Prop) (l : list A)
    (body : A → T → M T) (acc : T) X :
  (∀ x rest acc, hoare (I (x :: rest) acc) (body x acc) (λ acc', I rest acc') X) →
  hoare (I l acc) (fold_ l body acc) (λ acc', I [] acc') X.
Proof.
  intros Hbody. revert acc. induction l as [|x l IH]; intros acc; simpl.
  - by apply hoare_ret.
  - eapply hoare_bind; [apply Hbody|]. intros acc'. apply IH.
Qed.

Lemma preserves_for {A} (I : World → Prop) (l : list A) (body : A → M unit) :
  (∀ x, x ∈ l → preserves I (body x)) → preserves I (for_ l body).
Proof.
  intros Hbody. induction l as [|x l IH]; simpl.
  - by apply hoare_ret.
  - eapply hoare_bind; [apply Hbody; by left|]. intros ?. apply IH.
    intros y Hy. apply Hbody. by right.
Qed.

Lemma preserves_fold {A T} (I : World → Prop) (l : list A)
    (body : A → T → M T) (acc : T) :
  (∀ x acc, x ∈ l → preserves I (body x acc)) → preserves I (fold_ l body acc).
Proof.
  intros Hbody. revert acc. induction l as [|x l IH]; intros acc; simpl.
  - by apply hoare_ret.
  - eapply hoare_bind; [apply Hbody; by left|]. intros acc'. apply IH.
    intros y acc'' Hy. apply Hbody. by right.
Qed.

Lemma preserves_bind {A B} (I : World → Prop) (m : M A) (k : A → M B) :
  preserves I m → (∀ a, preserves I (k a)) → preserves I (bind m k).
Proof. intros Hm Hk. eapply hoare_bind; [apply Hm|]. apply Hk. Qed.

Lemma preserves_try {A} (I : World → Prop) (m : M A) catches (h : Exn → M A) :
  preserves I m → (∀ ex, preserves I (h ex)) → preserves I (try_except m catches h).
Proof. intros Hm Hh. eapply hoare_try; [apply Hm| |]; [by intros; apply Hh|done]. Qed.

Lemma preserves_when (I : World → Prop) (b : bool) (m : M unit) :
  preserves I m → preserves I (when b m).
Proof. intros Hm. destruct b; [done|]. by apply hoare_ret. Qed.

Lemma preserves_ret {A} (I : World → Prop) (a : A) : preserves I (ret a).
Proof. by apply hoare_ret. Qed.

Lemma preserves_raise {A} (I : World → Prop) (ex : Exn) : preserves I (raise (A := A) ex).
Proof. by apply hoare_raise. Qed.

Lemma preserves_abort {A} (I : World → Prop) : preserves I (abort (A := A)).
Proof. apply hoare_abort. Qed.

Lemma preserves_get (I : World → Prop) : preserves I get.
Proof. by apply hoare_get. Qed.

Lemma preserves_get_job (I : World → Prop) (j : JobId) : preserves I (get_job j).
Proof. by apply hoare_get_job. Qed.

Lemma preserves_get_rule (I : World → Prop) (r : RuleId) : preserves I (get_rule r).
Proof. by apply hoare_get_rule. Qed.

Lemma preserves_get_knapsack (I : World → Prop) : preserves I get_knapsack.
Proof. by apply hoare_get_knapsack. Qed.

Lemma preserves_get_cluster (I : World → Prop) : preserves I get_cluster.
Proof. by apply hoare_get_cluster. Qed.

Lemma preserves_modify (I : World → Prop) (f : World → World) :
  (∀ w, I w → I (f w)) → preserves I (modify f).
Proof. intros H. by apply hoare_modify. Qed.

(** ** The edges of the DAG *)

Lemma job_depends_lookup w a x : w_jobs w !! a = Some x → job_depends w a = depends x.
Proof. intros H. unfold job_depends. by rewrite H. Qed.

Lemma job_depending_lookup w a x : w_jobs w !! a = Some x → job_depending w a = depending x.
Proof. intros H. unfold job_depending. by rewrite H. Qed.

Lemma job_depends_elem w a b :
  b ∈ job_depends w a ↔ ∃ x, w_jobs w !! a = Some x ∧ b ∈ depends x.
Proof.
  unfold job_depends. destruct (w_jobs w !! a) as [x|]; simpl.
  - naive_solver.
  - split; [set_solver|]. by intros (x & ? & _).
Qed.

Lemma job_depending_elem w b a :
  a ∈ job_depending w b ↔ ∃ x, w_jobs w !! b = Some x ∧ a ∈ depending x.
Proof.
  unfold job_depending. destruct (w_jobs w !! b) as [x|]; simpl.
  - naive_solver.
  - split; [by intros ?%elem_of_nil|]. by intros (x & ? & _).
Qed.

Lemma lookup_upd w j y a x :
  w_jobs w !! j = Some x →
  w_jobs (upd w j y) !! a = if decide (a = j) then Some y else w_jobs w !! a.
Proof.
  intros Hj. unfold upd. simpl. case_decide as Ha.
  - subst. apply list_lookup_insert_eq. by eapply lookup_lt_Some.
  - by apply list_lookup_insert_ne.
Qed.

Lemma length_upd w j y : length (w_jobs (upd w j y)) = length (w_jobs w).
Proof. unfold upd. simpl. apply length_insert. Qed.

Lemma live_iff w w' b :
  dag_view <$> w_jobs w' !! b = dag_view <$> w_jobs w !! b → live w' b ↔ live w b.
Proof.
  intros H. unfold live.
  destruct (w_jobs w' !! b) as [x'|], (w_jobs w !! b) as [x|]; simpl in H; try done.
  injection H as ?????.
  split; intros (? & [= <-] & ? & ?); eexists; split_and!; eauto; congruence.
Qed.

Lemma same_dag_depends w w' a :
  dag_view <$> w_jobs w' !! a = dag_view <$> w_jobs w !! a →
  job_depends w' a = job_depends w a ∧ job_depending w' a = job_depending w a.
Proof.
  intros H. unfold job_depends, job_depending.
  destruct (w_jobs w' !! a) as [x'|], (w_jobs w !! a) as [x|]; simpl in *; try done.
  by injection H as -> -> _ _ _.
Qed.

Lemma same_dag_inv w w' : same_dag w w' → dag_inv w → dag_inv w'.
Proof.
  intros [Hlen Hv] [dag_fwd dag_bwd dag_nodup dag_bound dag_order dag_done dag_id].
  assert (∀ a, job_depends w' a = job_depends w a) as Hd
    by (intros a; by apply same_dag_depends).
  assert (∀ a, job_depending w' a = job_depending w a) as Hg
    by (intros a; by apply same_dag_depends).
  split.
  - intros a b. rewrite Hd, Hg. apply dag_fwd.
  - intros a b. rewrite Hd, Hg. intros Hl. apply dag_bwd.
    by apply (live_iff w w' b (Hv b)) in Hl.
  - intros b. rewrite Hg. apply dag_nodup.
  - intros a b. rewrite Hg, Hlen. apply dag_bound.
  - intros a b. rewrite Hd. apply dag_order.
  - intros a x' Hx'.
    assert (dag_view <$> Some x' = dag_view <$> w_jobs w !! a) as Ha
      by (rewrite <- Hx'; apply Hv).
    destruct (w_jobs w !! a) as [x|] eqn:Hx; [|done].
    injection Ha as Hv1 _ Hv3 Hv4 _. rewrite Hv1, Hv3, Hv4. by eapply dag_done.
  - intros a x' Hx'.
    assert (dag_view <$> Some x' = dag_view <$> w_jobs w !! a) as Ha
      by (rewrite <- Hx'; apply Hv).
    destruct (w_jobs w !! a) as [x|] eqn:Hx; [|done].
    injection Ha as _ _ _ _ ->. by eapply dag_id.
Qed.

Lemma same_dag_jobs w w' : w_jobs w' = w_jobs w → same_dag w w'.
Proof. intros H. unfold same_dag. by rewrite H. Qed.

Lemma same_dag_upd w j x y :
  w_jobs w !! j = Some x → dag_view y = dag_view x → same_dag w (upd w j y).
Proof.
  intros Hj Hv. split; [apply length_upd|]. intros a.
  erewrite lookup_upd by done. case_decide; [|done].
  subst. rewrite Hj. simpl. by f_equal.
Qed.

(** *** Changes that leave the DAG alone *)

Lemma evolve_refl w : evolve w w.
Proof.
  split_and!; try done. exists []. split; [by rewrite app_nil_r|].
  by intros ?? ?%elem_of_nil.
Qed.

Lemma evolve_same w w' :
  w_jobs w' = w_jobs w → w_scheduler w' = w_scheduler w → w_trace w' = w_trace w →
  evolve w w'.
Proof.
  intros Hj Hs Ht. unfold evolve, running. rewrite Hj, Hs, Ht. apply evolve_refl.
Qed.

Lemma evolve_emit w e : (∀ j d, e ≠ EvRun j d) → evolve w (emit e w).
Proof.
  intros He. split_and!; try done. exists [e]. split; [done|].
  intros j d ?%list_elem_of_singleton. by eapply He.
Qed.

Lemma evolve_upd w j x y :
  w_jobs w !! j = Some x → dag_view y = dag_view x → init y = init x →
  evolve w (upd w j y).
Proof.
  intros Hj Hv Hi. split_and!.
  - apply length_upd.
  - intros a. erewrite lookup_upd by done. case_decide; [|done].
    subst. rewrite Hj. simpl. by f_equal.
  - intros a. erewrite lookup_upd by done. case_decide; [|done].
    subst. rewrite Hj. simpl. by f_equal.
  - done.
  - exists []. split; [by rewrite app_nil_r|]. by intros ?? ?%elem_of_nil.
Qed.

Lemma evolve_sched w s' :
  (∀ j, j ∈ running (set_sched s' w) → j ∈ running w) → evolve w (set_sched s' w).
Proof.
  intros Hr. split_and!; try done. exists []. split; [by rewrite app_nil_r|].
  by intros ?? ?%elem_of_nil.
Qed.

Lemma benign_preserves {A} (m : M A) I : benign m → stable I → preserves I m.
Proof. intros Hm HI. by apply Hm. Qed.

Lemma benign_modify f : (∀ w, evolve w (f w)) → benign (modify f).
Proof. intros Hf I HI. apply preserves_modify. intros w Hw. by eapply HI. Qed.

Lemma benign_log_event e : (∀ j d, e ≠ EvRun j d) → benign (log_event e).
Proof. intros He. apply benign_modify. intros w. by apply evolve_emit. Qed.

Lemma benign_modify_job j f :
  (∀ x, dag_view (f x) = dag_view x) → (∀ x, init (f x) = init x) →
  benign (modify_job j f).
Proof.
  intros Hv Hi I HI. apply hoare_modify_job. intros w x Hw Hx.
  eapply HI; [|done]. by apply (evolve_upd w j x).
Qed.

Lemma benign_modify_rule r f : benign (modify_rule r f).
Proof.
  intros I HI. apply hoare_modify_rule. intros w x Hw Hx.
  eapply HI; [|done]. by apply evolve_same.
Qed.

Lemma benign_modify_knapsack f :
  (∀ s, ks_pool (f s) = ks_pool s) → benign (modify_knapsack f).
Proof.
  intros Hf I HI. apply hoare_modify_knapsack. intros w s Hw Hs.
  eapply HI; [|done]. apply evolve_sched. unfold running. simpl. rewrite Hs, Hf. done.
Qed.

Lemma benign_modify_cluster f :
  (∀ s, cs_watchers (f s) = cs_watchers s) → benign (modify_cluster f).
Proof.
  intros Hf I HI. apply hoare_modify_cluster. intros w s Hw Hs.
  eapply HI; [|done]. apply evolve_sched. unfold running. simpl. rewrite Hs, Hf. done.
Qed.

Lemma benign_remove E f : benign (remove E f).
Proof.
  intros I HI w Hw. unfold remove. destruct (io_remove E (w_fs w) f); [|done].
  eapply HI; [|done]. split_and!; try done. exists [EvRemove f]. split; [done|].
  by intros j d ?%list_elem_of_singleton.
Qed.

(** The rules of the logic, for a property that every step keeps. *)
Ltac pres_step leaf :=
  cbv beta zeta;
  lazymatch goal with
  | |- preserves _ (ret _) => apply preserves_ret
  | |- preserves _ (raise _) => apply preserves_raise
  | |- preserves _ abort => apply preserves_abort
  | |- preserves _ get => apply preserves_get
  | |- preserves _ (get_job _) => apply preserves_get_job
  | |- preserves _ (get_rule _) => apply preserves_get_rule
  | |- preserves _ get_knapsack => apply preserves_get_knapsack
  | |- preserves _ get_cluster => apply preserves_get_cluster
  | |- preserves _ (when _ _) => apply preserves_when
  | |- preserves _ (bind _ _) => apply preserves_bind; [|intros ?]
  | |- preserves _ (try_except _ _ _) => apply preserves_try; [|intros ?]
  | |- preserves _ (for_ _ _) => apply preserves_for; intros ? _
  | |- preserves _ (fold_ _ _ _) => apply preserves_fold; intros ? ? _
  | |- preserves _ (match ?x with _ => _ end) => destruct x
  | |- preserves _ _ => leaf
  | |- hoare ?I ?m _ _ => change (preserves I m)
  end.
Ltac pres leaf := repeat (pres_step leaf).

Create HintDb benign_db.

#[export] Hint Resolve benign_log_event benign_modify_rule benign_remove : benign_db.
#[export] Hint Extern 1 (benign (modify_job _ _)) =>
  apply benign_modify_job; reflexivity : benign_db.
#[export] Hint Extern 1 (benign (modify_knapsack _)) =>
  apply benign_modify_knapsack; reflexivity : benign_db.
#[export] Hint Extern 1 (benign (modify_cluster _)) =>
  apply benign_modify_cluster; reflexivity : benign_db.
#[export] Hint Extern 1 (benign (modify _)) =>
  apply benign_modify; intros ?; apply evolve_same; reflexivity : benign_db.
#[export] Hint Extern 1 (∀ j d, _ ≠ EvRun j d) => (intros ??; discriminate) : benign_db.

Ltac benign_leaf HI :=
  apply benign_preserves; [solve [auto with benign_db]|exact HI].
Ltac benign_tac := let I := fresh "I" in let HI := fresh "HI" in
  intros I HI; pres ltac:(benign_leaf HI).

Lemma benign_is_dynamic r f : benign (is_dynamic r f).
Proof. unfold is_dynamic. benign_tac. Qed.
Lemma benign_set_dynamic r f b : benign (set_dynamic r f b).
Proof. unfold set_dynamic. benign_tac. Qed.
Lemma benign_created o : benign (created o).
Proof. unfold created. benign_tac. Qed.
Lemma benign_used f : benign (used f).
Proof. unfold used. benign_tac. Qed.
Lemma benign_touch_file f : benign (touch_file f).
Proof. unfold touch_file. benign_tac. Qed.
Lemma benign_prepare f : benign (prepare f).
Proof. unfold prepare. benign_tac. Qed.
Lemma benign_get_listfiles E p : benign (get_listfiles E p).
Proof. unfold get_listfiles. benign_tac. Qed.
Lemma benign_add_callback self cb : benign (add_callback self cb).
Proof. unfold add_callback. benign_tac. Qed.
Lemma benign_add_error_callback self cb : benign (add_error_callback self cb).
Proof. unfold add_error_callback. benign_tac. Qed.
Lemma benign_print_message self : benign (print_message self).
Proof. unfold print_message. benign_tac. Qed.
#[export] Hint Resolve benign_is_dynamic benign_set_dynamic benign_created benign_used
  benign_touch_file benign_prepare benign_get_listfiles benign_add_callback
  benign_add_error_callback benign_print_message : benign_db.

Lemma benign_cleanup E self : benign (cleanup E self).
Proof. unfold cleanup. benign_tac. Qed.
#[export] Hint Resolve benign_cleanup : benign_db.

Lemma benign_add_jobs E jobs : benign (add_jobs E jobs).
Proof.
  unfold add_jobs. benign_tac.
  intros w Hw. destruct (w_scheduler w) as [[s|s]|] eqn:Hs; [| |done].
  - eapply HI; [|done]. apply evolve_sched. unfold running. simpl. by rewrite Hs.
  - eapply HI; [|done]. apply evolve_sched. unfold running. simpl. by rewrite Hs.
Qed.

Lemma benign_Knapsack_finished job : benign (Knapsack_finished job).
Proof. unfold Knapsack_finished. benign_tac. Qed.
Lemma benign_Knapsack_error : benign Knapsack_error.
Proof. unfold Knapsack_error. benign_tac. Qed.
Lemma benign_Cluster_finished job : benign (Cluster_finished job).
Proof. unfold Cluster_finished. benign_tac. Qed.
#[export] Hint Resolve benign_add_jobs benign_Knapsack_finished benign_Knapsack_error
  benign_Cluster_finished : benign_db.

Lemma benign_call_callback cb job : benign (call_callback cb job).
Proof. unfold call_callback. benign_tac. Qed.
Lemma benign_call_error_callback cb : benign (call_error_callback cb).
Proof. unfold call_error_callback. benign_tac. Qed.
#[export] Hint Resolve benign_call_callback benign_call_error_callback : benign_db.

Lemma benign_fire_callbacks self : benign (fire_callbacks self).
Proof. unfold fire_callbacks. benign_tac. Qed.
Lemma benign_check_produced self future : benign (check_produced self future).
Proof. unfold check_produced. benign_tac. Qed.
Lemma benign_handle_error E self ex : benign (handle_error E self ex).
Proof. unfold handle_error. benign_tac. Qed.
Lemma benign_replace_dynamic_input r ie : benign (replace_dynamic_input r ie).
Proof. unfold replace_dynamic_input. benign_tac. Qed.
Lemma benign_collect_wildcards E self : benign (collect_wildcards E self).
Proof. unfold collect_wildcards. benign_tac. Qed.
Lemma benign_attach_new_jobs E self new_jobs dynamic :
  benign (attach_new_jobs E self new_jobs dynamic).
Proof. unfold attach_new_jobs. benign_tac. Qed.
Lemma benign_pool_shutdown : benign pool_shutdown.
Proof. unfold pool_shutdown. benign_tac. Qed.
Lemma benign_get_jobs l : benign (get_jobs l).
Proof. unfold get_jobs. benign_tac. Qed.
Lemma benign_os_remove f : benign (os_remove f).
Proof. unfold os_remove. benign_tac. Qed.
Lemma benign_Knapsack_select job st : benign (Knapsack_select job st).
Proof. unfold Knapsack_select. benign_tac. Qed.
Lemma benign_Cluster_select job st : benign (Cluster_select job st).
Proof. unfold Cluster_select. benign_tac. Qed.
#[export] Hint Resolve benign_fire_callbacks benign_check_produced benign_handle_error
  benign_replace_dynamic_input benign_collect_wildcards benign_attach_new_jobs
  benign_pool_shutdown benign_get_jobs benign_os_remove benign_Knapsack_select
  benign_Cluster_select : benign_db.

Lemma benign_descendants E fuel self : benign (descendants E fuel self).
Proof.
  revert self. induction fuel as [|fuel IH]; intros self; simpl.
  - benign_tac.
  - intros I HI. pres ltac:(first [by apply IH | benign_leaf HI]).
Qed.
#[export] Hint Resolve benign_descendants : benign_db.

Lemma benign_all_jobs E self : benign (all_jobs E self).
Proof. unfold all_jobs. benign_tac. Qed.
#[export] Hint Resolve benign_all_jobs : benign_db.

(** *** What the two kinds of change keep *)

Lemma evolve_same_dag w w' : evolve w w' → same_dag w w'.
Proof. intros (? & ? & _). by split. Qed.

Lemma evolve_grow w w' : evolve w w' → grow w w'.
Proof.
  intros (_ & Hv & Hi & _) a x Hx.
  specialize (Hv a). specialize (Hi a). rewrite Hx in Hv, Hi.
  destruct (w_jobs w' !! a) as [x'|]; [|done]. simpl in *.
  injection Hv as Hd _ Hf Hg _. injection Hi as Hi.
  exists x'. split_and!; [done|done|by rewrite Hd|congruence|congruence].
Qed.

Lemma persistent_stable I : persistent I → stable I.
Proof. intros HI w w' Hw. apply HI. by apply evolve_grow. Qed.

Lemma benign_monotone {A} (m : M A) : benign m → monotone m.
Proof. intros Hm I HI. apply Hm. by apply persistent_stable. Qed.

Lemma stable_and I J : stable I → stable J → stable (λ w, I w ∧ J w).
Proof. intros HI HJ w w' Hw [??]. split; [by eapply HI|by eapply HJ]. Qed.

Lemma persistent_and I J : persistent I → persistent J → persistent (λ w, I w ∧ J w).
Proof. intros HI HJ w w' Hw [??]. split; [by eapply HI|by eapply HJ]. Qed.

Lemma stable_dag_inv : stable dag_inv.
Proof. intros w w' Hw. apply same_dag_inv. by apply evolve_same_dag. Qed.

Lemma stable_dispatched_ready : stable dispatched_ready.
Proof.
  intros w w' (_ & _ & _ & _ & evs & Ht & Hevs) Hw j d. rewrite Ht.
  intros [?|?]%elem_of_app; [by eapply Hw|]. by destruct (Hevs j d).
Qed.

Lemma persistent_ready j : persistent (λ w, ready w j).
Proof.
  intros w w' Hw (x & Hx & Hd). destruct (Hw j x Hx) as (x' & Hx' & _ & Hsub & _).
  exists x'. split; [done|]. set_solver.
Qed.

Lemma persistent_job_is_finished j : persistent (λ w, job_is_finished w j).
Proof.
  intros w w' Hw (x & Hx & Hd). destruct (Hw j x Hx) as (x' & Hx' & _ & _ & Hf & _).
  exists x'. auto.
Qed.

Lemma stable_running_ready : stable running_ready.
Proof.
  intros w w' Hw Hr j Hj. eapply persistent_ready; [by apply evolve_grow|].
  apply Hr. by apply Hw.
Qed.

Lemma persistent_nonlive j : persistent (λ w, nonlive w j).
Proof.
  intros w w' Hw (x & Hx & Hd). destruct (Hw j x Hx) as (x' & Hx' & _ & _ & Hf & Hi).
  exists x'. split; [done|]. destruct Hd; auto.
Qed.

Lemma not_live_nonlive w self : nonlive w self → ¬ live w self.
Proof. intros (x & Hx & Hf) (x' & Hx' & Hf' & Hi'). destruct Hf; congruence. Qed.

Lemma live_or_nonlive w b x : w_jobs w !! b = Some x → live w b ∨ nonlive w b.
Proof.
  intros Hx. destruct (is_finished x) eqn:Hf; [right; exists x; auto|].
  destruct (ignore x) eqn:Hi; [right; exists x; auto|]. left. by exists x.
Qed.

Lemma persistent_settled j : persistent (λ w, settled w j).
Proof.
  intros w w' Hw (x & Hx & Hs). destruct (Hw j x Hx) as (x' & Hx' & Hi & _ & _ & Hg).
  exists x'. split; [done|]. destruct Hs as [Hs|Hs]; [left; auto|]. right.
  intros b Hb. rewrite Hi in Hb. eapply persistent_nonlive; [done|]. by apply Hs.
Qed.

Lemma stable_created_edges : stable created_edges.
Proof.
  intros w w' (_ & Hv & Hi & _) Hw a x' b Hx' Hign Hb.
  pose proof (Hv a) as Hva. pose proof (Hi a) as Hia. rewrite Hx' in Hva, Hia.
  destruct (w_jobs w !! a) as [x|] eqn:Hx; [|done]. simpl in *.
  injection Hva as _ _ _ Hg _. injection Hia as Hia.
  destruct (same_dag_depends w w' b (Hv b)) as [_ ->].
  apply (Hw a x b Hx); congruence.
Qed.

Lemma stable_sys_inv : stable sys_inv.
Proof.
  repeat apply stable_and;
    [ apply stable_dag_inv | apply stable_dispatched_ready | apply stable_running_ready
    | apply stable_created_edges ].
Qed.

Lemma grow_refl w : grow w w.
Proof. intros a x Hx. exists x. split_and!; auto. Qed.

Lemma grow_upd w j x y :
  w_jobs w !! j = Some x → init y = init x → depends y ⊆ depends x →
  (is_finished x = true → is_finished y = true) →
  (ignore x = true → ignore y = true) →
  grow w (upd w j y).
Proof.
  intros Hj ???? a x' Hx'. erewrite lookup_upd by done. case_decide.
  - subst. rewrite Hj in Hx'. injection Hx' as <-. exists y. by split_and!.
  - exists x'. split_and!; auto.
Qed.

Lemma monotone_modify_job j f :
  (∀ x, init (f x) = init x) → (∀ x, depends (f x) ⊆ depends x) →
  (∀ x, is_finished x = true → is_finished (f x) = true) →
  (∀ x, ignore x = true → ignore (f x) = true) →
  monotone (modify_job j f).
Proof.
  intros ???? I HI. apply hoare_modify_job. intros w x Hw Hx.
  eapply HI; [|done]. apply (grow_upd w j x); auto.
Qed.

Lemma monotone_preserves {A} (m : M A) I : monotone m → persistent I → preserves I m.
Proof. intros Hm HI. by apply Hm. Qed.

Create HintDb monotone_db.
#[export] Hint Extern 1 (monotone (modify_job _ _)) =>
  apply monotone_modify_job; intros ?; simpl; (done || set_solver) : monotone_db.
#[export] Hint Extern 5 (monotone _) =>
  apply benign_monotone; solve [auto with benign_db] : monotone_db.

Ltac monotone_leaf HI :=
  apply monotone_preserves; [solve [auto with monotone_db]|exact HI].
Ltac monotone_tac := let I := fresh "I" in let HI := fresh "HI" in
  intros I HI; pres ltac:(monotone_leaf HI).

Lemma __init___unfold E a w :
  __init__ E a w
  = if bool_decide (set_Forall (λ other, (other < length (w_jobs w))%nat) (init_depends a))
    then (for_ (set_iter E (init_depends a)) (λ other,
            modify_job other (λ o, set_depending (depending o ++ [length (w_jobs w)]) o));;
          ret (length (w_jobs w)))
           (set_jobs (w_jobs w ++ [new_job a (length (w_jobs w))]) w)
    else Abort.
Proof. unfold __init__, bind, get. simpl. by case_bool_decide. Qed.

(** [Job.__init__], for a property [P] of the state it starts from. *)
Lemma hoare___init__ E a (P : World → Prop) Q X :
  (∀ w, P w →
        set_Forall (λ other, (other < length (w_jobs w))%nat) (init_depends a) →
        hoare (λ w1, w1 = set_jobs (w_jobs w ++ [new_job a (length (w_jobs w))]) w)
              (for_ (set_iter E (init_depends a)) (λ other,
                 modify_job other (λ o, set_depending (depending o ++ [length (w_jobs w)]) o));;
               ret (length (w_jobs w))) Q X) →
  hoare P (__init__ E a) Q X.
Proof.
  intros H w Hw. rewrite __init___unfold. case_bool_decide as Hc; [|done].
  by apply (H w Hw Hc).
Qed.

Lemma grow_append w y : grow w (set_jobs (w_jobs w ++ [y]) w).
Proof.
  intros a x Hx. exists x. simpl. split_and!; auto.
  by apply lookup_app_l_Some.
Qed.

Lemma monotone___init__ E a : monotone (__init__ E a).
Proof.
  intros I HI. apply hoare___init__. intros w Hw _.
  eapply hoare_pre with (P' := I).
  - pres ltac:(monotone_leaf HI).
  - intros ? ->. eapply HI; [|done]. apply grow_append.
Qed.
#[export] Hint Resolve monotone___init__ : monotone_db.

Lemma hoare_depends_remove (P : World → Prop) job self Q X :
  (∀ w j, P w → w_jobs w !! job = Some j → self ∈ depends j →
          Q tt (upd w job (set_depends (depends j ∖ {[self]}) j))) →
  (∀ w j, P w → w_jobs w !! job = Some j → self ∉ depends j → X KeyError w) →
  hoare P (depends_remove job self) Q X.
Proof.
  intros HQ HX w Hw. unfold depends_remove, bind, get_job, modify_job.
  destruct (w_jobs w !! job) as [j|] eqn:Hj; [|done].
  case_bool_decide; [|by eapply HX]. rewrite Hj. by eapply HQ.
Qed.

Lemma hoare_depending_remove (P : World → Prop) job self Q X :
  (∀ w j l, P w → w_jobs w !! job = Some j → list_remove self (depending j) = Some l →
            Q tt (upd w job (set_depending l j))) →
  (∀ w j, P w → w_jobs w !! job = Some j → list_remove self (depending j) = None →
          X ValueError w) →
  hoare P (depending_remove job self) Q X.
Proof.
  intros HQ HX w Hw. unfold depending_remove, bind, get_job, modify_job.
  destruct (w_jobs w !! job) as [j|] eqn:Hj; [|done].
  destruct (list_remove self (depending j)) as [l|] eqn:Hl; [|by eapply HX].
  rewrite Hj. by eapply HQ.
Qed.

Lemma monotone_depends_remove job self : monotone (depends_remove job self).
Proof.
  intros I HI. apply hoare_depends_remove; [|done]. intros w j Hw Hj Hin.
  eapply HI; [|done]. apply (grow_upd w job j); auto. simpl. set_solver.
Qed.
Lemma monotone_depending_remove job self : monotone (depending_remove job self).
Proof.
  intros I HI. apply hoare_depending_remove; [|done]. intros w j l Hw Hj Hin.
  eapply HI; [|done]. by apply (grow_upd w job j).
Qed.
#[export] Hint Resolve monotone_depends_remove monotone_depending_remove : monotone_db.

Lemma monotone_remove_from_dag E self : monotone (remove_from_dag E self).
Proof. unfold remove_from_dag. monotone_tac. Qed.
#[export] Hint Resolve monotone_remove_from_dag : monotone_db.

Lemma monotone_replace_job E self out : monotone (replace_job E self out).
Proof. unfold replace_job. monotone_tac. Qed.
#[export] Hint Resolve monotone_replace_job : monotone_db.

Lemma monotone_handle_dynamic_input E self we jobs :
  monotone (handle_dynamic_input E self we jobs).
Proof. unfold handle_dynamic_input. monotone_tac. Qed.
#[export] Hint Resolve monotone_handle_dynamic_input : monotone_db.

Lemma monotone_expand_ancestor E we job st : monotone (expand_ancestor E we job st).
Proof. unfold expand_ancestor. monotone_tac. Qed.
#[export] Hint Resolve monotone_expand_ancestor : monotone_db.

Lemma grow_jobs w w' : w_jobs w' = w_jobs w → grow w w'.
Proof. intros H a x Hx. exists x. rewrite H. split_and!; auto. Qed.

Lemma monotone_modify f : (∀ w, w_jobs (f w) = w_jobs w) → monotone (modify f).
Proof.
  intros Hf I HI. apply preserves_modify. intros w Hw. eapply HI; [|done].
  by apply grow_jobs.
Qed.

Lemma monotone_log_event e : monotone (log_event e).
Proof. by apply monotone_modify. Qed.

Lemma monotone_modify_knapsack f : monotone (modify_knapsack f).
Proof.
  intros I HI. apply hoare_modify_knapsack. intros w s Hw Hs.
  eapply HI; [|done]. by apply grow_jobs.
Qed.

Lemma monotone_modify_cluster f : monotone (modify_cluster f).
Proof.
  intros I HI. apply hoare_modify_cluster. intros w s Hw Hs.
  eapply HI; [|done]. by apply grow_jobs.
Qed.
#[export] Hint Resolve monotone_log_event monotone_modify_knapsack
  monotone_modify_cluster : monotone_db.
#[export] Hint Extern 1 (monotone (modify _)) =>
  apply monotone_modify; reflexivity : monotone_db.

Lemma monotone_ancestors_loop {T} fuel queue visited (body : JobId → T → M T) acc :
  (∀ job acc, monotone (body job acc)) →
  monotone (ancestors_loop fuel queue visited body acc).
Proof.
  intros Hbody. revert queue visited acc.
  induction fuel as [|fuel IH]; intros queue visited acc I HI;
    destruct queue as [|job queue]; simpl;
    pres ltac:(first [by apply IH | by apply Hbody | monotone_leaf HI]).
Qed.

Lemma monotone_dynamic_new_jobs E fuel self : monotone (dynamic_new_jobs E fuel self).
Proof.
  unfold dynamic_new_jobs. intros I HI.
  pres ltac:(first
    [ apply monotone_ancestors_loop; [intros; apply monotone_expand_ancestor|exact HI]
    | monotone_leaf HI ]).
Qed.
#[export] Hint Resolve monotone_dynamic_new_jobs : monotone_db.

Lemma monotone_handle_dynamic_output E fuel self :
  monotone (handle_dynamic_output E fuel self).
Proof. unfold handle_dynamic_output. monotone_tac. Qed.
#[export] Hint Resolve monotone_handle_dynamic_output : monotone_db.

Lemma monotone_finished E fuel self future : monotone (finished E fuel self future).
Proof. unfold finished. monotone_tac. Qed.
#[export] Hint Resolve monotone_finished : monotone_db.

Lemma monotone_Knapsack_run_job job : monotone (Knapsack_run_job job).
Proof. unfold Knapsack_run_job. monotone_tac. Qed.
Lemma monotone_Cluster_run_job job : monotone (Cluster_run_job job).
Proof. unfold Cluster_run_job. monotone_tac. Qed.
#[export] Hint Resolve monotone_Knapsack_run_job monotone_Cluster_run_job : monotone_db.

Lemma monotone_run E fuel self run_func :
  monotone (run_func self) → monotone (run E fuel self run_func).
Proof.
  intros Hrun. unfold run. intros I HI.
  pres ltac:(first [by apply Hrun | monotone_leaf HI]).
Qed.

(** *** Changes of the edges *)

Lemma job_depends_upd w j x y a :
  w_jobs w !! j = Some x →
  job_depends (upd w j y) a = if decide (a = j) then depends y else job_depends w a.
Proof.
  intros Hj. unfold job_depends. erewrite lookup_upd by done. by case_decide.
Qed.

Lemma job_depending_upd w j x y b :
  w_jobs w !! j = Some x →
  job_depending (upd w j y) b = if decide (b = j) then depending y else job_depending w b.
Proof.
  intros Hj. unfold job_depending. erewrite lookup_upd by done. by case_decide.
Qed.

Lemma live_upd w j x y b :
  w_jobs w !! j = Some x →
  live (upd w j y) b ↔
    if decide (b = j) then is_finished y = false ∧ ignore y = false else live w b.
Proof.
  intros Hj. unfold live. erewrite lookup_upd by done. case_decide; [|done].
  naive_solver.
Qed.

Lemma live_lookup w b x :
  w_jobs w !! b = Some x → live w b ↔ is_finished x = false ∧ ignore x = false.
Proof. intros Hb. unfold live. rewrite Hb. naive_solver. Qed.

(** A job loses edges towards jobs that are no longer live, or has a flag
    set while it depends on nothing. *)
Lemma dag_inv_upd w j x y :
  dag_inv w →
  w_jobs w !! j = Some x →
  depends y ⊆ depends x →
  depending y = depending x →
  jobid y = jobid x →
  (is_finished y = true ∨ ignore y = true → depends y = ∅) →
  (is_finished y = false → is_finished x = false) →
  (ignore y = false → ignore x = false) →
  (∀ b, b ∈ depends x → b ∉ depends y → ¬ live w b) →
  dag_inv (upd w j y).
Proof.
  intros [dag_fwd dag_bwd dag_nodup dag_bound dag_order dag_done dag_id] Hj Hsub Hdep Hid Hdone Hfin Hign Hlost.
  assert (∀ a, job_depends (upd w j y) a ⊆ job_depends w a) as Hd.
  { intros a. erewrite job_depends_upd by done. case_decide; [|done].
    subst. by erewrite (job_depends_lookup w j). }
  assert (∀ b, job_depending (upd w j y) b = job_depending w b) as Hg.
  { intros b. erewrite job_depending_upd by done. case_decide; [|done].
    subst. by erewrite (job_depending_lookup w j). }
  assert (∀ b, live (upd w j y) b → live w b) as Hl.
  { intros b. erewrite live_upd by done. case_decide; [|done].
    subst. rewrite (live_lookup w j x) by done. naive_solver. }
  split.
  - intros a b Hb. rewrite Hg. apply dag_fwd. by apply Hd.
  - intros a b Hb%Hl. rewrite Hg. intros Ha.
    pose proof (dag_bwd a b Hb Ha) as Hin.
    erewrite job_depends_upd by done. case_decide; [|done]. subst.
    erewrite (job_depends_lookup w j) in Hin by done.
    destruct (decide (b ∈ depends y)); [done|]. by destruct (Hlost b).
  - intros b. rewrite Hg. apply dag_nodup.
  - intros a b. rewrite Hg, length_upd. apply dag_bound.
  - intros a b Hb. apply dag_order. by apply Hd.
  - intros a z. erewrite lookup_upd by done. case_decide.
    + by intros [= <-].
    + apply dag_done.
  - intros a z. erewrite lookup_upd by done. case_decide.
    + intros [= <-]. subst. rewrite Hid. by eapply dag_id.
    + apply dag_id.
Qed.

(** A step that only changes edges and flags keeps [sys_inv] if it keeps
    [dag_inv]. *)
Lemma sys_inv_step w w' :
  sys_inv w → dag_inv w' → created_edges w' → grow w w' →
  w_trace w' = w_trace w → w_scheduler w' = w_scheduler w →
  sys_inv w'.
Proof.
  intros (_ & Ht & Hr & _) Hdag Hcr Hgrow Htr Hs. split_and!; [done| | |done].
  - unfold dispatched_ready. by rewrite Htr.
  - intros j. unfold running. rewrite Hs. intros Hj.
    eapply persistent_ready; [done|]. by apply Hr.
Qed.

Lemma sys_inv_upd w j x y :
  sys_inv w →
  w_jobs w !! j = Some x →
  init y = init x →
  depends y ⊆ depends x →
  depending y = depending x →
  jobid y = jobid x →
  (is_finished y = true ∨ ignore y = true → depends y = ∅) →
  (is_finished x = true → is_finished y = true) →
  (ignore x = true → ignore y = true) →
  (∀ b, b ∈ depends x → b ∉ depends y → ¬ live w b) →
  sys_inv (upd w j y).
Proof.
  intros Hw Hj Hi Hsub Hdep Hid Hdone Hfin Hign Hlost.
  apply (sys_inv_step w); [done| | | |done|done].
  - destruct Hw as [Hdag _]. apply (dag_inv_upd w j x); try done.
    + destruct (is_finished x); [|done]. by rewrite Hfin.
    + destruct (ignore x); [|done]. by rewrite Hign.
  - destruct Hw as (_ & _ & _ & Hcr). intros a z b.
    erewrite lookup_upd, job_depending_upd by done. intros Hz Hg Hb.
    assert (a ∈ job_depending w b) as Hin.
    { destruct (decide (a = j)) as [->|Hne].
      - injection Hz as <-. rewrite Hi in Hb. apply (Hcr j x b Hj); [|done].
        destruct (ignore x); [|done]. by rewrite Hign in Hg.
      - by apply (Hcr a z b). }
    destruct (decide (b = j)) as [->|]; [|done]. rewrite Hdep.
    by erewrite job_depending_lookup in Hin.
  - by apply (grow_upd w j x).
Qed.

Lemma not_live_finished w self : job_is_finished w self → ¬ live w self.
Proof. intros (x & Hx & Hf) (x' & Hx' & Hf' & _). congruence. Qed.

(** [other.depends.remove(self)] for a job [self] that has finished. *)
Lemma sys_inv_depends_remove job self :
  preserves (λ w, sys_inv w ∧ job_is_finished w self) (depends_remove job self).
Proof.
  apply hoare_depends_remove; [|done]. intros w j [Hw Hf] Hj Hin. split.
  - pose proof (dag_done w (proj1 Hw) job j Hj) as Hdone.
    apply (sys_inv_upd w job j); try done; simpl.
    + set_solver.
    + intros Hflag. rewrite (Hdone Hflag). set_solver.
    + intros b Hb Hnb.
      assert (b = self) as ->
        by (destruct (decide (b = self)); [done|]; exfalso; apply Hnb; set_solver).
      by apply not_live_finished.
  - eapply persistent_job_is_finished; [|done].
    apply (grow_upd w job j); auto. simpl. set_solver.
Qed.

(** [self.is_finished = True], for a job that depends on nothing. *)
Lemma sys_inv_set_is_finished self X :
  hoare (λ w, sys_inv w ∧ ready w self)
        (modify_job self (set_is_finished true))
        (λ _ w, sys_inv w ∧ job_is_finished w self) X.
Proof.
  apply hoare_modify_job. intros w x [Hw (x' & Hx' & Hd)] Hx.
  assert (x' = x) as -> by congruence. split.
  - apply (sys_inv_upd w self x); try done; simpl; auto.
  - exists (set_is_finished true x). split; [|done].
    simpl. apply list_lookup_insert_eq. by eapply lookup_lt_Some.
Qed.

(** *** Loops that change one job after the other *)

Lemma lookup_update_jobs l g h k :
  update_jobs l g h !! k = (λ x, if decide (k ∈ l) then g x else x) <$> h !! k.
Proof. unfold update_jobs. by rewrite list_lookup_imap. Qed.

Lemma length_update_jobs l g h : length (update_jobs l g h) = length h.
Proof. unfold update_jobs. by rewrite length_imap. Qed.

Lemma update_jobs_nil g h : update_jobs [] g h = h.
Proof.
  apply list_eq. intros k. rewrite lookup_update_jobs.
  destruct (h !! k) as [x|]; [|done]. cbn [fmap option_fmap option_map].
  destruct (decide (k ∈ [])) as [H|]; [by apply elem_of_nil in H|done].
Qed.

Lemma for_update (body : JobId → M unit) (g : Job → Job) (ok : Job → Prop) l w :
  (∀ w d j, w_jobs w !! d = Some j → ok j → body d w = Ok tt (upd w d (g j))) →
  NoDup l →
  (∀ d, d ∈ l → ∃ j, w_jobs w !! d = Some j ∧ ok j) →
  for_ l body w = Ok tt (set_jobs (update_jobs l g (w_jobs w)) w).
Proof.
  intros Hbody. revert w. induction l as [|d l IH]; intros w Hnd Hl.
  - simpl. unfold ret. rewrite update_jobs_nil. by destruct w.
  - apply NoDup_cons in Hnd as [Hd Hnd].
    destruct (Hl d) as (j & Hj & Hok); [by left|].
    simpl. unfold bind. rewrite (Hbody w d j Hj Hok).
    rewrite IH; [|done|].
    + f_equal. unfold upd, set_jobs. simpl. f_equal.
      apply list_eq. intros k. rewrite !lookup_update_jobs.
      destruct (decide (k = d)) as [->|Hk].
      * rewrite list_lookup_insert_eq by (by eapply lookup_lt_Some).
        rewrite Hj. simpl. rewrite decide_False by done.
        rewrite decide_True by (by left). done.
      * rewrite list_lookup_insert_ne by done.
        destruct (w_jobs w !! k); simpl; [|done].
        destruct (decide (k ∈ l)).
        -- rewrite decide_True by (by right). done.
        -- rewrite decide_False; [done|]. by intros [?|?]%elem_of_cons.
    + intros d' Hd'. destruct (Hl d') as (j' & Hj' & Hok'); [by right|].
      exists j'. split; [|done]. erewrite lookup_upd by done.
      rewrite decide_False; [done|]. by intros ->.
Qed.

(** *** [Job.__init__] keeps the invariant *)

Section New.
Context (w : World) (a : JobInit) (l : list JobId).
Let n := length (w_jobs w).
Let D := init_depends a.
Let w' := set_jobs (update_jobs l (λ o, set_depending (depending o ++ [n]) o)
                      (w_jobs w ++ [new_job a n])) w.
Hypothesis Hdag : dag_inv w.
Hypothesis Hbound : set_Forall (λ other, (other < n)%nat) D.
Hypothesis Hperm : l ≡ₚ elements D.

Lemma new_elem k : k ∈ l ↔ k ∈ D.
Proof using Hperm. rewrite Hperm. apply elem_of_elements. Qed.

Lemma new_lookup k :
  w_jobs w' !! k
  = if decide (k = n) then Some (new_job a n)
    else (λ x, if decide (k ∈ D) then set_depending (depending x ++ [n]) x else x)
           <$> w_jobs w !! k.
Proof using Hbound Hperm.
  unfold w'. simpl. rewrite lookup_update_jobs.
  destruct (decide (k = n)) as [->|Hk].
  - rewrite lookup_app_r by (unfold n; lia). replace (n - length (w_jobs w))%nat with 0%nat
      by (unfold n; lia). simpl.
    rewrite decide_False; [done|]. rewrite new_elem. intros Hn%Hbound. lia.
  - destruct (decide (k < n)%nat).
    + rewrite lookup_app_l by done. destruct (w_jobs w !! k); simpl; [|done].
      f_equal. destruct (decide (k ∈ l)) as [Hl|Hl]; rewrite new_elem in Hl.
      * by rewrite decide_True.
      * by rewrite decide_False.
    + rewrite !lookup_ge_None_2; [done|fold n; lia|].
      rewrite length_app. simpl. fold n. lia.
Qed.

Lemma new_depends k b :
  b ∈ job_depends w' k ↔ (k = n ∧ b ∈ D) ∨ b ∈ job_depends w k.
Proof using Hbound Hperm.
  rewrite !job_depends_elem, new_lookup. destruct (decide (k = n)) as [->|Hk].
  - split.
    + intros (x & [= <-] & Hb). by left.
    + intros [[_ Hb]|(x & Hx & _)]; [by eexists|].
      apply lookup_lt_Some in Hx. fold n in Hx. lia.
  - split.
    + intros (x & Hx & Hb). right.
      destruct (w_jobs w !! k) as [y|]; simpl in Hx; [|done].
      injection Hx as <-. exists y. split; [done|]. by destruct (decide (k ∈ D)).
    + intros [[? _]|(x & Hx & Hb)]; [done|]. rewrite Hx. simpl.
      eexists. split; [done|]. by destruct (decide (k ∈ D)).
Qed.

Lemma new_depending k :
  job_depending w' k
  = if decide (k ∈ D) then job_depending w k ++ [n] else job_depending w k.
Proof using Hbound Hperm.
  unfold job_depending at 1. rewrite new_lookup.
  destruct (decide (k = n)) as [->|Hk].
  - rewrite decide_False by (intros Hn%Hbound; lia). simpl.
    unfold job_depending. rewrite lookup_ge_None_2; [done|fold n; lia].
  - unfold job_depending. destruct (w_jobs w !! k) as [y|] eqn:Hy; simpl.
    + by destruct (decide (k ∈ D)).
    + destruct (decide (k ∈ D)) as [Hd|]; [|done].
      apply Hbound in Hd. apply lookup_ge_None in Hy. fold n in Hy. lia.
Qed.

Lemma new_depending_elem k x :
  x ∈ job_depending w' k ↔ x ∈ job_depending w k ∨ (x = n ∧ k ∈ D).
Proof using Hbound Hperm.
  rewrite new_depending. destruct (decide (k ∈ D)).
  - rewrite elem_of_app, list_elem_of_singleton. naive_solver.
  - naive_solver.
Qed.

Lemma new_live k : live w' k ↔ k = n ∨ live w k.
Proof using Hbound Hperm.
  unfold live. rewrite new_lookup. destruct (decide (k = n)) as [->|Hk].
  - split; [by left|]. intros _. by eexists.
  - destruct (w_jobs w !! k) as [y|]; simpl.
    + split.
      * intros (x & [= <-] & Hx). right. exists y. by destruct (decide (k ∈ D)).
      * intros [?|(x & [= <-] & Hx)]; [done|]. eexists. split; [done|].
        by destruct (decide (k ∈ D)).
    + split; [by intros (? & ? & _)|]. by intros [?|(? & ? & _)].
Qed.

Lemma dag_inv_new : dag_inv w'.
Proof using Hdag Hbound Hperm.
  destruct Hdag as [dag_fwd dag_bwd dag_nodup dag_bound dag_order dag_done dag_id]. split.
  - intros x b. rewrite new_depends, new_depending_elem.
    intros [[-> Hb]|Hb]; [by right|]. left. by apply dag_fwd.
  - intros x b. rewrite new_live, new_depending_elem, new_depends.
    intros Hl [Hx|[-> Hb]]; [|by left]. right.
    destruct Hl as [->|Hl]; [|by apply dag_bwd].
    apply job_depending_elem in Hx as (y & Hy & _).
    apply lookup_lt_Some in Hy. fold n in Hy. lia.
  - intros b. rewrite new_depending. destruct (decide (b ∈ D)); [|apply dag_nodup].
    apply NoDup_app. split_and!; [apply dag_nodup| |apply NoDup_singleton].
    intros x Hx%dag_bound ->%list_elem_of_singleton. fold n in Hx. lia.
  - intros x b. rewrite new_depending_elem. unfold w'. simpl.
    rewrite length_update_jobs, length_app. simpl. fold n.
    intros [Hx%dag_bound| [-> _]]; [fold n in Hx|]; lia.
  - intros x b. rewrite new_depends. intros [[-> Hb]|Hb]; [by apply Hbound|].
    by apply dag_order.
  - intros k x. rewrite new_lookup. destruct (decide (k = n)) as [->|Hk].
    + intros [= <-]. simpl. by intros [?|?].
    + destruct (w_jobs w !! k) as [y|] eqn:Hy; simpl; [|done].
      intros [= <-]. pose proof (dag_done k y Hy). by destruct (decide (k ∈ D)).
  - intros k x. rewrite new_lookup. destruct (decide (k = n)) as [->|Hk].
    + by intros [= <-].
    + destruct (w_jobs w !! k) as [y|] eqn:Hy; simpl; [|done].
      intros [= <-]. pose proof (dag_id k y Hy). by destruct (decide (k ∈ D)).
Qed.

Lemma created_new : created_edges w → created_edges w'.
Proof using Hbound Hperm.
  intros Hcr k x b. rewrite new_lookup, new_depending_elem.
  destruct (decide (k = n)) as [->|Hk].
  - intros [= <-] _ Hb. by right.
  - destruct (w_jobs w !! k) as [y|] eqn:Hy; simpl; [|done].
    intros [= <-] Hg Hb. left. apply (Hcr k y b Hy).
    + by destruct (decide (k ∈ D)).
    + by destruct (decide (k ∈ D)).
Qed.

Lemma grow_new : grow w w'.
Proof using Hbound Hperm.
  intros k x Hx. rewrite new_lookup.
  rewrite decide_False by (apply lookup_lt_Some in Hx; fold n in Hx; lia).
  rewrite Hx. simpl. eexists. split; [done|].
  by destruct (decide (k ∈ D)).
Qed.
End New.

Lemma sys_inv___init__ E a :
  set_iter_ok E → preserves sys_inv (__init__ E a).
Proof.
  intros HE. apply hoare___init__. intros w Hw Hb.
  eapply hoare_bind with
    (R := λ _ w1, w1 = set_jobs (update_jobs (set_iter E (init_depends a))
                   (λ o, set_depending (depending o ++ [length (w_jobs w)]) o)
                   (w_jobs w ++ [new_job a (length (w_jobs w))])) w).
  - intros w1 ->.
    erewrite (for_update _ _ (λ _, True)).
    + done.
    + intros w2 d j Hj _. unfold modify_job. by rewrite Hj.
    + rewrite (HE _). apply NoDup_elements.
    + intros d Hd. rewrite (HE _) in Hd. apply elem_of_elements in Hd.
      apply Hb in Hd. simpl. rewrite lookup_app_l by done.
      destruct (lookup_lt_is_Some_2 (w_jobs w) d Hd) as [j Hj]. eauto.
  - intros _. apply hoare_ret. intros w1 ->.
    apply (sys_inv_step w); [done| | | |done|done].
    + apply dag_inv_new; [by destruct Hw|done|apply HE].
    + apply created_new; [done|apply HE|apply Hw].
    + apply grow_new; [done|apply HE].
Qed.

(** *** The removal of a job from the DAG keeps the invariant *)

Lemma list_remove_Some {A} `{EqDecision A} (x : A) l :
  x ∈ l → ∃ l', list_remove x l = Some l'.
Proof.
  induction l as [|y l IH]; [by intros ?%elem_of_nil|].
  intros Hx. simpl. case_decide; [by eexists|].
  destruct IH as [l' Hl']; [by apply elem_of_cons in Hx as [?|?]|].
  rewrite Hl'. by eexists.
Qed.

Lemma list_remove_elem {A} `{EqDecision A} (x : A) l l' :
  list_remove x l = Some l' → NoDup l →
  NoDup l' ∧ ∀ y, y ∈ l' ↔ y ∈ l ∧ y ≠ x.
Proof.
  revert l'. induction l as [|z l IH]; intros l'; [done|]. simpl.
  intros Hl Hnd. apply NoDup_cons in Hnd as [Hz Hnd]. case_decide as Hxz.
  - injection Hl as <-. subst. split; [done|]. intros y. rewrite elem_of_cons.
    split; [intros Hy; split; [by right|by intros ->]|naive_solver].
  - destruct (list_remove x l) as [l''|]; [|done]. simpl in Hl. injection Hl as <-.
    destruct (IH l'' eq_refl Hnd) as [Hnd'' Hiff]. split.
    + apply NoDup_cons. split; [|done]. rewrite Hiff. naive_solver.
    + intros y. rewrite !elem_of_cons, Hiff. naive_solver.
Qed.

Lemma sys_inv_depends_remove_nonlive job self :
  preserves (λ w, sys_inv w ∧ nonlive w self) (depends_remove job self).
Proof.
  apply hoare_depends_remove; [|done]. intros w j [Hw Hf] Hj Hin. split.
  - pose proof (dag_done w (proj1 Hw) job j Hj) as Hdone.
    apply (sys_inv_upd w job j); try done; simpl.
    + set_solver.
    + intros Hflag. rewrite (Hdone Hflag). set_solver.
    + intros b Hb Hnb.
      assert (b = self) as ->
        by (destruct (decide (b = self)); [done|]; exfalso; apply Hnb; set_solver).
      by apply not_live_nonlive.
  - eapply persistent_nonlive; [|done].
    apply (grow_upd w job j); auto. simpl. set_solver.
Qed.

Section Splice.
Context (w : World) (self : JobId) (j : Job) (l1 : list JobId).
Let g1 := λ x : Job, set_depending (remove_first self (depending x)) x.
Let g2 := λ x : Job, set_depends (depends x ∖ {[self]}) x.
Let last := set_ignore true (set_depends ∅ j).
Let w2 := set_jobs (update_jobs (depending j) g2 (update_jobs l1 g1 (w_jobs w))) w.
Let w3 := upd (upd w2 self (set_depends ∅ j)) self last.
Hypothesis Hdag : dag_inv w.
Hypothesis Hj : w_jobs w !! self = Some j.
Hypothesis Hfin : is_finished j = false.
Hypothesis Hign : ignore j = false.
Hypothesis Hperm : l1 ≡ₚ elements (depends j).

Lemma splice_live : live w self.
Proof using Hj Hfin Hign. by exists j. Qed.

Lemma splice_self_depends : self ∉ depends j.
Proof using Hdag Hj.
  intros H. assert (self < self)%nat; [|lia].
  apply (dag_order w Hdag self self). by erewrite job_depends_lookup.
Qed.

Lemma splice_self_depending : self ∉ depending j.
Proof using Hdag Hj Hfin Hign.
  intros H. apply splice_self_depends.
  erewrite <- (job_depends_lookup w self) by done.
  apply (dag_bwd w Hdag); [apply splice_live|]. by erewrite job_depending_lookup.
Qed.

Lemma splice_l1 k : k ∈ l1 ↔ k ∈ depends j.
Proof using Hperm. rewrite Hperm. apply elem_of_elements. Qed.

Lemma splice_lookup2 k :
  w_jobs w2 !! k
  = (λ x, (if decide (k ∈ depending j) then g2 else id)
            ((if decide (k ∈ depends j) then g1 else id) x)) <$> w_jobs w !! k.
Proof using Hperm.
  unfold w2. simpl. rewrite !lookup_update_jobs.
  destruct (w_jobs w !! k) as [x|]; simpl; [|done]. f_equal.
  destruct (decide (k ∈ l1)) as [H|H]; rewrite splice_l1 in H.
  - rewrite (decide_True _ _ H). by destruct (decide (k ∈ depending j)).
  - rewrite (decide_False _ _ H). by destruct (decide (k ∈ depending j)).
Qed.

Lemma splice_lookup2_self : w_jobs w2 !! self = Some j.
Proof using Hdag Hj Hfin Hign Hperm.
  rewrite splice_lookup2, Hj. simpl.
  rewrite (decide_False _ _ splice_self_depends).
  by rewrite (decide_False _ _ splice_self_depending).
Qed.

Lemma splice_lookup3 k :
  w_jobs w3 !! k
  = if decide (k = self) then Some last
    else (λ x, (if decide (k ∈ depending j) then g2 else id)
                 ((if decide (k ∈ depends j) then g1 else id) x)) <$> w_jobs w !! k.
Proof using Hdag Hj Hfin Hign Hperm.
  unfold w3. erewrite lookup_upd; [|erewrite lookup_upd by apply splice_lookup2_self;
                                    by rewrite decide_True].
  case_decide; [done|].
  erewrite lookup_upd by apply splice_lookup2_self. rewrite decide_False by done.
  apply splice_lookup2.
Qed.

Lemma splice_depends k b :
  b ∈ job_depends w3 k ↔ k ≠ self ∧ b ≠ self ∧ b ∈ job_depends w k.
Proof using Hdag Hj Hfin Hign Hperm.
  rewrite !job_depends_elem, splice_lookup3. case_decide as Hk.
  - subst. split; [|naive_solver]. intros (x & [= <-] & Hb). simpl in Hb. set_solver.
  - destruct (w_jobs w !! k) as [x|] eqn:Hx; simpl; [|naive_solver].
    assert (depends ((if decide (k ∈ depends j) then g1 else id) x) = depends x) as Hg1
      by (by destruct (decide (k ∈ depends j))).
    split.
    + intros (y & [= <-] & Hb). split; [done|].
      destruct (decide (k ∈ depending j)) as [Hin|Hin]; simpl in Hb; rewrite Hg1 in Hb.
      * split; [set_solver|]. exists x. split; [done|set_solver].
      * split; [|by exists x]. intros ->. apply Hin.
        erewrite <- (job_depending_lookup w self) by done.
        apply (dag_fwd w Hdag). by erewrite job_depends_lookup.
    + intros (_ & Hb & y & [= <-] & Hin). eexists. split; [done|].
      destruct (decide (k ∈ depending j)); simpl; rewrite Hg1; set_solver.
Qed.

Lemma splice_depending k :
  job_depending w3 k
  = if decide (k ∈ depends j) then remove_first self (job_depending w k)
    else job_depending w k.
Proof using Hdag Hj Hfin Hign Hperm.
  unfold job_depending at 1. rewrite splice_lookup3. case_decide as Hk.
  - subst. rewrite (decide_False _ _ splice_self_depends). simpl.
    by erewrite job_depending_lookup.
  - unfold job_depending. destruct (w_jobs w !! k) as [x|] eqn:Hx; simpl.
    + destruct (decide (k ∈ depending j)), (decide (k ∈ depends j)); done.
    + by destruct (decide (k ∈ depends j)).
Qed.

Lemma splice_depending_elem k x :
  x ∈ job_depending w3 k ↔
    x ∈ job_depending w k ∧ (k ∈ depends j → x ≠ self).
Proof using Hdag Hj Hfin Hign Hperm.
  rewrite splice_depending. destruct (decide (k ∈ depends j)) as [Hk|Hk]; [|naive_solver].
  assert (self ∈ job_depending w k) as Hin.
  { apply (dag_fwd w Hdag). by erewrite job_depends_lookup. }
  destruct (list_remove_Some self _ Hin) as [l' Hl'].
  destruct (list_remove_elem self _ l' Hl' (dag_nodup w Hdag k)) as [_ Hiff].
  unfold remove_first. rewrite Hl'. simpl. rewrite Hiff. naive_solver.
Qed.

Lemma splice_nodup k : NoDup (job_depending w3 k).
Proof using Hdag Hj Hfin Hign Hperm.
  rewrite splice_depending. destruct (decide (k ∈ depends j)) as [Hk|Hk];
    [|apply (dag_nodup w Hdag)].
  assert (self ∈ job_depending w k) as Hin.
  { apply (dag_fwd w Hdag). by erewrite job_depends_lookup. }
  destruct (list_remove_Some self _ Hin) as [l' Hl'].
  destruct (list_remove_elem self _ l' Hl' (dag_nodup w Hdag k)) as [Hnd _].
  unfold remove_first. by rewrite Hl'.
Qed.

Lemma splice_live3 k : live w3 k ↔ k ≠ self ∧ live w k.
Proof using Hdag Hj Hfin Hign Hperm.
  unfold live. rewrite splice_lookup3. case_decide as Hk.
  - subst. split; [|naive_solver]. by intros (x & [= <-] & _ & ?).
  - destruct (w_jobs w !! k) as [x|]; simpl; [|naive_solver].
    split.
    + intros (y & [= <-] & Hy). split; [done|]. exists x. split; [done|].
      by destruct (decide (k ∈ depending j)), (decide (k ∈ depends j)).
    + intros (_ & y & [= <-] & Hy). eexists. split; [done|].
      by destruct (decide (k ∈ depending j)), (decide (k ∈ depends j)).
Qed.

Lemma dag_inv_splice : dag_inv w3.
Proof using Hdag Hj Hfin Hign Hperm.
  split.
  - intros a b. rewrite splice_depends, splice_depending_elem.
    intros (Ha & Hb & Hin). split; [by apply (dag_fwd w Hdag)|]. by intros _.
  - intros a b. rewrite splice_live3, splice_depending_elem, splice_depends.
    intros [Hb Hl] [Hin Hne].
    pose proof (dag_bwd w Hdag a b Hl Hin) as Hd. split_and!; [|done..].
    intros ->. apply Hne; [|done]. by erewrite job_depends_lookup in Hd.
  - apply splice_nodup.
  - intros a b. rewrite splice_depending_elem. intros [Hin%(dag_bound w Hdag) _].
    unfold w3. rewrite !length_upd. unfold w2. simpl.
    by rewrite !length_update_jobs.
  - intros a b. rewrite splice_depends. intros (_ & _ & Hin).
    by apply (dag_order w Hdag).
  - intros k x. rewrite splice_lookup3. case_decide.
    + by intros [= <-].
    + destruct (w_jobs w !! k) as [y|] eqn:Hy; simpl; [|done].
      intros [= <-]. pose proof (dag_done w Hdag k y Hy) as Hd.
      destruct (decide (k ∈ depending j)), (decide (k ∈ depends j)); simpl;
        intros Hf; rewrite (Hd Hf); set_solver.
  - intros k x. rewrite splice_lookup3. case_decide.
    + intros [= <-]. subst. simpl. by apply (dag_id w Hdag).
    + destruct (w_jobs w !! k) as [y|] eqn:Hy; simpl; [|done].
      intros [= <-]. pose proof (dag_id w Hdag k y Hy).
      by destruct (decide (k ∈ depending j)), (decide (k ∈ depends j)).
Qed.

Lemma created_splice : created_edges w → created_edges w3.
Proof using Hdag Hj Hfin Hign Hperm.
  intros Hcr k x b. rewrite splice_lookup3, splice_depending_elem. case_decide as Hk.
  - by intros [= <-].
  - destruct (w_jobs w !! k) as [y|] eqn:Hy; simpl; [|done].
    intros [= <-] Hg Hb. split; [|by intros _].
    apply (Hcr k y b Hy).
    + by destruct (decide (k ∈ depending j)), (decide (k ∈ depends j)).
    + by destruct (decide (k ∈ depending j)), (decide (k ∈ depends j)).
Qed.

Lemma grow_splice : grow w w3.
Proof using Hdag Hj Hfin Hign Hperm.
  intros k x Hx. rewrite splice_lookup3. case_decide.
  - subst. assert (x = j) as -> by congruence. eexists. split; [done|].
    simpl. split_and!; [done|set_solver|by rewrite Hfin|done].
  - rewrite Hx. simpl. eexists. split; [done|].
    destruct (decide (k ∈ depending j)), (decide (k ∈ depends j)); simpl;
      split_and!; auto; set_solver.
Qed.
End Splice.

Lemma bind_Ok {A B} (m : M A) (k : A → M B) w a w' :
  m w = Ok a w' → bind m k w = k a w'.
Proof. intros H. unfold bind. by rewrite H. Qed.

Lemma bind_Ok_inv {A B} (m : M A) (k : A → M B) w b w' :
  bind m k w = Ok b w' → ∃ a w1, m w = Ok a w1 ∧ k a w1 = Ok b w'.
Proof. unfold bind. destruct (m w) as [a w1| |]; [|done..]. intros H. by exists a, w1. Qed.

Lemma depending_remove_Ok d self w x :
  w_jobs w !! d = Some x → self ∈ depending x →
  depending_remove d self w
  = Ok tt (upd w d (set_depending (remove_first self (depending x)) x)).
Proof.
  intros Hx Hin. unfold depending_remove, bind, get_job, modify_job, remove_first.
  rewrite Hx. destruct (list_remove_Some self _ Hin) as [l' ->]. simpl.
  by rewrite Hx.
Qed.

Lemma depends_remove_Ok d self w x :
  w_jobs w !! d = Some x → self ∈ depends x →
  depends_remove d self w = Ok tt (upd w d (set_depends (depends x ∖ {[self]}) x)).
Proof.
  intros Hx Hin. unfold depends_remove, bind, get_job, modify_job.
  rewrite Hx. rewrite bool_decide_eq_true_2 by done. by rewrite Hx.
Qed.

Lemma set_iter_empty E : set_iter_ok E → set_iter E ∅ = [].
Proof.
  intros HE. apply Permutation_nil_r. by rewrite (HE ∅), elements_empty.
Qed.

(** [remove_from_dag] on a job that is still live: both loops run to their
    end. *)
Lemma remove_from_dag_live E self w j :
  set_iter_ok E → dag_inv w →
  w_jobs w !! self = Some j → is_finished j = false → ignore j = false →
  remove_from_dag E self w
  = Ok tt (upd (upd (set_jobs
       (update_jobs (depending j) (λ x, set_depends (depends x ∖ {[self]}) x)
          (update_jobs (set_iter E (depends j))
             (λ x, set_depending (remove_first self (depending x)) x) (w_jobs w))) w)
       self (set_depends ∅ j)) self (set_ignore true (set_depends ∅ j))).
Proof.
  intros HE Hdag Hj Hfin Hign. unfold remove_from_dag.
  erewrite bind_Ok by (unfold get_job; by rewrite Hj).
  erewrite bind_Ok; cycle 1.
  { apply (for_update _ (λ x, set_depending (remove_first self (depending x)) x)
                    (λ x, self ∈ depending x)).
    - intros. by apply depending_remove_Ok.
    - rewrite (HE _). apply NoDup_elements.
    - intros d Hd. rewrite (HE _) in Hd. apply elem_of_elements in Hd.
      assert (self ∈ job_depending w d) as Hin
        by (apply (dag_fwd w Hdag); by erewrite job_depends_lookup).
      apply job_depending_elem in Hin as (x & Hx & Hin). eauto. }
  set (w1 := set_jobs _ w).
  assert (∀ k, w_jobs w1 !! k
               = (λ x, if decide (k ∈ set_iter E (depends j))
                       then set_depending (remove_first self (depending x)) x else x)
                   <$> w_jobs w !! k) as Hw1
    by (intros k; unfold w1; simpl; apply lookup_update_jobs).
  assert (w_jobs w1 !! self = Some j) as Hj1.
  { rewrite Hw1, Hj. simpl. rewrite decide_False; [done|].
    rewrite (HE _), elem_of_elements. by eapply splice_self_depends. }
  erewrite bind_Ok by (unfold get_job; by rewrite Hj1).
  erewrite bind_Ok; cycle 1.
  { apply (for_update _ (λ x, set_depends (depends x ∖ {[self]}) x)
                    (λ x, self ∈ depends x)).
    - intros. by apply depends_remove_Ok.
    - rewrite <- (job_depending_lookup w self j Hj). apply (dag_nodup w Hdag).
    - intros d Hd.
      assert (self ∈ job_depends w d) as Hin.
      { apply (dag_bwd w Hdag); [by exists j|]. by erewrite job_depending_lookup. }
      apply job_depends_elem in Hin as (x & Hx & Hin). rewrite Hw1, Hx. simpl.
      eexists. split; [done|]. by destruct (decide (d ∈ set_iter E (depends j))). }
  set (w2 := set_jobs _ w1).
  assert (w_jobs w2 !! self = Some j) as Hj2.
  { assert (∀ k, w_jobs w2 !! k
                   = (λ x, if decide (k ∈ depending j)
                           then set_depends (depends x ∖ {[self]}) x else x)
                       <$> w_jobs w1 !! k) as Hw2
      by (intros k; apply lookup_update_jobs).
    rewrite Hw2, Hj1. simpl.
    rewrite decide_False; [done|]. by eapply splice_self_depending. }
  unfold modify_job at 1. erewrite bind_Ok by (by rewrite Hj2).
  unfold modify_job. simpl.
  rewrite list_lookup_insert_eq by (by eapply lookup_lt_Some).
  f_equal.
Qed.

Lemma sys_inv_remove_nonlive self :
  hoare (λ w, sys_inv w ∧ nonlive w self)
        (do j0 <- get_job self;
         for_ (depending j0) (λ d, depends_remove d self);;
         modify_job self (set_depends ∅);;
         modify_job self (set_ignore true))
        (λ _, sys_inv) (λ _, sys_inv).
Proof.
  eapply hoare_bind with (R := λ _ w, sys_inv w ∧ nonlive w self);
    [by apply hoare_get_job|].
  intros j0. cbv beta.
  eapply hoare_bind.
  { eapply hoare_conseq with (P' := λ w, sys_inv w ∧ nonlive w self)
                             (Q' := λ _ w, sys_inv w ∧ nonlive w self)
                             (X' := λ _ w, sys_inv w ∧ nonlive w self)
                             (Q := λ _ w, sys_inv w ∧ nonlive w self).
    - apply preserves_for. intros d _. apply sys_inv_depends_remove_nonlive.
    - by intros ? [??].
    - by intros ?? [??].
    - by intros ?? [??]. }
  intros ?. cbv beta.
  eapply hoare_bind with (R := λ _ w, sys_inv w ∧ ready w self).
  - apply hoare_modify_job. intros w x [Hw (x' & Hx' & Hflag)] Hx.
    assert (x' = x) as -> by congruence.
    pose proof (dag_done w (proj1 Hw) self x Hx Hflag) as Hd. split.
    + apply (sys_inv_upd w self x); try done; simpl; auto. set_solver.
    + exists (set_depends ∅ x). split; [|done].
      simpl. apply list_lookup_insert_eq. by eapply lookup_lt_Some.
  - intros _. apply hoare_modify_job. intros w x [Hw (x' & Hx' & Hd)] Hx.
    assert (x' = x) as -> by congruence.
    apply (sys_inv_upd w self x); try done; simpl; auto.
Qed.

Lemma sys_inv_remove_from_dag E self :
  set_iter_ok E → preserves sys_inv (remove_from_dag E self).
Proof.
  intros HE w Hw. destruct (w_jobs w !! self) as [j|] eqn:Hj;
    [|by unfold remove_from_dag, bind, get_job; rewrite Hj].
  destruct (is_finished j) eqn:Hfin, (ignore j) eqn:Hign.
  4: { erewrite remove_from_dag_live by (done || apply Hw).
       apply (sys_inv_step w); [done| | | |done|done].
       - by apply dag_inv_splice; [apply Hw|..|apply HE].
       - by apply created_splice; [apply Hw|..|apply HE|apply Hw].
       - by apply grow_splice; [apply Hw|..|apply HE]. }
  all: assert (nonlive w self) as Hnl by (exists j; rewrite Hfin, Hign; auto).
  all: assert (depends j = ∅) as Hd
         by (apply (dag_done w (proj1 Hw) self j Hj); rewrite Hfin, Hign; auto).
  all: unfold remove_from_dag.
  all: erewrite bind_Ok by (unfold get_job; by rewrite Hj).
  all: rewrite Hd, set_iter_empty by done.
  all: apply (sys_inv_remove_nonlive self w (conj Hw Hnl)).
Qed.

(** *** The invariant along [Job.finished] and [Job.run] *)

Lemma preserves_and {A} (I J : World → Prop) (m : M A) :
  preserves I m → preserves J m → preserves (λ w, I w ∧ J w) m.
Proof. intros HI HJ. by apply hoare_and. Qed.

Create HintDb sys_db.
#[export] Hint Resolve sys_inv___init__ sys_inv_remove_from_dag : sys_db.

(** A leaf of a derivation for [sys_inv] together with a persistent
    property [P]. *)
Ltac sys_leaf HP :=
  first
    [ apply benign_preserves;
      [ solve [auto with benign_db]
      | apply stable_and; [apply stable_sys_inv|apply persistent_stable, HP] ]
    | apply preserves_and;
      [ solve [auto with sys_db]
      | apply monotone_preserves; [solve [auto with monotone_db]|exact HP] ] ].

Section Sys.
Context (E : Externals) (HE : set_iter_ok E).
Context (P : World → Prop) (HP : persistent P).
Local Hint Extern 0 (set_iter_ok _) => exact HE : sys_db.

Lemma sys_replace_job self out :
  preserves (λ w, sys_inv w ∧ P w) (replace_job E self out).
Proof using HE HP. unfold replace_job. pres ltac:(sys_leaf HP). Qed.

Lemma sys_handle_dynamic_input self we jobs :
  preserves (λ w, sys_inv w ∧ P w) (handle_dynamic_input E self we jobs).
Proof using HE HP.
  unfold handle_dynamic_input.
  pres ltac:(first [apply sys_replace_job | sys_leaf HP]).
Qed.

Lemma sys_expand_ancestor we job st :
  preserves (λ w, sys_inv w ∧ P w) (expand_ancestor E we job st).
Proof using HE HP.
  unfold expand_ancestor.
  pres ltac:(first [apply sys_handle_dynamic_input | sys_leaf HP]).
Qed.

Lemma preserves_ancestors_loop {T} (I : World → Prop) fuel queue visited
    (body : JobId → T → M T) acc :
  (∀ job acc, preserves I (body job acc)) →
  preserves I (ancestors_loop fuel queue visited body acc).
Proof.
  intros Hbody. revert queue visited acc.
  induction fuel as [|fuel IH]; intros queue visited acc;
    destruct queue as [|job queue]; simpl;
    pres ltac:(first [by apply IH | by apply Hbody]).
Qed.
End Sys.

Section SysFinished.
Context (E : Externals) (HE : set_iter_ok E) (self : JobId).
Let I := λ w, sys_inv w ∧ job_is_finished w self.
Let HP := persistent_job_is_finished self.

Lemma sys_dynamic_new_jobs fuel : preserves I (dynamic_new_jobs E fuel self).
Proof using HE.
  unfold dynamic_new_jobs.
  pres ltac:(first
    [ apply preserves_ancestors_loop; intros; by apply sys_expand_ancestor
    | apply sys_inv_depends_remove
    | sys_leaf HP ]).
Qed.

Lemma sys_handle_dynamic_output fuel : preserves I (handle_dynamic_output E fuel self).
Proof using HE.
  unfold handle_dynamic_output.
  pres ltac:(first [apply sys_dynamic_new_jobs | sys_leaf HP]).
Qed.

(** [Job.finished] on a job that depends on nothing. *)
Lemma sys_finished fuel future :
  hoare (λ w, sys_inv w ∧ ready w self) (finished E fuel self future)
        (λ _, sys_inv) (λ _, sys_inv).
Proof using HE.
  unfold finished.
  eapply hoare_bind; [apply sys_inv_set_is_finished|]. intros ?.
  eapply hoare_conseq with (P' := I) (Q' := λ _, I) (X' := λ _, I);
    [|done|by intros ?? [??]..].
  pres ltac:(first
    [ apply sys_handle_dynamic_output
    | apply sys_inv_depends_remove
    | sys_leaf HP ]).
Qed.
End SysFinished.

Lemma hoare_seq_pres {A B} (I J : World → Prop) (m : M A) (k : A → M B) :
  (∀ w, I w → J w) → preserves I m →
  (∀ a, hoare I (k a) (λ _, J) (λ _, J)) →
  hoare I (bind m k) (λ _, J) (λ _, J).
Proof.
  intros HIJ Hm Hk. eapply hoare_bind; [|apply Hk].
  eapply hoare_conseq; [apply Hm|done|done|]. intros ?. apply HIJ.
Qed.

(** A job that depends on nothing and has not been replaced: the jobs it
    was created to depend on are no longer live. *)
Lemma ready_settled w self : sys_inv w → ready w self → settled w self.
Proof.
  intros (Hdag & _ & _ & Hcr) (x & Hx & Hd). exists x. split; [done|].
  destruct (ignore x) eqn:Hg; [by left|]. right. intros b Hb.
  pose proof (Hcr self x b Hx Hg Hb) as Hin.
  pose proof Hin as (y & Hy & _)%job_depending_elem.
  destruct (live_or_nonlive w b y Hy) as [Hl|Hnl]; [|done].
  pose proof (dag_bwd w Hdag self b Hl Hin) as Hdep.
  erewrite job_depends_lookup in Hdep by done. set_solver.
Qed.

Lemma sys_inv_emit_run w self :
  sys_inv w → sys_inv (emit (EvRun self ∅) w).
Proof.
  intros (Hdag & Ht & Hr & Hcr). split_and!.
  - eapply same_dag_inv; [|done]. by apply same_dag_jobs.
  - intros j d. simpl. intros [?|[= _ <-]%list_elem_of_singleton]%elem_of_app; [|done].
    by eapply Ht.
  - done.
  - done.
Qed.

Lemma stable_sys_ready self : stable (λ w, sys_inv w ∧ ready w self).
Proof. apply stable_and; [apply stable_sys_inv|apply persistent_stable, persistent_ready]. Qed.

Ltac run_steps self :=
  repeat (lazymatch goal with |- hoare _ (bind _ _) _ _ => idtac end;
          apply hoare_seq_pres;
          [ by intros ? [??]
          | solve [pres ltac:(apply benign_preserves;
                       [solve [auto with benign_db]|apply (stable_sys_ready self)])]
          | intros ? ]).

(** [Job.run] on a job that depends on nothing. *)
Lemma sys_run E fuel self run_func :
  set_iter_ok E →
  hoare (λ w, sys_inv w ∧ ready w self) (run_func self) (λ _, sys_inv) (λ _, sys_inv) →
  hoare (λ w, sys_inv w ∧ ready w self) (run E fuel self run_func)
        (λ _, sys_inv) (λ _, sys_inv).
Proof.
  intros HE Hrun. unfold run.
  eapply hoare_bind with (R := λ j w, (sys_inv w ∧ ready w self) ∧ depends j = ∅).
  { apply hoare_get_job. intros w x [Hw (x' & Hx' & Hd)] Hx.
    assert (x' = x) as -> by congruence. split; [|done]. split; [done|by exists x]. }
  intros j. eapply hoare_bind with (R := λ _ w, sys_inv w ∧ ready w self).
  { apply hoare_modify. intros w [[Hw Hr] ->]. split; [by apply sys_inv_emit_run|].
    destruct Hr as (x & Hx & Hd). by exists x. }
  intros ?.
  destruct (negb (needrun (init j)) || pseudo (init j) || ignore j);
    [by apply sys_finished|].
  destruct (dryrun (init j)).
  { run_steps self. by apply sys_finished. }
  destruct (touch (init j)).
  { run_steps self. by apply sys_finished. }
  run_steps self. apply Hrun.
Qed.

(** ** The schedulers keep the invariant *)

Lemma py_index_elem {A} (l : list A) k x : py_index l k = Some x → x ∈ l.
Proof.
  unfold py_index. repeat case_decide; [| |done]; intros Hx; by eapply list_elem_of_lookup_2.
Qed.

Lemma knapsack_solution_subset jobs K i j sol r :
  knapsack_solution jobs K i j sol = Some r →
  r ⊆ sol ∪ list_to_set (jobid <$> jobs).
Proof.
  revert j sol. induction i as [|i IH]; intros j sol; cbn [knapsack_solution].
  - intros [= <-]. set_solver.
  - destruct (K_get K (Z.of_nat (S i)) j) as [a|]; cbn [mbind option_bind]; [|done].
    destruct (K_get K (Z.of_nat (S i) - 1) j) as [b|]; cbn [mbind option_bind]; [|done].
    case_decide; [|apply IH].
    destruct (py_index jobs (Z.of_nat (S i) - 1)) as [job|] eqn:Hjob;
      cbn [mbind option_bind]; [|done].
    intros Hr%IH. apply py_index_elem in Hjob.
    assert (jobid job ∈ (list_to_set (jobid <$> jobs) : gset nat)).
    { apply elem_of_list_to_set. by apply list_elem_of_fmap_2. }
    set_solver.
Qed.

Lemma knapsack_subset cores jobs r :
  _knapsack cores jobs = Some r → r ⊆ list_to_set (jobid <$> jobs).
Proof.
  unfold _knapsack. destruct (knapsack_table _ _ _) as [K|]; simpl; [|done].
  intros Hr%knapsack_solution_subset. set_solver.
Qed.

Lemma sys_Knapsack_run_job job :
  hoare (λ w, sys_inv w ∧ ready w job) (Knapsack_run_job job)
        (λ _, sys_inv) (λ _, sys_inv).
Proof.
  unfold Knapsack_run_job.
  apply hoare_seq_pres; [by intros ? [??]| |intros ?].
  - apply benign_preserves; [auto with benign_db|apply stable_sys_ready].
  - apply hoare_modify_knapsack. intros w s [(Hdag & Ht & Hr & Hcr) Hjob] Hs.
    split_and!.
    + eapply same_dag_inv; [|done]. by apply same_dag_jobs.
    + done.
    + intros j. unfold running. simpl. intros [Hj| ->%list_elem_of_singleton]%elem_of_app.
      * destruct (Hr j) as (x & Hx & Hd); [by unfold running; rewrite Hs|]. by exists x.
      * destruct Hjob as (x & Hx & Hd). by exists x.
    + done.
Qed.

Lemma sys_Cluster_run_job job :
  hoare (λ w, sys_inv w ∧ ready w job) (Cluster_run_job job)
        (λ _, sys_inv) (λ _, sys_inv).
Proof.
  unfold Cluster_run_job.
  run_steps job.
  - apply hoare_modify_cluster. intros w s [(Hdag & Ht & Hr & Hcr) Hjob] Hs.
    split_and!.
    + eapply same_dag_inv; [|done]. by apply same_dag_jobs.
    + done.
    + intros j. unfold running. simpl. rewrite fmap_app.
      intros [Hj| ->%list_elem_of_singleton]%elem_of_app.
      * destruct (Hr j) as (x & Hx & Hd); [by unfold running; rewrite Hs|]. by exists x.
      * destruct Hjob as (x & Hx & Hd). by exists x.
    + done.
Qed.

Lemma persistent_ready_all (L : list JobId) :
  persistent (λ w, ∀ job, job ∈ L → ready w job).
Proof. intros w w' Hw H job Hjob. eapply persistent_ready; [done|]. by apply H. Qed.

(** A loop that runs ready jobs one after the other. *)
Lemma sys_for_ready (L : list JobId) (body : JobId → M unit) :
  (∀ job, hoare (λ w, sys_inv w ∧ ready w job) (body job) (λ _, sys_inv) (λ _, sys_inv)) →
  (∀ job, monotone (body job)) →
  hoare (λ w, sys_inv w ∧ ∀ job, job ∈ L → ready w job) (for_ L body)
        (λ _, sys_inv) (λ _, sys_inv).
Proof.
  intros Hbody Hmono. induction L as [|job L IH]; simpl.
  - apply hoare_ret. by intros ? [??].
  - eapply hoare_bind; [|intros ?; apply IH].
    eapply hoare_conseq.
    + apply hoare_and; [apply Hbody|].
      apply (Hmono job _ (persistent_ready_all L)).
    + intros w [Hw Hr]. split_and!; [done|apply Hr; by left|].
      intros job' Hjob'. apply Hr. by right.
    + done.
    + by intros ?? [??].
Qed.

Lemma get_jobs_spec (P : World → Prop) l X :
  hoare P (get_jobs l)
        (λ js w, P w ∧ Forall2 (λ id x, w_jobs w !! id = Some x) l js) X.
Proof.
  unfold get_jobs. intros w Hw.
  assert (∀ acc, match fold_ l (λ job acc, do j <- get_job job; ret (acc ++ [j])) acc w with
                 | Ok res w' => w' = w ∧ ∃ js, res = acc ++ js
                     ∧ Forall2 (λ id x, w_jobs w !! id = Some x) l js
                 | Raise _ _ => False
                 | Abort => True
                 end) as H.
  { induction l as [|id l IH]; intros acc; simpl.
    - split; [done|]. exists []. by rewrite app_nil_r.
    - unfold bind at 1. unfold bind at 1. unfold get_job.
      destruct (w_jobs w !! id) as [x|] eqn:Hx; [|done]. simpl.
      specialize (IH (acc ++ [x])).
      destruct (fold_ l _ _ w) as [res w'| |]; [|done..].
      destruct IH as (-> & js & -> & Hjs). split; [done|].
      exists (x :: js). split; [by rewrite <- app_assoc|]. by constructor. }
  specialize (H []). destruct (fold_ l _ [] w) as [res w'| |]; [|done..].
  destruct H as (-> & js & -> & Hjs). done.
Qed.

Lemma get_jobs_ids w l js :
  dag_inv w → Forall2 (λ id x, w_jobs w !! id = Some x) l js → jobid <$> js = l.
Proof.
  intros Hdag H. induction H as [|id x l js Hx _ IH]; [done|].
  simpl. f_equal; [|done]. by apply (dag_id w Hdag).
Qed.

Lemma preserves_weaken {A} (I J : World → Prop) (m : M A) :
  preserves I m → (∀ w, I w → J w) → hoare I m (λ _, I) (λ _, J).
Proof. intros Hm HIJ. eapply hoare_conseq; [apply Hm|done|done|]. intros ?. apply HIJ. Qed.

Lemma sys_Knapsack_select job st :
  hoare (λ w, sys_inv w ∧ ∀ x, x ∈ st.1 ∨ x ∈ st.2 → ready w x)
        (Knapsack_select job st)
        (λ st' w, sys_inv w ∧ ∀ x, x ∈ st'.1 ∨ x ∈ st'.2 → ready w x)
        (λ _, sys_inv).
Proof.
  unfold Knapsack_select.
  eapply hoare_bind with
    (R := λ j w, (sys_inv w ∧ ∀ x, x ∈ st.1 ∨ x ∈ st.2 → ready w x)
                 ∧ w_jobs w !! job = Some j).
  { apply hoare_get_job. by intros. }
  intros j. case_bool_decide as Hd.
  { apply hoare_ret. by intros w [??]. }
  assert (stable (λ w, (sys_inv w ∧ ∀ x, x ∈ st.1 ∨ x ∈ st.2 → ready w x)
                       ∧ ready w job)) as Hst.
  { apply stable_and; [apply stable_and; [apply stable_sys_inv|]|];
      apply persistent_stable; [|apply persistent_ready].
    intros w w' Hw H x Hx. eapply persistent_ready; [done|]. by apply H. }
  eapply hoare_pre with
    (P' := λ w, (sys_inv w ∧ ∀ x, x ∈ st.1 ∨ x ∈ st.2 → ready w x) ∧ ready w job);
    [|intros w [H Hj]; split; [done|by exists j]].
  destruct (needrun (init j)).
  - eapply hoare_bind with
      (R := λ _ w, (sys_inv w ∧ ∀ x, x ∈ st.1 ∨ x ∈ st.2 → ready w x) ∧ ready w job).
    + apply preserves_weaken; [|by intros ? [[??]?]].
      pres ltac:(apply benign_preserves; [solve [auto with benign_db]|exact Hst]).
    + intros s. eapply hoare_bind with
        (R := λ _ w, (sys_inv w ∧ ∀ x, x ∈ st.1 ∨ x ∈ st.2 → ready w x) ∧ ready w job).
      * apply preserves_weaken; [|by intros ? [[??]?]].
        pres ltac:(apply benign_preserves; [solve [auto with benign_db]|exact Hst]).
      * intros ?. apply hoare_ret. intros w [[Hw Hr] Hj]. split; [done|]. simpl.
        intros x [[?| ->%list_elem_of_singleton]%elem_of_app|?]; auto.
  - apply hoare_ret. intros w [[Hw Hr] Hj]. split; [done|]. simpl.
    intros x [?|[->%elem_of_singleton|?]%elem_of_union]; auto.
Qed.

Lemma sys_Knapsack_dispatch E fuel job :
  set_iter_ok E →
  hoare (λ w, sys_inv w ∧ ready w job)
        (add_callback job KnapsackFinished;;
         add_error_callback job KnapsackError;;
         run E fuel job Knapsack_run_job)
        (λ _, sys_inv) (λ _, sys_inv).
Proof.
  intros HE. run_steps job. apply sys_run; [done|apply sys_Knapsack_run_job].
Qed.

Lemma monotone_Knapsack_dispatch E fuel job :
  monotone (add_callback job KnapsackFinished;;
            add_error_callback job KnapsackError;;
            run E fuel job Knapsack_run_job).
Proof.
  intros I HI.
  pres ltac:(first [ apply monotone_run; [apply monotone_Knapsack_run_job|exact HI]
                   | monotone_leaf HI ]).
Qed.

Lemma persistent_all_ready (Φ : JobId → Prop) :
  persistent (λ w, ∀ x, Φ x → ready w x).
Proof. intros w w' Hw H x Hx. eapply persistent_ready; [done|]. by apply H. Qed.

Lemma stable_sys_all_ready (Φ : JobId → Prop) :
  stable (λ w, sys_inv w ∧ ∀ x, Φ x → ready w x).
Proof.
  apply stable_and; [apply stable_sys_inv|apply persistent_stable, persistent_all_ready].
Qed.

(** A step that leaves the DAG alone, in front of the rest of a method. *)
Ltac ready_steps Φ :=
  repeat (lazymatch goal with |- hoare _ (bind _ _) _ _ => idtac end;
          apply hoare_seq_pres;
          [ by intros ? [??]
          | solve [pres ltac:(apply benign_preserves;
                       [solve [auto with benign_db]|apply (stable_sys_all_ready Φ)])]
          | intros ? ]).

Lemma elem_of_set_iter E (X : gset JobId) x : set_iter_ok E → x ∈ set_iter E X ↔ x ∈ X.
Proof. intros HE. rewrite (HE X). apply elem_of_elements. Qed.

(** One round of [KnapsackJobScheduler.schedule] keeps the invariant. *)
Lemma sys_Knapsack_schedule E fuel :
  set_iter_ok E → preserves sys_inv (Knapsack_schedule E fuel).
Proof.
  intros HE. unfold Knapsack_schedule.
  apply preserves_bind;
    [apply benign_preserves; [auto with benign_db|apply stable_sys_inv]|intros _].
  apply preserves_bind; [apply preserves_get_knapsack|intros s].
  destruct (ks_errors s).
  { pres ltac:(apply benign_preserves; [solve [auto with benign_db]|apply stable_sys_inv]). }
  case_bool_decide.
  { pres ltac:(apply benign_preserves; [solve [auto with benign_db]|apply stable_sys_inv]). }
  eapply hoare_bind with
    (R := λ st w, sys_inv w ∧ ∀ x, x ∈ st.1 ∨ x ∈ st.2 → ready w x).
  { eapply hoare_conseq with
      (P' := λ w, sys_inv w ∧ ∀ x, x ∈ ([] : list JobId) ∨ x ∈ (∅ : gset JobId) → ready w x)
      (Q' := λ st w, sys_inv w ∧ ∀ x, x ∈ st.1 ∨ x ∈ st.2 → ready w x)
      (X' := λ _, sys_inv).
    - apply (hoare_fold (λ _ st w, sys_inv w ∧ ∀ x, x ∈ st.1 ∨ x ∈ st.2 → ready w x)
                        _ _ ([], ∅)).
      intros x rest acc. apply sys_Knapsack_select.
    - intros w Hw. split; [done|]. intros x [?%elem_of_nil|?%elem_of_empty]; done.
    - done.
    - done. }
  intros st. cbv zeta.
  eapply hoare_bind; [apply get_jobs_spec|]. intros js.
  eapply hoare_bind with
    (R := λ _ w, (sys_inv w ∧ ∀ x, x ∈ st.1 ∨ x ∈ st.2 → ready w x)
                 ∧ Forall2 (λ id x, w_jobs w !! id = Some x) st.1 js).
  { apply hoare_get_knapsack. by intros. }
  intros s'.
  eapply hoare_bind with
    (R := λ run_ w, sys_inv w ∧ ∀ x, x ∈ run_ ∨ x ∈ st.2 → ready w x).
  { destruct (_knapsack (ks_cores s') js) as [r|] eqn:Hr.
    - apply hoare_ret. intros w [[Hw Hready] Hjs]. split; [done|].
      intros x [Hx|Hx]; apply Hready; [left|by right].
      apply knapsack_subset in Hr.
      rewrite (get_jobs_ids w st.1 js) in Hr by (done || apply Hw).
      apply Hr in Hx. by apply elem_of_list_to_set in Hx.
    - apply hoare_raise. by intros w [[??]?]. }
  intros run_.
  ready_steps (λ x, x ∈ run_ ∨ x ∈ st.2).
  eapply hoare_bind with (R := λ _, sys_inv); [|intros ?; by apply hoare_ret].
  eapply hoare_pre.
  - apply sys_for_ready; intros job;
      [by apply sys_Knapsack_dispatch|apply monotone_Knapsack_dispatch].
  - intros w [Hw Hready]. split; [done|]. intros job.
    rewrite elem_of_app, !elem_of_set_iter by done. apply Hready.
Qed.

Lemma sys_Cluster_select job st :
  hoare (λ w, sys_inv w ∧ ∀ x, x ∈ st.1 ∨ x ∈ st.2 → ready w x)
        (Cluster_select job st)
        (λ st' w, sys_inv w ∧ ∀ x, x ∈ st'.1 ∨ x ∈ st'.2 → ready w x)
        (λ _, sys_inv).
Proof.
  unfold Cluster_select.
  eapply hoare_bind with
    (R := λ j w, (sys_inv w ∧ ∀ x, x ∈ st.1 ∨ x ∈ st.2 → ready w x)
                 ∧ w_jobs w !! job = Some j).
  { apply hoare_get_job. by intros. }
  intros j. case_bool_decide as Hd.
  { apply hoare_ret. by intros w [??]. }
  assert (depends j = ∅) as Hd' by (by destruct (decide (depends j = ∅))).
  destruct (needrun (init j)); apply hoare_ret; intros w [[Hw Hr] Hj];
    (split; [done|]); simpl; intros x Hx;
    (destruct (decide (x = job)) as [->|]; [by exists j|]); apply Hr; set_solver.
Qed.

Lemma sys_Cluster_dispatch E fuel job :
  set_iter_ok E →
  hoare (λ w, sys_inv w ∧ ready w job)
        (add_callback job ClusterFinished;;
         run E fuel job Cluster_run_job)
        (λ _, sys_inv) (λ _, sys_inv).
Proof.
  intros HE. run_steps job. apply sys_run; [done|apply sys_Cluster_run_job].
Qed.

Lemma monotone_Cluster_dispatch E fuel job :
  monotone (add_callback job ClusterFinished;;
            run E fuel job Cluster_run_job).
Proof.
  intros I HI.
  pres ltac:(first [ apply monotone_run; [apply monotone_Cluster_run_job|exact HI]
                   | monotone_leaf HI ]).
Qed.

(** One round of [ClusterJobScheduler.schedule] keeps the invariant. *)
Lemma sys_Cluster_schedule E fuel :
  set_iter_ok E → preserves sys_inv (Cluster_schedule E fuel).
Proof.
  intros HE. unfold Cluster_schedule.
  apply preserves_bind;
    [apply benign_preserves; [auto with benign_db|apply stable_sys_inv]|intros _].
  apply preserves_bind; [apply preserves_get_cluster|intros s].
  destruct (cs_error s).
  { pres ltac:(apply benign_preserves; [solve [auto with benign_db]|apply stable_sys_inv]). }
  case_bool_decide.
  { pres ltac:(apply benign_preserves; [solve [auto with benign_db]|apply stable_sys_inv]). }
  eapply hoare_bind with
    (R := λ st w, sys_inv w ∧ ∀ x, x ∈ st.1 ∨ x ∈ st.2 → ready w x).
  { eapply hoare_conseq with
      (P' := λ w, sys_inv w ∧ ∀ x, x ∈ (∅ : gset JobId) ∨ x ∈ (∅ : gset JobId) → ready w x)
      (Q' := λ st w, sys_inv w ∧ ∀ x, x ∈ st.1 ∨ x ∈ st.2 → ready w x)
      (X' := λ _, sys_inv).
    - apply (hoare_fold (λ _ st w, sys_inv w ∧ ∀ x, x ∈ st.1 ∨ x ∈ st.2 → ready w x)
                        _ _ (∅, ∅)).
      intros x rest acc. apply sys_Cluster_select.
    - intros w Hw. split; [done|]. intros x [?%elem_of_empty|?%elem_of_empty]; done.
    - done.
    - done. }
  intros st. cbv zeta.
  ready_steps (λ x, x ∈ st.1 ∨ x ∈ st.2).
  eapply hoare_bind with (R := λ _, sys_inv); [|intros ?; by apply hoare_ret].
  eapply hoare_pre.
  - apply sys_for_ready; intros job;
      [by apply sys_Cluster_dispatch|apply monotone_Cluster_dispatch].
  - intros w [Hw Hready]. split; [done|]. intros job.
    rewrite elem_of_app, !elem_of_set_iter by done. apply Hready.
Qed.

(** ** Every reachable state satisfies the invariant *)

Lemma list_remove_subseteq {A} `{EqDecision A} (x : A) l y :
  y ∈ default l (list_remove x l) → y ∈ l.
Proof.
  induction l as [|z l IH]; [done|]. simpl. case_decide.
  - simpl. by right.
  - destruct (list_remove x l) as [l'|]; simpl in *; [|done].
    rewrite !elem_of_cons. intros [?|?]; auto.
Qed.

Lemma sys_Knapsack_complete E fuel job future :
  set_iter_ok E →
  hoare (λ w, sys_inv w ∧ job ∈ running w) (Knapsack_complete E fuel job future)
        (λ _, sys_inv) (λ _, sys_inv).
Proof.
  intros HE. unfold Knapsack_complete.
  eapply hoare_bind with (R := λ _ w, sys_inv w ∧ ready w job);
    [|intros ?; by apply sys_finished].
  apply hoare_modify_knapsack. intros w s [Hw Hjob] Hs.
  assert (ready w job) as Hr by (by apply Hw).
  eapply (stable_sys_ready job); [|done].
  apply evolve_sched. unfold running. simpl. rewrite Hs.
  intros j. apply list_remove_subseteq.
Qed.

Lemma sys_drop_watcher watcher :
  preserves sys_inv (modify_cluster (drop_watcher watcher)).
Proof.
  apply hoare_modify_cluster. intros w s Hw Hs.
  eapply stable_sys_inv; [|done].
  apply evolve_sched. unfold running. simpl. rewrite Hs.
  intros j (y & -> & Hy%list_remove_subseteq)%list_elem_of_fmap.
  by apply list_elem_of_fmap_2.
Qed.

Lemma sys_Cluster_wait_for_job E fuel job jobfinished jobfailed jobscript :
  set_iter_ok E →
  hoare (λ w, sys_inv w ∧ ready w job)
        (Cluster_wait_for_job E fuel job jobfinished jobfailed jobscript)
        (λ _, sys_inv) (λ _, sys_inv).
Proof.
  intros HE. unfold Cluster_wait_for_job.
  eapply hoare_bind with (R := λ _ w, sys_inv w ∧ ready w job);
    [apply hoare_get; by intros|intros w0].
  case_bool_decide.
  - run_steps job.
    eapply hoare_bind with (R := λ _, sys_inv);
      [by apply sys_finished|intros ?; by apply hoare_ret].
  - eapply hoare_conseq with
      (P' := λ w, sys_inv w ∧ ready w job)
      (Q' := λ _ w, sys_inv w ∧ ready w job)
      (X' := λ _ w, sys_inv w ∧ ready w job); [|done|by intros ?? [??]..].
    pres ltac:(apply benign_preserves;
               [solve [auto with benign_db]|apply (stable_sys_ready job)]).
Qed.

Lemma sys_Cluster_watch E fuel job jobfinished jobfailed jobscript :
  set_iter_ok E →
  hoare (λ w, sys_inv w ∧ job ∈ running w)
        (Cluster_watch E fuel job jobfinished jobfailed jobscript)
        (λ _, sys_inv) (λ _, sys_inv).
Proof.
  intros HE w [Hw Hjob]. unfold Cluster_watch.
  pose proof (sys_Cluster_wait_for_job E fuel job jobfinished jobfailed jobscript HE w)
    as Hwait.
  destruct (Cluster_wait_for_job E fuel job jobfinished jobfailed jobscript w)
    as [[] w'|ex w'|]; [| | |done].
  - apply sys_drop_watcher, Hwait. split; [done|by apply Hw].
  - apply Hwait. split; [done|by apply Hw].
  - pose proof (sys_drop_watcher (job, (jobfinished, (jobfailed, jobscript))) w') as Hdrop.
    destruct (modify_cluster _ w') as [? w''|? w''|]; [| |done];
      apply Hdrop, Hwait; (split; [done|by apply Hw]).
Qed.

Lemma sys_new_scheduler s :
  running (set_sched (Some s) (mkWorld [] [] ∅ (mkWorkflow None None 0 0) None [])) = [] →
  preserves sys_inv (modify (set_sched (Some s))).
Proof.
  intros Hs. apply preserves_modify. intros w Hw.
  eapply stable_sys_inv; [|done]. apply evolve_sched.
  unfold running in *. simpl in *. rewrite Hs. by intros j ?%elem_of_nil.
Qed.

Lemma sys_Knapsack__init__ E jobs : preserves sys_inv (Knapsack__init__ E jobs).
Proof.
  unfold Knapsack__init__.
  pres ltac:(first
    [ by apply sys_new_scheduler
    | apply benign_preserves; [solve [auto with benign_db]|apply stable_sys_inv] ]).
Qed.

Lemma sys_Cluster__init__ E jobs submitcmd :
  preserves sys_inv (Cluster__init__ E jobs submitcmd).
Proof.
  unfold Cluster__init__.
  pres ltac:(first
    [ by apply sys_new_scheduler
    | apply benign_preserves; [solve [auto with benign_db]|apply stable_sys_inv] ]).
Qed.

Lemma sys_inv_start rules fs workflow : sys_inv (mkWorld [] rules fs workflow None []).
Proof.
  split_and!.
  - split.
    + intros a b (x & Hx & _)%job_depends_elem. simpl in Hx; by rewrite ?lookup_nil in Hx.
    + intros a b _ (x & Hx & _)%job_depending_elem. simpl in Hx; by rewrite ?lookup_nil in Hx.
    + intros b. unfold job_depending. simpl. rewrite ?lookup_nil. apply NoDup_nil_2.
    + intros a b (x & Hx & _)%job_depending_elem. simpl in Hx; by rewrite ?lookup_nil in Hx.
    + intros a b (x & Hx & _)%job_depends_elem. simpl in Hx; by rewrite ?lookup_nil in Hx.
    + intros a x Hx. simpl in Hx; by rewrite ?lookup_nil in Hx.
    + intros a x Hx. simpl in Hx; by rewrite ?lookup_nil in Hx.
  - intros j d. simpl. by intros ?%elem_of_nil.
  - intros j. unfold running. simpl. by intros ?%elem_of_nil.
  - intros a x b Hx. simpl in Hx; by rewrite ?lookup_nil in Hx.
Qed.

Lemma hoare_ends {A} (P Q : World → Prop) (m : M A) w b w' :
  hoare P m (λ _, Q) (λ _, Q) → P w → ends (m w) b w' → Q w'.
Proof.
  intros Hm Hw Hends. specialize (Hm w Hw).
  destruct (m w) as [a w1|ex w1|]; inversion Hends; by subst.
Qed.

Lemma reachable_sys_inv E b w : set_iter_ok E → reachable E b w → sys_inv w.
Proof.
  intros HE Hreach.
  induction Hreach as
    [ rules fs workflow
    | b w fs _ IH
    | b b' w w' a _ IH Hends
    | b b' w w' jobs _ IH _ Hends
    | b b' w w' jobs submitcmd _ IH _ Hends
    | b b' w w' s fuel _ IH _ _ _ Hends
    | b b' w w' s fuel job future _ IH Hs Hjob Hends
    | b b' w w' s fuel _ IH _ _ Hends
    | b b' w w' s fuel job jobfinished jobfailed jobscript _ IH Hs Hjob Hends ].
  - apply sys_inv_start.
  - eapply stable_sys_inv; [|done]. by apply evolve_same.
  - eapply hoare_ends; [by apply sys_inv___init__|done..].
  - eapply hoare_ends; [apply sys_Knapsack__init__|done..].
  - eapply hoare_ends; [apply sys_Cluster__init__|done..].
  - eapply hoare_ends; [by apply sys_Knapsack_schedule|done..].
  - eapply hoare_ends; [by apply sys_Knapsack_complete| |done].
    split; [done|]. unfold running. by rewrite Hs.
  - eapply hoare_ends; [by apply sys_Cluster_schedule|done..].
  - eapply hoare_ends; [by apply sys_Cluster_watch| |done].
    split; [done|]. unfold running. rewrite Hs.
    by apply (list_elem_of_fmap_2 fst) in Hjob.
Qed.

(** ** Calls that respect a relation *)

Lemma respects_preserves {A} R (m : M A) I :
  respects R m → closed_under R I → preserves I m.
Proof. intros Hm HI. by apply Hm. Qed.

(** What a call that respects a transitive relation does to one state. *)
Lemma respects_run {A} R (m : M A) w :
  respects R m → (∀ w, R w w) → (∀ w1 w2 w3, R w1 w2 → R w2 w3 → R w1 w3) →
  match m w with
  | Ok _ w' => R w w'
  | Raise _ w' => R w w'
  | Abort => True
  end.
Proof.
  intros Hm Hrefl Htrans.
  apply (Hm (λ w', R w w')); [|apply Hrefl].
  intros w1 w2 H12 H1. by eapply Htrans.
Qed.

Lemma respects_modify R f : (∀ w, R w (f w)) → respects R (modify f).
Proof. intros Hf I HI. apply preserves_modify. intros w Hw. by eapply HI. Qed.

Lemma respects_modify_job R j f :
  (∀ w x, w_jobs w !! j = Some x → R w (upd w j (f x))) → respects R (modify_job j f).
Proof.
  intros Hf I HI. apply hoare_modify_job. intros w x Hw Hx.
  eapply HI; [|done]. by apply Hf.
Qed.

Lemma respects_modify_rule R r f :
  (∀ w x, w_rules w !! r = Some x → R w (set_rules (<[r := f x]> (w_rules w)) w)) →
  respects R (modify_rule r f).
Proof.
  intros Hf I HI. apply hoare_modify_rule. intros w x Hw Hx.
  eapply HI; [|done]. by apply Hf.
Qed.

Lemma respects_modify_knapsack R f :
  (∀ w s, w_scheduler w = Some (Knapsack s) → R w (set_sched (Some (Knapsack (f s))) w)) →
  respects R (modify_knapsack f).
Proof.
  intros Hf I HI. apply hoare_modify_knapsack. intros w s Hw Hs.
  eapply HI; [|done]. by apply Hf.
Qed.

Lemma respects_modify_cluster R f :
  (∀ w s, w_scheduler w = Some (Cluster s) → R w (set_sched (Some (Cluster (f s))) w)) →
  respects R (modify_cluster f).
Proof.
  intros Hf I HI. apply hoare_modify_cluster. intros w s Hw Hs.
  eapply HI; [|done]. by apply Hf.
Qed.

Lemma respects_remove R E f :
  (∀ w fs', R w (emit (EvRemove f) (set_fs fs' w))) → respects R (remove E f).
Proof.
  intros Hf I HI w Hw. unfold remove. destruct (io_remove E (w_fs w) f); [|done].
  eapply HI; [|done]. apply Hf.
Qed.

Lemma respects_depends_remove R job self :
  (∀ w j, w_jobs w !! job = Some j →
          R w (upd w job (set_depends (depends j ∖ {[self]}) j))) →
  respects R (depends_remove job self).
Proof.
  intros Hf I HI. apply hoare_depends_remove; [|done]. intros w j Hw Hj _.
  eapply HI; [|done]. by apply Hf.
Qed.

Lemma respects_depending_remove R job self :
  (∀ w j l, w_jobs w !! job = Some j → R w (upd w job (set_depending l j))) →
  respects R (depending_remove job self).
Proof.
  intros Hf I HI. apply hoare_depending_remove; [|done]. intros w j l Hw Hj _.
  eapply HI; [|done]. by apply Hf.
Qed.

Lemma respects___init__ R E a :
  (∀ w, R w (set_jobs (w_jobs w ++ [new_job a (length (w_jobs w))]) w)) →
  (∀ w j x l, w_jobs w !! j = Some x → R w (upd w j (set_depending l x))) →
  respects R (__init__ E a).
Proof.
  intros Happ Hdep I HI. apply hoare___init__. intros w Hw _.
  eapply hoare_pre with (P' := I).
  - pres ltac:(apply hoare_modify_job; intros w' y Hw' Hy; cbv beta;
               eapply HI; [by apply Hdep|done]).
  - intros ? ->. eapply HI; [|done]. apply Happ.
Qed.

Lemma respects_ancestors_loop {T} R fuel queue visited (body : JobId → T → M T) acc :
  (∀ job acc, respects R (body job acc)) →
  respects R (ancestors_loop fuel queue visited body acc).
Proof.
  intros Hbody I HI. apply preserves_ancestors_loop. intros. by apply Hbody.
Qed.

(** A step that respects [R], its side condition left to [side]. *)
Ltac resp_leaf side :=
  first
    [ apply respects_modify_job; intros; side
    | apply respects_modify_rule; intros; side
    | apply respects_modify_knapsack; intros; side
    | apply respects_modify_cluster; intros; side
    | apply respects_modify; intros; side
    | apply respects_remove; intros; side
    | apply respects_depends_remove; intros; side
    | apply respects_depending_remove; intros; side ].

(** ** Calls that dispatch no job *)

Lemma undispatched_refl w : undispatched w w.
Proof. exists []. split; [by rewrite app_nil_r|]. by intros ?? ?%elem_of_nil. Qed.

Lemma undispatched_same w w' : w_trace w' = w_trace w → undispatched w w'.
Proof. intros H. unfold undispatched. rewrite H. apply undispatched_refl. Qed.

Lemma undispatched_emit w w' e :
  w_trace w' = w_trace w ++ [e] → (∀ j d, e ≠ EvRun j d) → undispatched w w'.
Proof.
  intros H He. exists [e]. split; [done|].
  intros j d ?%list_elem_of_singleton. by eapply He.
Qed.

Lemma evolve_undispatched w w' : evolve w w' → undispatched w w'.
Proof. by intros (_ & _ & _ & _ & H). Qed.

Lemma undispatched_stable I : closed_under undispatched I → stable I.
Proof. intros HI w w' Hw. apply HI. by apply evolve_undispatched. Qed.

Ltac undispatched_side :=
  first [ apply undispatched_same; reflexivity
        | eapply undispatched_emit; [reflexivity|intros ??; discriminate] ].

Ltac undispatched_leaf HI :=
  first
    [ apply benign_preserves;
      [solve [auto with benign_db]|apply undispatched_stable, HI]
    | apply (respects_preserves undispatched);
      [ first [ resp_leaf undispatched_side
              | apply respects___init__; intros; undispatched_side ]
      | exact HI ] ].

Section Undispatched.
Context (E : Externals) (I : World → Prop) (HI : closed_under undispatched I).

Lemma undispatched_remove_from_dag self : preserves I (remove_from_dag E self).
Proof using HI. unfold remove_from_dag. pres ltac:(undispatched_leaf HI). Qed.

Lemma undispatched_replace_job self out : preserves I (replace_job E self out).
Proof using HI.
  unfold replace_job.
  pres ltac:(first [apply undispatched_remove_from_dag | undispatched_leaf HI]).
Qed.

Lemma undispatched_handle_dynamic_input self we jobs :
  preserves I (handle_dynamic_input E self we jobs).
Proof using HI.
  unfold handle_dynamic_input.
  pres ltac:(first [apply undispatched_replace_job | undispatched_leaf HI]).
Qed.

Lemma undispatched_expand_ancestor we job st : preserves I (expand_ancestor E we job st).
Proof using HI.
  unfold expand_ancestor.
  pres ltac:(first [apply undispatched_handle_dynamic_input | undispatched_leaf HI]).
Qed.

Lemma undispatched_handle_dynamic_output fuel self :
  preserves I (handle_dynamic_output E fuel self).
Proof using HI.
  unfold handle_dynamic_output, dynamic_new_jobs.
  pres ltac:(first
    [ apply preserves_ancestors_loop; intros; apply undispatched_expand_ancestor
    | undispatched_leaf HI ]).
Qed.

(** [Job.finished] calls [run] on no job. *)
Lemma undispatched_finished fuel self future : preserves I (finished E fuel self future).
Proof using HI.
  unfold finished.
  pres ltac:(first [apply undispatched_handle_dynamic_output | undispatched_leaf HI]).
Qed.
End Undispatched.

(** ** The order of dispatch in a round of [schedule] (C6)

    The round starts in the state [w0]. *)
Section Round.
Context (E : Externals) (HE : set_iter_ok E) (w0 : World).

Local Abbreviation J := (dispatched_in_order w0).
Local Abbreviation K := (λ w : World, ∀ x, ready w x → settled w0 x).

Lemma closed_dispatched_in_order : closed_under undispatched J.
Proof.
  intros w w' (evs' & Ht' & Hevs') (evs & Ht & Hevs). exists (evs ++ evs'). split.
  - by rewrite Ht', Ht, app_assoc.
  - intros j d [?|Hin]%elem_of_app; [by eapply Hevs|]. by destruct (Hevs' j d).
Qed.

Lemma stable_dispatched_in_order : stable J.
Proof. apply undispatched_stable, closed_dispatched_in_order. Qed.

Lemma stable_ready_settled : stable K.
Proof.
  intros w w' (_ & Hv & _) HK x (y' & Hy' & Hd). apply HK.
  pose proof (Hv x) as Hx. rewrite Hy' in Hx.
  destruct (w_jobs w !! x) as [y|] eqn:Hy; [|done]. simpl in Hx.
  injection Hx as Hx _ _ _ _. exists y. split; [done|]. congruence.
Qed.

(** [Job.run] on a job that depends on nothing and was settled when the
    round began. *)
Lemma order_run fuel self run_func :
  settled w0 self →
  preserves J (run_func self) →
  hoare (λ w, J w ∧ ready w self) (run E fuel self run_func) (λ _, J) (λ _, J).
Proof.
  intros Hself Hrun. unfold run.
  eapply hoare_bind with (R := λ j w, J w ∧ depends j = ∅).
  { apply hoare_get_job. intros w x [Hw (x' & Hx' & Hd)] Hx.
    assert (x' = x) as -> by congruence. done. }
  intros j. apply hoare_bind with (R := λ _, J).
  { apply hoare_modify. intros w [(evs & Ht & Hevs) ->].
    exists (evs ++ [EvRun self ∅]). split; [simpl; by rewrite Ht, app_assoc|].
    intros k d [?|[= <- <-]%list_elem_of_singleton]%elem_of_app; [by eapply Hevs|done]. }
  intros _. pose proof closed_dispatched_in_order as HJ.
  pres ltac:(first [exact Hrun | by apply undispatched_finished | undispatched_leaf HJ]).
Qed.

(** A loop that runs ready jobs one after the other. *)
Lemma order_for_ready (L : list JobId) (body : JobId → M unit) :
  (∀ job, job ∈ L →
     hoare (λ w, (sys_inv w ∧ ready w job) ∧ (J w ∧ ready w job)) (body job)
           (λ _ w, sys_inv w ∧ J w) (λ _ w, sys_inv w ∧ J w)) →
  (∀ job, monotone (body job)) →
  hoare (λ w, (sys_inv w ∧ J w) ∧ ∀ job, job ∈ L → ready w job) (for_ L body)
        (λ _ w, sys_inv w ∧ J w) (λ _ w, sys_inv w ∧ J w).
Proof.
  intros Hbody Hmono. induction L as [|job L IH]; simpl.
  - apply hoare_ret. by intros ? [??].
  - eapply hoare_bind; [|intros ?; apply IH; intros; apply Hbody; by right].
    eapply hoare_conseq.
    + apply hoare_and; [apply (Hbody job); by left|].
      apply (Hmono job _ (persistent_ready_all L)).
    + intros w [[Hw HJ] Hr].
      assert (ready w job) by (apply Hr; by left).
      split_and!; try done. intros job' Hjob'. apply Hr. by right.
    + done.
    + by intros ?? [??].
Qed.

Local Abbreviation Sel := (λ (X : JobId → Prop) (w : World),
  (sys_inv w ∧ ∀ x, X x → ready w x) ∧ (J w ∧ K w)).

Lemma stable_order : stable (λ w, J w ∧ K w).
Proof. apply stable_and; [apply stable_dispatched_in_order|apply stable_ready_settled]. Qed.

Lemma stable_Sel (X : JobId → Prop) : stable (Sel X).
Proof. apply stable_and; [apply stable_sys_all_ready|apply stable_order]. Qed.

(** The selection of a job changes no edge and calls [run] on no job. *)
Lemma order_select {T} (m : M T) (X : JobId → Prop) (X' : T → JobId → Prop) :
  hoare (λ w, sys_inv w ∧ ∀ x, X x → ready w x) m
        (λ st' w, sys_inv w ∧ ∀ x, X' st' x → ready w x) (λ _, sys_inv) →
  benign m →
  hoare (Sel X) m (λ st' w, Sel (X' st') w) (λ _ w, sys_inv w ∧ J w).
Proof.
  intros Hsys Hben.
  eapply hoare_conseq;
    [apply hoare_and; [apply Hsys|apply (Hben _ stable_order)]|done|done|].
  by intros ex w [? [? ?]].
Qed.

(** The jobs selected were settled when the round began. *)
Lemma selected_settled (X : JobId → Prop) w x : Sel X w → X x → settled w0 x.
Proof. intros [[_ Hr] [_ HK]] Hx. by apply HK, Hr. Qed.

Lemma order_Knapsack_dispatch fuel job :
  settled w0 job →
  hoare (λ w, (sys_inv w ∧ ready w job) ∧ (J w ∧ ready w job))
        (add_callback job KnapsackFinished;;
         add_error_callback job KnapsackError;;
         run E fuel job Knapsack_run_job)
        (λ _ w, sys_inv w ∧ J w) (λ _ w, sys_inv w ∧ J w).
Proof using HE.
  intros Hjob. apply hoare_and; [by apply sys_Knapsack_dispatch|].
  assert (stable (λ w, J w ∧ ready w job)) as Hst.
  { apply stable_and; [apply stable_dispatched_in_order|].
    apply persistent_stable, persistent_ready. }
  repeat (apply hoare_seq_pres;
          [ by intros ? [??]
          | apply benign_preserves; [solve [auto with benign_db]|exact Hst]
          | intros ? ]).
  apply order_run; [done|].
  unfold Knapsack_run_job. pose proof closed_dispatched_in_order as HJ.
  pres ltac:(undispatched_leaf HJ).
Qed.

Lemma order_Cluster_dispatch fuel job :
  settled w0 job →
  hoare (λ w, (sys_inv w ∧ ready w job) ∧ (J w ∧ ready w job))
        (add_callback job ClusterFinished;;
         run E fuel job Cluster_run_job)
        (λ _ w, sys_inv w ∧ J w) (λ _ w, sys_inv w ∧ J w).
Proof using HE.
  intros Hjob. apply hoare_and; [by apply sys_Cluster_dispatch|].
  assert (stable (λ w, J w ∧ ready w job)) as Hst.
  { apply stable_and; [apply stable_dispatched_in_order|].
    apply persistent_stable, persistent_ready. }
  repeat (apply hoare_seq_pres;
          [ by intros ? [??]
          | apply benign_preserves; [solve [auto with benign_db]|exact Hst]
          | intros ? ]).
  apply order_run; [done|].
  unfold Cluster_run_job. pose proof closed_dispatched_in_order as HJ.
  pres ltac:(undispatched_leaf HJ).
Qed.

Local Abbreviation Inv := (λ w : World, sys_inv w ∧ (J w ∧ K w)).

Lemma stable_Inv : stable Inv.
Proof. apply stable_and; [apply stable_sys_inv|apply stable_order]. Qed.

(** A step of a round that changes no edge and calls [run] on no job. *)
Ltac order_steps HI :=
  repeat (lazymatch goal with |- hoare _ (bind _ _) _ _ => idtac end;
          apply hoare_seq_pres;
          [ by intros ? [? [? ?]]
          | solve [pres ltac:(apply benign_preserves;
                       [solve [auto with benign_db]|exact HI])]
          | intros ? ]).

(** One round of [KnapsackJobScheduler.schedule]. *)
Lemma order_Knapsack_schedule fuel :
  hoare Inv (Knapsack_schedule E fuel) (λ _ w, sys_inv w ∧ J w) (λ _ w, sys_inv w ∧ J w).
Proof using HE.
  unfold Knapsack_schedule.
  eapply hoare_bind with (R := λ _, Inv).
  { apply preserves_weaken; [|by intros ? [? [? ?]]].
    apply benign_preserves; [auto with benign_db|apply stable_Inv]. }
  intros _. eapply hoare_bind with (R := λ _, Inv).
  { apply preserves_weaken; [apply preserves_get_knapsack|by intros ? [? [? ?]]]. }
  intros s. destruct (ks_errors s).
  { eapply hoare_conseq with (P' := Inv) (Q' := λ _, Inv) (X' := λ _, Inv);
      [|done|by intros ?? [? [? ?]]..].
    pres ltac:(apply benign_preserves; [solve [auto with benign_db]|apply stable_Inv]). }
  case_bool_decide.
  { eapply hoare_conseq with (P' := Inv) (Q' := λ _, Inv) (X' := λ _, Inv);
      [|done|by intros ?? [? [? ?]]..].
    pres ltac:(apply benign_preserves; [solve [auto with benign_db]|apply stable_Inv]). }
  eapply hoare_bind with
    (R := λ (st : list JobId * gset JobId) w, Sel (λ x, x ∈ st.1 ∨ x ∈ st.2) w).
  { eapply hoare_conseq with
      (P' := Sel (λ x, x ∈ ([] : list JobId) ∨ x ∈ (∅ : gset JobId)))
      (Q' := λ (st : list JobId * gset JobId) w, Sel (λ x, x ∈ st.1 ∨ x ∈ st.2) w)
      (X' := λ _ w, sys_inv w ∧ J w).
    - apply (hoare_fold (λ _ (st : list JobId * gset JobId) w,
                           Sel (λ x, x ∈ st.1 ∨ x ∈ st.2) w) _ _ ([], ∅)).
      intros x rest acc.
      apply (order_select (Knapsack_select x acc) (λ x, x ∈ acc.1 ∨ x ∈ acc.2)
               (λ (st : list JobId * gset JobId) x, x ∈ st.1 ∨ x ∈ st.2));
        [apply sys_Knapsack_select|apply benign_Knapsack_select].
    - intros w [Hw HJK]. split; [|done]. split; [done|].
      intros x [?%elem_of_nil|?%elem_of_empty]; done.
    - done.
    - done. }
  intros st. cbv zeta.
  eapply hoare_bind; [apply get_jobs_spec|]. intros js.
  eapply hoare_bind with
    (R := λ _ w, Sel (λ x, x ∈ st.1 ∨ x ∈ st.2) w
                 ∧ Forall2 (λ id x, w_jobs w !! id = Some x) st.1 js).
  { apply hoare_get_knapsack. by intros. }
  intros s'.
  eapply hoare_bind with (R := λ run_ w, Sel (λ x, x ∈ run_ ∨ x ∈ st.2) w).
  { destruct (_knapsack (ks_cores s') js) as [r|] eqn:Hr.
    - apply hoare_ret. intros w [[[Hw Hready] HJK] Hjs]. split; [|done]. split; [done|].
      intros x [Hx|Hx]; apply Hready; [left|by right].
      apply knapsack_subset in Hr.
      rewrite (get_jobs_ids w st.1 js) in Hr by (done || apply Hw).
      apply Hr in Hx. by apply elem_of_list_to_set in Hx.
    - apply hoare_raise. by intros w [[[? ?] [? ?]] ?]. }
  intros run_.
  repeat (lazymatch goal with |- hoare _ (bind _ (λ _, bind _ _)) _ _ => idtac end;
          eapply hoare_bind with (R := λ _, Sel (λ x, x ∈ run_ ∨ x ∈ st.2));
          [ apply preserves_weaken; [|by intros ? [[? ?] [? ?]]];
            pres ltac:(apply benign_preserves;
                         [solve [auto with benign_db]|apply stable_Sel])
          | intros ? ]).
  eapply hoare_bind with (R := λ _ w, sys_inv w ∧ J w); [|intros ?; by apply hoare_ret].
  intros w Hsel. revert w Hsel.
  change (hoare (Sel (λ x, x ∈ run_ ∨ x ∈ st.2))
            (for_ (set_iter E run_ ++ set_iter E st.2) (λ job,
               add_callback job KnapsackFinished;;
               add_error_callback job KnapsackError;;
               run E fuel job Knapsack_run_job))
            (λ _ w, sys_inv w ∧ J w) (λ _ w, sys_inv w ∧ J w)).
  intros w Hsel.
  assert (∀ job, job ∈ set_iter E run_ ++ set_iter E st.2 → job ∈ run_ ∨ job ∈ st.2) as HL.
  { intros job. by rewrite elem_of_app, !elem_of_set_iter. }
  apply (order_for_ready (set_iter E run_ ++ set_iter E st.2)).
  - intros job Hjob. apply order_Knapsack_dispatch.
    eapply (selected_settled _ w); [exact Hsel|]. by apply HL.
  - intros job. apply monotone_Knapsack_dispatch.
  - destruct Hsel as [[Hw Hr] [HJ _]]. split; [done|]. intros job Hjob. by apply Hr, HL.
Qed.

(** One round of [ClusterJobScheduler.schedule]. *)
Lemma order_Cluster_schedule fuel :
  hoare Inv (Cluster_schedule E fuel) (λ _ w, sys_inv w ∧ J w) (λ _ w, sys_inv w ∧ J w).
Proof using HE.
  unfold Cluster_schedule.
  eapply hoare_bind with (R := λ _, Inv).
  { apply preserves_weaken; [|by intros ? [? [? ?]]].
    apply benign_preserves; [auto with benign_db|apply stable_Inv]. }
  intros _. eapply hoare_bind with (R := λ _, Inv).
  { apply preserves_weaken; [apply preserves_get_cluster|by intros ? [? [? ?]]]. }
  intros s. destruct (cs_error s).
  { eapply hoare_conseq with (P' := Inv) (Q' := λ _, Inv) (X' := λ _, Inv);
      [|done|by intros ?? [? [? ?]]..].
    pres ltac:(apply benign_preserves; [solve [auto with benign_db]|apply stable_Inv]). }
  case_bool_decide.
  { eapply hoare_conseq with (P' := Inv) (Q' := λ _, Inv) (X' := λ _, Inv);
      [|done|by intros ?? [? [? ?]]..].
    pres ltac:(apply benign_preserves; [solve [auto with benign_db]|apply stable_Inv]). }
  eapply hoare_bind with
    (R := λ (st : gset JobId * gset JobId) w, Sel (λ x, x ∈ st.1 ∨ x ∈ st.2) w).
  { eapply hoare_conseq with
      (P' := Sel (λ x, x ∈ (∅ : gset JobId) ∨ x ∈ (∅ : gset JobId)))
      (Q' := λ (st : gset JobId * gset JobId) w, Sel (λ x, x ∈ st.1 ∨ x ∈ st.2) w)
      (X' := λ _ w, sys_inv w ∧ J w).
    - apply (hoare_fold (λ _ (st : gset JobId * gset JobId) w,
                           Sel (λ x, x ∈ st.1 ∨ x ∈ st.2) w) _ _ (∅, ∅)).
      intros x rest acc.
      apply (order_select (Cluster_select x acc) (λ x, x ∈ acc.1 ∨ x ∈ acc.2)
               (λ (st : gset JobId * gset JobId) x, x ∈ st.1 ∨ x ∈ st.2));
        [apply sys_Cluster_select|apply benign_Cluster_select].
    - intros w [Hw HJK]. split; [|done]. split; [done|].
      intros x [?%elem_of_empty|?%elem_of_empty]; done.
    - done.
    - done. }
  intros st. cbv zeta.
  repeat (lazymatch goal with |- hoare _ (bind _ (λ _, bind _ _)) _ _ => idtac end;
          eapply hoare_bind with (R := λ _, Sel (λ x, x ∈ st.1 ∨ x ∈ st.2));
          [ apply preserves_weaken; [|by intros ? [[? ?] [? ?]]];
            pres ltac:(apply benign_preserves;
                         [solve [auto with benign_db]|apply stable_Sel])
          | intros ? ]).
  eapply hoare_bind with (R := λ _ w, sys_inv w ∧ J w); [|intros ?; by apply hoare_ret].
  intros w Hsel.
  assert (∀ job, job ∈ set_iter E st.1 ++ set_iter E st.2 → job ∈ st.1 ∨ job ∈ st.2) as HL.
  { intros job. by rewrite elem_of_app, !elem_of_set_iter. }
  apply (order_for_ready (set_iter E st.1 ++ set_iter E st.2)).
  - intros job Hjob. apply order_Cluster_dispatch.
    eapply (selected_settled _ w); [exact Hsel|]. by apply HL.
  - intros job. apply monotone_Cluster_dispatch.
  - destruct Hsel as [[Hw Hr] [HJ _]]. split; [done|]. intros job Hjob. by apply Hr, HL.
Qed.
End Round.

(** ** The two example runs are runs of the program *)

Ltac by_ends := vm_compute; constructor.
Ltac by_compute := vm_compute; reflexivity.

(** The steps of the run of the chain, up to [chain_4]. *)
Ltac reach_chain :=
  apply (reach_knapsack_schedule _ false false chain_3 chain_4 (knapsack_of chain_3) 10);
    [|by_compute|by_compute|by_compute|by_ends];
  apply (reach_knapsack _ false false chain_2 chain_3 {[0%nat; 1%nat]});
    [|by_compute|by_ends];
  apply (reach_new _ false false chain_1 chain_2 second_init); [|by_ends];
  apply (reach_new _ false false chain_start chain_1 first_init); [|by_ends];
  apply reach_start.

(** The steps of the run with a dynamic rule, up to [dynamic_6]. *)
Ltac reach_dynamic_6 :=
  apply (reach_knapsack_schedule _ false false dynamic_5 dynamic_6
           (knapsack_of dynamic_5) 10);
    [|by_compute|by_compute|by_compute|by_ends];
  apply (reach_knapsack _ false false dynamic_4 dynamic_5 {[0%nat; 1%nat; 2%nat; 3%nat]});
    [|by_compute|by_ends];
  apply (reach_new _ false false dynamic_3 dynamic_4 report_init); [|by_ends];
  apply (reach_new _ false false dynamic_2 dynamic_3 merge_init); [|by_ends];
  apply (reach_new _ false false dynamic_1 dynamic_2 other_init); [|by_ends];
  apply (reach_new _ false false dynamic_start dynamic_1 split_init); [|by_ends];
  apply reach_start.

Lemma chain_reachable : reachable plain_externals false chain_4.
Proof. reach_chain. Qed.

Lemma dynamic_6_reachable : reachable dynamic_externals false dynamic_6.
Proof. reach_dynamic_6. Qed.

Lemma dynamic_7_reachable : reachable dynamic_externals false dynamic_7.
Proof.
  apply (reach_knapsack_complete _ false false dynamic_written dynamic_7
           (knapsack_of dynamic_written) 10 0%nat (FutureResult 7));
    [|by_compute|by_evaluation|by_ends].
  apply reach_fs, dynamic_6_reachable.
Qed.

Lemma dynamic_8_reachable : reachable dynamic_externals false dynamic_8.
Proof.
  apply (reach_knapsack_schedule _ false false dynamic_7 dynamic_8
           (knapsack_of dynamic_7) 10);
    [apply dynamic_7_reachable|by_compute|by_compute|by_compute|by_ends].
Qed.

(** ** The edges of the DAG (C3) *)

(** C3, as the specification states it, fails: in the chain of two jobs,
    once job [0] has finished, job [1] is still in the [depending] list of
    job [0], but job [0] is no longer in the [depends] of job [1]. *)
Lemma edges_not_consistent_after_completion :
  reachable plain_externals false chain_4 ∧ ¬ edges_consistent chain_4.
Proof.
  split; [apply chain_reachable|]. intros H.
  assert (1%nat ∈ job_depending chain_4 0%nat) as H1 by by_evaluation.
  apply H in H1. revert H1. by_evaluation.
Qed.

(** C3, amended: at every state that a run of the program reaches, for all
    jobs [a] and [b], if [b] is in [a.depends] then [a] is in
    [b.depending]; and if [a] is in [b.depending] and [b] has neither
    finished nor been taken out of the DAG by a dynamic expansion, then
    [b] is in [a.depends]. *)
Theorem edges_consistent_while_live E escaped w :
  set_iter_ok E → reachable E escaped w →
  ∀ a b, (b ∈ job_depends w a → a ∈ job_depending w b)
         ∧ (live w b → a ∈ job_depending w b → b ∈ job_depends w a).
Proof.
  intros HE Hw a b. apply (reachable_sys_inv E escaped w HE) in Hw as [Hdag _].
  split; [apply (dag_fwd w Hdag)|apply (dag_bwd w Hdag)].
Qed.

Lemma edges_consistent_while_live_witness :
  set_iter_ok plain_externals
  ∧ reachable plain_externals false chain_4
  ∧ ∀ a b, (b ∈ job_depends chain_4 a → a ∈ job_depending chain_4 b)
           ∧ (live chain_4 b → a ∈ job_depending chain_4 b → b ∈ job_depends chain_4 a).
Proof.
  assert (set_iter_ok plain_externals) as HE by (intros X; reflexivity).
  assert (reachable plain_externals false chain_4) as Hw.
  { reach_chain. }
  split; [exact HE|]. split; [exact Hw|].
  exact (edges_consistent_while_live plain_externals false chain_4 HE Hw).
Defined.

(** ** The order of dispatch (C6) *)


(** The exception for a job that has itself been replaced is needed.  In
    this run the merge job (job [2]) was created to depend on split and on
    other; the expansion of split replaces it and empties its [depends];
    the next round of [schedule] calls [run] on it while other (job [1])
    is running: other is live before and after that round. *)
Lemma replaced_job_dispatched_while_dependency_runs :
  reachable dynamic_externals false late_6
  ∧ ends (Knapsack_schedule dynamic_externals 10 late_6) false late_7
  ∧ (EvRun 2%nat ∅ ∉ w_trace late_6)
  ∧ EvRun 2%nat ∅ ∈ w_trace late_7
  ∧ (∃ x, w_jobs late_6 !! 2%nat = Some x ∧ ignore x = true
          ∧ 1%nat ∈ init_depends (init x))
  ∧ live late_6 1%nat ∧ live late_7 1%nat ∧ 1%nat ∈ running late_7.
Proof.
  split_and!.
  - apply (reach_knapsack_complete _ false false late_written late_6
             (knapsack_of late_written) 10 0%nat (FutureResult 7));
      [|by_compute|by_evaluation|by_ends].
    apply reach_fs.
    apply (reach_knapsack_schedule _ false false late_4 late_5 (knapsack_of late_4) 10);
      [|by_compute|by_compute|by_compute|by_ends].
    apply (reach_knapsack _ false false late_3 late_4 {[0%nat; 1%nat; 2%nat]});
      [|by_compute|by_ends].
    apply (reach_new _ false false late_2 late_3 late_merge_init); [|by_ends].
    apply (reach_new _ false false late_1 late_2 other_init); [|by_ends].
    apply (reach_new _ false false late_start late_1 split_init); [|by_ends].
    apply reach_start.
  - by_ends.
  - by_evaluation.
  - by_evaluation.
  - eexists. split_and!; [by_compute|by_compute|by_evaluation].
  - eexists. split_and!; by_compute.
  - eexists. split_and!; by_compute.
  - by_evaluation.
Qed.

(** A job that is no longer live is settled, and what a settled job was
    created to depend on through jobs that have not been replaced is no
    longer live. *)
Lemma nonlive_settled w a : sys_inv w → nonlive w a → settled w a.
Proof.
  intros Hw (x & Hx & Hflag). apply ready_settled; [done|]. exists x. split; [done|].
  by apply (dag_done w (proj1 Hw) a x).
Qed.

Lemma settled_tc w j b :
  sys_inv w → settled w j → tc (created_on w) j b → nonlive w b.
Proof.
  intros Hw Hj Htc. induction Htc as [j b Hjb|j y b Hjy _ IH].
  - destruct Hj as (x & Hx & Hs), Hjb as (x' & Hx' & Hg & Hb).
    assert (x' = x) as -> by congruence. destruct Hs as [?|Hs]; [congruence|by apply Hs].
  - apply IH, nonlive_settled; [done|].
    destruct Hj as (x & Hx & Hs), Hjy as (x' & Hx' & Hg & Hb).
    assert (x' = x) as -> by congruence. destruct Hs as [?|Hs]; [congruence|by apply Hs].
Qed.



(** ** The expansion of a dynamic output (C8) *)

(** *** The silent calls *)

Lemma silent_refl w : silent w w.
Proof. done. Qed.

Lemma silent_trans w1 w2 w3 : silent w1 w2 → silent w2 w3 → silent w1 w3.
Proof. intros [??] [??]. split; congruence. Qed.

Create HintDb silent_db.
#[export] Hint Extern 1 (respects silent (modify_job _ _)) =>
  apply respects_modify_job; intros; split; reflexivity : silent_db.
#[export] Hint Extern 1 (respects silent (modify_rule _ _)) =>
  apply respects_modify_rule; intros; split; reflexivity : silent_db.
#[export] Hint Extern 1 (respects silent (depends_remove _ _)) =>
  apply respects_depends_remove; intros; split; reflexivity : silent_db.
#[export] Hint Extern 1 (respects silent (depending_remove _ _)) =>
  apply respects_depending_remove; intros; split; reflexivity : silent_db.
#[export] Hint Extern 1 (respects silent (__init__ _ _)) =>
  apply respects___init__; intros; split; reflexivity : silent_db.

Ltac silent_leaf HI :=
  apply (respects_preserves silent); [solve [auto with silent_db]|exact HI].
Ltac silent_tac := let I := fresh "I" in let HI := fresh "HI" in
  intros I HI; pres ltac:(silent_leaf HI).

Lemma silent_is_dynamic r f : respects silent (is_dynamic r f).
Proof. unfold is_dynamic. silent_tac. Qed.
Lemma silent_set_dynamic r f b : respects silent (set_dynamic r f b).
Proof. unfold set_dynamic. silent_tac. Qed.
Lemma silent_get_listfiles E p : respects silent (get_listfiles E p).
Proof. unfold get_listfiles. silent_tac. Qed.
#[export] Hint Resolve silent_is_dynamic silent_set_dynamic silent_get_listfiles : silent_db.

Lemma silent_collect_wildcards E self : respects silent (collect_wildcards E self).
Proof. unfold collect_wildcards. silent_tac. Qed.
Lemma silent_replace_dynamic_input r ie : respects silent (replace_dynamic_input r ie).
Proof. unfold replace_dynamic_input. silent_tac. Qed.
Lemma silent_remove_from_dag E self : respects silent (remove_from_dag E self).
Proof. unfold remove_from_dag. silent_tac. Qed.
#[export] Hint Resolve silent_collect_wildcards silent_replace_dynamic_input
  silent_remove_from_dag : silent_db.

Lemma silent_replace_job E self out : respects silent (replace_job E self out).
Proof. unfold replace_job. silent_tac. Qed.
#[export] Hint Resolve silent_replace_job : silent_db.

Lemma silent_handle_dynamic_input E self we jobs :
  respects silent (handle_dynamic_input E self we jobs).
Proof. unfold handle_dynamic_input. silent_tac. Qed.
#[export] Hint Resolve silent_handle_dynamic_input : silent_db.

Lemma silent_descendants E fuel self : respects silent (descendants E fuel self).
Proof.
  revert self. induction fuel as [|fuel IH]; intros self; simpl.
  - silent_tac.
  - intros I HI. pres ltac:(first [by apply IH | silent_leaf HI]).
Qed.
#[export] Hint Resolve silent_descendants : silent_db.

Lemma silent_all_jobs E self : respects silent (all_jobs E self).
Proof. unfold all_jobs. silent_tac. Qed.
#[export] Hint Resolve silent_all_jobs : silent_db.

Lemma silent_expand_ancestor E we job st : respects silent (expand_ancestor E we job st).
Proof. unfold expand_ancestor. silent_tac. Qed.

Lemma silent_dynamic_new_jobs E fuel self : respects silent (dynamic_new_jobs E fuel self).
Proof.
  unfold dynamic_new_jobs. intros I HI.
  pres ltac:(first
    [ apply (respects_preserves silent);
      [apply respects_ancestors_loop; intros; apply silent_expand_ancestor|exact HI]
    | silent_leaf HI ]).
Qed.

(** ** The end of a dynamic expansion (C8) *)

(** [add_jobs] attaches every job of the set, and does nothing else that
    can be seen in the trace or in the job counter. *)
Lemma attached_step w w' job x k :
  w_jobs w !! k = Some x →
  w_jobs w' = <[k := set_scheduler true x]> (w_jobs w) →
  scheduler_jobs w ⊆ scheduler_jobs w' →
  attached w job → attached w' job.
Proof.
  intros Hk Hjobs Hsub [(y & Hy & Hs) Hin]. split; [|by apply Hsub].
  rewrite Hjobs. destruct (decide (job = k)) as [->|].
  - exists (set_scheduler true x). split; [|done].
    apply list_lookup_insert_eq. by eapply lookup_lt_Some.
  - exists y. by rewrite list_lookup_insert_ne.
Qed.

Lemma add_jobs_spec E jobs w0 :
  set_iter_ok E →
  hoare (λ w, w = w0) (add_jobs E jobs)
        (λ _ w, silent w0 w ∧ ∀ job, job ∈ jobs → attached w job)
        (λ _ _, True).
Proof.
  intros HE. unfold add_jobs.
  eapply hoare_conseq with
    (P' := λ w, silent w0 w
                ∧ ∀ job, job ∈ jobs → job ∉ set_iter E jobs → attached w job)
    (Q' := λ _ w, silent w0 w ∧ ∀ job, job ∈ jobs → job ∉ [] → attached w job)
    (X' := λ _ _, True).
  - apply (hoare_for (λ rest w, silent w0 w
             ∧ ∀ job, job ∈ jobs → job ∉ rest → attached w job)).
    intros k rest.
    eapply hoare_bind with
      (R := λ _ w, silent w0 w
                   ∧ (∃ x, w_jobs w !! k = Some x ∧ scheduler x = true)
                   ∧ ∀ job, job ∈ jobs → job ∉ k :: rest → attached w job).
    + apply hoare_modify_job. intros w x [Hs Hatt] Hx. split_and!.
      * by destruct Hs.
      * exists (set_scheduler true x). split; [|done]. simpl.
        apply list_lookup_insert_eq. by eapply lookup_lt_Some.
      * intros job Hjob Hnot. eapply (attached_step w _ job x k); [done|done|done|].
        by apply Hatt.
    + intros _ w (Hs & (x & Hx & Hflag) & Hatt).
      destruct (w_scheduler w) as [[s|s]|] eqn:Hsched; [| |done].
      * split; [by destruct Hs|]. intros job Hjob Hnot.
        destruct (decide (job = k)) as [->|Hne].
        { split; [by exists x|]. unfold scheduler_jobs. simpl. set_solver. }
        destruct (Hatt job Hjob) as [Hy Hin]; [by intros [?|?]%elem_of_cons|].
        split; [done|]. unfold scheduler_jobs in *. rewrite Hsched in Hin. simpl.
        set_solver.
      * split; [by destruct Hs|]. intros job Hjob Hnot.
        destruct (decide (job = k)) as [->|Hne].
        { split; [by exists x|]. unfold scheduler_jobs. simpl. set_solver. }
        destruct (Hatt job Hjob) as [Hy Hin]; [by intros [?|?]%elem_of_cons|].
        split; [done|]. unfold scheduler_jobs in *. rewrite Hsched in Hin. simpl.
        set_solver.
  - intros w ->. split; [done|]. intros job Hjob Hnot.
    exfalso. apply Hnot. by apply elem_of_set_iter.
  - intros _ w [Hs Hatt]. split; [done|]. intros job Hjob. apply Hatt; [done|].
    by intros ?%elem_of_nil.
  - done.
Qed.

(** The second half of [handle_dynamic_output]. *)
Lemma attach_new_jobs_spec E self new_jobs dynamic w w' :
  set_iter_ok E →
  attach_new_jobs E self new_jobs dynamic w = Ok tt w' →
  let n := Z.of_nat (size new_jobs) - dynamic in
  jobcounter_count (w_workflow w') = jobcounter_count (w_workflow w) + n
  ∧ w_trace w' = w_trace w ++ dynamic_warning n
  ∧ ∀ job, job ∈ new_jobs → attached w' job.
Proof.
  intros HE. unfold attach_new_jobs. cbv zeta.
  set (n := Z.of_nat (size new_jobs) - dynamic).
  set (w1 := if decide (n = 0) then w
             else emit (LogWarning ("Dynamically adding " +:+ pretty n +:+ " new jobs")) w).
  assert (when (bool_decide (n ≠ 0))
            (log_event (LogWarning ("Dynamically adding " +:+ pretty n +:+ " new jobs"))) w
          = Ok tt w1) as Hwhen.
  { unfold w1. case_bool_decide; destruct (decide (n = 0)); done. }
  assert (w_trace w1 = w_trace w ++ dynamic_warning n ∧ w_workflow w1 = w_workflow w
          ∧ w_jobs w1 = w_jobs w) as (Ht1 & Hw1 & Hj1).
  { unfold w1, dynamic_warning. destruct (decide (n = 0)); simpl; [|done].
    by rewrite app_nil_r. }
  unfold bind at 1. rewrite Hwhen.
  unfold bind at 1. unfold get_job. destruct (w_jobs w1 !! self) as [j|]; [|done].
  unfold bind at 1. destruct (scheduler j); [|done].
  pose proof (add_jobs_spec E new_jobs w1 HE w1 eq_refl) as Hadd.
  destruct (add_jobs E new_jobs w1) as [[] w2| |]; [|done..].
  destruct Hadd as [[Ht2 Hw2] Hatt]. unfold modify. intros [= <-]. simpl.
  split_and!.
  - by rewrite Hw2, Hw1.
  - by rewrite Ht2.
  - intros job Hjob. destruct (Hatt job Hjob) as [Hx Hin]. by split.
Qed.

(** C8, as the specification states it, fails: when the dynamic output of
    the split job is expanded, one ancestor is expanded and one new job is
    generated; the net addition is zero, the job counter stays as it is,
    and no warning is logged. *)
Lemma dynamic_output_without_warning :
  ∃ w1 w',
    dynamic_new_jobs dynamic_externals 10 0%nat dynamic_detached = Ok ({[4%nat]}, 1) w1
    ∧ handle_dynamic_output dynamic_externals 10 0%nat dynamic_detached = Ok tt w'
    ∧ attached w' 4%nat
    ∧ jobcounter_count (w_workflow w') = jobcounter_count (w_workflow dynamic_detached)
    ∧ w_trace w' = w_trace dynamic_detached.
Proof.
  eexists _, _. split_and!.
  - vm_compute. reflexivity.
  - vm_compute. reflexivity.
  - split; [eexists; split; vm_compute; reflexivity|by_evaluation].
  - vm_compute. reflexivity.
  - vm_compute. reflexivity.
Qed.

(** The jobs that one step of the walk appends to the queue. *)
Lemma enqueue_spec (l : list JobId) (queue : list JobId) (visited : gset JobId) :
  ∃ new,
    foldl (λ (qv : list JobId * gset JobId) j,
             if bool_decide (j ∈ qv.2) then qv else (qv.1 ++ [j], {[j]} ∪ qv.2))
          (queue, visited) l
    = (queue ++ new, list_to_set new ∪ visited)
    ∧ NoDup new
    ∧ ∀ x, x ∈ new ↔ x ∈ l ∧ x ∉ visited.
Proof.
  revert queue visited. induction l as [|j l IH]; intros queue visited.
  - exists []. simpl. rewrite app_nil_r. split_and!.
    + f_equal. set_solver.
    + apply NoDup_nil_2.
    + intros x. split; [by intros ?%elem_of_nil|by intros [?%elem_of_nil _]].
  - simpl. case_bool_decide as Hj.
    + destruct (IH queue visited) as (new & -> & Hnd & Hin).
      exists new. split_and!; [done..|].
      intros x. rewrite Hin, elem_of_cons. split; [naive_solver|].
      intros [[->|?] ?]; done.
    + destruct (IH (queue ++ [j]) ({[j]} ∪ visited)) as (new & -> & Hnd & Hin).
      exists (j :: new). split_and!.
      * f_equal; [by rewrite <- app_assoc|]. set_solver.
      * apply NoDup_cons. split; [|done]. rewrite Hin. set_solver.
      * intros x. rewrite !elem_of_cons, Hin. split.
        -- intros [->|[Hx Hnot]]; [by auto|]. split; [by right|set_solver].
        -- intros [[->|Hx] Hnot]; [by left|].
           destruct (decide (x = j)) as [->|Hne]; [by left|right].
           split; [done|set_solver].
Qed.

(** [collect_wildcards] only reads. *)
Lemma collect_wildcards_reads E self w we w0 :
  collect_wildcards E self w = Ok we w0 → w0 = w.
Proof.
  intros H.
  assert (preserves (λ w', w' = w) (collect_wildcards E self)) as Hp.
  { unfold collect_wildcards, is_dynamic, get_listfiles. pres fail. }
  specialize (Hp w eq_refl). by rewrite H in Hp.
Qed.

(** One step of the loop over the ancestors. *)
Lemma expand_ancestor_Ok E we ancestor st w st' w' :
  expand_ancestor E we ancestor st w = Ok st' w' →
  (∃ job all w1,
     handle_dynamic_input E ancestor we st.2 w = Ok (Some job, st'.2) w1
     ∧ all_jobs E job w1 = Ok all w'
     ∧ st'.1.1 = list_to_set all ∪ st.1.1 ∧ st'.1.2 = st.1.2 + 1)
  ∨ (handle_dynamic_input E ancestor we st.2 w = Ok (None, st'.2) w'
     ∧ st'.1.1 = st.1.1 ∧ st'.1.2 = st.1.2).
Proof.
  unfold expand_ancestor. intros ([[job|] jobs'] & w1 & Hr & Hk)%bind_Ok_inv; simpl in Hk.
  - apply bind_Ok_inv in Hk as (all & w2 & Hall & Hret). injection Hret as <- <-.
    left. by exists job, all, w1.
  - injection Hk as <- <-. by right.
Qed.

(** The loop over the ancestors expands the jobs it visits one after the
    other; no job is visited twice. *)
Lemma ancestors_loop_expansions E we fuel queue (seen : gset JobId) st w st' w' :
  ancestors_loop fuel queue seen (expand_ancestor E we) st w = Ok st' w' →
  ∃ visited expanded,
    expansions E we visited st.2 w expanded w'
    ∧ queue `prefix_of` visited
    ∧ (NoDup queue → (∀ a, a ∈ queue → a ∈ seen) →
       NoDup visited ∧ ∀ a, a ∈ visited → a ∈ queue ∨ a ∉ seen)
    ∧ st'.1.1 = expanded_jobs expanded ∪ st.1.1
    ∧ st'.1.2 = st.1.2 + Z.of_nat (length expanded).
Proof.
  revert queue seen st w. induction fuel as [|fuel IH]; intros queue seen st w;
    destruct queue as [|ancestor queue]; simpl; try done.
  1,2: intros [= <- <-]; exists [], []; split_and!;
         [constructor|done|by split; [constructor|intros ? ?%elem_of_nil]
         |unfold expanded_jobs; simpl; set_solver|simpl; lia].
  intros (jb & w0 & Hjb & Hk)%bind_Ok_inv.
  assert (w0 = w) as -> by (unfold get_job in Hjb; destruct (w_jobs w !! ancestor); by simplify_eq).
  destruct (enqueue_spec (depending jb) queue seen) as (new & Hq & Hnd & Hnew).
  rewrite Hq in Hk. simpl in Hk.
  apply bind_Ok_inv in Hk as (st1 & w1 & Hbody & Hrest).
  destruct (IH _ _ _ _ Hrest) as (visited & expanded & Hexp & Hpre & Hvis & Hjobs & Hdyn).
  assert (ancestor :: queue `prefix_of` ancestor :: visited) as Hpre'.
  { destruct Hpre as [k ->]. exists (new ++ k). by rewrite <- app_assoc. }
  assert (NoDup (ancestor :: queue) → (∀ a, a ∈ ancestor :: queue → a ∈ seen) →
          NoDup (ancestor :: visited)
          ∧ ∀ a, a ∈ ancestor :: visited → a ∈ ancestor :: queue ∨ a ∉ seen) as Hvis'.
  { intros [Hanc Hqueue]%NoDup_cons Hseen.
    destruct Hvis as [Hndv Hin].
    - apply NoDup_app. split_and!; [done| |done].
      intros a Ha Ha'. apply Hnew in Ha' as [_ Ha']. apply Ha', Hseen. by right.
    - intros a [Ha|Ha]%elem_of_app; [|set_solver].
      apply elem_of_union. right. apply Hseen. by right.
    - assert (ancestor ∈ seen) as Hs by (apply Hseen; by left).
      split.
      + apply NoDup_cons. split; [|done]. intros Hv.
        destruct (Hin _ Hv) as [[?|Ha]%elem_of_app|Ha]; [done| |set_solver].
        apply Hnew in Ha as [_ Ha]. done.
      + intros a [->|Ha]%elem_of_cons; [left; by left|].
        destruct (Hin _ Ha) as [[?|Ha']%elem_of_app|Ha']; [left; by right| |set_solver].
        right. by apply Hnew in Ha' as [_ Ha']. }
  apply expand_ancestor_Ok in Hbody
    as [(job & all & w2 & Hin & Hall & Hj1 & Hd1)|(Hin & Hj1 & Hd1)].
  - exists (ancestor :: visited), ((ancestor, job, all) :: expanded). split_and!.
    + by eapply expansions_expanded.
    + done.
    + done.
    + rewrite Hjobs, Hj1. unfold expanded_jobs. simpl. set_solver.
    + rewrite Hdyn, Hd1. simpl length. lia.
  - exists (ancestor :: visited), expanded. split_and!.
    + by eapply expansions_kept.
    + done.
    + done.
    + by rewrite Hjobs, Hj1.
    + by rewrite Hdyn, Hd1.
Qed.

(** The first half of [handle_dynamic_output]. *)
Lemma dynamic_new_jobs_expansions E fuel self w j new_jobs dynamic w2 :
  w_jobs w !! self = Some j →
  dynamic_new_jobs E fuel self w = Ok (new_jobs, dynamic) w2 →
  ∃ we visited expanded w1,
    collect_wildcards E self w = Ok we w
    ∧ depending j `prefix_of` visited ∧ (NoDup (depending j) → NoDup visited)
    ∧ expansions E we visited [((output (init j), rule (init j)), self)] w expanded w1
    ∧ new_jobs = expanded_jobs expanded ∖ {[self]}
    ∧ dynamic = Z.of_nat (length expanded).
Proof.
  intros Hj. unfold dynamic_new_jobs.
  intros (we & w0 & Hwe & Hk)%bind_Ok_inv.
  pose proof (collect_wildcards_reads _ _ _ _ _ Hwe) as ->.
  apply bind_Ok_inv in Hk as (j' & w0 & Hj' & Hk).
  unfold get_job in Hj'. rewrite Hj in Hj'. injection Hj' as <- <-.
  apply bind_Ok_inv in Hk as (st & w1 & Hloop & Hk).
  destruct (ancestors_loop_expansions _ _ _ _ _ _ _ _ _ Hloop)
    as (visited & expanded & Hexp & Hpre & Hvis & Hjobs & Hdyn).
  simpl in Hexp, Hjobs, Hdyn.
  exists we, visited, expanded, w1. split_and!; [done|done| |done| |].
  - intros Hnd. by destruct Hvis as [Hndv _];
      [|intros a ?; apply elem_of_list_to_set|].
  - cbv zeta in Hk. case_bool_decide as Hself.
    + apply bind_Ok_inv in Hk as (? & ? & _ & Hk).
      apply bind_Ok_inv in Hk as (? & ? & _ & Hk). injection Hk as <- _ _.
      rewrite Hjobs. set_solver.
    + injection Hk as <- _ _. rewrite Hjobs in *. set_solver.
  - cbv zeta in Hk. case_bool_decide as Hself.
    + apply bind_Ok_inv in Hk as (? & ? & _ & Hk).
      apply bind_Ok_inv in Hk as (? & ? & _ & Hk). injection Hk as _ <- _.
      rewrite Hdyn. lia.
    + injection Hk as _ <- _. rewrite Hdyn. lia.
Qed.

(** With the collaborators of [fanout_externals] the expansion of split
    generates three jobs for one ancestor: the counter grows by two and the
    warning says so. *)
Lemma dynamic_output_with_warning :
  ∃ w',
    handle_dynamic_output fanout_externals 10 0%nat dynamic_detached = Ok tt w'
    ∧ attached w' 4%nat ∧ attached w' 5%nat ∧ attached w' 6%nat
    ∧ jobcounter_count (w_workflow w')
      = jobcounter_count (w_workflow dynamic_detached) + 2
    ∧ w_trace w'
      = w_trace dynamic_detached ++ [LogWarning "Dynamically adding 2 new jobs"].
Proof.
  eexists. split_and!.
  - vm_compute. reflexivity.
  - split; [eexists; split; vm_compute; reflexivity|by_evaluation].
  - split; [eexists; split; vm_compute; reflexivity|by_evaluation].
  - split; [eexists; split; vm_compute; reflexivity|by_evaluation].
  - vm_compute. reflexivity.
  - vm_compute. reflexivity.
Qed.

(** C8, amended.  When [handle_dynamic_output] completes, it has called
    [handle_dynamic_input] on the ancestors it visited, one after the
    other, starting with the jobs of [depending], and on none of them
    twice if [depending] has no job twice.  With [expanded] the ancestors
    for which a job was returned, and [new_jobs] the jobs that [all_jobs]
    yields for the returned jobs, the job itself excepted: every job of
    [new_jobs] is attached to the scheduler, the job counter of the
    workflow has grown by exactly [n], the number of new jobs minus the
    number of ancestors expanded, and the warning that states [n] is
    logged if [n] is not zero; if [n] is zero, nothing is logged. *)
Theorem handle_dynamic_output_attaches E fuel self w w' j :
  set_iter_ok E →
  w_jobs w !! self = Some j →
  handle_dynamic_output E fuel self w = Ok tt w' →
  ∃ we visited expanded w1,
    collect_wildcards E self w = Ok we w
    ∧ depending j `prefix_of` visited ∧ (NoDup (depending j) → NoDup visited)
    ∧ expansions E we visited [((output (init j), rule (init j)), self)] w expanded w1
    ∧ let new_jobs := expanded_jobs expanded ∖ {[self]} in
      let n := Z.of_nat (size new_jobs) - Z.of_nat (length expanded) in
      (∀ job, job ∈ new_jobs → attached w' job)
      ∧ jobcounter_count (w_workflow w') = jobcounter_count (w_workflow w) + n
      ∧ w_trace w' = w_trace w ++ dynamic_warning n.
Proof.
  intros HE Hj. unfold handle_dynamic_output.
  intros ([new_jobs dynamic] & w2 & Hnew & Hattach)%bind_Ok_inv.
  pose proof (respects_run silent (dynamic_new_jobs E fuel self) w
                (silent_dynamic_new_jobs E fuel self) silent_refl silent_trans) as Hsilent.
  rewrite Hnew in Hsilent. destruct Hsilent as [Ht Hwf].
  destruct (dynamic_new_jobs_expansions E fuel self w j new_jobs dynamic w2 Hj Hnew)
    as (we & visited & expanded & w1 & Hwe & Hpre & Hndv & Hexp & -> & ->).
  destruct (attach_new_jobs_spec E self _ _ w2 w' HE Hattach) as (Hcount & Htrace & Hatt).
  exists we, visited, expanded, w1. split_and!; [done..| | |].
  - done.
  - by rewrite <- Hwf.
  - by rewrite <- Ht.
Qed.

Lemma handle_dynamic_output_attaches_witness :
  ∃ w' we visited expanded w1,
    handle_dynamic_output fanout_externals 10 0%nat dynamic_detached = Ok tt w'
    ∧ collect_wildcards fanout_externals 0%nat dynamic_detached = Ok we dynamic_detached
    ∧ [2%nat] `prefix_of` visited ∧ (NoDup [2%nat] → NoDup visited)
    ∧ expansions fanout_externals we visited
        [(([split_pattern], 0%nat), 0%nat)] dynamic_detached expanded w1
    ∧ let new_jobs := expanded_jobs expanded ∖ {[0%nat]} in
      let n := Z.of_nat (size new_jobs) - Z.of_nat (length expanded) in
      (∀ job, job ∈ new_jobs → attached w' job)
      ∧ jobcounter_count (w_workflow w')
        = jobcounter_count (w_workflow dynamic_detached) + n
      ∧ w_trace w' = w_trace dynamic_detached ++ dynamic_warning n.
Proof.
  assert (∃ w', handle_dynamic_output fanout_externals 10 0%nat dynamic_detached
                = Ok tt w') as [w' Hw'].
  { eexists. vm_compute. reflexivity. }
  assert (∃ j, w_jobs dynamic_detached !! 0%nat = Some j
               ∧ depending j = [2%nat]
               ∧ output (init j) = [split_pattern] ∧ rule (init j) = 0%nat)
    as (j & Hj & Hdep & Hout & Hrule).
  { eexists. split_and!; vm_compute; reflexivity. }
  destruct (handle_dynamic_output_attaches fanout_externals 10 0%nat
              dynamic_detached w' j) as (we & visited & expanded & w1 & H);
    [intros X; reflexivity|exact Hj|exact Hw'|].
  rewrite Hdep, Hout, Hrule in H.
  exists w', we, visited, expanded, w1. split; [exact Hw'|exact H].
Defined.

(** ** How often the callbacks fire (C4) *)

Lemma hushed_refl w : hushed w w.
Proof.
  split; [intros a x Hx; by exists x|]. exists []. by rewrite app_nil_r.
Qed.

Lemma hushed_same w w' :
  w_jobs w' = w_jobs w → w_trace w' = w_trace w → hushed w w'.
Proof. intros Hj Ht. unfold hushed. rewrite Hj, Ht. apply hushed_refl. Qed.

Lemma hushed_emit w e : plain_event e → hushed w (emit e w).
Proof.
  intros He. split; [intros a x Hx; by exists x|]. exists [e]. split; [done|].
  by apply Forall_singleton.
Qed.

Lemma hushed_upd w j x y :
  w_jobs w !! j = Some x → _callbacks y = _callbacks x → hushed w (upd w j y).
Proof.
  intros Hj Hc. split.
  - intros a x' Hx'. erewrite lookup_upd by done. case_decide.
    + subst. rewrite Hj in Hx'. injection Hx' as <-. by exists y.
    + by exists x'.
  - exists []. simpl. by rewrite app_nil_r.
Qed.

Lemma hushed_append w y : hushed w (set_jobs (w_jobs w ++ [y]) w).
Proof.
  split.
  - intros a x Hx. exists x. split; [|done]. simpl. by apply lookup_app_l_Some.
  - exists []. simpl. by rewrite app_nil_r.
Qed.

Create HintDb hushed_db.
#[export] Hint Extern 1 (respects hushed (modify_job _ _)) =>
  apply respects_modify_job; intros; eapply hushed_upd; [eassumption|reflexivity]
  : hushed_db.
#[export] Hint Extern 1 (respects hushed (modify_rule _ _)) =>
  apply respects_modify_rule; intros; apply hushed_same; reflexivity : hushed_db.
#[export] Hint Extern 1 (respects hushed (modify_knapsack _)) =>
  apply respects_modify_knapsack; intros; apply hushed_same; reflexivity : hushed_db.
#[export] Hint Extern 1 (respects hushed (modify_cluster _)) =>
  apply respects_modify_cluster; intros; apply hushed_same; reflexivity : hushed_db.
#[export] Hint Extern 1 (respects hushed (modify _)) =>
  apply respects_modify; intros; apply hushed_same; reflexivity : hushed_db.
#[export] Hint Extern 1 (respects hushed (log_event _)) =>
  apply respects_modify; intros; apply hushed_emit; exact I : hushed_db.
#[export] Hint Extern 1 (respects hushed (depends_remove _ _)) =>
  apply respects_depends_remove; intros; eapply hushed_upd; [eassumption|reflexivity]
  : hushed_db.
#[export] Hint Extern 1 (respects hushed (depending_remove _ _)) =>
  apply respects_depending_remove; intros; eapply hushed_upd; [eassumption|reflexivity]
  : hushed_db.
#[export] Hint Extern 1 (respects hushed (__init__ _ _)) =>
  apply respects___init__; intros;
  [apply hushed_append|eapply hushed_upd; [eassumption|reflexivity]] : hushed_db.

Ltac hushed_leaf HI :=
  apply (respects_preserves hushed); [solve [auto with hushed_db]|exact HI].
Ltac hushed_tac := let I := fresh "I" in let HI := fresh "HI" in
  intros I HI; pres ltac:(hushed_leaf HI).

Lemma hushed_remove E f : respects hushed (remove E f).
Proof.
  apply respects_remove. intros w fs'. split; [intros a x Hx; by exists x|].
  exists [EvRemove f]. split; [done|]. by apply Forall_singleton.
Qed.
#[export] Hint Resolve hushed_remove : hushed_db.

Lemma hushed_is_dynamic r f : respects hushed (is_dynamic r f).
Proof. unfold is_dynamic. hushed_tac. Qed.
Lemma hushed_set_dynamic r f b : respects hushed (set_dynamic r f b).
Proof. unfold set_dynamic. hushed_tac. Qed.
Lemma hushed_get_listfiles E p : respects hushed (get_listfiles E p).
Proof. unfold get_listfiles. hushed_tac. Qed.
Lemma hushed_created o : respects hushed (created o).
Proof. unfold created. hushed_tac. Qed.
Lemma hushed_used f : respects hushed (used f).
Proof. unfold used. hushed_tac. Qed.
#[export] Hint Resolve hushed_is_dynamic hushed_set_dynamic hushed_get_listfiles
  hushed_created hushed_used : hushed_db.

Lemma hushed_cleanup E self : respects hushed (cleanup E self).
Proof. unfold cleanup. hushed_tac. Qed.
Lemma hushed_check_produced self future : respects hushed (check_produced self future).
Proof. unfold check_produced. hushed_tac. Qed.
Lemma hushed_collect_wildcards E self : respects hushed (collect_wildcards E self).
Proof. unfold collect_wildcards. hushed_tac. Qed.
Lemma hushed_replace_dynamic_input r ie : respects hushed (replace_dynamic_input r ie).
Proof. unfold replace_dynamic_input. hushed_tac. Qed.
Lemma hushed_remove_from_dag E self : respects hushed (remove_from_dag E self).
Proof. unfold remove_from_dag. hushed_tac. Qed.
#[export] Hint Resolve hushed_cleanup hushed_check_produced hushed_collect_wildcards
  hushed_replace_dynamic_input hushed_remove_from_dag : hushed_db.

Lemma hushed_replace_job E self out : respects hushed (replace_job E self out).
Proof. unfold replace_job. hushed_tac. Qed.
#[export] Hint Resolve hushed_replace_job : hushed_db.

Lemma hushed_handle_dynamic_input E self we jobs :
  respects hushed (handle_dynamic_input E self we jobs).
Proof. unfold handle_dynamic_input. hushed_tac. Qed.
#[export] Hint Resolve hushed_handle_dynamic_input : hushed_db.

Lemma hushed_descendants E fuel self : respects hushed (descendants E fuel self).
Proof.
  revert self. induction fuel as [|fuel IH]; intros self; simpl.
  - hushed_tac.
  - intros I HI. pres ltac:(first [by apply IH | hushed_leaf HI]).
Qed.
#[export] Hint Resolve hushed_descendants : hushed_db.

Lemma hushed_all_jobs E self : respects hushed (all_jobs E self).
Proof. unfold all_jobs. hushed_tac. Qed.
#[export] Hint Resolve hushed_all_jobs : hushed_db.

Lemma hushed_expand_ancestor E we job st : respects hushed (expand_ancestor E we job st).
Proof. unfold expand_ancestor. hushed_tac. Qed.

Lemma hushed_dynamic_new_jobs E fuel self : respects hushed (dynamic_new_jobs E fuel self).
Proof.
  unfold dynamic_new_jobs. intros I HI.
  pres ltac:(first
    [ apply (respects_preserves hushed);
      [apply respects_ancestors_loop; intros; apply hushed_expand_ancestor|exact HI]
    | hushed_leaf HI ]).
Qed.
#[export] Hint Resolve hushed_dynamic_new_jobs : hushed_db.

Lemma hushed_add_jobs E jobs : respects hushed (add_jobs E jobs).
Proof.
  unfold add_jobs. hushed_tac.
  intros w Hw. destruct (w_scheduler w) as [[s|s]|]; [| |done];
    (eapply HI; [|done]); by apply hushed_same.
Qed.
#[export] Hint Resolve hushed_add_jobs : hushed_db.

Lemma hushed_attach_new_jobs E self new_jobs dynamic :
  respects hushed (attach_new_jobs E self new_jobs dynamic).
Proof. unfold attach_new_jobs. hushed_tac. Qed.
#[export] Hint Resolve hushed_attach_new_jobs : hushed_db.

Lemma hushed_handle_dynamic_output E fuel self :
  respects hushed (handle_dynamic_output E fuel self).
Proof. unfold handle_dynamic_output. hushed_tac. Qed.

Lemma hushed_Knapsack_finished job : respects hushed (Knapsack_finished job).
Proof. unfold Knapsack_finished. hushed_tac. Qed.
Lemma hushed_Knapsack_error : respects hushed Knapsack_error.
Proof. unfold Knapsack_error. hushed_tac. Qed.
Lemma hushed_Cluster_finished job : respects hushed (Cluster_finished job).
Proof. unfold Cluster_finished. hushed_tac. Qed.
Lemma hushed_call_error_callback cb : respects hushed (call_error_callback cb).
Proof.
  unfold call_error_callback. intros I HI.
  pres ltac:(first [ apply (respects_preserves hushed); [apply hushed_Knapsack_error|exact HI]
                   | hushed_leaf HI ]).
Qed.
#[export] Hint Resolve hushed_handle_dynamic_output hushed_Knapsack_finished
  hushed_Knapsack_error hushed_Cluster_finished hushed_call_error_callback : hushed_db.

(** *** What is seen of the callbacks *)

Lemma fired_app cb self l1 l2 :
  fired cb self (l1 ++ l2) = (fired cb self l1 + fired cb self l2)%nat.
Proof. unfold fired. by rewrite filter_app, length_app. Qed.

Lemma printed_app l1 l2 : printed (l1 ++ l2) = (printed l1 + printed l2)%nat.
Proof. unfold printed. by rewrite filter_app, length_app. Qed.

Lemma fired_plain cb self evs : Forall plain_event evs → fired cb self evs = 0%nat.
Proof.
  unfold fired. induction 1 as [|e evs He _ IH]; [done|].
  rewrite filter_cons. case_decide; [by subst|done].
Qed.

Lemma printed_plain evs : Forall plain_event evs → printed evs = 0%nat.
Proof.
  unfold printed. induction 1 as [|e evs He _ IH]; [done|].
  rewrite filter_cons. case_decide as Hp; [|done].
  destruct e; simpl in He, Hp; done.
Qed.

Lemma closed_callbacks_seen cb self n p cbs :
  closed_under hushed (callbacks_seen cb self n p cbs).
Proof.
  intros w w' [Hjobs (evs & Ht & Hevs)] (Hn & Hp & x & Hx & Hc).
  destruct (Hjobs self x Hx) as (x' & Hx' & Hc'). split_and!.
  - rewrite Ht, fired_app, (fired_plain cb self evs) by done. lia.
  - rewrite Ht, printed_app, (printed_plain evs) by done. lia.
  - exists x'. split; [done|congruence].
Qed.

Lemma hoare_bind_pres {A B} (I : World → Prop) (m : M A) (k : A → M B) Q :
  preserves I m → (∀ a, hoare I (k a) Q (λ _ _, True)) →
  hoare I (bind m k) Q (λ _ _, True).
Proof.
  intros Hm Hk. eapply hoare_bind; [|apply Hk].
  eapply hoare_conseq; [apply Hm|done..].
Qed.

(** [for callback in self._callbacks: callback(self)] calls every
    callback of the list once. *)
Lemma fire_callbacks_spec cb self n p cbs :
  hoare (callbacks_seen cb self n p cbs) (fire_callbacks self)
        (λ _, callbacks_seen cb self (n + registered cb cbs) p cbs) (λ _ _, True).
Proof.
  unfold fire_callbacks.
  eapply hoare_bind with (R := λ j w, _callbacks j = cbs ∧ callbacks_seen cb self n p cbs w).
  { apply hoare_get_job. intros w x Hw Hx. split; [|done].
    destruct Hw as (_ & _ & x' & Hx' & Hc). congruence. }
  intros j. apply hoare_pure. intros ->.
  eapply hoare_conseq with
    (P' := λ w, ∃ m, (m + registered cb cbs = n + registered cb cbs)%nat
                     ∧ callbacks_seen cb self m p cbs w)
    (Q' := λ _ w, ∃ m, (m + registered cb [] = n + registered cb cbs)%nat
                       ∧ callbacks_seen cb self m p cbs w)
    (X' := λ _ _, True).
  - apply (hoare_for (λ rest w, ∃ m,
             (m + registered cb rest = n + registered cb cbs)%nat
             ∧ callbacks_seen cb self m p cbs w)).
    intros c rest. apply hoare_exists. intros m. apply hoare_pure. intros Hm.
    unfold call_callback.
    eapply hoare_bind with
      (R := λ _, callbacks_seen cb self (m + registered cb [c]) p cbs).
    + apply hoare_modify. intros w (Hn & Hp & Hx). split_and!.
      * simpl. rewrite fired_app, Hn. unfold fired, registered.
        rewrite !filter_cons, !filter_nil.
        destruct (decide (c = cb)) as [->|];
          [by rewrite decide_True|rewrite decide_False; [done|congruence]].
      * simpl. by rewrite printed_app, Hp, Nat.add_0_r.
      * done.
    + intros _. eapply hoare_conseq with
        (P' := callbacks_seen cb self (m + registered cb [c]) p cbs)
        (Q' := λ _, callbacks_seen cb self (m + registered cb [c]) p cbs)
        (X' := λ _, callbacks_seen cb self (m + registered cb [c]) p cbs);
        [|done| |done].
      * pose proof (closed_callbacks_seen cb self (m + registered cb [c]) p cbs) as HI.
        destruct c; pres ltac:(hushed_leaf HI).
      * intros _ w Hw. eexists. split; [|done].
        revert Hm. unfold registered. rewrite !filter_cons, filter_nil.
        destruct (decide (c = cb)); simpl; lia.
  - intros w Hw. exists n. by split.
  - intros _ w (m & Hm & Hw). unfold registered in Hm at 1. simpl in Hm.
    by rewrite Nat.add_0_r in Hm; subst.
  - done.
Qed.

(** The [except] block prints the exception and calls no callback. *)
Lemma handle_error_spec E cb self ex n p cbs :
  hoare (callbacks_seen cb self n p cbs) (handle_error E self ex)
        (λ _, callbacks_seen cb self n (S p) cbs) (λ _ _, True).
Proof.
  unfold handle_error.
  eapply hoare_bind with (R := λ _, callbacks_seen cb self n (S p) cbs).
  { apply hoare_modify. intros w (Hn & Hp & Hx). split_and!.
    - simpl. rewrite fired_app, Hn. unfold fired. simpl. lia.
    - simpl. rewrite printed_app, Hp. unfold printed. simpl. lia.
    - done. }
  intros _. pose proof (closed_callbacks_seen cb self n (S p) cbs) as HI.
  eapply hoare_conseq with
    (P' := callbacks_seen cb self n (S p) cbs)
    (Q' := λ _, callbacks_seen cb self n (S p) cbs)
    (X' := λ _, callbacks_seen cb self n (S p) cbs); [|done|done|done].
  pres ltac:(hushed_leaf HI).
Qed.

(** [Job.finished]: either no exception is printed and every callback is
    called once, or one exception is printed and no callback is called. *)
Lemma finished_spec E fuel cb self future n p cbs :
  hoare (callbacks_seen cb self n p cbs) (finished E fuel self future)
        (λ _ w, callbacks_seen cb self (n + registered cb cbs) p cbs w
                ∨ callbacks_seen cb self n (S p) cbs w)
        (λ _ _, True).
Proof.
  pose proof (closed_callbacks_seen cb self n p cbs) as HI.
  unfold finished.
  apply hoare_bind_pres; [hushed_leaf HI|intros _].
  apply hoare_bind_pres; [apply preserves_get_job|intros j].
  destruct (ignore j).
  { eapply hoare_conseq; [apply fire_callbacks_spec|done| |done]. by left. }
  eapply hoare_bind with
    (R := λ failed : bool, if failed then callbacks_seen cb self n (S p) cbs
                           else callbacks_seen cb self n p cbs).
  { destruct (needrun (init j) && negb (pseudo (init j))); [|by apply hoare_ret].
    eapply hoare_try with (X' := λ _, callbacks_seen cb self n p cbs).
    - apply hoare_bind with (R := λ _, callbacks_seen cb self n p cbs);
        [|intros; by apply hoare_ret].
      change (preserves (callbacks_seen cb self n p cbs) (check_produced self future)).
      hushed_leaf HI.
    - intros ex ?. eapply hoare_bind; [apply handle_error_spec|].
      intros ?. by apply hoare_ret.
    - done. }
  intros [|].
  { apply hoare_ret. by right. }
  apply hoare_bind_pres; [pres ltac:(hushed_leaf HI)|intros _].
  apply hoare_bind_pres; [apply preserves_get_job|intros j'].
  apply hoare_bind_pres; [pres ltac:(hushed_leaf HI)|intros _].
  apply hoare_bind_pres; [pres ltac:(hushed_leaf HI)|intros _].
  eapply hoare_conseq; [apply fire_callbacks_spec|done| |done]. by left.
Qed.

(** C4, amended: a call of [finished] that reports no error calls every
    completion callback of the job once for each time it was registered,
    whether or not [finished] was called on the job before; a call that
    reports an error (it prints the exception) calls none of them. *)
Theorem finished_fires_each_call E fuel self future callback w w' j :
  w_jobs w !! self = Some j →
  finished E fuel self future w = Ok tt w' →
  fired callback self (w_trace w')
  = (fired callback self (w_trace w)
     + if decide (printed (w_trace w') = printed (w_trace w))
       then registered callback (_callbacks j) else 0)%nat.
Proof.
  intros Hj Hfin.
  pose proof (finished_spec E fuel callback self future
                (fired callback self (w_trace w)) (printed (w_trace w))
                (_callbacks j) w) as H.
  rewrite Hfin in H.
  destruct H as [(Hn & Hp & _)|(Hn & Hp & _)].
  - split_and!; [done..|by exists j].
  - by rewrite Hn, Hp, decide_True.
  - rewrite Hn, Hp, decide_False by lia. lia.
Qed.

Lemma finished_fires_each_call_witness :
  ∃ w', finished plain_externals 0 0%nat None uptodate_world = Ok tt w'
        ∧ fired (OtherCallback 0) 0%nat (w_trace w') = 1%nat.
Proof.
  assert (∃ w', finished plain_externals 0 0%nat None uptodate_world = Ok tt w')
    as [w' Hw'].
  { eexists. vm_compute. reflexivity. }
  exists w'. split; [exact Hw'|].
  assert (∃ j, w_jobs uptodate_world !! 0%nat = Some j
               ∧ registered (OtherCallback 0) (_callbacks j) = 1%nat) as (j & Hj & Hreg).
  { eexists. split; vm_compute; reflexivity. }
  rewrite (finished_fires_each_call plain_externals 0 0%nat None (OtherCallback 0)
             uptodate_world w' j Hj Hw').
  rewrite Hreg. revert Hw'. vm_compute. by intros [= <-].
Defined.

(** ** The cores of the local scheduler (C5) *)

(** *** Calm calls *)

Lemma calm_refl w : calm w w.
Proof.
  split_and!; [done| |].
  - intros a x Hx. exists x. split_and!; auto.
  - intros a x' Ha Hx'. apply lookup_lt_Some in Hx'. lia.
Qed.

Lemma calm0_refl w : calm0 w w.
Proof. split; [apply calm_refl|done]. Qed.

Lemma calm0_same w w' :
  w_jobs w' = w_jobs w → w_scheduler w' = w_scheduler w → calm0 w w'.
Proof.
  intros Hj Hs. unfold calm0, calm. rewrite Hj, Hs. apply calm0_refl.
Qed.

Lemma calm0_upd w j x y :
  w_jobs w !! j = Some x →
  init y = init x → threads y = threads x → depends y ⊆ depends x →
  (is_finished x = true → is_finished y = true) →
  (ignore x = true → ignore y = true) →
  _callbacks y = _callbacks x → _error_callbacks y = _error_callbacks x →
  calm0 w (upd w j y).
Proof.
  intros Hj ???????. split; [|apply length_upd]. split_and!; [done| |].
  - intros a x' Hx'. erewrite lookup_upd by done. case_decide.
    + subst. rewrite Hj in Hx'. injection Hx' as <-. exists y. by split_and!.
    + exists x'. split_and!; auto.
  - intros a x' Ha Hx'. apply lookup_lt_Some in Hx'. rewrite length_upd in Hx'. lia.
Qed.

Lemma calm_append w a :
  calm w (set_jobs (w_jobs w ++ [new_job a (length (w_jobs w))]) w).
Proof.
  split_and!; [done| |].
  - intros k x Hx. exists x. simpl. split_and!; auto. by apply lookup_app_l_Some.
  - intros k x'. simpl. intros Hk Hx'.
    apply lookup_app_Some in Hx' as [Hx'|[_ Hx']].
    + apply lookup_lt_Some in Hx'. lia.
    + apply list_lookup_singleton_Some in Hx' as [_ <-]. done.
Qed.

Lemma closed_calm0 I : closed_under calm I → closed_under calm0 I.
Proof. intros HI w w' [Hw _]. by apply HI. Qed.

Lemma calm0_calm {A} (m : M A) : respects calm0 m → respects calm m.
Proof. intros Hm I HI. apply Hm. by apply closed_calm0. Qed.

Create HintDb calm_db.
#[export] Hint Extern 1 (respects calm0 (modify_job _ _)) =>
  apply respects_modify_job; intros; eapply calm0_upd;
  [eassumption|simpl; (reflexivity || set_solver || tauto || done)..] : calm_db.
#[export] Hint Extern 1 (respects calm0 (modify_rule _ _)) =>
  apply respects_modify_rule; intros; apply calm0_same; reflexivity : calm_db.
#[export] Hint Extern 1 (respects calm0 (modify _)) =>
  apply respects_modify; intros; apply calm0_same; reflexivity : calm_db.
#[export] Hint Extern 1 (respects calm0 (log_event _)) =>
  apply respects_modify; intros; apply calm0_same; reflexivity : calm_db.
#[export] Hint Extern 1 (respects calm0 (depends_remove _ _)) =>
  apply respects_depends_remove; intros; eapply calm0_upd;
  [eassumption|simpl; (reflexivity || set_solver || tauto || done)..] : calm_db.
#[export] Hint Extern 1 (respects calm0 (depending_remove _ _)) =>
  apply respects_depending_remove; intros; eapply calm0_upd;
  [eassumption|simpl; (reflexivity || set_solver || tauto || done)..] : calm_db.

Ltac calm0_leaf HI :=
  apply (respects_preserves calm0); [solve [auto with calm_db]|exact HI].
Ltac calm0_tac := let I := fresh "I" in let HI := fresh "HI" in
  intros I HI; pres ltac:(calm0_leaf HI).

Lemma calm0_remove E f : respects calm0 (remove E f).
Proof. apply respects_remove. intros w fs'. by apply calm0_same. Qed.
#[export] Hint Resolve calm0_remove : calm_db.

Lemma calm0_is_dynamic r f : respects calm0 (is_dynamic r f).
Proof. unfold is_dynamic. calm0_tac. Qed.
Lemma calm0_set_dynamic r f b : respects calm0 (set_dynamic r f b).
Proof. unfold set_dynamic. calm0_tac. Qed.
Lemma calm0_get_listfiles E p : respects calm0 (get_listfiles E p).
Proof. unfold get_listfiles. calm0_tac. Qed.
Lemma calm0_created o : respects calm0 (created o).
Proof. unfold created. calm0_tac. Qed.
Lemma calm0_used f : respects calm0 (used f).
Proof. unfold used. calm0_tac. Qed.
Lemma calm0_touch_file f : respects calm0 (touch_file f).
Proof. unfold touch_file. calm0_tac. Qed.
Lemma calm0_prepare f : respects calm0 (prepare f).
Proof. unfold prepare. calm0_tac. Qed.
Lemma calm0_print_message self : respects calm0 (print_message self).
Proof. unfold print_message. calm0_tac. Qed.
#[export] Hint Resolve calm0_is_dynamic calm0_set_dynamic calm0_get_listfiles
  calm0_created calm0_used calm0_touch_file calm0_prepare calm0_print_message : calm_db.

Lemma calm0_cleanup E self : respects calm0 (cleanup E self).
Proof. unfold cleanup. calm0_tac. Qed.
Lemma calm0_check_produced self future : respects calm0 (check_produced self future).
Proof. unfold check_produced. calm0_tac. Qed.
Lemma calm0_collect_wildcards E self : respects calm0 (collect_wildcards E self).
Proof. unfold collect_wildcards. calm0_tac. Qed.
Lemma calm0_replace_dynamic_input r ie : respects calm0 (replace_dynamic_input r ie).
Proof. unfold replace_dynamic_input. calm0_tac. Qed.
Lemma calm0_remove_from_dag E self : respects calm0 (remove_from_dag E self).
Proof. unfold remove_from_dag. calm0_tac. Qed.
Lemma calm0_get_jobs l : respects calm0 (get_jobs l).
Proof. unfold get_jobs. calm0_tac. Qed.
#[export] Hint Resolve calm0_cleanup calm0_check_produced calm0_collect_wildcards
  calm0_replace_dynamic_input calm0_remove_from_dag calm0_get_jobs : calm_db.

Lemma calm0_descendants E fuel self : respects calm0 (descendants E fuel self).
Proof.
  revert self. induction fuel as [|fuel IH]; intros self; simpl.
  - calm0_tac.
  - intros I HI. pres ltac:(first [by apply IH | calm0_leaf HI]).
Qed.
#[export] Hint Resolve calm0_descendants : calm_db.

Lemma calm0_all_jobs E self : respects calm0 (all_jobs E self).
Proof. unfold all_jobs. calm0_tac. Qed.
#[export] Hint Resolve calm0_all_jobs : calm_db.

(** [Job.__init__] creates a job, and is calm otherwise. *)
Lemma calm___init__ E a : respects calm (__init__ E a).
Proof.
  apply respects___init__.
  - intros w. apply calm_append.
  - intros w j x l Hx. by apply (calm0_upd w j x).
Qed.

#[export] Hint Resolve calm___init__ : calm_db.
#[export] Hint Extern 5 (respects calm _) =>
  apply calm0_calm; solve [auto with calm_db] : calm_db.

Ltac calm_leaf HI :=
  apply (respects_preserves calm); [solve [auto with calm_db]|exact HI].
Ltac calm_tac := let I := fresh "I" in let HI := fresh "HI" in
  intros I HI; pres ltac:(calm_leaf HI).

Lemma calm_replace_job E self out : respects calm (replace_job E self out).
Proof. unfold replace_job. calm_tac. Qed.
#[export] Hint Resolve calm_replace_job : calm_db.

Lemma calm_handle_dynamic_input E self we jobs :
  respects calm (handle_dynamic_input E self we jobs).
Proof. unfold handle_dynamic_input. calm_tac. Qed.
#[export] Hint Resolve calm_handle_dynamic_input : calm_db.

Lemma calm_expand_ancestor E we job st : respects calm (expand_ancestor E we job st).
Proof. unfold expand_ancestor. calm_tac. Qed.

Lemma calm_dynamic_new_jobs E fuel self : respects calm (dynamic_new_jobs E fuel self).
Proof.
  unfold dynamic_new_jobs. intros I HI.
  pres ltac:(first
    [ apply (respects_preserves calm);
      [apply respects_ancestors_loop; intros; apply calm_expand_ancestor|exact HI]
    | calm_leaf HI ]).
Qed.
#[export] Hint Resolve calm_dynamic_new_jobs : calm_db.

(** *** What calm calls keep *)

Lemma pool_threads_ext w w' l :
  (∀ j, j ∈ l → threads <$> w_jobs w' !! j = threads <$> w_jobs w !! j) →
  pool_threads w' l = pool_threads w l.
Proof.
  induction l as [|j l IH]; intros H; [done|]. simpl.
  rewrite (H j) by by left. rewrite IH; [done|]. intros k Hk. apply H. by right.
Qed.

Lemma pend_threads_ext w w' l :
  (∀ j, j ∈ l → held <$> w_jobs w' !! j = held <$> w_jobs w !! j) →
  pend_threads w' l = pend_threads w l.
Proof.
  induction l as [|j l IH]; intros H; [done|]. simpl.
  rewrite (H j) by by left. rewrite IH; [done|]. intros k Hk. apply H. by right.
Qed.

Lemma pool_threads_app w l1 l2 :
  pool_threads w (l1 ++ l2) = pool_threads w l1 + pool_threads w l2.
Proof. induction l1 as [|j l1 IH]; simpl; lia. Qed.

Lemma pend_threads_app w l1 l2 :
  pend_threads w (l1 ++ l2) = pend_threads w l1 + pend_threads w l2.
Proof. induction l1 as [|j l1 IH]; simpl; lia. Qed.

(** The sums read the jobs only. *)
Ltac norm_threads :=
  repeat match goal with
  | |- context [pool_threads (set_sched ?a ?w) ?l] =>
      change (pool_threads (set_sched a w) l) with (pool_threads w l)
  | |- context [pend_threads (set_sched ?a ?w) ?l] =>
      change (pend_threads (set_sched a w) l) with (pend_threads w l)
  | |- context [pool_threads (emit ?a ?w) ?l] =>
      change (pool_threads (emit a w) l) with (pool_threads w l)
  | |- context [pend_threads (emit ?a ?w) ?l] =>
      change (pend_threads (emit a w) l) with (pend_threads w l)
  end.

(** What [cores_body] reads of the state. *)
Lemma cores_body_ext w w' s armed waiting :
  (∀ j x, w_jobs w !! j = Some x →
     ∃ x', w_jobs w' !! j = Some x' ∧ init x' = init x
           ∧ (j ∈ ks_pool s ++ armed ++ waiting → threads x' = threads x)
           ∧ _callbacks x' = _callbacks x ∧ _error_callbacks x' = _error_callbacks x) →
  cores_body w s armed waiting → cores_body w' s armed waiting.
Proof.
  intros Hjobs [Hsum Hnd Harmed Hpool Hjobs' Hwait].
  assert (∀ j, j ∈ ks_pool s ++ armed ++ waiting → ∃ x, w_jobs w !! j = Some x) as Hex.
  { intros j. rewrite app_assoc. intros [Hj|Hj]%elem_of_app.
    - destruct (Harmed j Hj) as (x & Hx & _). by exists x.
    - destruct (Hwait j Hj) as (x & Hx & _). by exists x. }
  split.
  - rewrite (pool_threads_ext w w'), (pend_threads_ext w w'); [done| |].
    + intros j Hj. destruct (Hex j) as [x Hx]; [set_solver|].
      destruct (Hjobs j x Hx) as (x' & Hx' & Hi & Ht & _). rewrite Hx, Hx'. simpl.
      unfold held. rewrite Hi, Ht; [done|]. set_solver.
    + intros j Hj. destruct (Hex j) as [x Hx]; [set_solver|].
      destruct (Hjobs j x Hx) as (x' & Hx' & Hi & Ht & _). rewrite Hx, Hx'. simpl.
      rewrite Ht; [done|]. set_solver.
  - done.
  - intros j Hj. destruct (Harmed j Hj) as (x & Hx & Hc & He & Hn).
    destruct (Hjobs j x Hx) as (x' & Hx' & _ & _ & Hc' & He').
    exists x'. split_and!; [done|congruence|congruence|done].
  - intros j Hj. destruct (Hpool j Hj) as (x & Hx & Hn).
    destruct (Hjobs j x Hx) as (x' & Hx' & Hi & _). exists x'. split; [done|congruence].
  - intros j Hj. destruct (Hjobs' j Hj) as (x & Hx & Hc).
    destruct (Hjobs j x Hx) as (x' & Hx' & _ & _ & Hc' & _). exists x'. split; [done|congruence].
  - intros j Hj. destruct (Hwait j Hj) as (x & Hx & Hc & Hn).
    destruct (Hjobs j x Hx) as (x' & Hx' & _ & _ & Hc' & _).
    exists x'. split_and!; [done|congruence|done].
Qed.

Lemma closed_and R I J :
  closed_under R I → closed_under R J → closed_under R (λ w, I w ∧ J w).
Proof. intros HI HJ w w' Hw [??]. split; [by eapply HI|by eapply HJ]. Qed.

Lemma closed_cores_inv armed waiting : closed_under calm (cores_inv armed waiting).
Proof.
  intros w w' (Hs & Hjobs & _) Hinv s Hs' Herr. rewrite Hs in Hs'.
  eapply cores_body_ext; [|by apply Hinv].
  intros j x Hx. destruct (Hjobs j x Hx) as (x' & Hx' & ? & ? & _ & _ & _ & ? & ?).
  exists x'. by split_and!.
Qed.

Lemma closed_no_callbacks : closed_under calm no_callbacks.
Proof.
  intros w w' (_ & Hjobs & Hnew) Hno j x' Hx'.
  destruct (decide (j < length (w_jobs w))%nat) as [Hlt|Hge].
  - apply lookup_lt_is_Some_2 in Hlt as [x Hx].
    destruct (Hjobs j x Hx) as (x'' & Hx'' & _ & _ & _ & _ & _ & Hc & _).
    assert (x'' = x') as -> by congruence. rewrite Hc. by eapply Hno.
  - eapply Hnew; [|done]. lia.
Qed.

Lemma closed_knapsack_inv : closed_under calm knapsack_inv.
Proof.
  intros w w' Hw [Hno Hinv]. split.
  - intros Hs. eapply closed_no_callbacks; [done|]. apply Hno.
    destruct Hw as [Hs' _]. congruence.
  - by eapply closed_cores_inv.
Qed.

(** The jobs constructed since there were [n0] jobs have no callback. *)
Lemma closed_new_no_callbacks n0 : closed_under calm (new_no_callbacks n0).
Proof.
  intros w w' (_ & Hjobs & Hnew) Hno j x' Hj Hx'.
  destruct (decide (j < length (w_jobs w))%nat) as [Hlt|Hge].
  - apply lookup_lt_is_Some_2 in Hlt as [x Hx].
    destruct (Hjobs j x Hx) as (x'' & Hx'' & _ & _ & _ & _ & _ & Hc & _).
    assert (x'' = x') as -> by congruence. rewrite Hc. by eapply Hno.
  - eapply Hnew; [|done]. lia.
Qed.

(** The jobs that the scheduler holds are older than [n0]. *)
Lemma closed_older n0 (l : list JobId) : closed_under calm (older n0 l).
Proof. intros w w' (Hs & _) H s Hs'. rewrite Hs in Hs'. by apply H. Qed.

Lemma closed_expanding_inv n0 armed waiting :
  closed_under calm (expanding_inv n0 armed waiting).
Proof.
  repeat apply closed_and;
    [apply closed_cores_inv|apply closed_new_no_callbacks|apply closed_older].
Qed.

Lemma calm_grow w w' : calm w w' → grow w w'.
Proof.
  intros (_ & Hjobs & _) a x Hx.
  destruct (Hjobs a x Hx) as (x' & Hx' & ? & _ & ? & ? & ? & _).
  exists x'. by split_and!.
Qed.

Lemma closed_persistent I : persistent I → closed_under calm I.
Proof. intros HI w w' Hw. apply HI. by apply calm_grow. Qed.

Lemma closed_expanding n0 self : closed_under calm0 (expanding n0 self).
Proof.
  intros w w' [Hw Hlen] (Hn & Hready & Hdep). split_and!.
  - lia.
  - eapply persistent_ready; [by apply calm_grow|done].
  - intros k x' Hk Hx' d Hd.
    assert (k < length (w_jobs w))%nat as Hlt
      by (rewrite <- Hlen; by eapply lookup_lt_Some).
    apply lookup_lt_is_Some_2 in Hlt as [x Hx].
    destruct Hw as (_ & Hjobs & _).
    destruct (Hjobs k x Hx) as (x'' & Hx'' & _ & _ & Hsub & _).
    assert (x'' = x') as -> by congruence. eapply Hdep; [done..|]. by apply Hsub.
Qed.

(** *** The jobs that a dynamic expansion adds are new *)

Lemma hoare_ancestors_loop {T} (I : T → World → Prop) X fuel queue visited
    (body : JobId → T → M T) acc :
  (∀ job acc, hoare (I acc) (body job acc) I X) →
  hoare (I acc) (ancestors_loop fuel queue visited body acc) I X.
Proof.
  intros Hbody. revert queue visited acc.
  induction fuel as [|fuel IH]; intros queue visited acc;
    destruct queue as [|job queue]; simpl; try (by apply hoare_ret); [apply hoare_abort|].
  eapply hoare_bind with (R := λ _, I acc); [by apply hoare_get_job|]. intros jb.
  eapply hoare_bind; [apply Hbody|]. intros acc'. apply IH.
Qed.

Section Fresh.
Context (E : Externals) (HE : set_iter_ok E).
Context (n0 : nat) (self : JobId).

Lemma calm0_expanding {A} (m : M A) :
  respects calm0 m → preserves (expanding n0 self) m.
Proof. intros Hm. apply Hm, closed_expanding. Qed.

Lemma descendants_fresh fuel k :
  fresh n0 self k →
  hoare (expanding n0 self) (descendants E fuel k)
        (λ ds w, Forall (fresh n0 self) ds ∧ expanding n0 self w)
        (λ _, expanding n0 self).
Proof.
  revert k. induction fuel as [|fuel IH]; intros k Hk; simpl.
  - by apply hoare_raise.
  - eapply hoare_bind with
      (R := λ x w, (∀ d, d ∈ depends x → fresh n0 self d) ∧ expanding n0 self w).
    { apply hoare_get_job. intros w x Hw Hx. split; [|done]. intros d Hd.
      destruct Hk as [->|Hk].
      - destruct Hw as (_ & (x' & Hx' & Hempty) & _).
        assert (x' = x) as -> by congruence. set_solver.
      - destruct Hw as (_ & _ & Hdep). by eapply Hdep. }
    intros x. apply hoare_pure. intros Hdep.
    eapply hoare_conseq with
      (P' := λ w, (Forall (fresh n0 self) (set_iter E (depends x))
                   ∧ Forall (fresh n0 self) []) ∧ expanding n0 self w)
      (Q' := λ acc w, (Forall (fresh n0 self) [] ∧ Forall (fresh n0 self) acc)
                      ∧ expanding n0 self w)
      (X' := λ _, expanding n0 self).
    + apply (hoare_fold (λ rest acc w,
               (Forall (fresh n0 self) rest ∧ Forall (fresh n0 self) acc)
               ∧ expanding n0 self w)).
      intros job rest acc. apply hoare_pure. intros [Hrest Hacc].
      apply Forall_cons in Hrest as [Hjob Hrest].
      eapply hoare_bind; [by apply IH|]. intros ds. apply hoare_ret.
      intros w [Hds Hw]. split; [|done]. split; [done|].
      apply Forall_app. split; [done|]. by apply Forall_cons.
    + intros w Hw. split; [|done]. split; [|done].
      apply Forall_forall. intros d Hd. apply Hdep. by apply (elem_of_set_iter E).
    + by intros acc w [[_ ?] ?].
    + done.
Qed.

Lemma all_jobs_fresh k :
  fresh n0 self k →
  hoare (expanding n0 self) (all_jobs E k)
        (λ all w, Forall (fresh n0 self) all ∧ expanding n0 self w)
        (λ _, expanding n0 self).
Proof.
  intros Hk. unfold all_jobs.
  eapply hoare_bind; [by apply descendants_fresh|]. intros ds.
  apply hoare_ret. intros w [Hds Hw]. split; [|done]. by apply Forall_cons.
Qed.

Lemma init_fresh a :
  (∀ d, d ∈ init_depends a → fresh n0 self d) →
  preserves (expanding n0 self) (__init__ E a).
Proof.
  intros Ha. apply hoare___init__. intros w Hw _.
  eapply hoare_pre with (P' := expanding n0 self).
  - pres ltac:(apply calm0_expanding; solve [auto with calm_db]).
  - intros ? ->. destruct Hw as (Hn & (y & Hy & Hempty) & Hdep). split_and!.
    + simpl. rewrite length_app. lia.
    + exists y. split; [|done]. simpl. by apply lookup_app_l_Some.
    + intros k x Hk. simpl. intros [Hx|[_ Hx]]%lookup_app_Some.
      * by eapply Hdep.
      * apply list_lookup_singleton_Some in Hx as [_ <-]. simpl. apply Ha.
Qed.

Lemma replace_job_fresh job out :
  (∀ a d, a ∈ run_new out → d ∈ init_depends a → fresh n0 self d) →
  hoare (expanding n0 self) (replace_job E job out)
        (λ r w, r = run_result out ∧ expanding n0 self w)
        (λ _, expanding n0 self).
Proof.
  intros Hnew. unfold replace_job.
  eapply hoare_bind with (R := λ _, expanding n0 self).
  { apply preserves_for. intros a Ha. apply preserves_bind; [|intros; apply preserves_ret].
    apply init_fresh. intros d. by apply Hnew. }
  intros _. destruct (run_result out) as [j|]; [|by apply hoare_raise].
  eapply hoare_bind with (R := λ _, expanding n0 self); [|intros; by apply hoare_ret].
  apply calm0_expanding, calm0_remove_from_dag.
Qed.

Context (HF : rule_run_fresh E).

Lemma handle_dynamic_input_fresh job we jobs :
  Forall (fresh n0 self) (cache_ids jobs) →
  hoare (expanding n0 self) (handle_dynamic_input E job we jobs)
        (λ r w, ((∀ j, r.1 = Some j → fresh n0 self j)
                 ∧ Forall (fresh n0 self) (cache_ids r.2))
                ∧ expanding n0 self w)
        (λ _, expanding n0 self).
Proof.
  intros Hjobs. unfold handle_dynamic_input.
  eapply hoare_bind with (R := λ _, expanding n0 self); [apply preserves_get_job|].
  intros j.
  eapply hoare_bind with (R := λ _, expanding n0 self); [apply preserves_get_rule|].
  intros r.
  destruct (dynamic_expansion E (rule_dynamic r) we 0 (rule_input r)) as [[|e es]|];
    [by apply hoare_ret| |by apply hoare_ret].
  eapply hoare_bind with (R := λ _, expanding n0 self).
  { apply preserves_for. intros ie _. apply calm0_expanding, calm0_replace_dynamic_input. }
  intros _.
  eapply hoare_bind with
    (R := λ w0 w, (n0 ≤ length (w_jobs w0))%nat ∧ expanding n0 self w).
  { apply hoare_get. intros w Hw. split; [|done]. by destruct Hw. }
  intros w0. apply hoare_pure. intros Hlen. cbv zeta.
  destruct (HF w0 (rule (init j)) (head (output (init j))) jobs (forced (init j)))
    as (Hnew & Hres & Hcache).
  assert (∀ d, d ∈ cache_ids jobs ∨ (length (w_jobs w0) ≤ d)%nat → fresh n0 self d)
    as Hknown.
  { intros d [Hd|Hd]; [by eapply Forall_forall in Hjobs|right; lia]. }
  set (out := rule_run E w0 (rule (init j)) (head (output (init j))) jobs
                       (forced (init j))) in *.
  eapply hoare_bind with
    (R := λ res w, (res = None ∨ res = run_result out) ∧ expanding n0 self w).
  { eapply hoare_try with (X' := λ _, expanding n0 self).
    - eapply hoare_conseq; [apply replace_job_fresh|done| |done].
      + intros a d Ha Hd. apply Hknown. by eapply Hnew.
      + intros res w [-> Hw]. split; [by right|done].
    - intros ex ?. apply hoare_ret. intros w Hw. split; [by left|done].
    - done. }
  intros res. apply hoare_pure. intros Hres'. apply hoare_ret. intros w Hw.
  split; [|done]. split.
  - simpl. intros j' ->. destruct Hres' as [|Hres']; [done|]. apply Hknown. by apply Hres.
  - simpl. apply Forall_forall. intros d Hd. by apply Hknown, Hcache.
Qed.

Lemma expand_ancestor_fresh we job st :
  hoare (λ w, ((∀ k, k ∈ st.1.1 → fresh n0 self k) ∧ Forall (fresh n0 self) (cache_ids st.2))
              ∧ expanding n0 self w)
        (expand_ancestor E we job st)
        (λ st' w, ((∀ k, k ∈ st'.1.1 → fresh n0 self k)
                   ∧ Forall (fresh n0 self) (cache_ids st'.2))
                  ∧ expanding n0 self w)
        (λ _, expanding n0 self).
Proof.
  apply hoare_pure. intros [Hst Hcache]. unfold expand_ancestor.
  eapply hoare_bind; [by apply handle_dynamic_input_fresh|].
  intros r. apply hoare_pure. intros [Hr Hcache'].
  destruct r.1 as [j|] eqn:Hj.
  - eapply hoare_bind; [apply all_jobs_fresh; by apply Hr|].
    intros all. apply hoare_ret. intros w [Hall Hw]. split; [|done]. split; [|done].
    simpl. intros k [Hk%elem_of_list_to_set|Hk]%elem_of_union; [|by apply Hst].
    by eapply Forall_forall in Hall.
  - apply hoare_ret. intros w Hw. by split.
Qed.

Lemma dynamic_new_jobs_fresh fuel :
  hoare (expanding n0 self) (dynamic_new_jobs E fuel self)
        (λ nd _, ∀ k, k ∈ nd.1 → (n0 ≤ k)%nat) (λ _ _, True).
Proof.
  unfold dynamic_new_jobs.
  eapply hoare_bind with (R := λ _, expanding n0 self).
  { eapply hoare_conseq; [apply calm0_expanding, calm0_collect_wildcards|done..]. }
  intros we.
  eapply hoare_bind with (R := λ _, expanding n0 self); [by apply hoare_get_job|].
  intros j.
  eapply hoare_bind with
    (R := λ st w, ((∀ k, k ∈ st.1.1 → fresh n0 self k)
                   ∧ Forall (fresh n0 self) (cache_ids st.2))
                  ∧ expanding n0 self w).
  { eapply hoare_conseq with (X' := λ _, expanding n0 self);
      [apply (hoare_ancestors_loop
                (λ st w, ((∀ k, k ∈ st.1.1 → fresh n0 self k)
                          ∧ Forall (fresh n0 self) (cache_ids st.2))
                         ∧ expanding n0 self w))| |done|done].
    - intros job acc. eapply hoare_conseq; [apply expand_ancestor_fresh|done..].
    - intros w Hw. split; [|done]. split; [set_solver|].
      apply Forall_singleton. by left. }
  intros st. apply hoare_pure. intros [Hst _]. cbv zeta.
  case_bool_decide as Hself.
  - eapply hoare_bind with (R := λ _ _, True); [by apply hoare_get_job|]. intros j'.
    eapply hoare_bind with (R := λ _ _, True).
    + apply preserves_for. intros d _. apply preserves_try; [|intros; apply preserves_ret].
      by apply (respects_preserves calm0 _ (λ _, True));
        [auto with calm_db|].
    + intros _. apply hoare_ret. intros w _. simpl.
      intros k [Hk Hne%not_elem_of_singleton]%elem_of_difference.
      by destruct (Hst k Hk).
  - apply hoare_ret. intros w _ k Hk. simpl in Hk.
    destruct (Hst k Hk) as [->|]; done.
Qed.
End Fresh.

(** *** The steps of a completion keep the cores in balance *)

(** A change of the scheduler that [cores_body] does not read. *)
Lemma cores_body_sched w w' s s' armed waiting :
  w_jobs w' = w_jobs w →
  ks_cores s' = ks_cores s → ks_pool s' = ks_pool s →
  ks_maxcores s' = ks_maxcores s → ks_jobs s' = ks_jobs s →
  cores_body w s armed waiting → cores_body w' s' armed waiting.
Proof.
  intros Hj Hc Hp Hm Hjs [Hsum Hnd Harmed Hpool Hjobs Hwait].
  split; unfold pool_threads, pend_threads in *; rewrite ?Hj, ?Hc, ?Hp, ?Hm, ?Hjs; done.
Qed.

Lemma calm_upd_scheduler w k x : 
  w_jobs w !! k = Some x → calm w (upd w k (set_scheduler true x)).
Proof. intros Hx. by apply (calm0_upd w k x). Qed.

Lemma expanding_inv_add_job n0 armed waiting w s k x :
  (n0 ≤ k)%nat → w_jobs w !! k = Some x →
  w_scheduler w = Some (Knapsack s) →
  expanding_inv n0 armed waiting w →
  expanding_inv n0 armed waiting
    (set_sched (Some (Knapsack (set_ks_jobs ({[k]} ∪ ks_jobs s) s))) w).
Proof.
  intros Hk Hx Hs (Hinv & Hnew & Hold). split_and!.
  - intros s' [= <-] Herr. simpl in Herr.
    destruct (Hinv s Hs Herr) as [Hsum Hnd Harmed Hpool Hjobs Hwait].
    assert (∀ j, j ∈ ks_pool s ++ armed ++ waiting → j ≠ k) as Hne.
    { intros j Hj ->. specialize (Hold s Hs Herr k Hj). lia. }
    split; simpl.
    + done.
    + done.
    + intros j Hj. destruct (Harmed j Hj) as (y & Hy & Hc & He & Hn).
      exists y. split_and!; [done..|].
      intros [->%elem_of_singleton|?]%elem_of_union; [|done].
      eapply Hne; [|done]. rewrite app_assoc. apply elem_of_app. by left.
    + done.
    + intros j [->%elem_of_singleton|Hj]%elem_of_union; [|by apply Hjobs].
      exists x. split; [done|]. by eapply Hnew.
    + intros j Hj. destruct (Hwait j Hj) as (y & Hy & Hc & Hn).
      exists y. split_and!; [done..|].
      intros [->%elem_of_singleton|?]%elem_of_union; [|done].
      eapply Hne; [|done]. rewrite app_assoc. apply elem_of_app. by right.
  - done.
  - intros s' [= <-] Herr. simpl in *. by apply Hold.
Qed.

Lemma expanding_inv_other_sched n0 armed waiting w s' :
  (∀ s, w_scheduler w ≠ Some (Knapsack s)) →
  expanding_inv n0 armed waiting w →
  expanding_inv n0 armed waiting (set_sched (Some (Cluster s')) w).
Proof.
  intros Hs (Hinv & Hnew & Hold). split_and!; [|done|]; intros s ?; simplify_eq/=.
Qed.

Section Expansion.
Context (E : Externals) (HE : set_iter_ok E) (HF : rule_run_fresh E).
Context (n0 : nat) (armed waiting : list JobId).

Lemma cores_add_jobs new_jobs :
  (∀ k, k ∈ new_jobs → (n0 ≤ k)%nat) →
  preserves (expanding_inv n0 armed waiting) (add_jobs E new_jobs).
Proof.
  intros Hnew. unfold add_jobs. apply preserves_for. intros k Hk%(elem_of_set_iter E); [|done].
  eapply hoare_bind with
    (R := λ _ w, (∃ x, w_jobs w !! k = Some x) ∧ expanding_inv n0 armed waiting w).
  - apply hoare_modify_job. intros w x Hw Hx. split.
    + exists (set_scheduler true x). simpl. apply list_lookup_insert_eq.
      by eapply lookup_lt_Some.
    + eapply closed_expanding_inv; [|done]. by apply calm_upd_scheduler.
  - intros _ w [[x Hx] Hw]. destruct (w_scheduler w) as [[s|s]|] eqn:Hs; [| |done].
    + apply (expanding_inv_add_job n0 armed waiting w s k x); auto.
    + apply expanding_inv_other_sched; [|done]. intros s'. by rewrite Hs.
Qed.

Lemma cores_attach_new_jobs self new_jobs dynamic :
  (∀ k, k ∈ new_jobs → (n0 ≤ k)%nat) →
  preserves (expanding_inv n0 armed waiting) (attach_new_jobs E self new_jobs dynamic).
Proof.
  intros Hnew. unfold attach_new_jobs.
  pres ltac:(first
    [ by apply cores_add_jobs
    | apply (respects_preserves calm);
      [solve [auto with calm_db]|apply closed_expanding_inv] ]).
Qed.

(** [handle_dynamic_output], called by a job that depends on nothing. *)
Lemma cores_handle_dynamic_output fuel self :
  hoare (λ w, expanding_inv n0 armed waiting w ∧ expanding n0 self w)
        (handle_dynamic_output E fuel self)
        (λ _, expanding_inv n0 armed waiting) (λ _ _, True).
Proof.
  unfold handle_dynamic_output.
  eapply hoare_bind with
    (R := λ nd w, (∀ k, k ∈ nd.1 → (n0 ≤ k)%nat) ∧ expanding_inv n0 armed waiting w).
  - eapply hoare_conseq.
    + apply hoare_and.
      * by apply (dynamic_new_jobs_fresh E HE n0 self HF fuel).
      * apply (respects_preserves calm);
          [apply calm_dynamic_new_jobs|apply (closed_expanding_inv n0 armed waiting)].
    + intros w [??]. by split.
    + intros nd w [??]. by split.
    + done.
  - intros nd. apply hoare_pure. intros Hnd.
    eapply hoare_conseq; [by apply cores_attach_new_jobs|done..].
Qed.
End Expansion.

(** *** After a failure *)

Lemma stopped_cores_inv armed waiting w : stopped w → cores_inv armed waiting w.
Proof. intros Hst s Hs Herr. rewrite (Hst s Hs) in Herr. done. Qed.

Lemma stopped_or_running w :
  stopped w ∨ ∃ s, w_scheduler w = Some (Knapsack s) ∧ ks_errors s = false.
Proof.
  destruct (w_scheduler w) as [[s|s]|] eqn:Hs.
  - destruct (ks_errors s) eqn:Herr; [left|right; by exists s].
    intros s' Hs'. unfold stopped in *. congruence.
  - left. intros s' Hs'. congruence.
  - left. intros s' Hs'. congruence.
Qed.

Lemma closed_stopped : closed_under calm stopped.
Proof. intros w w' (Hs & _) Hst s Hs'. rewrite Hs in Hs'. by apply Hst. Qed.

(** A leaf of a derivation that [stopped] is kept. *)
Ltac stopped_leaf :=
  first
    [ apply hoare_modify_knapsack;
      let Hst := fresh in let Hs := fresh in
      intros ? ? Hst Hs ? [= <-]; simpl; first [done|by apply (Hst _ Hs)]
    | apply hoare_modify_cluster; intros ? ? ? ? ? [=]
    | apply hoare_modify; let Hst := fresh in intros ? Hst; exact Hst
    | apply (respects_preserves calm); [solve [auto with calm_db]|apply closed_stopped] ].

Lemma stopped_call_callback c job : preserves stopped (call_callback c job).
Proof. unfold call_callback, Knapsack_finished, Cluster_finished. pres stopped_leaf. Qed.

Lemma stopped_fire_callbacks job : preserves stopped (fire_callbacks job).
Proof. unfold fire_callbacks. pres ltac:(apply stopped_call_callback). Qed.

Lemma stopped_call_error_callback c : preserves stopped (call_error_callback c).
Proof. unfold call_error_callback, Knapsack_error. pres stopped_leaf. Qed.

Lemma stops_Knapsack_error :
  hoare (λ _, True) (call_error_callback KnapsackError) (λ _, stopped) (λ _ _, True).
Proof.
  unfold call_error_callback, Knapsack_error.
  eapply hoare_bind with (R := λ _ _, True); [by apply hoare_modify|]. intros _.
  eapply hoare_bind with (R := λ _, stopped).
  { apply hoare_modify_knapsack. by intros w s _ Hs s' [= <-]. }
  intros _. eapply hoare_conseq with (P' := stopped) (Q' := λ _, stopped) (X' := λ _, stopped);
    [|done..].
  pres stopped_leaf.
Qed.

Lemma error_callbacks_stop l :
  hoare (λ w, stopped w ∨ KnapsackError ∈ l) (for_ l call_error_callback)
        (λ _, stopped) (λ _ _, True).
Proof.
  induction l as [|c l IH]; simpl.
  - apply hoare_ret. intros w [?|?%elem_of_nil]; done.
  - eapply hoare_bind; [|intros ?; apply IH].
    intros w [Hst|Hin].
    + pose proof (stopped_call_error_callback c w Hst) as H.
      destruct (call_error_callback c w); [by left|done..].
    + apply elem_of_cons in Hin as [<-|Hin].
      * pose proof (stops_Knapsack_error w I) as H.
        destruct (call_error_callback KnapsackError w); [by left|done..].
      * destruct (call_error_callback c w); [by right|done..].
Qed.

(** *** The completion of a job *)

Section Completion.
Context (E : Externals) (HE : set_iter_ok E) (HF : rule_run_fresh E).
Context (job : JobId) (waiting : list JobId).

Lemma cores_fire_callbacks :
  hoare (cores_inv [job] waiting) (fire_callbacks job)
        (λ _, cores_inv [] waiting) (λ _ _, True).
Proof.
  intros w Hw. destruct (stopped_or_running w) as [Hst|(s & Hs & Herr)].
  { pose proof (stopped_fire_callbacks job w Hst) as H.
    destruct (fire_callbacks job w); [by apply stopped_cores_inv|done..]. }
  destruct (Hw s Hs Herr) as [Hsum Hnd Harmed Hpool Hjobs Hwait].
  destruct (Harmed job) as (x & Hx & Hc & He & Hn); [set_solver|].
  assert (∀ s', ks_cores s' = ks_cores s + held x → ks_pool s' = ks_pool s →
                ks_maxcores s' = ks_maxcores s → ks_jobs s' = ks_jobs s →
                ∀ e, cores_inv [] waiting (set_sched (Some (Knapsack s')) (emit e w)))
    as Hgoal.
  { intros s' Hc' Hp' Hm' Hj' e s'' [= <-] _. split; simpl.
    - rewrite Hc', Hp', Hm'. simpl in Hsum. rewrite Hx in Hsum. simpl in Hsum.
      unfold pool_threads, pend_threads in *. simpl. lia.
    - rewrite Hp'. simpl in Hnd. apply NoDup_app in Hnd as (H1 & H2 & H3).
      apply NoDup_cons in H3 as [_ H3]. apply NoDup_app. split_and!; [done| |done].
      intros j Hin Hin'. apply (H2 j Hin). by right.
    - rewrite Hp', Hj', app_nil_r. intros j Hj. apply Harmed. apply elem_of_app. by left.
    - rewrite Hp'. apply Hpool.
    - rewrite Hj'. apply Hjobs.
    - rewrite Hj'. apply Hwait. }
  unfold fire_callbacks, bind, get_job. rewrite Hx, Hc. simpl.
  unfold call_callback, bind, log_event, modify. simpl.
  unfold Knapsack_finished, bind, get_job. simpl. rewrite Hx.
  unfold held in Hgoal. destruct (needrun (init x)); simpl.
  - unfold modify_knapsack. simpl. rewrite Hs. simpl. by apply Hgoal.
  - unfold modify_knapsack. simpl. rewrite Hs. simpl. apply Hgoal; simpl; [lia|done..].
Qed.

Lemma cores_handle_error ex :
  hoare (cores_inv [job] waiting) (handle_error E job ex)
        (λ _, cores_inv [] waiting) (λ _ _, True).
Proof.
  eapply hoare_conseq with (P' := cores_inv [job] waiting) (Q' := λ _, stopped)
                           (X' := λ _ _, True);
    [|done|by intros; apply stopped_cores_inv|done].
  unfold handle_error.
  apply hoare_bind_pres;
    [apply (respects_preserves calm); [auto with calm_db|apply closed_cores_inv]|intros _].
  apply hoare_bind_pres;
    [apply (respects_preserves calm); [auto with calm_db|apply closed_cores_inv]|intros _].
  eapply hoare_bind with (R := λ j w, stopped w ∨ KnapsackError ∈ _error_callbacks j);
    [|intros j; apply error_callbacks_stop].
  apply hoare_get_job. intros w x Hw Hx.
  destruct (stopped_or_running w) as [Hst|(s & Hs & Herr)]; [by left|right].
  destruct (Hw s Hs Herr) as [_ _ Harmed _ _ _].
  destruct (Harmed job) as (x' & Hx' & _ & He & _); [set_solver|]. congruence.
Qed.

Lemma cores_expansion fuel :
  hoare (λ w, cores_inv [job] waiting w ∧ ready w job)
        (handle_dynamic_output E fuel job)
        (λ _, cores_inv [job] waiting) (λ _ _, True).
Proof using HE HF.
  intros w [Hinv Hready].
  pose proof (cores_handle_dynamic_output E HE HF (length (w_jobs w)) [job] waiting
                fuel job w) as H.
  destruct (handle_dynamic_output E fuel job w) as [[] w'| |]; [|done..].
  apply H. split; split_and!.
  - done.
  - intros k x Hk Hx. apply lookup_lt_Some in Hx. lia.
  - intros s Hs Herr j Hj. destruct (Hinv s Hs Herr) as [_ _ Harmed _ _ Hwait].
    rewrite app_assoc in Hj. apply elem_of_app in Hj as [Hj|Hj].
    + destruct (Harmed j Hj) as (x & Hx & _). by eapply lookup_lt_Some.
    + destruct (Hwait j Hj) as (x & Hx & _). by eapply lookup_lt_Some.
  - done.
  - done.
  - intros k x Hk Hx. apply lookup_lt_Some in Hx. lia.
Qed.

Lemma closed_cores_ready :
  closed_under calm (λ w, cores_inv [job] waiting w ∧ ready w job).
Proof.
  apply closed_and; [apply closed_cores_inv|apply closed_persistent, persistent_ready].
Qed.

(** [Job.finished] on a job that holds cores and depends on nothing
    returns the cores, or a failure is recorded. *)
Lemma cores_finished fuel future :
  hoare (λ w, cores_inv [job] waiting w ∧ ready w job) (finished E fuel job future)
        (λ _, cores_inv [] waiting) (λ _ _, True).
Proof using HE HF.
  pose proof closed_cores_ready as HI.
  unfold finished.
  apply hoare_bind_pres; [calm_leaf HI|intros _].
  apply hoare_bind_pres; [apply preserves_get_job|intros j].
  destruct (ignore j).
  { eapply hoare_pre; [apply cores_fire_callbacks|by intros ? [??]]. }
  eapply hoare_bind with
    (R := λ failed : bool, if failed then cores_inv [] waiting
                           else λ w, cores_inv [job] waiting w ∧ ready w job).
  { destruct (needrun (init j) && negb (pseudo (init j))); [|by apply hoare_ret].
    eapply hoare_try with (X' := λ _ w, cores_inv [job] waiting w ∧ ready w job).
    - eapply hoare_bind with (R := λ _ w, cores_inv [job] waiting w ∧ ready w job);
        [|intros; by apply hoare_ret].
      change (preserves (λ w, cores_inv [job] waiting w ∧ ready w job)
                        (check_produced job future)).
      calm_leaf HI.
    - intros ex ?. eapply hoare_bind with (R := λ _, cores_inv [] waiting);
        [|intros ?; by apply hoare_ret].
      eapply hoare_pre; [apply cores_handle_error|by intros ? [??]].
    - done. }
  intros [|].
  { by apply hoare_ret. }
  apply hoare_bind_pres; [pres ltac:(calm_leaf HI)|intros _].
  apply hoare_bind_pres; [apply preserves_get_job|intros j'].
  apply hoare_bind_pres; [pres ltac:(calm_leaf HI)|intros _].
  eapply hoare_bind with (R := λ _, cores_inv [job] waiting);
    [|intros ?; apply cores_fire_callbacks].
  destruct (negb (dryrun (init j')) && dynamic_output (init j')); simpl.
  - apply cores_expansion.
  - apply hoare_ret. by intros ? [??].
Qed.
End Completion.

(** *** The dispatch of a job *)

Lemma NoDup_app_swap_head {A} (l1 l2 : list A) x :
  NoDup (l1 ++ x :: l2) → NoDup ((l1 ++ [x]) ++ l2).
Proof. by rewrite <- app_assoc. Qed.

(** The callbacks of the scheduler are registered on the first of the
    waiting jobs. *)
Lemma cores_arm job rest :
  hoare (cores_inv [] (job :: rest))
        (add_callback job KnapsackFinished;; add_error_callback job KnapsackError)
        (λ _, cores_inv [job] rest) (λ _ _, True).
Proof.
  intros w Hw. unfold add_callback, add_error_callback, bind, modify_job.
  destruct (w_jobs w !! job) as [x|] eqn:Hx; [|done]. simpl.
  rewrite list_lookup_insert_eq by by eapply lookup_lt_Some.
  rewrite list_insert_insert_eq. simpl.
  set (y := set_error_callbacks (_error_callbacks x ++ [KnapsackError])
              (set_callbacks (_callbacks x ++ [KnapsackFinished]) x)).
  change (cores_inv [job] rest (upd w job y)).
  intros s Hs Herr. destruct (Hw s Hs Herr) as [Hsum Hnd Harmed Hpool Hjobs Hwait].
  destruct (Hwait job) as (x' & Hx' & Hc & Hn); [by left|].
  assert (x' = x) as -> by congruence.
  assert (∀ j, j ≠ job → w_jobs (upd w job y) !! j = w_jobs w !! j) as Hother.
  { intros j Hj. erewrite lookup_upd by done. by rewrite decide_False. }
  assert (w_jobs (upd w job y) !! job = Some y) as Hjob.
  { erewrite lookup_upd by done. by rewrite decide_True. }
  assert (job ∉ ks_pool s) as Hnotpool.
  { simpl in Hnd. apply NoDup_app in Hnd as (_ & Hnd & _). intros Hin.
    apply (Hnd job Hin). by left. }
  assert (job ∉ rest) as Hnotrest.
  { simpl in Hnd. apply NoDup_app in Hnd as (_ & _ & Hnd).
    by apply NoDup_cons in Hnd as [? _]. }
  split.
  - rewrite (pool_threads_ext w (upd w job y)), (pend_threads_ext w (upd w job y)).
    + exact Hsum.
    + intros j Hj. destruct (decide (j = job)) as [->|]; [|by rewrite Hother].
      by rewrite Hjob, Hx.
    + intros j Hj. destruct (decide (j = job)) as [->|]; [|by rewrite Hother].
      by rewrite Hjob, Hx.
  - exact Hnd.
  - intros j [Hj|Hj%list_elem_of_singleton]%elem_of_app.
    + assert (j ≠ job) by (by intros ->). rewrite Hother by done.
      apply Harmed. rewrite app_nil_r. done.
    + subst j. exists y. split_and!; [done| | |done].
      * simpl. by rewrite Hc.
      * simpl. apply elem_of_app. right. by left.
  - intros j Hj. assert (j ≠ job) by (by intros ->). rewrite Hother by done. by apply Hpool.
  - intros j Hj. assert (j ≠ job) by (by intros ->). rewrite Hother by done. by apply Hjobs.
  - intros j Hj. assert (j ≠ job) by (by intros ->). rewrite Hother by done.
    apply Hwait. by right.
Qed.

(** [_run_job] puts the job into the pool. *)
Lemma cores_submit job rest (i : JobInit) :
  needrun i = true →
  hoare (λ w, cores_inv [job] rest w ∧ ∃ x, w_jobs w !! job = Some x ∧ init x = i)
        (Knapsack_run_job job)
        (λ _, cores_inv [] rest) (λ _ _, True).
Proof.
  intros Hi. unfold Knapsack_run_job.
  apply hoare_bind_pres.
  { apply (respects_preserves calm); [auto with calm_db|].
    apply closed_and; [apply closed_cores_inv|].
    intros w w' (_ & Hjobs & _) (x & Hx & Hxi).
    destruct (Hjobs job x Hx) as (x' & Hx' & Hi' & _). exists x'. split; [done|congruence]. }
  intros _. apply hoare_modify_knapsack.
  intros w s [Hw (x & Hx & Hxi)] Hs s' [= <-] Herr. simpl in Herr.
  destruct (Hw s Hs Herr) as [Hsum Hnd Harmed Hpool Hjobs Hwait]. split; simpl.
  - norm_threads. rewrite pool_threads_app. simpl in Hsum. rewrite Hx in Hsum.
    simpl in Hsum. unfold held in Hsum. rewrite Hxi, Hi in Hsum.
    simpl. rewrite Hx. simpl. lia.
  - by apply NoDup_app_swap_head.
  - rewrite app_nil_r. intros j Hj. apply Harmed. done.
  - intros j [Hj|Hj%list_elem_of_singleton]%elem_of_app; [by apply Hpool|].
    subst j. exists x. split; [done|congruence].
  - done.
  - done.
Qed.

Section Dispatch.
Context (E : Externals) (HE : set_iter_ok E) (HF : rule_run_fresh E).
Context (job : JobId) (rest : list JobId).

Lemma closed_cores_ready_init (i : JobInit) :
  closed_under calm (λ w, (cores_inv [job] rest w ∧ ready w job)
                          ∧ ∃ x, w_jobs w !! job = Some x ∧ init x = i).
Proof.
  apply closed_and; [apply closed_cores_ready|].
  intros w w' (_ & Hjobs & _) (x & Hx & Hxi).
  destruct (Hjobs job x Hx) as (x' & Hx' & Hi' & _). exists x'. split; [done|congruence].
Qed.

(** [Job.run] on a job on which the callbacks are registered. *)
Lemma cores_run fuel :
  hoare (λ w, cores_inv [job] rest w ∧ ready w job) (run E fuel job Knapsack_run_job)
        (λ _, cores_inv [] rest) (λ _ _, True).
Proof using HE HF.
  unfold run.
  eapply hoare_bind with
    (R := λ j w, (cores_inv [job] rest w ∧ ready w job)
                 ∧ ∃ x, w_jobs w !! job = Some x ∧ init x = init j).
  { apply hoare_get_job. intros w x Hw Hx. split; [done|by exists x]. }
  intros j. pose proof (closed_cores_ready_init (init j)) as HI.
  apply hoare_bind_pres; [calm_leaf HI|intros _].
  destruct (negb (needrun (init j)) || pseudo (init j) || ignore j) eqn:Hc.
  { eapply hoare_pre; [by apply cores_finished|by intros ? [??]]. }
  destruct (dryrun (init j)).
  { apply hoare_bind_pres; [calm_leaf HI|intros _].
    eapply hoare_pre; [by apply cores_finished|by intros ? [??]]. }
  destruct (touch (init j)).
  { apply hoare_bind_pres; [calm_leaf HI|intros _].
    apply hoare_bind_pres; [pres ltac:(calm_leaf HI)|intros _].
    eapply hoare_pre; [by apply cores_finished|by intros ? [??]]. }
  apply hoare_bind_pres; [pres ltac:(calm_leaf HI)|intros _].
  apply hoare_bind_pres; [pres ltac:(calm_leaf HI)|intros _].
  eapply hoare_pre; [apply (cores_submit job rest (init j))|by intros ? [[??]?]].
  destruct (needrun (init j)); [done|]. done.
Qed.

(** The body of the loop that dispatches the chosen jobs. *)
Lemma cores_dispatch fuel :
  hoare (λ w, cores_inv [] (job :: rest) w ∧ ready w job)
        (add_callback job KnapsackFinished;;
         add_error_callback job KnapsackError;;
         run E fuel job Knapsack_run_job)
        (λ _, cores_inv [] rest) (λ _ _, True).
Proof using HE HF.
  intros w [Hw Hready].
  pose proof (cores_arm job rest w Hw) as Harm.
  assert (preserves (λ w, ready w job)
            (add_callback job KnapsackFinished;; add_error_callback job KnapsackError))
    as Hkeep.
  { pres ltac:(apply benign_preserves;
               [solve [auto with benign_db]|apply persistent_stable, persistent_ready]). }
  specialize (Hkeep w Hready).
  unfold bind in *.
  destruct (add_callback job KnapsackFinished w) as [[] w1| |]; [|done..].
  destruct (add_error_callback job KnapsackError w1) as [[] w2| |]; [|done..].
  by apply cores_run.
Qed.
End Dispatch.

(** *** The completion of a pool job *)

Lemma pool_threads_remove w job l l' :
  list_remove job l = Some l' →
  pool_threads w l = default 0 (threads <$> w_jobs w !! job) + pool_threads w l'.
Proof.
  revert l'. induction l as [|k l IH]; intros l'; [done|]. simpl.
  case_decide as Hk.
  - intros [= <-]. by subst.
  - destruct (list_remove job l) as [l''|]; [|done]. simpl. intros [= <-].
    simpl. rewrite (IH l'' eq_refl). lia.
Qed.

Lemma cores_Knapsack_complete E fuel job future :
  set_iter_ok E → rule_run_fresh E →
  hoare (λ w, (cores_inv [] [] w ∧ ready w job)
              ∧ ∃ s, w_scheduler w = Some (Knapsack s) ∧ job ∈ ks_pool s)
        (Knapsack_complete E fuel job future)
        (λ _, cores_inv [] []) (λ _ _, True).
Proof.
  intros HE HF. unfold Knapsack_complete.
  eapply hoare_bind with (R := λ _ w, cores_inv [job] [] w ∧ ready w job);
    [|intros ?; by apply cores_finished].
  apply hoare_modify_knapsack. intros w s [[Hw Hready] (s0 & Hs0 & Hin)] Hs.
  assert (s0 = s) as -> by congruence. split; [|done].
  intros s' [= <-] Herr. simpl in Herr.
  destruct (Hw s Hs Herr) as [Hsum Hnd Harmed Hpool Hjobs Hwait].
  destruct (list_remove_Some job (ks_pool s) Hin) as [l' Hl'].
  rewrite app_nil_r in Hnd.
  destruct (list_remove_elem job _ l' Hl' Hnd) as [Hnd' Hiff].
  destruct (Hpool job Hin) as (x & Hx & Hneed).
  split; simpl; rewrite ?Hl'; simpl.
  - norm_threads.
    rewrite (pool_threads_remove w job _ l' Hl'), Hx in Hsum. simpl in Hsum.
    simpl. rewrite Hx. simpl. unfold held. rewrite Hneed. lia.
  - apply NoDup_app. split_and!; [done| |apply NoDup_singleton].
    intros j Hj ->%list_elem_of_singleton. apply Hiff in Hj. by destruct Hj.
  - intros j [Hj%Hiff|Hj%list_elem_of_singleton]%elem_of_app.
    + apply Harmed. rewrite app_nil_r. by destruct Hj.
    + subst. apply Harmed. by rewrite app_nil_r.
  - intros j Hj%Hiff. apply Hpool. by destruct Hj.
  - done.
  - by intros j ?%elem_of_nil.
Qed.

(** *** A round of [schedule] *)

Lemma closed_selected s0 st : closed_under calm (selected s0 st).
Proof.
  intros w w' Hw (Hs & Hinv & Hrun & Hno).
  pose proof Hw as (Hs' & Hjobs & _). split_and!.
  - congruence.
  - by eapply closed_cores_inv.
  - intros j Hj. destruct (Hrun j Hj) as (Hin & x & Hx & Hn & Hd). split; [done|].
    destruct (Hjobs j x Hx) as (x' & Hx' & Hi & _ & Hsub & _).
    exists x'. split_and!; [done|congruence|set_solver].
  - intros j Hj. destruct (Hno j Hj) as (Hin & x & Hx & Hn & Hd). split; [done|].
    destruct (Hjobs j x Hx) as (x' & Hx' & Hi & _ & Hsub & _).
    exists x'. split_and!; [done|congruence|set_solver].
Qed.

(** The threads of a job of the scheduler are reduced to [_maxcores]. *)
Lemma selected_clamp s0 st w job j M :
  w_jobs w !! job = Some j → job ∈ ks_jobs s0 →
  selected s0 st w → selected s0 st (upd w job (set_threads M j)).
Proof.
  intros Hj Hin (Hs & Hinv & Hrun & Hno).
  assert (∀ k x, w_jobs w !! k = Some x →
            ∃ x', w_jobs (upd w job (set_threads M j)) !! k = Some x'
                  ∧ init x' = init x ∧ depends x' = depends x
                  ∧ (k ≠ job → threads x' = threads x)
                  ∧ _callbacks x' = _callbacks x
                  ∧ _error_callbacks x' = _error_callbacks x) as Hjobs.
  { intros k x Hx. erewrite lookup_upd by done. case_decide.
    - subst. assert (x = j) as -> by congruence. by eexists.
    - by exists x. }
  split_and!.
  - done.
  - intros s Hs' Herr. simpl in Hs'. assert (s = s0) as -> by congruence.
    pose proof (Hinv s0 Hs Herr) as Hbody.
    eapply cores_body_ext; [|done]. intros k x Hx.
    destruct (Hjobs k x Hx) as (x' & Hx' & Hi & _ & Ht & Hc & He).
    exists x'. split_and!; [done..| |done|done].
    intros Hk. apply Ht. intros ->. rewrite !app_nil_r in Hk.
    destruct (cb_armed _ _ _ _ Hbody job) as (_ & _ & _ & _ & Hnot);
      [by rewrite app_nil_r|done].
  - intros k Hk. destruct (Hrun k Hk) as (Hin' & x & Hx & Hn & Hd). split; [done|].
    destruct (Hjobs k x Hx) as (x' & Hx' & Hi & Hd' & _).
    exists x'. split_and!; [done|congruence|congruence].
  - intros k Hk. destruct (Hno k Hk) as (Hin' & x & Hx & Hn & Hd). split; [done|].
    destruct (Hjobs k x Hx) as (x' & Hx' & Hi & Hd' & _).
    exists x'. split_and!; [done|congruence|congruence].
Qed.

Lemma selected_emit s0 st w e : selected s0 st w → selected s0 st (emit e w).
Proof. apply closed_selected. apply proj1 with (B := True). by split; [apply calm0_same|]. Qed.

(** The body of the first loop. *)
Lemma cores_Knapsack_select s0 job st :
  job ∈ ks_jobs s0 →
  hoare (selected s0 st) (Knapsack_select job st)
        (λ st' w, (st' = st ∨ (st'.1 = st.1 ++ [job] ∧ st'.2 = st.2)
                   ∨ (st'.1 = st.1 ∧ st'.2 = {[job]} ∪ st.2))
                  ∧ selected s0 st' w)
        (λ _ _, True).
Proof.
  intros Hin w Hsel. unfold Knapsack_select, bind, get_job.
  destruct (w_jobs w !! job) as [j|] eqn:Hj; [|done]. simpl.
  case_bool_decide as Hd; [by split; [left|]|].
  assert (depends j = ∅) as Hd' by (by destruct (decide (depends j = ∅))).
  pose proof Hsel as (Hs & Hinv & Hrun & Hno).
  destruct (needrun (init j)) eqn:Hn.
  - unfold get_knapsack. rewrite Hs. simpl.
    assert (∀ w', selected s0 st w' → w_jobs w' !! job = Some j →
                  selected s0 (st.1 ++ [job], st.2) w') as Hadd.
    { intros w' (Hs' & Hinv' & Hrun' & Hno') Hj'. split_and!; [done..| |done].
      simpl. intros k [Hk| ->%list_elem_of_singleton]%elem_of_app; [by apply Hrun'|].
      split; [done|]. by exists j. }
    case_bool_decide; simpl.
    + destruct (dryrun (init j)); simpl; unfold modify_job; simpl; rewrite Hj; simpl.
      * split; [right; by left|].
        assert (selected s0 (st.1 ++ [job], st.2) w) as Hsel' by by apply Hadd.
        by apply (selected_clamp s0 _ w job j).
      * split; [right; by left|].
        assert (selected s0 (st.1 ++ [job], st.2) (emit
                  (LogWarningThreads job (threads j) (ks_maxcores s0)) w)) as Hsel'
          by (apply Hadd; [by apply selected_emit|done]).
        by apply (selected_clamp s0 _ (emit _ w) job j).
    + split; [right; by left|]. by apply Hadd.
  - split; [right; by right|]. split_and!; [done..|].
    simpl. intros k [->%elem_of_singleton|Hk]%elem_of_union; [|by apply Hno].
    split; [done|]. by exists j.
Qed.

Lemma set_iter_NoDup E (X : gset JobId) : set_iter_ok E → NoDup (set_iter E X).
Proof. intros HE. rewrite (HE X). apply NoDup_elements. Qed.

(** The first loop as a whole. *)
Lemma cores_select_loop E s0 :
  set_iter_ok E →
  hoare (selected s0 ([], ∅))
        (fold_ (set_iter E (ks_jobs s0)) Knapsack_select ([], ∅))
        (λ st w, NoDup st.1 ∧ selected s0 st w) (λ _ _, True).
Proof.
  intros HE.
  eapply hoare_conseq with
    (P' := λ w, (NoDup (([], ∅ : gset JobId).1 ++ set_iter E (ks_jobs s0))
                 ∧ ∀ j, j ∈ set_iter E (ks_jobs s0) → j ∈ ks_jobs s0)
                ∧ selected s0 ([], ∅) w)
    (Q' := λ st w, (NoDup (st.1 ++ []) ∧ ∀ j, j ∈ [] → j ∈ ks_jobs s0)
                   ∧ selected s0 st w)
    (X' := λ _ _, True).
  - apply (hoare_fold (λ rest st w,
             (NoDup (st.1 ++ rest) ∧ ∀ j, j ∈ rest → j ∈ ks_jobs s0)
             ∧ selected s0 st w)).
    intros job rest st. apply hoare_pure. intros [Hnd Hrest].
    eapply hoare_conseq; [apply (cores_Knapsack_select s0 job st)|done| |done].
    + apply Hrest. by left.
    + intros st' w [Hst Hsel]. split; [|done]. split; [|intros j Hj; apply Hrest; by right].
      destruct Hst as [->|[[-> _]|[-> _]]].
      * apply NoDup_app in Hnd as (H1 & H2 & H3). apply NoDup_cons in H3 as [H3 H4].
        apply NoDup_app. split_and!; [done| |done]. intros j Hj Hj'.
        apply (H2 j Hj). by right.
      * by apply NoDup_app_swap_head.
      * apply NoDup_app in Hnd as (H1 & H2 & H3). apply NoDup_cons in H3 as [H3 H4].
        apply NoDup_app. split_and!; [done| |done]. intros j Hj Hj'.
        apply (H2 j Hj). by right.
  - intros w Hw. split; [|done]. split.
    + simpl. by apply set_iter_NoDup.
    + intros j Hj. by apply (elem_of_set_iter E) in Hj.
  - intros st w [[Hnd _] Hsel]. rewrite app_nil_r in Hnd. done.
  - done.
Qed.

(** The jobs chosen hold the threads deducted from [_cores]. *)
Lemma pend_threads_needrun w l js :
  Forall2 (λ id x, w_jobs w !! id = Some x) l js →
  (∀ x, x ∈ js → needrun (init x) = true) →
  pend_threads w l = sum_list_threads js.
Proof.
  induction 1 as [|id x l js Hx _ IH]; intros Hn; [done|]. simpl.
  rewrite Hx. simpl. unfold held. rewrite (Hn x) by by left.
  rewrite IH; [done|]. intros y Hy. apply Hn. by right.
Qed.

Lemma pend_threads_norun w l :
  (∀ j, j ∈ l → ∃ x, w_jobs w !! j = Some x ∧ needrun (init x) = false) →
  pend_threads w l = 0.
Proof.
  induction l as [|j l IH]; intros Hn; [done|]. simpl.
  destruct (Hn j) as (x & Hx & Hf); [by left|]. rewrite Hx. simpl. unfold held.
  rewrite Hf, IH; [done|]. intros k Hk. apply Hn. by right.
Qed.

(** The chosen jobs are taken out of [_jobs], and their threads
    deducted. *)
Lemma cores_commit E w s0 s3 st run_ js :
  set_iter_ok E → ks_errors s0 = false →
  selected s0 st w → NoDup st.1 → run_ ⊆ list_to_set st.1 →
  Forall2 (λ id x, w_jobs w !! id = Some x) (set_iter E run_) js →
  ks_cores s3 = ks_cores s0 - sum_list_threads js →
  ks_pool s3 = ks_pool s0 → ks_maxcores s3 = ks_maxcores s0 →
  ks_jobs s3 = ks_jobs s0 ∖ run_ ∖ st.2 →
  cores_body w s3 [] (set_iter E run_ ++ set_iter E st.2)
  ∧ ∀ j, j ∈ set_iter E run_ ++ set_iter E st.2 → ready w j.
Proof.
  intros HE Herr (Hs & Hinv & Hrun & Hno) Hnd Hsub Hjs Hc Hp Hm Hj.
  destruct (Hinv s0 Hs Herr) as [Hsum Hnd0 Harmed Hpool Hjobs Hwait].
  rewrite !app_nil_r in *.
  assert (∀ j, j ∈ run_ → j ∈ ks_jobs s0
            ∧ ∃ x, w_jobs w !! j = Some x ∧ needrun (init x) = true ∧ depends x = ∅)
    as Hrun'.
  { intros j Hj'. apply Hrun. apply Hsub in Hj'. by apply elem_of_list_to_set in Hj'. }
  split; [split|].
  - rewrite Hc, Hp, Hm. simpl. rewrite pend_threads_app.
    rewrite (pend_threads_needrun w _ js Hjs), pend_threads_norun.
    + simpl in Hsum. unfold pend_threads in Hsum. simpl in Hsum. lia.
    + intros j Hj'%(elem_of_set_iter E); [|done].
      destruct (Hno j Hj') as (_ & x & Hx & Hn & _). by exists x.
    + intros x Hx. apply list_elem_of_lookup in Hx as [i Hi].
      destruct (Forall2_lookup_r _ _ _ _ _ Hjs Hi) as (id & Hid & Hlook).
      apply list_elem_of_lookup_2 in Hid. apply (elem_of_set_iter E) in Hid; [|done].
      destruct (Hrun' id Hid) as (_ & x' & Hx' & Hn & _). congruence.
  - rewrite Hp. simpl. apply NoDup_app. split_and!; [done| |].
    + intros j Hjp [Hjr|Hjn]%elem_of_app.
      * apply (elem_of_set_iter E) in Hjr; [|done].
        destruct (Harmed j Hjp) as (_ & _ & _ & _ & Hnot). by destruct (Hrun' j Hjr).
      * apply (elem_of_set_iter E) in Hjn; [|done].
        destruct (Harmed j Hjp) as (_ & _ & _ & _ & Hnot). by destruct (Hno j Hjn).
    + apply NoDup_app. split_and!; [by apply set_iter_NoDup| |by apply set_iter_NoDup].
      intros j Hjr%(elem_of_set_iter E) Hjn%(elem_of_set_iter E); [|done..].
      destruct (Hrun' j Hjr) as (_ & x & Hx & Hn & _).
      destruct (Hno j Hjn) as (_ & x' & Hx' & Hn' & _). congruence.
  - rewrite Hp, Hj, app_nil_r. intros j Hjp.
    destruct (Harmed j Hjp) as (x & Hx & Hcb & He & Hnot).
    exists x. split_and!; [done..|]. set_solver.
  - rewrite Hp. apply Hpool.
  - rewrite Hj. intros j Hj'. apply Hjobs. set_solver.
  - rewrite Hj. intros j [Hjr|Hjn]%elem_of_app.
    + apply (elem_of_set_iter E) in Hjr; [|done].
      destruct (Hrun' j Hjr) as (Hin & _). destruct (Hjobs j Hin) as (x & Hx & Hcb).
      exists x. split_and!; [done..|]. set_solver.
    + apply (elem_of_set_iter E) in Hjn; [|done].
      destruct (Hno j Hjn) as (Hin & _). destruct (Hjobs j Hin) as (x & Hx & Hcb).
      exists x. split_and!; [done..|]. set_solver.
  - intros j [Hjr|Hjn]%elem_of_app.
    + apply (elem_of_set_iter E) in Hjr; [|done].
      destruct (Hrun' j Hjr) as (_ & x & Hx & _ & Hd). by exists x.
    + apply (elem_of_set_iter E) in Hjn; [|done].
      destruct (Hno j Hjn) as (_ & x & Hx & _ & Hd). by exists x.
Qed.

Lemma cores_modify_knapsack f armed waiting :
  (∀ s, ks_cores (f s) = ks_cores s) → (∀ s, ks_pool (f s) = ks_pool s) →
  (∀ s, ks_maxcores (f s) = ks_maxcores s) → (∀ s, ks_jobs (f s) = ks_jobs s) →
  (∀ s, ks_errors (f s) = ks_errors s) →
  preserves (cores_inv armed waiting) (modify_knapsack f).
Proof.
  intros Hc Hp Hm Hj He. apply hoare_modify_knapsack. intros w s Hw Hs s' [= <-] Herr.
  rewrite He in Herr.
  eapply (cores_body_sched w _ s); [done|apply Hc|apply Hp|apply Hm|apply Hj|].
  by apply Hw.
Qed.

Lemma selected_same s0 st w w' :
  w_jobs w' = w_jobs w → w_scheduler w' = w_scheduler w →
  selected s0 st w → selected s0 st w'.
Proof.
  intros Hj Hs. apply closed_selected. by destruct (calm0_same w w' Hj Hs).
Qed.

Section Schedule.
Context (E : Externals) (HE : set_iter_ok E) (HF : rule_run_fresh E).

(** While the chosen jobs are taken out of [_jobs]: the scheduler is
    [s'], and with the scheduler [s0] the state is as the first loop left
    it. *)
Let committing (s0 : KnapsackJobScheduler) (st : list JobId * gset JobId)
    (s' : KnapsackJobScheduler) (w : World) : Prop :=
  w_scheduler w = Some (Knapsack s')
  ∧ ks_pool s' = ks_pool s0
  ∧ selected s0 st (set_sched (Some (Knapsack s0)) w).

Lemma committing_step s0 st s' f :
  (∀ s, ks_pool (f s) = ks_pool s) →
  hoare (committing s0 st s') (modify_knapsack f)
        (λ _, committing s0 st (f s')) (λ _ _, True).
Proof.
  intros Hf. apply hoare_modify_knapsack. intros w s (Hs & Hp & Hsel) Hs'.
  assert (s = s') as -> by congruence. split_and!; [done|by rewrite Hf|done].
Qed.

Lemma cores_dispatch_loop fuel (L : list JobId) :
  hoare (λ w, cores_inv [] L w ∧ ∀ j, j ∈ L → ready w j)
        (for_ L (λ job,
           add_callback job KnapsackFinished;;
           add_error_callback job KnapsackError;;
           run E fuel job Knapsack_run_job))
        (λ _, cores_inv [] []) (λ _ _, True).
Proof using HE HF.
  eapply hoare_conseq with
    (P' := λ w, cores_inv [] L w ∧ ∀ j, j ∈ L → ready w j)
    (Q' := λ _ w, cores_inv [] [] w ∧ ∀ j, j ∈ [] → ready w j) (X' := λ _ _, True);
    [|done|by intros ?? [??]|done].
  apply (hoare_for (λ rest w, cores_inv [] rest w ∧ ∀ j, j ∈ rest → ready w j)).
  intros job rest. eapply hoare_conseq.
  - apply hoare_and.
    + by apply (cores_dispatch E HE HF job rest fuel).
    + apply (monotone_Knapsack_dispatch E fuel job _ (persistent_ready_all rest)).
  - intros w [Hw Hr]. split; [split; [done|apply Hr; by left]|].
    intros j Hj. apply Hr. by right.
  - done.
  - done.
Qed.

(** One round of [KnapsackJobScheduler.schedule] keeps the cores in
    balance. *)
Lemma cores_Knapsack_schedule fuel :
  hoare (λ w, sys_inv w ∧ cores_inv [] [] w) (Knapsack_schedule E fuel)
        (λ _, cores_inv [] []) (λ _ _, True).
Proof using HE HF.
  unfold Knapsack_schedule.
  apply hoare_bind_pres.
  { apply preserves_and; [|by apply cores_modify_knapsack].
    apply benign_preserves; [auto with benign_db|apply stable_sys_inv]. }
  intros _.
  eapply hoare_bind with
    (R := λ s w, w_scheduler w = Some (Knapsack s) ∧ sys_inv w ∧ cores_inv [] [] w).
  { apply hoare_get_knapsack. by intros w s [??] ?. }
  intros s. destruct (ks_errors s) eqn:Herr.
  { eapply hoare_conseq with
      (P' := cores_inv [] []) (Q' := λ _, cores_inv [] []) (X' := λ _, cores_inv [] []);
      [|by intros ? (_ & _ & ?)|done|done].
    unfold pool_shutdown.
    pres ltac:(first
      [ by apply cores_modify_knapsack
      | apply (respects_preserves calm); [solve [auto with calm_db]|apply closed_cores_inv] ]). }
  case_bool_decide as Hjobs.
  { eapply hoare_conseq with
      (P' := cores_inv [] []) (Q' := λ _, cores_inv [] []) (X' := λ _, cores_inv [] []);
      [|by intros ? (_ & _ & ?)|done|done].
    unfold pool_shutdown.
    pres ltac:(first
      [ by apply cores_modify_knapsack
      | apply (respects_preserves calm); [solve [auto with calm_db]|apply closed_cores_inv] ]). }
  eapply hoare_bind with
    (R := λ st w, NoDup st.1 ∧ (sys_inv w ∧ selected s st w)).
  { eapply hoare_conseq.
    - apply hoare_and.
      + by apply (cores_select_loop E s).
      + apply (preserves_fold sys_inv). intros job st _.
        apply benign_preserves; [auto with benign_db|apply stable_sys_inv].
    - intros w (Hs & Hsys & Hinv). split; [|done]. split_and!; [done..| |];
        by intros j ?%elem_of_nil || by intros j ?%elem_of_empty.
    - intros st w [[??]?]. done.
    - done. }
  intros st. apply hoare_pure. intros Hnd. cbv zeta.
  eapply hoare_bind; [apply get_jobs_spec|]. intros js.
  eapply hoare_bind with
    (R := λ s' w, (s' = s ∧ jobid <$> js = st.1) ∧ (sys_inv w ∧ selected s st w)).
  { apply hoare_get_knapsack. intros w s' [[Hsys Hsel] Hjs] Hs'. split; [|done].
    split; [destruct Hsel as [Hs _]; congruence|].
    apply (get_jobs_ids w); [apply Hsys|done]. }
  intros s'. apply hoare_pure. intros [-> Hids].
  eapply hoare_bind with
    (R := λ run_ w, run_ ⊆ list_to_set st.1 ∧ (sys_inv w ∧ selected s st w)).
  { destruct (_knapsack (ks_cores s) js) as [r|] eqn:Hr; [|by apply hoare_raise].
    apply hoare_ret. intros w Hw. split; [|done].
    apply knapsack_subset in Hr. by rewrite Hids in Hr. }
  intros run_. apply hoare_pure. intros Hsub.
  eapply hoare_pre with (P' := committing s st s).
  2:{ intros w [_ Hsel]. pose proof Hsel as (Hs & _). split_and!; [done..|].
      by apply (selected_same s st w). }
  eapply hoare_bind; [by apply committing_step|]. intros ?.
  eapply hoare_bind; [by apply committing_step|]. intros ?.
  eapply hoare_bind; [apply get_jobs_spec|]. intros js'.
  eapply hoare_bind with
    (R := λ _ w, cores_inv [] (set_iter E run_ ++ set_iter E st.2) w
                 ∧ ∀ j, j ∈ set_iter E run_ ++ set_iter E st.2 → ready w j).
  { apply hoare_modify_knapsack. intros w s2 [(Hs2 & Hp2 & Hsel) Hjs'] Hs2'.
    assert (s2 = set_ks_jobs (ks_jobs (set_ks_jobs (ks_jobs s ∖ run_) s) ∖ st.2)
                             (set_ks_jobs (ks_jobs s ∖ run_) s)) as -> by congruence.
    destruct (cores_commit E (set_sched (Some (Knapsack s)) w) s
                (set_ks_cores (ks_cores s - sum_list_threads js')
                   (set_ks_jobs (ks_jobs (set_ks_jobs (ks_jobs s ∖ run_) s) ∖ st.2)
                      (set_ks_jobs (ks_jobs s ∖ run_) s)))
                st run_ js') as [Hbody Hready]; try done.
    split; [|exact Hready].
    intros s3 [= <-] _. eapply cores_body_sched; [| | | | |exact Hbody]; done. }
  intros ?.
  eapply hoare_bind; [by apply cores_dispatch_loop|].
  intros ?. by apply hoare_ret.
Qed.
End Schedule.

(** *** The kind of scheduler stays *)

Lemma kept_kind_same w w' : w_scheduler w' = w_scheduler w → kept_kind w w'.
Proof.
  intros Hs. unfold kept_kind. rewrite Hs. destruct (w_scheduler w) as [[s|s]|]; eauto.
Qed.

Lemma calm_kept_kind w w' : calm w w' → kept_kind w w'.
Proof. intros [Hs _]. by apply kept_kind_same. Qed.

Lemma calm_kind {A} (m : M A) : respects calm m → respects kept_kind m.
Proof. intros Hm I HI. apply Hm. intros w w' Hw. apply HI. by apply calm_kept_kind. Qed.

Create HintDb kind_db.
#[export] Hint Extern 1 (respects kept_kind (modify_job _ _)) =>
  apply respects_modify_job; intros; by apply kept_kind_same : kind_db.
#[export] Hint Extern 1 (respects kept_kind (modify _)) =>
  apply respects_modify; intros; by apply kept_kind_same : kind_db.
#[export] Hint Extern 1 (respects kept_kind (log_event _)) =>
  apply respects_modify; intros; by apply kept_kind_same : kind_db.
#[export] Hint Extern 1 (respects kept_kind (modify_knapsack _)) =>
  apply respects_modify_knapsack;
  let Hs := fresh in intros ? ? Hs; unfold kept_kind; rewrite Hs; by eexists : kind_db.
#[export] Hint Extern 1 (respects kept_kind (modify_cluster _)) =>
  apply respects_modify_cluster;
  let Hs := fresh in intros ? ? Hs; unfold kept_kind; rewrite Hs; by eexists : kind_db.
#[export] Hint Extern 5 (respects kept_kind _) =>
  apply calm_kind; solve [auto with calm_db] : kind_db.

Ltac kind_leaf HI :=
  apply (respects_preserves kept_kind); [solve [auto with kind_db]|exact HI].
Ltac kind_tac := let I := fresh "I" in let HI := fresh "HI" in
  intros I HI; pres ltac:(kind_leaf HI).

Lemma calm0_os_remove f : respects calm0 (os_remove f).
Proof. unfold os_remove. calm0_tac. Qed.
#[export] Hint Resolve calm0_os_remove : calm_db.

Lemma kind_add_jobs E jobs : respects kept_kind (add_jobs E jobs).
Proof.
  unfold add_jobs. kind_tac.
  intros w Hw. destruct (w_scheduler w) as [[s|s]|] eqn:Hs; [| |done];
    (eapply HI; [|done]); unfold kept_kind; rewrite Hs; by eexists.
Qed.
#[export] Hint Resolve kind_add_jobs : kind_db.

Lemma kind_attach_new_jobs E self new_jobs dynamic :
  respects kept_kind (attach_new_jobs E self new_jobs dynamic).
Proof. unfold attach_new_jobs. kind_tac. Qed.
#[export] Hint Resolve kind_attach_new_jobs : kind_db.

Lemma kind_handle_dynamic_output E fuel self :
  respects kept_kind (handle_dynamic_output E fuel self).
Proof. unfold handle_dynamic_output. kind_tac. Qed.

Lemma kind_Knapsack_finished job : respects kept_kind (Knapsack_finished job).
Proof. unfold Knapsack_finished. kind_tac. Qed.
Lemma kind_Knapsack_error : respects kept_kind Knapsack_error.
Proof. unfold Knapsack_error. kind_tac. Qed.
Lemma kind_Cluster_finished job : respects kept_kind (Cluster_finished job).
Proof. unfold Cluster_finished. kind_tac. Qed.
#[export] Hint Resolve kind_handle_dynamic_output kind_Knapsack_finished
  kind_Knapsack_error kind_Cluster_finished : kind_db.

Lemma kind_call_callback c job : respects kept_kind (call_callback c job).
Proof. unfold call_callback. kind_tac. Qed.
Lemma kind_call_error_callback c : respects kept_kind (call_error_callback c).
Proof. unfold call_error_callback. kind_tac. Qed.
#[export] Hint Resolve kind_call_callback kind_call_error_callback : kind_db.

Lemma kind_fire_callbacks job : respects kept_kind (fire_callbacks job).
Proof. unfold fire_callbacks. kind_tac. Qed.
Lemma kind_handle_error E job ex : respects kept_kind (handle_error E job ex).
Proof. unfold handle_error. kind_tac. Qed.
#[export] Hint Resolve kind_fire_callbacks kind_handle_error : kind_db.

Lemma kind_finished E fuel job future : respects kept_kind (finished E fuel job future).
Proof. unfold finished. kind_tac. Qed.
#[export] Hint Resolve kind_finished : kind_db.

Lemma kind_Knapsack_run_job job : respects kept_kind (Knapsack_run_job job).
Proof. unfold Knapsack_run_job. kind_tac. Qed.
Lemma kind_Cluster_run_job job : respects kept_kind (Cluster_run_job job).
Proof. unfold Cluster_run_job, print_message. kind_tac. Qed.
#[export] Hint Resolve kind_Knapsack_run_job kind_Cluster_run_job : kind_db.

Lemma kind_run E fuel job run_func :
  respects kept_kind (run_func job) → respects kept_kind (run E fuel job run_func).
Proof.
  intros Hrun. unfold run. intros I HI.
  pres ltac:(first [by apply Hrun | kind_leaf HI]).
Qed.

Lemma kind_Knapsack_select job st : respects kept_kind (Knapsack_select job st).
Proof. unfold Knapsack_select. kind_tac. Qed.
Lemma kind_Cluster_select job st : respects kept_kind (Cluster_select job st).
Proof. unfold Cluster_select. kind_tac. Qed.
#[export] Hint Resolve kind_Knapsack_select kind_Cluster_select : kind_db.

Lemma kind_Knapsack_schedule E fuel : respects kept_kind (Knapsack_schedule E fuel).
Proof.
  unfold Knapsack_schedule, pool_shutdown, add_callback, add_error_callback. intros I HI.
  pres ltac:(first
    [ apply (respects_preserves kept_kind);
      [apply kind_run, kind_Knapsack_run_job|exact HI]
    | kind_leaf HI ]).
Qed.

Lemma kind_Cluster_schedule E fuel : respects kept_kind (Cluster_schedule E fuel).
Proof.
  unfold Cluster_schedule, add_callback. intros I HI.
  pres ltac:(first
    [ apply (respects_preserves kept_kind);
      [apply kind_run, kind_Cluster_run_job|exact HI]
    | kind_leaf HI ]).
Qed.

Lemma kind_Knapsack_complete E fuel job future :
  respects kept_kind (Knapsack_complete E fuel job future).
Proof. unfold Knapsack_complete. kind_tac. Qed.

Lemma kind_Cluster_wait_for_job E fuel job jobfinished jobfailed jobscript :
  respects kept_kind (Cluster_wait_for_job E fuel job jobfinished jobfailed jobscript).
Proof. unfold Cluster_wait_for_job. kind_tac. Qed.

Lemma kind_Cluster_watch E fuel job jobfinished jobfailed jobscript :
  respects kept_kind (Cluster_watch E fuel job jobfinished jobfailed jobscript).
Proof.
  intros I HI w Hw. unfold Cluster_watch.
  pose proof (kind_Cluster_wait_for_job E fuel job jobfinished jobfailed jobscript
                I HI w Hw) as Hwait.
  assert (preserves I (modify_cluster
            (drop_watcher (job, (jobfinished, (jobfailed, jobscript)))))) as Hdrop
    by kind_leaf HI.
  destruct (Cluster_wait_for_job E fuel job jobfinished jobfailed jobscript w)
    as [[] w'|ex w'|]; [| | |done].
  - by apply Hdrop.
  - done.
  - specialize (Hdrop w' Hwait).
    by destruct (modify_cluster _ w') as [? w''|? w''|].
Qed.

Lemma closed_cluster_scheduled :
  closed_under kept_kind (λ w, ∃ s, w_scheduler w = Some (Cluster s)).
Proof. intros w w' Hw [s Hs]. unfold kept_kind in Hw. by rewrite Hs in Hw. Qed.

Lemma closed_knapsack_scheduled :
  closed_under kept_kind (λ w, ∃ s, w_scheduler w = Some (Knapsack s)).
Proof. intros w w' Hw [s Hs]. unfold kept_kind in Hw. by rewrite Hs in Hw. Qed.

Lemma cluster_knapsack_inv w :
  (∃ s, w_scheduler w = Some (Cluster s)) → knapsack_inv w.
Proof. intros [s Hs]. split; [|intros s']; congruence. Qed.

Lemma knapsack_knapsack_inv w :
  (∃ s, w_scheduler w = Some (Knapsack s)) → cores_inv [] [] w → knapsack_inv w.
Proof. intros [s Hs] Hinv. split; [congruence|done]. Qed.

(** *** The creation of the schedulers *)

Lemma cluster_Cluster__init__ E jobs submitcmd :
  hoare (λ _, True) (Cluster__init__ E jobs submitcmd)
        (λ _ w, ∃ s, w_scheduler w = Some (Cluster s)) (λ _ _, True).
Proof.
  unfold Cluster__init__.
  eapply hoare_bind with (R := λ _ _, True); [by apply hoare_get|]. intros w0.
  eapply hoare_bind with (R := λ _ w, ∃ s, w_scheduler w = Some (Cluster s)).
  { apply hoare_modify. intros w _. by eexists. }
  intros _. eapply hoare_conseq with
    (P' := λ w, ∃ s, w_scheduler w = Some (Cluster s))
    (Q' := λ _ w, ∃ s, w_scheduler w = Some (Cluster s))
    (X' := λ _ w, ∃ s, w_scheduler w = Some (Cluster s)); [|done..].
  pose proof closed_cluster_scheduled as HI.
  pres ltac:(kind_leaf HI).
Qed.

Lemma cores_Knapsack__init__ E jobs :
  hoare (λ w, w_scheduler w = None ∧ no_callbacks w) (Knapsack__init__ E jobs)
        (λ _, knapsack_inv) (λ _ _, True).
Proof.
  set (Init := λ w, no_callbacks w
    ∧ ∃ s, w_scheduler w = Some (Knapsack s) ∧ ks_pool s = [] ∧ ks_cores s = ks_maxcores s
           ∧ ∀ j, j ∈ ks_jobs s → ∃ x, w_jobs w !! j = Some x).
  assert (∀ f, (∀ s, ks_pool (f s) = ks_pool s) → (∀ s, ks_cores (f s) = ks_cores s) →
               (∀ s, ks_maxcores (f s) = ks_maxcores s) →
               (∀ s, ks_jobs (f s) = ks_jobs s) →
               preserves Init (modify_knapsack f)) as Hmod.
  { intros f Hp Hc Hm Hj. apply hoare_modify_knapsack.
    intros w s [Hno (s' & Hs' & Hp' & Hc' & Hj')] Hs. assert (s' = s) as -> by congruence.
    split; [done|]. exists (f s). by rewrite Hp, Hc, Hm, Hj. }
  unfold Knapsack__init__.
  eapply hoare_bind with (R := λ _ w, w_scheduler w = None ∧ no_callbacks w);
    [by apply hoare_get|]. intros w0. cbv zeta.
  case_bool_decide; [by apply hoare_raise|].
  eapply hoare_bind with (R := λ _, Init).
  { apply hoare_modify. intros w [_ Hno]. split; [done|]. eexists. split; [done|].
    simpl. split_and!; [done..|]. by intros j ?%elem_of_empty. }
  intros _. eapply hoare_conseq with (P' := Init) (Q' := λ _, Init) (X' := λ _, Init).
  - assert (preserves Init (add_jobs E jobs)) as Hadd.
    { unfold add_jobs. apply preserves_for. intros job _.
      eapply hoare_bind with (R := λ _ w, (∃ x, w_jobs w !! job = Some x) ∧ Init w).
      * apply hoare_modify_job. intros w x [Hno (s & Hs & Hp & Hc & Hj)] Hx. split.
        { exists (set_scheduler true x). simpl. apply list_lookup_insert_eq.
          by eapply lookup_lt_Some. }
        assert (calm w (upd w job (set_scheduler true x))) as Hcalm
          by by apply calm_upd_scheduler.
        split; [by eapply closed_no_callbacks|].
        exists s. split_and!; [done..|]. intros j Hin. destruct (Hj j Hin) as [y Hy].
        destruct Hcalm as (_ & Hjobs & _).
        destruct (Hjobs j y Hy) as (y' & Hy' & _). by exists y'.
      * intros _ w [[x Hx] [Hno (s & Hs & Hp & Hc & Hj)]].
        rewrite Hs. split; [done|]. eexists. split; [done|]. simpl.
        split_and!; [done..|].
        intros j [->%elem_of_singleton|Hin]%elem_of_union; [by exists x|by apply Hj]. }
    pres ltac:(first [ exact Hadd | by apply Hmod ]).
  - done.
  - intros _ w [Hno (s & Hs & Hp & Hc & Hj)]. apply knapsack_knapsack_inv; [by exists s|].
    intros s' Hs' _. assert (s' = s) as -> by congruence. split.
    + rewrite Hp. simpl. lia.
    + rewrite Hp. apply NoDup_nil_2.
    + rewrite Hp. by intros j ?%elem_of_nil.
    + rewrite Hp. by intros j ?%elem_of_nil.
    + intros j Hin. destruct (Hj j Hin) as [x Hx]. exists x. split; [done|]. by eapply Hno.
    + by intros j ?%elem_of_nil.
  - done.
Qed.

(** ** The cores of the local scheduler (C5) *)

Lemma hoare_ends_ok {A} (P Q : World → Prop) (m : M A) X w w' :
  hoare P m (λ _, Q) X → P w → ends (m w) false w' → Q w'.
Proof.
  intros Hm Hw Hends. specialize (Hm w Hw).
  destruct (m w) as [a w1|ex w1|]; inversion Hends; by subst.
Qed.

Lemma respects_ends {A} (R : World → World → Prop) (I : World → Prop) (m : M A) w b w' :
  respects R m → closed_under R I → I w → ends (m w) b w' → I w'.
Proof.
  intros Hm HI Hw Hends. specialize (Hm I HI w Hw).
  destruct (m w) as [a w1|ex w1|]; inversion Hends; by subst.
Qed.

(** Every state that is reached without an exception satisfies the
    invariant of the local scheduler. *)
Lemma reachable_knapsack_inv E w :
  set_iter_ok E → rule_run_fresh E → reachable E false w → knapsack_inv w.
Proof.
  intros HE HF Hreach. remember false as b0 eqn:Hb0.
  induction Hreach as
    [ rules fs workflow
    | b w fs Hreach IH
    | b b' w w' a Hreach IH Hends
    | b b' w w' jobs Hreach IH Hnone Hends
    | b b' w w' jobs submitcmd Hreach IH Hnone Hends
    | b b' w w' s fuel Hreach IH Hs _ _ Hends
    | b b' w w' s fuel job future Hreach IH Hs Hjob Hends
    | b b' w w' s fuel Hreach IH Hs _ Hends
    | b b' w w' s fuel job jobfinished jobfailed jobscript Hreach IH Hs Hjob Hends ];
    try (apply orb_false_elim in Hb0 as [-> ->]; specialize (IH eq_refl)).
  - split; [|by intros s ?]. intros _ j x Hx. simpl in Hx. by rewrite ?lookup_nil in Hx.
  - eapply (closed_calm0 _ closed_knapsack_inv); [|by apply IH].
    by apply calm0_same.
  - eapply (respects_ends calm knapsack_inv); [apply calm___init__|apply closed_knapsack_inv|done..].
  - eapply (hoare_ends_ok _ knapsack_inv); [apply cores_Knapsack__init__| |done].
    split; [done|]. by apply IH.
  - apply cluster_knapsack_inv.
    eapply (hoare_ends_ok _ (λ w, ∃ s, w_scheduler w = Some (Cluster s)));
      [apply cluster_Cluster__init__|done..].
  - apply knapsack_knapsack_inv.
    + eapply (respects_ends kept_kind (λ w, ∃ s, w_scheduler w = Some (Knapsack s)));
        [apply kind_Knapsack_schedule|apply closed_knapsack_scheduled| |done].
      by exists s.
    + eapply (hoare_ends_ok _ (cores_inv [] [])); [by apply cores_Knapsack_schedule| |done].
      split; [by eapply reachable_sys_inv|apply IH].
  - apply knapsack_knapsack_inv.
    + eapply (respects_ends kept_kind (λ w, ∃ s, w_scheduler w = Some (Knapsack s)));
        [apply kind_Knapsack_complete|apply closed_knapsack_scheduled| |done].
      by exists s.
    + eapply (hoare_ends_ok _ (cores_inv [] [])); [by apply cores_Knapsack_complete| |done].
      split; [split; [apply IH|]|by exists s].
      apply (reachable_sys_inv E false w HE) in Hreach as (_ & _ & Hrun & _).
      apply Hrun. unfold running. by rewrite Hs.
  - apply cluster_knapsack_inv.
    eapply (respects_ends kept_kind (λ w, ∃ s, w_scheduler w = Some (Cluster s)));
      [apply kind_Cluster_schedule|apply closed_cluster_scheduled| |done].
    by exists s.
  - apply cluster_knapsack_inv.
    eapply (respects_ends kept_kind (λ w, ∃ s, w_scheduler w = Some (Cluster s)));
      [apply kind_Cluster_watch|apply closed_cluster_scheduled| |done].
    by exists s.
Qed.

Lemma failing_3_reachable : reachable plain_externals false failing_3.
Proof.
  apply (reach_knapsack_schedule _ false false failing_2 failing_3 (knapsack_of failing_2) 10);
    [|by_compute|by_compute|by_compute|by_ends].
  apply (reach_knapsack _ false false failing_1 failing_2 {[0%nat]});
    [|by_compute|by_ends].
  apply (reach_new _ false false
             (mkWorld [] [compile_rule] {["in.txt"]} plain_workflow None [])
             failing_1 compile_init); [|by_ends].
  apply reach_start.
Qed.




(** ** The construction of a job and the walks through the DAG *)

(** [Job.__init__] gives the new job the next [jobid], stores the
    arguments, and appends the job to the [depending] list of every job
    of [depends]; every other job, the rules, the files, the workflow, the
    scheduler and the trace are as they were. *)
Theorem init_appends_to_dependencies E a w :
  set_iter_ok E →
  set_Forall (λ other, (other < length (w_jobs w))%nat) (init_depends a) →
  ∃ w', __init__ E a w = Ok (length (w_jobs w)) w'
    ∧ length (w_jobs w') = S (length (w_jobs w))
    ∧ w_jobs w' !! length (w_jobs w) = Some (new_job a (length (w_jobs w)))
    ∧ (∀ k x, w_jobs w !! k = Some x →
         w_jobs w' !! k
         = Some (if decide (k ∈ init_depends a)
                 then set_depending (depending x ++ [length (w_jobs w)]) x else x))
    ∧ w_rules w' = w_rules w ∧ w_fs w' = w_fs w ∧ w_workflow w' = w_workflow w
    ∧ w_scheduler w' = w_scheduler w ∧ w_trace w' = w_trace w.
Proof.
  intros HE Hb. rewrite __init___unfold. rewrite bool_decide_eq_true_2 by done.
  unfold bind at 1.
  erewrite (for_update _ (λ o, set_depending (depending o ++ [length (w_jobs w)]) o)
              (λ _, True)).
  - eexists. split; [reflexivity|]. split_and!; try reflexivity.
    + simpl. rewrite length_update_jobs, length_app. simpl. lia.
    + simpl. rewrite (new_lookup w a (set_iter E (init_depends a)) Hb (HE _)).
      by rewrite decide_True.
    + intros k x Hx. simpl.
      rewrite (new_lookup w a (set_iter E (init_depends a)) Hb (HE _)).
      rewrite decide_False by (apply lookup_lt_Some in Hx; lia).
      by rewrite Hx.
  - intros w2 d j Hj _. unfold modify_job. by rewrite Hj.
  - rewrite (HE _). apply NoDup_elements.
  - intros d Hd. rewrite (HE _) in Hd. apply elem_of_elements in Hd.
    apply Hb in Hd. simpl. rewrite lookup_app_l by done.
    destruct (lookup_lt_is_Some_2 (w_jobs w) d Hd) as [j Hj]. eauto.
Qed.

Lemma init_appends_to_dependencies_witness :
  ∃ w', __init__ plain_externals second_init chain_1 = Ok (length (w_jobs chain_1)) w'
    ∧ length (w_jobs w') = S (length (w_jobs chain_1))
    ∧ w_jobs w' !! length (w_jobs chain_1)
      = Some (new_job second_init (length (w_jobs chain_1)))
    ∧ (∀ k x, w_jobs chain_1 !! k = Some x →
         w_jobs w' !! k
         = Some (if decide (k ∈ init_depends second_init)
                 then set_depending (depending x ++ [length (w_jobs chain_1)]) x else x))
    ∧ w_rules w' = w_rules chain_1 ∧ w_fs w' = w_fs chain_1
    ∧ w_workflow w' = w_workflow chain_1
    ∧ w_scheduler w' = w_scheduler chain_1 ∧ w_trace w' = w_trace chain_1.
Proof.
  apply (init_appends_to_dependencies plain_externals second_init chain_1).
  - intros X. reflexivity.
  - by_evaluation.
Defined.

(** *** [Job.descendants] and [Job.all_jobs] *)

Lemma tc_first {A} (R : relation A) x z :
  tc R x z ↔ ∃ y, R x y ∧ (z = y ∨ tc R y z).
Proof.
  split.
  - intros H. destruct H as [x z H|x y z H1 H2]; [exists z|exists y]; auto.
  - intros (y & Hxy & [->|Hyz]); [by apply tc_once|by eapply tc_l].
Qed.

Section Descendants.
Context (E : Externals) (HE : set_iter_ok E) (w : World).
Hypothesis Hexists : ∀ a b, b ∈ job_depends w a → is_Some (w_jobs w !! b).

Local Abbreviation deep fuel d := (∃ k, nsteps (depends_on w) fuel d k).

Lemma descendants_fold fuel (l : list JobId) acc :
  (∀ d, d ∈ l →
     (∃ ds, descendants E fuel d w = Ok ds w
            ∧ (∀ k, k ∈ ds ↔ tc (depends_on w) d k) ∧ ¬ deep fuel d)
     ∨ (descendants E fuel d w = Raise RecursionError w ∧ deep fuel d)) →
  (∃ L, fold_ l (λ job acc, do ds <- descendants E fuel job; ret (acc ++ job :: ds)) acc w
        = Ok (acc ++ L) w
      ∧ (∀ k, k ∈ L ↔ ∃ d, d ∈ l ∧ (k = d ∨ tc (depends_on w) d k))
      ∧ ∀ d, d ∈ l → ¬ deep fuel d)
  ∨ (fold_ l (λ job acc, do ds <- descendants E fuel job; ret (acc ++ job :: ds)) acc w
     = Raise RecursionError w
     ∧ ∃ d, d ∈ l ∧ deep fuel d).
Proof.
  revert acc. induction l as [|d l IH]; intros acc Hl.
  - left. exists []. simpl. unfold ret. rewrite app_nil_r. split_and!; [done| |].
    + intros k. split; [by intros ?%elem_of_nil|]. by intros (d & ?%elem_of_nil & _).
    + by intros d ?%elem_of_nil.
  - destruct (Hl d) as [(ds & Hds & Hin & Hflat)|[Hraise Hdeep]]; [by left| |].
    + destruct (IH (acc ++ d :: ds)) as [(L & HL & HinL & HflatL)|[Hraise (d' & Hd' & Hdeep)]].
      { intros d' Hd'. apply Hl. by right. }
      * left. exists (d :: ds ++ L). split_and!.
        -- simpl. unfold bind at 1. unfold bind at 1. rewrite Hds. unfold ret at 1.
           rewrite HL. f_equal. by rewrite <- app_assoc.
        -- intros k. rewrite elem_of_cons, elem_of_app, HinL, Hin. split.
           ++ intros [->|[Hk|(d' & Hd' & Hk)]].
              ** exists d. split; [by left|by left].
              ** exists d. split; [by left|by right].
              ** exists d'. split; [by right|done].
           ++ intros (d' & [->|Hd']%elem_of_cons & Hk).
              ** destruct Hk as [->|Hk]; auto.
              ** right. right. by exists d'.
        -- intros d' [->|Hd']%elem_of_cons; [done|by apply HflatL].
      * right. split.
        -- simpl. unfold bind at 1. unfold bind at 1. rewrite Hds. unfold ret at 1.
           exact Hraise.
        -- exists d'. split; [by right|done].
    + right. split.
      * simpl. unfold bind at 1. unfold bind at 1. by rewrite Hraise.
      * exists d. split; [by left|done].
Qed.

(** [descendants] with [fuel] frames left yields the transitive
    dependencies if no chain of [fuel] dependencies starts at the job, and
    raises [RecursionError] if one does. *)
Lemma descendants_spec fuel self :
  is_Some (w_jobs w !! self) →
  (∃ ds, descendants E fuel self w = Ok ds w
         ∧ (∀ k, k ∈ ds ↔ tc (depends_on w) self k) ∧ ¬ deep fuel self)
  ∨ (descendants E fuel self w = Raise RecursionError w ∧ deep fuel self).
Proof using HE Hexists.
  revert self. induction fuel as [|fuel IH]; intros self [j Hj].
  { right. split; [done|]. exists self. constructor. }
  assert (∀ d, d ∈ set_iter E (depends j) ↔ depends_on w self d) as Hdeps.
  { intros d. rewrite (HE _), elem_of_elements. unfold depends_on.
    by rewrite (job_depends_lookup w self j). }
  destruct (descendants_fold fuel (set_iter E (depends j)) [])
    as [(L & HL & HinL & Hflat)|[Hraise (d & Hd & k & Hk)]].
  { intros d Hd. apply IH, (Hexists self). by apply Hdeps. }
  - left. exists L. split_and!.
    + simpl. unfold bind at 1, get_job. rewrite Hj. exact HL.
    + intros k. rewrite HinL, tc_first.
      split; intros (d & Hd & Hk); exists d; (split; [by apply Hdeps|done]).
    + intros [k Hk]. inversion Hk as [|? ? d ? Hd Hrest]; subst.
      apply (Hflat d); [by apply Hdeps|by exists k].
  - right. split.
    + simpl. unfold bind at 1, get_job. rewrite Hj. exact Hraise.
    + exists k. eapply nsteps_l; [|done]. by apply Hdeps.
Qed.
End Descendants.

(** A chain of dependencies is no longer than the number of its first
    job: a job depends on jobs constructed before it. *)
Lemma nsteps_depends_bound w n a k :
  (∀ a b, b ∈ job_depends w a → (b < a)%nat) →
  nsteps (depends_on w) n a k → (k + n ≤ a)%nat.
Proof.
  intros Horder Hn. induction Hn as [|n a b k Hab _ IH]; [lia|].
  apply Horder in Hab. lia.
Qed.

(** In a state whose edges are in order, [all_jobs] leaves the state as it
    is.  If no chain of dependencies that starts at the job has as many
    steps as there are frames left for the recursion, it yields the job
    itself and then exactly the jobs on which it depends, directly or
    through other jobs; if there is such a chain, it raises
    [RecursionError]. *)
Theorem all_jobs_yields_transitive_dependencies E w self :
  set_iter_ok E → dag_inv w → (self < length (w_jobs w))%nat →
  ((∀ k, ¬ nsteps (depends_on w) (recursion_limit E) self k) →
   ∃ ds, all_jobs E self w = Ok (self :: ds) w
         ∧ ∀ k, k ∈ ds ↔ tc (depends_on w) self k)
  ∧ ((∃ k, nsteps (depends_on w) (recursion_limit E) self k) →
     all_jobs E self w = Raise RecursionError w).
Proof.
  intros HE Hdag Hself.
  assert (∀ a b, b ∈ job_depends w a → is_Some (w_jobs w !! b)) as Hexists.
  { intros a b Hb. apply (dag_fwd w Hdag) in Hb.
    apply job_depending_elem in Hb as (x & Hx & _). by exists x. }
  destruct (descendants_spec E HE w Hexists (recursion_limit E) self)
    as [(ds & Hds & Hin & Hflat)|[Hraise Hdeep]];
    [by apply lookup_lt_is_Some_2|..]; split.
  - intros _. exists ds. split; [|done]. unfold all_jobs, bind. by rewrite Hds.
  - intros Hdeep. by destruct Hflat.
  - intros Hflat. destruct Hdeep as [k Hk]. by destruct (Hflat k).
  - intros _. unfold all_jobs, bind. by rewrite Hraise.
Qed.

Lemma all_jobs_yields_transitive_dependencies_witness :
  ∃ ds, all_jobs plain_externals 1%nat chain_2 = Ok (1%nat :: ds) chain_2
        ∧ ∀ k, k ∈ ds ↔ tc (depends_on chain_2) 1%nat k.
Proof.
  assert (dag_inv chain_2) as Hdag.
  { apply (reachable_sys_inv plain_externals false chain_2); [intros X; reflexivity|].
    apply (reach_new _ false false chain_1 chain_2 second_init); [|by_ends].
    apply (reach_new _ false false chain_start chain_1 first_init); [|by_ends].
    apply reach_start. }
  apply (all_jobs_yields_transitive_dependencies plain_externals chain_2 1%nat).
  - intros X. reflexivity.
  - exact Hdag.
  - vm_compute. lia.
  - intros k Hk.
    apply (nsteps_depends_bound chain_2 _ _ _ (dag_order chain_2 Hdag)) in Hk.
    change (recursion_limit plain_externals) with 1000%nat in Hk. lia.
Defined.

(** *** [Job.ancestors] *)

Lemma NoDup_bounded_length (l : list nat) (n : nat) :
  NoDup l → (∀ x, x ∈ l → (x < n)%nat) → (length l ≤ n)%nat.
Proof.
  intros Hnd Hlt. assert (l ⊆+ seq 0 n) as Hsub.
  { apply NoDup_submseteq; [done|].
    intros x Hx. apply elem_of_seq. specialize (Hlt x Hx). lia. }
  apply submseteq_length in Hsub. by rewrite length_seq in Hsub.
Qed.

Section Ancestors.
Context (w : World) (self : JobId).
Hypothesis Hbound : ∀ a b, a ∈ job_depending w b → (a < length (w_jobs w))%nat.

Local Abbreviation collect := (λ (job : JobId) (acc : list JobId), ret (acc ++ [job])).

Lemma ancestors_loop_spec fuel queue visited acc :
  NoDup (acc ++ queue) →
  visited = list_to_set (acc ++ queue) →
  (∀ k, k ∈ acc ++ queue → tc (depended_by w) self k) →
  (∀ a b, a ∈ acc → depended_by w a b → b ∈ visited) →
  (length (w_jobs w) ≤ fuel + length acc)%nat →
  ∃ l, ancestors_loop fuel queue visited collect acc w = Ok l w
       ∧ NoDup l
       ∧ (∀ k, k ∈ l → tc (depended_by w) self k)
       ∧ (∀ k, k ∈ acc ++ queue → k ∈ l)
       ∧ (∀ a b, a ∈ l → depended_by w a b → b ∈ l).
Proof using Hbound.
  revert queue visited acc. induction fuel as [|fuel IH];
    intros queue visited acc Hnd Hvis Hsound Hclosed Hfuel.
  - assert (∀ k, k ∈ acc ++ queue → (k < length (w_jobs w))%nat) as Hlt.
    { intros k Hk. specialize (Hsound k Hk). apply tc_first in Hsound.
      clear -Hsound Hbound. revert Hsound. generalize self.
      intros s (y & Hy & Hk). destruct Hk as [->|Hk]; [by eapply Hbound|].
      clear Hy. induction Hk as [x z H|x y' z H1 H2 IH']; [by eapply Hbound|done]. }
    pose proof (NoDup_bounded_length _ _ Hnd Hlt) as Hlen.
    rewrite length_app in Hlen. destruct queue as [|job queue]; [|simpl in *; lia].
    exists acc. rewrite app_nil_r in *. simpl. split_and!; try done.
    intros a b Ha Hab. specialize (Hclosed a b Ha Hab). set_solver.
  - destruct queue as [|job queue].
    { exists acc. rewrite app_nil_r in *. simpl. split_and!; try done.
      intros a b Ha Hab. specialize (Hclosed a b Ha Hab). set_solver. }
    assert (tc (depended_by w) self job) as Hjob by (apply Hsound; set_solver).
    assert (job < length (w_jobs w))%nat as Hlt.
    { clear -Hjob Hbound.
      induction Hjob as [x z H|x y' z H1 H2 IH']; [by eapply Hbound|done]. }
    destruct (lookup_lt_is_Some_2 (w_jobs w) job Hlt) as [jb Hjb].
    destruct (enqueue_spec (depending jb) queue visited) as (new & Hq & Hndnew & Hnew).
    assert ((acc ++ [job]) ++ queue ++ new = (acc ++ job :: queue) ++ new) as Heq
      by (by rewrite <- !app_assoc).
    destruct (IH (queue ++ new) (list_to_set new ∪ visited) (acc ++ [job]))
      as (l & Hl & Hndl & Hsl & Hsub & Hcl).
    + rewrite Heq.
      apply NoDup_app. split; [done|]. split; [|done].
      intros x Hx Hx'. apply Hnew in Hx' as [_ Hnot]. set_solver.
    + subst visited. rewrite Heq, list_to_set_app_L. set_solver.
    + intros k. rewrite Heq, elem_of_app.
      intros [Hk|Hk]; [by apply Hsound|].
      apply Hnew in Hk as [Hk _]. eapply tc_r; [done|].
      unfold depended_by. by rewrite (job_depending_lookup w job jb).
    + intros a b [Ha|Ha]%elem_of_app Hab;
        [|apply list_elem_of_singleton in Ha; subst a].
      * specialize (Hclosed a b Ha Hab). set_solver.
      * unfold depended_by in Hab. rewrite (job_depending_lookup w job jb) in Hab by done.
        destruct (decide (b ∈ visited)); [set_solver|].
        apply elem_of_union. left. apply elem_of_list_to_set, Hnew. done.
    + rewrite length_app. simpl. lia.
    + exists l. split_and!; try done.
      * simpl. unfold bind at 1, get_job. rewrite Hjb.
        rewrite Hq. simpl. unfold bind at 1, ret at 1. exact Hl.
      * intros k Hk. apply Hsub. rewrite Heq. apply elem_of_app. by left.
Qed.
End Ancestors.

(** In a state whose edges are in order, and with fuel for every job,
    [ancestors] yields every job that depends on the given one, directly
    or through other jobs, and yields it once; the state is as it was. *)
Theorem ancestors_yields_each_dependent_once w self fuel :
  dag_inv w → (self < length (w_jobs w))%nat → (length (w_jobs w) ≤ fuel)%nat →
  ∃ l, ancestors fuel self w = Ok l w
       ∧ NoDup l
       ∧ ∀ k, k ∈ l ↔ tc (depended_by w) self k.
Proof.
  intros Hdag Hself Hfuel.
  destruct (lookup_lt_is_Some_2 (w_jobs w) self Hself) as [j Hj].
  destruct (ancestors_loop_spec w self (dag_bound w Hdag) fuel (depending j)
              (list_to_set (depending j)) [])
    as (l & Hl & Hnd & Hsound & Hsub & Hclosed).
  - simpl. rewrite <- (job_depending_lookup w self j) by done. apply (dag_nodup w Hdag).
  - done.
  - simpl. intros k Hk. apply tc_once. unfold depended_by.
    by rewrite (job_depending_lookup w self j).
  - by intros a b ?%elem_of_nil.
  - simpl. lia.
  - exists l. split_and!; [|done|].
    + unfold ancestors, bind at 1, get_job. by rewrite Hj.
    + intros k. split; [apply Hsound|]. intros Hk.
      assert (∀ x z, tc (depended_by w) x z → x = self ∨ x ∈ l → z ∈ l) as Hall.
      { assert (∀ x y, depended_by w x y → x = self ∨ x ∈ l → y ∈ l) as Hstep.
        { intros x y Hxy [->|Hx].
          - apply Hsub. simpl. unfold depended_by in Hxy.
            by rewrite (job_depending_lookup w self j) in Hxy.
          - by eapply Hclosed. }
        intros x z Hxz. induction Hxz as [x z H|x y z H1 H2 IH]; [by eauto|].
        intros Hx. apply IH. right. by eapply Hstep. }
      by eapply Hall; [|left].
Qed.

Lemma ancestors_yields_each_dependent_once_witness :
  ∃ l, ancestors 2 0%nat chain_2 = Ok l chain_2
       ∧ NoDup l
       ∧ ∀ k, k ∈ l ↔ tc (depended_by chain_2) 0%nat k.
Proof.
  apply (ancestors_yields_each_dependent_once chain_2 0%nat 2).
  - apply (reachable_sys_inv plain_externals false chain_2); [intros X; reflexivity|].
    apply (reach_new _ false false chain_1 chain_2 second_init); [|by_ends].
    apply (reach_new _ false false chain_start chain_1 first_init); [|by_ends].
    apply reach_start.
  - vm_compute. lia.
  - vm_compute. lia.
Defined.

(** ** The completion of a job and the removal of its outputs *)

Lemma hoare_false {A} (m : M A) Q X : hoare (λ _, False) m Q X.
Proof. by intros w []. Qed.

Lemma hoare_run {A} (P : World → Prop) (m : M A) Q X w :
  hoare P m Q X → P w →
  match m w with
  | Ok a w' => Q a w'
  | Raise ex w' => X ex w'
  | Abort => True
  end.
Proof. intros H Hw. by apply H. Qed.

Lemma preserves_hoare {A} (I : World → Prop) (m : M A) :
  preserves I m → hoare I m (λ _, I) (λ _ _, True).
Proof. intros H. eapply hoare_conseq; [apply H|done..]. Qed.

(** *** [Job.finished] sets [is_finished] *)

(** However a call of [finished] ends, with a result or with an
    exception, the job is marked as finished afterwards. *)
Theorem finished_sets_is_finished E fuel self future w :
  (self < length (w_jobs w))%nat →
  match finished E fuel self future w with
  | Ok _ w' => job_is_finished w' self
  | Raise _ w' => job_is_finished w' self
  | Abort => True
  end.
Proof.
  intros Hself.
  apply (hoare_run (λ w0, w0 = w) (finished E fuel self future)
           (λ _ w', job_is_finished w' self) (λ _ w', job_is_finished w' self));
    [|done].
  unfold finished.
  eapply hoare_bind with (R := λ _ w', job_is_finished w' self).
  - apply hoare_modify_job. intros w0 x -> Hx. exists (set_is_finished true x).
    split; [|done]. simpl. by apply list_lookup_insert_eq.
  - intros _. pose proof (persistent_job_is_finished self) as HI.
    pres ltac:(monotone_leaf HI).
Qed.

Lemma finished_sets_is_finished_witness :
  match finished plain_externals 0 0%nat
          (Some (FutureException (RuleException "boom"))) failing_world with
  | Ok _ w' => job_is_finished w' 0%nat
  | Raise _ w' => job_is_finished w' 0%nat
  | Abort => True
  end.
Proof.
  apply (finished_sets_is_finished plain_externals 0 0%nat
           (Some (FutureException (RuleException "boom"))) failing_world).
  vm_compute. lia.
Defined.

(** *** The error path of [Job.finished] *)

Lemma same_data_refl w : same_data w w.
Proof. done. Qed.

Lemma same_data_trans w1 w2 w3 : same_data w1 w2 → same_data w2 w3 → same_data w1 w3.
Proof. intros (?&?&?&?) (?&?&?&?). split_and!; congruence. Qed.

Lemma closed_same_data w : closed_under same_data (same_data w).
Proof. intros w1 w2 H12 H1. by eapply same_data_trans. Qed.

Ltac same_data_leaf HI :=
  apply (respects_preserves same_data);
    [resp_leaf ltac:(split_and!; reflexivity)|exact HI].

Lemma same_data_call_error_callback c : respects same_data (call_error_callback c).
Proof.
  unfold call_error_callback, Knapsack_error. intros I HI.
  pres ltac:(same_data_leaf HI).
Qed.

(** When the worker of a job that needs to run reports an exception,
    [finished] marks the job as finished and changes nothing else of the
    jobs: every dependent keeps the job in its [depends]; no file is
    removed, no rule is changed and the job counter is not advanced. *)
Theorem finished_error_leaves_dag E fuel self ex w w' j :
  w_jobs w !! self = Some j → ignore j = false →
  needrun (init j) = true → pseudo (init j) = false →
  finished E fuel self (Some (FutureException ex)) w = Ok tt w' →
  w_jobs w' = <[self := set_is_finished true j]> (w_jobs w)
  ∧ w_rules w' = w_rules w ∧ w_fs w' = w_fs w ∧ w_workflow w' = w_workflow w.
Proof.
  intros Hj Hign Hneed Hpseudo Hfin.
  set (w1 := upd w self (set_is_finished true j)).
  assert (w_jobs w1 !! self = Some (set_is_finished true j)) as Hj1.
  { simpl. apply list_lookup_insert_eq. by eapply lookup_lt_Some. }
  pose proof (hoare_run (λ w0, w0 = w) (finished E fuel self (Some (FutureException ex)))
                (λ _ w', same_data w1 w') (λ _ _, True) w) as H.
  rewrite Hfin in H. apply H; [|done]. clear H Hfin.
  unfold finished.
  eapply hoare_bind with (R := λ _ w0, w0 = w1).
  { apply hoare_modify_job. intros w0 x -> Hx. rewrite Hj in Hx. by injection Hx as <-. }
  intros _.
  eapply hoare_bind with (R := λ x w0, x = set_is_finished true j ∧ w0 = w1).
  { apply hoare_get_job. intros w0 x -> Hx. rewrite Hj1 in Hx. by injection Hx as <-. }
  intros x. apply hoare_pure. intros ->. simpl. rewrite Hign, Hneed, Hpseudo. simpl.
  eapply hoare_bind with (R := λ failed w0, failed = true ∧ same_data w1 w0).
  - eapply hoare_try with (X' := λ _ w0, w0 = w1); [| |done].
    + eapply hoare_bind with (R := λ _ _, False); [|intros ?; apply hoare_false].
      unfold check_produced.
      eapply hoare_bind with (R := λ _ w0, w0 = w1); [by apply hoare_get_job|].
      intros ?.
      eapply hoare_bind with (R := λ _ _, False); [|intros ?; apply hoare_false].
      by apply hoare_raise.
    + intros ex' _. eapply hoare_bind with (R := λ _, same_data w1);
        [|intros ?; by apply hoare_ret].
      unfold handle_error.
      eapply hoare_bind with (R := λ _ w0, same_data w1 w0
                                ∧ w_jobs w0 !! self = Some (set_is_finished true j)).
      { apply hoare_modify. by intros w0 ->. }
      intros _.
      eapply hoare_bind with (R := λ _, same_data w1).
      { unfold cleanup.
        eapply hoare_bind with (R := λ x w0, x = set_is_finished true j ∧ same_data w1 w0).
        - apply hoare_get_job. intros w0 x [Hw0 Hx0] Hx. split; [congruence|done].
        - intros x. apply hoare_pure. intros ->. simpl. by apply hoare_ret. }
      intros _. pose proof (closed_same_data w1) as HI. apply preserves_hoare.
      pres ltac:(apply (respects_preserves same_data);
                 [apply same_data_call_error_callback|exact HI]).
  - intros failed. apply hoare_pure. intros ->. by apply hoare_ret.
Qed.

Lemma finished_error_leaves_dag_witness :
  ∃ j w', w_jobs failing_3 !! 0%nat = Some j
    ∧ finished plain_externals 10 0%nat
        (Some (FutureException (RuleException "failed"))) failing_3 = Ok tt w'
    ∧ w_jobs w' = <[0%nat := set_is_finished true j]> (w_jobs failing_3)
    ∧ w_rules w' = w_rules failing_3 ∧ w_fs w' = w_fs failing_3
    ∧ w_workflow w' = w_workflow failing_3.
Proof.
  eexists _, _. split; [by_compute|]. split; [by_compute|].
  exact (finished_error_leaves_dag plain_externals 10 0%nat (RuleException "failed")
           failing_3 _ _ ltac:(by_compute) eq_refl eq_refl eq_refl ltac:(by_compute)).
Defined.

(** *** [Job.cleanup] and [Job.cleanup_unfinished] *)

Lemma cleanup_loop_removes E (r : RuleId) (rr : Rule) (l : list IOFile) w :
  (∀ fs f, io_remove E fs f = Some (fs ∖ {[f]})) →
  w_rules w !! r = Some rr →
  (∀ o, o ∈ l → file o ∉ rule_dynamic rr) →
  for_ l (λ o, do dyn <- is_dynamic r o;
               if dyn then do fs <- get_listfiles E o; for_ fs (λ '(f, _), remove E f)
               else remove E (file o)) w
  = Ok tt (mkWorld (w_jobs w) (w_rules w) (w_fs w ∖ list_to_set (file <$> l))
                   (w_workflow w) (w_scheduler w)
                   (w_trace w ++ (EvRemove <$> (file <$> l)))).
Proof.
  intros Hrm. revert w. induction l as [|o l IH]; intros w Hr Hl.
  - simpl. unfold ret. destruct w. simpl. f_equal. f_equal; [set_solver|by rewrite app_nil_r].
  - cbn [for_].
    rewrite (bind_Ok _ _ w tt (emit (EvRemove (file o)) (set_fs (w_fs w ∖ {[file o]}) w))).
    + rewrite IH; [|done|intros o' Ho'; apply Hl; by right].
      simpl. f_equal. f_equal; [set_solver|by rewrite <- app_assoc].
    + unfold is_dynamic, get_rule, bind, ret. rewrite Hr.
      rewrite bool_decide_eq_false_2 by (apply Hl; by left).
      unfold remove. by rewrite Hrm.
Qed.

(** If the removal of a file does not fail, [cleanup] of a job that has
    not finished and has no dynamic output removes every declared output,
    in order: none of them is on disk afterwards, and nothing else
    changes. *)
Theorem cleanup_removes_every_output E self w j r :
  w_jobs w !! self = Some j → is_finished j = false →
  w_rules w !! rule (init j) = Some r →
  (∀ o, o ∈ output (init j) → file o ∉ rule_dynamic r) →
  (∀ fs f, io_remove E fs f = Some (fs ∖ {[f]})) →
  ∃ w', cleanup E self w = Ok tt w'
    ∧ w_fs w' = w_fs w ∖ list_to_set (file <$> output (init j))
    ∧ (∀ o, o ∈ output (init j) → file o ∉ w_fs w')
    ∧ w_trace w' = w_trace w ++ (EvRemove <$> (file <$> output (init j)))
    ∧ w_jobs w' = w_jobs w ∧ w_rules w' = w_rules w.
Proof.
  intros Hj Hfin Hr Hdyn Hrm. eexists. split.
  - unfold cleanup, bind at 1, get_job. rewrite Hj, Hfin. simpl.
    by apply cleanup_loop_removes with (rr := r).
  - simpl. split_and!; try done.
    intros o Ho. apply not_elem_of_difference. right.
    apply elem_of_list_to_set, list_elem_of_fmap. by exists o.
Qed.

Lemma cleanup_removes_every_output_witness :
  ∃ w', cleanup plain_externals 0%nat failing_1 = Ok tt w'
    ∧ w_fs w' = w_fs failing_1 ∖ list_to_set (file <$> output compile_init)
    ∧ (∀ o, o ∈ output compile_init → file o ∉ w_fs w')
    ∧ w_trace w' = w_trace failing_1 ++ (EvRemove <$> (file <$> output compile_init))
    ∧ w_jobs w' = w_jobs failing_1 ∧ w_rules w' = w_rules failing_1.
Proof.
  apply (cleanup_removes_every_output plain_externals 0%nat failing_1
           (new_job compile_init 0%nat) compile_rule).
  - by_compute.
  - reflexivity.
  - by_compute.
  - intros o Ho. vm_compute in Ho. apply list_elem_of_singleton in Ho. subst o.
    vm_compute. set_solver.
  - intros fs f. reflexivity.
Defined.

Lemma same_jobs_cleanup E self : respects same_jobs (cleanup E self).
Proof.
  unfold cleanup, is_dynamic, get_listfiles. intros I HI.
  pres ltac:(apply (respects_preserves same_jobs);
             [resp_leaf ltac:(reflexivity)|exact HI]).
Qed.

Lemma cleanup_keeps_jobs E self w w' :
  cleanup E self w = Ok tt w' → w_jobs w' = w_jobs w.
Proof.
  intros H.
  pose proof (respects_run same_jobs (cleanup E self) w (same_jobs_cleanup E self)) as Hrun.
  rewrite H in Hrun. apply Hrun; [done|]. unfold same_jobs. congruence.
Qed.

(** [cleanup_unfinished] passes over the jobs that have finished: it
    does what it does on the unfinished jobs of the list alone. *)
Theorem cleanup_unfinished_skips_finished E jobs w :
  cleanup_unfinished E jobs w
  = cleanup_unfinished E (filter (λ k, unfinished w k = true) jobs) w.
Proof.
  unfold cleanup_unfinished.
  assert (∀ w0, w_jobs w0 = w_jobs w →
            for_ jobs (cleanup E) w0
            = for_ (filter (λ k, unfinished w k = true) jobs) (cleanup E) w0) as H;
    [|by apply H].
  induction jobs as [|k jobs IH]; intros w0 Hw0; [done|].
  rewrite filter_cons. destruct (decide (unfinished w k = true)) as [Hk|Hk].
  - simpl. unfold bind. destruct (cleanup E k w0) as [[] w1| |] eqn:Hc; [|done..].
    apply IH. apply cleanup_keeps_jobs in Hc. congruence.
  - rewrite <- IH by done. simpl. unfold bind at 1.
    unfold unfinished in Hk. rewrite <- Hw0 in Hk.
    unfold cleanup, bind at 1, get_job.
    destruct (w_jobs w0 !! k) as [x|]; [|done].
    destruct (is_finished x); [done|]. by destruct Hk.
Qed.

(** *** [Job.finished] detaches the job from its dependents *)

Lemma persistent_detached self other : persistent (λ w, detached w self other).
Proof.
  intros w w' Hgrow (x & Hx & Hnot).
  destruct (Hgrow other x Hx) as (x' & Hx' & _ & Hsub & _).
  exists x'. split; [done|]. set_solver.
Qed.

Lemma persistent_forall {T} (Φ : T → Prop) (I : T → World → Prop) :
  (∀ t, persistent (I t)) → persistent (λ w, ∀ t, Φ t → I t w).
Proof. intros HI w w' Hgrow Hw t Ht. eapply HI; [done|]. by apply Hw. Qed.

Section Detach.
Context (E : Externals) (fuel : nat) (self : JobId) (j : Job).
Context (cb : Callback) (n p : nat).

Let seen (n p : nat) : World → Prop := callbacks_seen cb self n p (_callbacks j).
Let dep (w : World) : Prop :=
  ∃ x, w_jobs w !! self = Some x ∧ depending x = depending j ∧ ignore x = ignore j.
Let det (w : World) : Prop := ∀ other, other ∈ depending j → detached w self other.

Lemma stable_dep : stable dep.
Proof.
  intros w w' (_ & Hview & _) (x & Hx & Hd & Hi).
  specialize (Hview self). rewrite Hx in Hview.
  destruct (w_jobs w' !! self) as [x'|] eqn:Hx'; [|done].
  simpl in Hview. unfold dag_view in Hview. injection Hview as ? ? ? ? ?.
  exists x'. split; [done|]. split; congruence.
Qed.

Lemma persistent_det : persistent det.
Proof. apply persistent_forall. intros other. apply persistent_detached. Qed.

Lemma detach_loop :
  hoare (seen n p)
        (for_ (depending j) (λ other, depends_remove other self))
        (λ _ w, seen n p w ∧ det w) (λ _ _, True).
Proof.
  eapply hoare_conseq with
    (P' := λ w, seen n p w
                ∧ ∀ other, other ∈ depending j → other ∉ depending j → detached w self other)
    (Q' := λ _ w, seen n p w
                  ∧ ∀ other, other ∈ depending j → other ∉ [] → detached w self other)
    (X' := λ _ _, True).
  - apply (hoare_for (λ rest w, seen n p w
             ∧ ∀ other, other ∈ depending j → other ∉ rest → detached w self other)).
    intros k rest. apply hoare_depends_remove; [|done].
    intros w x [Hseen Hdet] Hx Hin. split.
    + eapply closed_callbacks_seen; [|done]. by eapply hushed_upd.
    + intros other Hother Hrest. destruct (decide (other = k)) as [->|Hne].
      * exists (set_depends (depends x ∖ {[self]}) x). split.
        -- simpl. apply list_lookup_insert_eq. by eapply lookup_lt_Some.
        -- simpl. set_solver.
      * destruct (Hdet other Hother) as (y & Hy & Hnot).
        { by intros [?|?]%elem_of_cons. }
        exists y. split; [|done]. simpl. by rewrite list_lookup_insert_ne.
  - intros w Hw. split; [done|]. by intros other ? ?.
  - intros _ w [Hseen Hdet]. split; [done|]. intros other Hother. apply Hdet; [done|].
    by intros ?%elem_of_nil.
  - done.
Qed.

Lemma finished_detaches future :
  ignore j = false →
  hoare (λ w, seen n p w ∧ dep w) (finished E fuel self future)
        (λ _ w, printed (w_trace w) = p → det w) (λ _ _, True).
Proof using Type.
  intros Hign.
  pose proof (closed_callbacks_seen cb self n p (_callbacks j)) as HS.
  pose proof stable_dep as HD. pose proof persistent_det as HT.
  assert (∀ {A} (m : M A), respects hushed m → benign m →
            hoare (λ w, seen n p w ∧ dep w) m (λ _ w, seen n p w ∧ dep w) (λ _ _, True))
    as Hboth.
  { intros A m Hh Hb. apply preserves_hoare, preserves_and.
    - by apply (respects_preserves hushed).
    - by apply benign_preserves. }
  unfold finished.
  eapply hoare_bind with (R := λ _ w, seen n p w ∧ dep w).
  { apply hoare_modify_job. intros w x [Hseen (x' & Hx' & Hd & Hi)] Hx.
    assert (x' = x) as -> by congruence. split.
    - eapply HS; [|done]. by eapply hushed_upd.
    - exists (set_is_finished true x). split; [|done].
      simpl. apply list_lookup_insert_eq. by eapply lookup_lt_Some. }
  intros ?.
  eapply hoare_bind with (R := λ x w, ignore x = false ∧ (seen n p w ∧ dep w)).
  { apply hoare_get_job. intros w x [Hseen (x' & Hx' & Hd & Hi)] Hx.
    split; [congruence|]. split; [done|]. by exists x'. }
  intros x. apply hoare_pure. intros ->.
  eapply hoare_bind with
    (R := λ failed : bool, if failed then seen n (S p) else (λ w, seen n p w ∧ dep w)).
  { destruct (needrun (init x) && negb (pseudo (init x))); [|by apply hoare_ret].
    eapply hoare_try with (X' := λ _, seen n p).
    - eapply hoare_bind with (R := λ _ w, seen n p w ∧ dep w);
        [|intros; by apply hoare_ret].
      eapply hoare_conseq with
        (P' := λ w, seen n p w ∧ dep w) (Q' := λ _ w, seen n p w ∧ dep w)
        (X' := λ _ w, seen n p w ∧ dep w); [|done|done|by intros ? ? [? ?]].
      apply preserves_and.
      + apply (respects_preserves hushed); [apply hushed_check_produced|done].
      + apply benign_preserves; [apply benign_check_produced|done].
    - intros ex ?. eapply hoare_bind; [apply handle_error_spec|].
      intros ?. by apply hoare_ret.
    - done. }
  intros [|].
  { apply hoare_ret. intros w (_ & Hp & _) Hp'. lia. }
  eapply hoare_bind with (R := λ _ w, seen n p w ∧ dep w).
  { apply preserves_hoare, preserves_and.
    - pres ltac:(hushed_leaf HS).
    - pres ltac:(benign_leaf HD). }
  intros ?.
  eapply hoare_bind with (R := λ x' w, depending x' = depending j ∧ seen n p w).
  { apply hoare_get_job. intros w x' [Hseen (x'' & Hx'' & Hd & Hi)] Hx.
    split; [congruence|done]. }
  intros x'. apply hoare_pure. intros ->.
  eapply hoare_bind; [apply detach_loop|intros ?].
  eapply hoare_bind with (R := λ _ w, seen n p w ∧ det w).
  { apply preserves_hoare, preserves_and.
    - pres ltac:(first
        [ apply (respects_preserves hushed); [apply hushed_handle_dynamic_output|done]
        | hushed_leaf HS ]).
    - pres ltac:(monotone_leaf HT). }
  intros ?.
  eapply hoare_conseq with
    (P' := λ w, seen n p w ∧ det w)
    (Q' := λ _ w, seen (n + registered cb (_callbacks j)) p w ∧ det w)
    (X' := λ _ w, True ∧ det w); [|done| |done].
  - apply hoare_and; [apply fire_callbacks_spec|].
    apply monotone_preserves; [auto with monotone_db|done].
  - by intros _ w [_ Hdet] _.
Qed.
End Detach.

(** When a call of [finished] on a job that is not ignored returns
    without having reported an error, no job of the [depending] list of
    the job has it in its [depends] any more. *)
Theorem finished_detaches_dependents E fuel self future w w' j :
  w_jobs w !! self = Some j → ignore j = false →
  finished E fuel self future w = Ok tt w' →
  printed (w_trace w') = printed (w_trace w) →
  ∀ other, other ∈ depending j → detached w' self other.
Proof.
  intros Hj Hign Hfin Hp.
  pose proof (finished_detaches E fuel self j (OtherCallback 0)
                (fired (OtherCallback 0) self (w_trace w)) (printed (w_trace w))
                future Hign w) as H.
  rewrite Hfin in H. apply H; [|done].
  split; [split_and!; [done|done|by exists j]|by exists j].
Qed.

Lemma finished_detaches_dependents_witness :
  ∃ j w', w_jobs chain_2 !! 0%nat = Some j
    ∧ finished plain_externals 10 0%nat None chain_2 = Ok tt w'
    ∧ ∀ other, other ∈ depending j → detached w' 0%nat other.
Proof.
  eexists _, _. split; [by_compute|]. split; [by_compute|].
  exact (finished_detaches_dependents plain_externals 10 0%nat None chain_2 _ _
           ltac:(by_compute) eq_refl ltac:(by_compute) ltac:(by_compute)).
Defined.

(** *** A dry run *)

Lemma dry_refl w : dry w w.
Proof.
  split_and!; try done.
  - intros a x Hx. by exists x.
  - exists []. by rewrite app_nil_r.
Qed.

Lemma dry_trans w1 w2 w3 : dry w1 w2 → dry w2 w3 → dry w1 w3.
Proof.
  intros (Hf & Hr & Hw & Hj & evs & Ht & Hevs) (Hf' & Hr' & Hw' & Hj' & evs' & Ht' & Hevs').
  split_and!; try congruence.
  - intros a x Hx. destruct (Hj a x Hx) as (x' & Hx' & Hi).
    destruct (Hj' a x' Hx') as (x'' & Hx'' & Hi'). exists x''. split; congruence.
  - exists (evs ++ evs'). split; [by rewrite Ht', Ht, app_assoc|by apply Forall_app].
Qed.

Lemma dry_keep w w' :
  w_jobs w' = w_jobs w → w_rules w' = w_rules w → w_fs w' = w_fs w →
  w_workflow w' = w_workflow w → w_trace w' = w_trace w → dry w w'.
Proof.
  intros Hj Hr Hf Hw Ht. unfold dry. rewrite Hj, Hr, Hf, Hw, Ht. apply dry_refl.
Qed.

Lemma dry_upd w k x y :
  w_jobs w !! k = Some x → init y = init x → dry w (upd w k y).
Proof.
  intros Hx Hi. split_and!; try done.
  - intros a x' Hx'. erewrite lookup_upd by done. case_decide.
    + subst. rewrite Hx in Hx'. injection Hx' as <-. by exists y.
    + by exists x'.
  - exists []. simpl. by rewrite app_nil_r.
Qed.

Lemma dry_emit w e : dry_event e → dry w (emit e w).
Proof.
  intros He. split_and!; try done.
  - intros a x Hx. by exists x.
  - exists [e]. split; [done|]. by apply Forall_singleton.
Qed.

Ltac dry_side :=
  first [ eapply dry_upd; [eassumption|reflexivity]
        | apply dry_emit; exact I
        | apply dry_keep; reflexivity ].

Ltac dry_leaf HI :=
  apply (respects_preserves dry); [resp_leaf dry_side|exact HI].

Section Dry.
Context (E : Externals) (fuel : nat) (self : JobId) (j : Job) (w : World).
Hypothesis Hdry : dryrun (init j) = true.

Let here (w0 : World) : Prop :=
  dry w w0 ∧ ∃ x, w_jobs w0 !! self = Some x ∧ init x = init j.

Lemma closed_here : closed_under dry here.
Proof.
  intros w1 w2 H12 [H1 (x & Hx & Hi)]. split; [by eapply dry_trans|].
  destruct H12 as (_ & _ & _ & Hj & _). destruct (Hj self x Hx) as (x' & Hx' & Hi').
  exists x'. split; congruence.
Qed.

Lemma here_get_job {B} (k : Job → M B) Q X :
  (∀ x, init x = init j → hoare here (k x) Q X) →
  hoare here (do x <- get_job self; k x) Q X.
Proof.
  intros Hk. eapply hoare_bind with (R := λ x w0, init x = init j ∧ here w0).
  - apply hoare_get_job. intros w0 x Hw0 Hx. split; [|done].
    destruct Hw0 as [_ (x' & Hx' & Hi)]. congruence.
  - intros x. apply hoare_pure. apply Hk.
Qed.

Lemma dry_fire_callbacks : preserves here (fire_callbacks self).
Proof.
  pose proof closed_here as HI.
  unfold fire_callbacks, call_callback, Knapsack_finished, Cluster_finished.
  pres ltac:(dry_leaf HI).
Qed.

Lemma dry_finished : preserves here (finished E fuel self None).
Proof using Hdry.
  pose proof closed_here as HI. unfold finished.
  eapply hoare_bind with (R := λ _, here); [dry_leaf HI|intros ?].
  apply here_get_job. intros x Hx. rewrite Hx, Hdry.
  destruct (ignore x); [apply dry_fire_callbacks|].
  eapply hoare_bind with (R := λ failed w0, failed = false ∧ here w0).
  { destruct (needrun (init j) && negb (pseudo (init j))); [|by apply hoare_ret].
    eapply hoare_try with (X' := λ _ _, False); [| |done].
    - eapply hoare_bind with (R := λ _, here); [|intros; by apply hoare_ret].
      unfold check_produced. apply here_get_job. intros x' Hx'. rewrite Hx', Hdry. simpl.
      eapply hoare_bind with (R := λ _, here); [by apply hoare_ret|].
      intros _. by apply hoare_ret.
    - intros ex _. apply hoare_false. }
  intros failed. apply hoare_pure. intros ->.
  rewrite !andb_false_r. simpl.
  eapply hoare_bind with (R := λ _, here); [by apply hoare_ret|intros ?].
  apply here_get_job. intros x' Hx'. rewrite Hx', Hdry. simpl.
  pres ltac:(first [apply dry_fire_callbacks|dry_leaf HI]).
Qed.
End Dry.

(** A dry run: [run] on a job with [dryrun] set leaves the files, the
    rules and the job counter as they are, keeps the constructor arguments
    of every job, and records nothing but its own entry, the message of the
    job and the calls of the completion callbacks; in particular nothing is
    submitted, touched, prepared or removed, whatever [run_func] is. *)
Theorem dryrun_changes_no_file E fuel self run_func w j :
  w_jobs w !! self = Some j → dryrun (init j) = true →
  match run E fuel self run_func w with
  | Ok _ w' => dry w w'
  | Raise _ w' => dry w w'
  | Abort => True
  end.
Proof.
  intros Hj Hdry.
  pose proof (closed_here self j w) as HI.
  apply (hoare_run (λ w0, dry w w0 ∧ ∃ x, w_jobs w0 !! self = Some x ∧ init x = init j)
           (run E fuel self run_func) (λ _ w', dry w w') (λ _ w', dry w w'));
    [|split; [apply dry_refl|by exists j]].
  eapply hoare_conseq with
    (P' := λ w0, dry w w0 ∧ ∃ x, w_jobs w0 !! self = Some x ∧ init x = init j)
    (Q' := λ _ w0, dry w w0 ∧ ∃ x, w_jobs w0 !! self = Some x ∧ init x = init j)
    (X' := λ _ w0, dry w w0 ∧ ∃ x, w_jobs w0 !! self = Some x ∧ init x = init j);
    [|done|by intros ? ? [? ?]..].
  unfold run. apply here_get_job. intros x Hx. rewrite Hx, Hdry.
  eapply hoare_bind; [dry_leaf HI|intros ?].
  destruct (negb (needrun (init j)) || pseudo (init j) || ignore x).
  - by apply dry_finished.
  - eapply hoare_bind; [unfold print_message; dry_leaf HI|intros ?].
    by apply dry_finished.
Qed.

Lemma dryrun_changes_no_file_witness :
  match run plain_externals 10 0%nat (Knapsack_run_job) dry_world with
  | Ok _ w' => dry dry_world w'
  | Raise _ w' => dry dry_world w'
  | Abort => True
  end.
Proof.
  apply (dryrun_changes_no_file plain_externals 10 0%nat Knapsack_run_job dry_world
           (new_job dry_init 0%nat)); reflexivity.
Defined.

(** ** The job set of a scheduler *)

Lemma update_jobs_cons k l g h x :
  k ∉ l → h !! k = Some x →
  update_jobs l g (<[k := g x]> h) = update_jobs (k :: l) g h.
Proof.
  intros Hk Hx. apply list_eq. intros i. rewrite !lookup_update_jobs.
  destruct (decide (i = k)) as [->|Hne].
  - rewrite list_lookup_insert_eq by (by eapply lookup_lt_Some). rewrite Hx. simpl.
    rewrite decide_False by done. by rewrite decide_True by (by left).
  - rewrite list_lookup_insert_ne by done.
    destruct (h !! i); simpl; [|done]. destruct (decide (i ∈ l)).
    + by rewrite decide_True by (by right).
    + rewrite decide_False; [done|]. by intros [?|?]%elem_of_cons.
Qed.

Lemma sched_add_jobs_union X Y s :
  sched_add_jobs X (sched_add_jobs Y s) = sched_add_jobs (X ∪ Y) s.
Proof.
  destruct s as [s|s]; simpl; f_equal; [unfold set_ks_jobs|unfold set_cs_jobs];
    simpl; f_equal; set_solver.
Qed.

Lemma sched_add_jobs_empty s : sched_add_jobs ∅ s = s.
Proof.
  destruct s as [s|s]; simpl; f_equal; destruct s; [unfold set_ks_jobs|unfold set_cs_jobs];
    simpl; f_equal; set_solver.
Qed.

(** The loop of [add_jobs], for a list of distinct jobs that exist. *)
Lemma add_jobs_loop (l : list JobId) (s : Scheduler) w :
  NoDup l → w_scheduler w = Some s →
  (∀ k, k ∈ l → (k < length (w_jobs w))%nat) →
  for_ l (λ job,
    modify_job job (set_scheduler true);;
    λ w, match w_scheduler w with
         | Some (Knapsack s) =>
             Ok tt (set_sched (Some (Knapsack (set_ks_jobs ({[job]} ∪ ks_jobs s) s))) w)
         | Some (Cluster s) =>
             Ok tt (set_sched (Some (Cluster (set_cs_jobs ({[job]} ∪ cs_jobs s) s))) w)
         | None => Abort
         end) w
  = Ok tt (set_sched (Some (sched_add_jobs (list_to_set l) s))
             (set_jobs (update_jobs l (set_scheduler true) (w_jobs w)) w)).
Proof.
  revert s w. induction l as [|k l IH]; intros s w Hnd Hs Hl.
  - simpl. unfold ret. rewrite update_jobs_nil, sched_add_jobs_empty.
    destruct w. simpl in *. by subst.
  - apply NoDup_cons in Hnd as [Hk Hnd].
    destruct (lookup_lt_is_Some_2 (w_jobs w) k) as [x Hx]; [apply Hl; by left|].
    cbn [for_].
    rewrite (bind_Ok _ _ w tt
               (set_sched (Some (sched_add_jobs {[k]} s)) (upd w k (set_scheduler true x)))).
    + rewrite (IH (sched_add_jobs {[k]} s)); [|done|done|].
      * simpl. rewrite sched_add_jobs_union.
        rewrite (update_jobs_cons k l (set_scheduler true) (w_jobs w) x) by done.
        assert (list_to_set l ∪ {[k]} = {[k]} ∪ list_to_set l :> gset JobId) as ->
          by set_solver.
        reflexivity.
      * intros k' Hk'. simpl. rewrite length_insert. apply Hl. by right.
    + unfold bind, modify_job. rewrite Hx. simpl. rewrite Hs. by destruct s.
Qed.

(** What [add_jobs] returns. *)
Lemma add_jobs_result E jobs w s :
  set_iter_ok E → w_scheduler w = Some s →
  (∀ k, k ∈ jobs → (k < length (w_jobs w))%nat) →
  add_jobs E jobs w
  = Ok tt (set_sched (Some (sched_add_jobs jobs s))
             (set_jobs (update_jobs (set_iter E jobs) (set_scheduler true) (w_jobs w)) w)).
Proof.
  intros HE Hs Hjobs. unfold add_jobs. rewrite (add_jobs_loop _ s); [|  |done|].
  - assert (list_to_set (set_iter E jobs) = jobs) as ->; [|done].
    apply set_eq. intros k. by rewrite elem_of_list_to_set, (HE _), elem_of_elements.
  - rewrite (HE _). apply NoDup_elements.
  - intros k Hk. apply Hjobs. by rewrite (HE _), elem_of_elements in Hk.
Qed.

Lemma lookup_update_set_iter E (jobs : gset JobId) g h k x :
  set_iter_ok E → h !! k = Some x →
  update_jobs (set_iter E jobs) g h !! k = Some (if decide (k ∈ jobs) then g x else x).
Proof.
  intros HE Hx. rewrite lookup_update_jobs, Hx. simpl. f_equal.
  destruct (decide (k ∈ set_iter E jobs)) as [H|H];
    rewrite (HE _), elem_of_elements in H.
  - by rewrite decide_True.
  - by rewrite decide_False.
Qed.

(** [add_jobs], of either scheduler: if the jobs exist, they are added to
    the set [_jobs] of the scheduler and their attribute [scheduler] is
    set; the other jobs, and everything else, stay as they are. *)
Theorem add_jobs_adds_to_job_set E jobs w s :
  set_iter_ok E → w_scheduler w = Some s →
  (∀ k, k ∈ jobs → (k < length (w_jobs w))%nat) →
  ∃ w', add_jobs E jobs w = Ok tt w'
    ∧ w_scheduler w' = Some (sched_add_jobs jobs s)
    ∧ scheduler_jobs w' = jobs ∪ scheduler_jobs w
    ∧ length (w_jobs w') = length (w_jobs w)
    ∧ (∀ k x, w_jobs w !! k = Some x →
         w_jobs w' !! k = Some (if decide (k ∈ jobs) then set_scheduler true x else x))
    ∧ w_rules w' = w_rules w ∧ w_fs w' = w_fs w
    ∧ w_workflow w' = w_workflow w ∧ w_trace w' = w_trace w.
Proof.
  intros HE Hs Hjobs. eexists. split; [by apply add_jobs_result|].
  simpl. split_and!; try done.
  - unfold scheduler_jobs. simpl. rewrite Hs. by destruct s.
  - apply length_update_jobs.
  - intros k x Hx. by apply lookup_update_set_iter.
Qed.

Lemma add_jobs_adds_to_job_set_witness :
  ∃ w', add_jobs plain_externals {[1%nat]} chain_3 = Ok tt w'
    ∧ w_scheduler w' = Some (sched_add_jobs {[1%nat]} (Knapsack (knapsack_of chain_3)))
    ∧ scheduler_jobs w' = {[1%nat]} ∪ scheduler_jobs chain_3
    ∧ length (w_jobs w') = length (w_jobs chain_3)
    ∧ (∀ k x, w_jobs chain_3 !! k = Some x →
         w_jobs w' !! k
         = Some (if decide (k ∈ ({[1%nat]} : gset nat)) then set_scheduler true x else x))
    ∧ w_rules w' = w_rules chain_3 ∧ w_fs w' = w_fs chain_3
    ∧ w_workflow w' = w_workflow chain_3 ∧ w_trace w' = w_trace chain_3.
Proof.
  apply (add_jobs_adds_to_job_set plain_externals {[1%nat]} chain_3
           (Knapsack (knapsack_of chain_3))).
  - intros X. reflexivity.
  - by_compute.
  - intros k Hk. apply elem_of_singleton in Hk. subst k. vm_compute. lia.
Defined.

(** Adding the same jobs a second time changes nothing. *)
Theorem add_jobs_twice E jobs w s :
  set_iter_ok E → w_scheduler w = Some s →
  (∀ k, k ∈ jobs → (k < length (w_jobs w))%nat) →
  (add_jobs E jobs ;; add_jobs E jobs) w = add_jobs E jobs w.
Proof.
  intros HE Hs Hjobs.
  erewrite bind_Ok by (by apply add_jobs_result).
  rewrite (add_jobs_result E jobs w s) by done.
  rewrite (add_jobs_result E jobs _ (sched_add_jobs jobs s)); [|done|done|].
  - rewrite sched_add_jobs_union.
    assert (jobs ∪ jobs = jobs :> gset JobId) as -> by set_solver.
    assert (update_jobs (set_iter E jobs) (set_scheduler true)
              (update_jobs (set_iter E jobs) (set_scheduler true) (w_jobs w))
            = update_jobs (set_iter E jobs) (set_scheduler true) (w_jobs w)) as Hupd.
    { apply list_eq. intros i. rewrite !lookup_update_jobs.
      destruct (w_jobs w !! i) as [x|]; simpl; [|done].
      by destruct (decide (i ∈ set_iter E jobs)). }
    simpl. rewrite Hupd. reflexivity.
  - intros k Hk. simpl. rewrite length_update_jobs. by apply Hjobs.
Qed.

Lemma add_jobs_twice_witness :
  (add_jobs plain_externals {[1%nat]} ;; add_jobs plain_externals {[1%nat]}) chain_3
  = add_jobs plain_externals {[1%nat]} chain_3.
Proof.
  apply (add_jobs_twice plain_externals {[1%nat]} chain_3 (Knapsack (knapsack_of chain_3))).
  - intros X. reflexivity.
  - by_compute.
  - intros k Hk. apply elem_of_singleton in Hk. subst k. vm_compute. lia.
Defined.

(** *** The constructors of the schedulers *)

(** [KnapsackJobScheduler.__init__].  With [c] the cores that the workflow
    asks for or, if it asks for none, those of the machine: if [c] is not
    positive, the pool cannot be created, [ValueError] is raised and
    nothing has changed; otherwise all [c] cores are available, the pool is
    empty, the given jobs are the jobs of the scheduler and know it,
    [_open_jobs] is set and [_errors] is not, and nothing is logged. *)
Theorem Knapsack_init_state E jobs w :
  set_iter_ok E →
  (∀ k, k ∈ jobs → (k < length (w_jobs w))%nat) →
  (cores_or_cpu_count E (w_workflow w) ≤ 0 →
   Knapsack__init__ E jobs w = Raise ValueError w)
  ∧ (0 < cores_or_cpu_count E (w_workflow w) →
     ∃ w', Knapsack__init__ E jobs w = Ok tt w'
       ∧ w_scheduler w'
         = Some (Knapsack (mkKnapsack (cores_or_cpu_count E (w_workflow w))
                                      (cores_or_cpu_count E (w_workflow w))
                                      [] false jobs true false))
       ∧ (∀ k x, w_jobs w !! k = Some x →
            w_jobs w' !! k = Some (if decide (k ∈ jobs) then set_scheduler true x else x))
       ∧ w_trace w' = w_trace w ∧ w_fs w' = w_fs w ∧ w_workflow w' = w_workflow w).
Proof.
  intros HE Hjobs. unfold Knapsack__init__, cores_or_cpu_count.
  set (c := match cores (w_workflow w) with Some _ => _ | None => _ end).
  set (s0 := mkKnapsack c c [] false ∅ false false).
  split; intros Hc.
  { unfold bind, get. fold c. by rewrite bool_decide_eq_true_2. }
  pose proof (add_jobs_result E jobs (set_sched (Some (Knapsack s0)) w)
                (Knapsack s0) HE eq_refl Hjobs) as Hadd.
  eexists. split.
  - unfold bind at 1, get. fold c. rewrite bool_decide_eq_false_2 by lia.
    unfold bind at 1, modify. fold s0.
    erewrite bind_Ok by exact Hadd.
    unfold bind, modify_knapsack. simpl. reflexivity.
  - simpl. split_and!; try done.
    + assert (jobs ∪ ∅ = jobs :> gset JobId) as -> by set_solver. reflexivity.
    + intros k x Hx. by apply lookup_update_set_iter.
Qed.

Lemma Knapsack_init_state_witness :
  ∃ w', Knapsack__init__ plain_externals {[0%nat; 1%nat]} chain_2 = Ok tt w'
    ∧ w_scheduler w'
      = Some (Knapsack (mkKnapsack (cores_or_cpu_count plain_externals (w_workflow chain_2))
                                   (cores_or_cpu_count plain_externals (w_workflow chain_2))
                                   [] false {[0%nat; 1%nat]} true false))
    ∧ (∀ k x, w_jobs chain_2 !! k = Some x →
         w_jobs w' !! k
         = Some (if decide (k ∈ ({[0%nat; 1%nat]} : gset nat))
                 then set_scheduler true x else x))
    ∧ w_trace w' = w_trace chain_2 ∧ w_fs w' = w_fs chain_2
    ∧ w_workflow w' = w_workflow chain_2.
Proof.
  apply (Knapsack_init_state plain_externals {[0%nat; 1%nat]} chain_2).
  - intros X. reflexivity.
  - intros k Hk. assert (k = 0 ∨ k = 1)%nat as [-> | ->] by set_solver; vm_compute; lia.
  - vm_compute. reflexivity.
Defined.

(** [ClusterJobScheduler.__init__]: the given jobs are the jobs of the
    scheduler and know it, no job is watched, [_open_jobs] is set and
    [_error] is not, and [_cores] is what the workflow asks for. *)
Theorem Cluster_init_state E jobs submitcmd w :
  set_iter_ok E →
  (∀ k, k ∈ jobs → (k < length (w_jobs w))%nat) →
  ∃ w', Cluster__init__ E jobs submitcmd w = Ok tt w'
    ∧ w_scheduler w'
      = Some (Cluster (mkCluster jobs submitcmd true false (cores (w_workflow w)) []))
    ∧ (∀ k x, w_jobs w !! k = Some x →
         w_jobs w' !! k = Some (if decide (k ∈ jobs) then set_scheduler true x else x))
    ∧ w_trace w' = w_trace w ∧ w_fs w' = w_fs w ∧ w_workflow w' = w_workflow w.
Proof.
  intros HE Hjobs. unfold Cluster__init__.
  set (s0 := mkCluster ∅ submitcmd false false (cores (w_workflow w)) []).
  pose proof (add_jobs_result E jobs (set_sched (Some (Cluster s0)) w)
                (Cluster s0) HE eq_refl Hjobs) as Hadd.
  eexists. split.
  - unfold bind at 1, get. unfold bind at 1, modify. fold s0.
    erewrite bind_Ok by exact Hadd.
    unfold bind, modify_cluster. simpl. reflexivity.
  - simpl. split_and!; try done.
    + assert (jobs ∪ ∅ = jobs :> gset JobId) as -> by set_solver. reflexivity.
    + intros k x Hx. by apply lookup_update_set_iter.
Qed.

Lemma Cluster_init_state_witness :
  ∃ w', Cluster__init__ plain_externals {[0%nat; 1%nat]} "qsub" chain_2 = Ok tt w'
    ∧ w_scheduler w'
      = Some (Cluster (mkCluster {[0%nat; 1%nat]} "qsub" true false
                                 (cores (w_workflow chain_2)) []))
    ∧ (∀ k x, w_jobs chain_2 !! k = Some x →
         w_jobs w' !! k
         = Some (if decide (k ∈ ({[0%nat; 1%nat]} : gset nat))
                 then set_scheduler true x else x))
    ∧ w_trace w' = w_trace chain_2 ∧ w_fs w' = w_fs chain_2
    ∧ w_workflow w' = w_workflow chain_2.
Proof.
  apply (Cluster_init_state plain_externals {[0%nat; 1%nat]} "qsub" chain_2).
  - intros X. reflexivity.
  - intros k Hk. assert (k = 0 ∨ k = 1)%nat as [-> | ->] by set_solver; vm_compute; lia.
Defined.

(** ** The expansion of an ancestor *)

Lemma dynamic_expansion_empty (E : Externals) (dynamic : gset string)
    (wildcard_expansion : gmap string (gset string)) (inputs : list IOFile) (k : nat) :
  (∀ f, f ∈ inputs → file f ∈ dynamic → expand E (file f) wildcard_expansion = Some []) →
  dynamic_expansion E dynamic wildcard_expansion k inputs = Some [].
Proof.
  revert k. induction inputs as [|f inputs IH]; intros k H; [done|].
  simpl. rewrite IH by (intros g Hg; apply H; by right).
  case_bool_decide as Hf; [|done]. by rewrite (H f) by (done || by left).
Qed.

(** If the rule of an ancestor has no dynamic input, or none of its
    dynamic inputs expands to a file, [handle_dynamic_input] returns no
    job and leaves the whole state as it was. *)
Theorem handle_dynamic_input_nothing_to_expand (E : Externals) (w : World)
    (self : JobId) (j : Job) (r : Rule)
    (wildcard_expansion : gmap string (gset string)) (jobs : JobCache) :
  w_jobs w !! self = Some j →
  w_rules w !! rule (init j) = Some r →
  (∀ f, f ∈ rule_input r → file f ∈ rule_dynamic r →
        expand E (file f) wildcard_expansion = Some []) →
  handle_dynamic_input E self wildcard_expansion jobs w = Ok (None, jobs) w.
Proof.
  intros Hj Hr Hnone.
  unfold handle_dynamic_input, bind, get_job, get_rule. rewrite Hj, Hr.
  by rewrite dynamic_expansion_empty.
Qed.

Lemma handle_dynamic_input_nothing_to_expand_witness :
  handle_dynamic_input plain_externals 0%nat {["sample" := {["a"]}]} [] failing_1
  = Ok (None, []) failing_1.
Proof.
  apply (handle_dynamic_input_nothing_to_expand plain_externals failing_1 0%nat
           (new_job compile_init 0%nat) compile_rule).
  - by_compute.
  - by_compute.
  - intros f Hf Hdyn. vm_compute in Hdyn. set_solver.
Defined.

(** If [Rule.run] constructs no job and fails after the one dynamic input
    of the rule has been replaced by its expansion, the exception is
    swallowed: [handle_dynamic_input] returns no job and the ancestor stays
    in the DAG as it was, but the rule keeps the expanded input and has
    lost the dynamic flag of the pattern. *)
Theorem handle_dynamic_input_keeps_expansion_when_run_fails (E : Externals) (w : World)
    (self : JobId) (j : Job) (r : Rule)
    (wildcard_expansion : gmap string (gset string)) (jobs : JobCache)
    (i : nat) (f : IOFile) (files : list IOFile) :
  w_jobs w !! self = Some j →
  w_rules w !! rule (init j) = Some r →
  dynamic_expansion E (rule_dynamic r) wildcard_expansion 0 (rule_input r)
  = Some [(i, files)] →
  rule_input r !! i = Some f →
  let w1 := set_rules (<[rule (init j) :=
              mkRule (rule_name r)
                     (take i (rule_input r) ++ files ++ drop (S i) (rule_input r))
                     (rule_output r) (rule_dynamic r ∖ {[file f]})]> (w_rules w)) w in
  let out := rule_run E w1 (rule (init j)) (head (output (init j))) jobs
                      (forced (init j)) in
  run_new out = [] → run_result out = None →
  handle_dynamic_input E self wildcard_expansion jobs w = Ok (None, run_cache out) w1.
Proof.
  intros Hj Hr Hexp Hi w1 out Hnew Hres.
  assert (rule (init j) < length (w_rules w))%nat as Hlt by (by eapply lookup_lt_Some).
  unfold handle_dynamic_input.
  erewrite bind_Ok by (unfold get_job; by rewrite Hj).
  erewrite bind_Ok by (unfold get_rule; by rewrite Hr).
  rewrite Hexp. simpl.
  assert (replace_dynamic_input (rule (init j)) (i, files) w = Ok tt w1) as Hrep.
  { unfold replace_dynamic_input.
    erewrite bind_Ok by (unfold get_rule; by rewrite Hr).
    simpl. rewrite Hi. unfold set_dynamic.
    erewrite bind_Ok by (unfold modify_rule; by rewrite Hr).
    unfold modify_rule. simpl. rewrite list_lookup_insert_eq by done.
    rewrite list_insert_insert_eq. reflexivity. }
  erewrite bind_Ok; cycle 1.
  { erewrite bind_Ok by exact Hrep. reflexivity. }
  erewrite bind_Ok by reflexivity.
  fold out. unfold try_except, replace_job, bind. rewrite Hnew, Hres. reflexivity.
Qed.

Lemma handle_dynamic_input_keeps_expansion_when_run_fails_witness :
  ∃ w1 cache,
    handle_dynamic_input stubborn_externals 0%nat {["sample" := {["a"]}]} [] gather_world
    = Ok (None, cache) w1
    ∧ w_jobs w1 = w_jobs gather_world
    ∧ w_rules w1 = [mkRule "gather" [plain_file "out/a.txt"] [plain_file "all.txt"] ∅].
Proof.
  eexists _, _. split.
  - eapply (handle_dynamic_input_keeps_expansion_when_run_fails stubborn_externals
             gather_world 0%nat _ gather_rule {["sample" := {["a"]}]} [] 0%nat
             (plain_file "out/{sample}.txt") [plain_file "out/a.txt"]);
      [reflexivity|reflexivity|by_compute|reflexivity|reflexivity|reflexivity].
  - split; [reflexivity|by_compute].
Defined.

(** *** The removal of an expanded ancestor from the DAG *)

Lemma stable_dag_live self : stable (λ w, dag_inv w ∧ live w self).
Proof.
  intros w w' Hev [Hdag Hlive]. split; [by eapply stable_dag_inv|].
  destruct Hev as (_ & Hview & _). by apply (live_iff w w' self (Hview self)).
Qed.

Lemma dag_live___init__ E a self :
  set_iter_ok E → preserves (λ w, dag_inv w ∧ live w self) (__init__ E a).
Proof.
  intros HE. apply hoare___init__. intros w [Hdag Hlive] Hb.
  eapply hoare_bind with
    (R := λ _ w1, w1 = set_jobs (update_jobs (set_iter E (init_depends a))
                   (λ o, set_depending (depending o ++ [length (w_jobs w)]) o)
                   (w_jobs w ++ [new_job a (length (w_jobs w))])) w).
  - intros w1 ->.
    erewrite (for_update _ _ (λ _, True)).
    + done.
    + intros w2 d j Hj _. unfold modify_job. by rewrite Hj.
    + rewrite (HE _). apply NoDup_elements.
    + intros d Hd. rewrite (HE _) in Hd. apply elem_of_elements in Hd.
      apply Hb in Hd. simpl. rewrite lookup_app_l by done.
      destruct (lookup_lt_is_Some_2 (w_jobs w) d Hd) as [j Hj]. eauto.
  - intros ?. apply hoare_ret. intros w1 ->. split.
    + apply dag_inv_new; [done|done|apply HE].
    + apply (new_live w a (set_iter E (init_depends a)) Hb (HE _)). by right.
Qed.

Lemma remove_from_dag_spliced E self :
  set_iter_ok E →
  hoare (λ w, dag_inv w ∧ live w self) (remove_from_dag E self)
        (λ _ w, spliced w self ∧ dag_inv w) (λ _ _, False).
Proof.
  intros HE w [Hdag (j & Hj & Hfin & Hign)].
  rewrite (remove_from_dag_live E self w j HE Hdag Hj Hfin Hign).
  split; [split|].
  - eexists. split.
    + rewrite (splice_lookup3 w self j _ Hdag Hj Hfin Hign (HE _)).
      by rewrite decide_True.
    + done.
  - intros k Hk.
    apply (splice_depends w self j _ Hdag Hj Hfin Hign (HE _)) in Hk. naive_solver.
  - apply (dag_inv_splice w self j _ Hdag Hj Hfin Hign (HE _)).
Qed.

(** In a state whose edges are in order, when [handle_dynamic_input] on
    a job that has neither finished nor been ignored returns a new job, the
    old job is ignored, depends on nothing, and is in the [depends] of no
    job; the edges are again in order. *)
Theorem handle_dynamic_input_removes_job E self wildcard_expansion jobs w job cache w' :
  set_iter_ok E → dag_inv w → live w self →
  handle_dynamic_input E self wildcard_expansion jobs w = Ok (Some job, cache) w' →
  spliced w' self ∧ dag_inv w'.
Proof.
  intros HE Hdag Hlive Hrun.
  pose proof (hoare_run (λ w0, dag_inv w0 ∧ live w0 self)
                (handle_dynamic_input E self wildcard_expansion jobs)
                (λ res w0, res.1 ≠ None → spliced w0 self ∧ dag_inv w0)
                (λ _ _, True) w) as H.
  rewrite Hrun in H. apply H; [|done|done]. clear H Hrun.
  pose proof (stable_dag_live self) as HI.
  unfold handle_dynamic_input.
  eapply hoare_bind; [apply preserves_hoare, preserves_get_job|intros j].
  eapply hoare_bind; [apply preserves_hoare, preserves_get_rule|intros r].
  destruct (dynamic_expansion _ _ _ _ _) as [[|e expansion]|];
    [by apply hoare_ret| |by apply hoare_ret].
  eapply hoare_bind with (R := λ _ w0, dag_inv w0 ∧ live w0 self).
  { apply preserves_hoare. pres ltac:(benign_leaf HI). }
  intros ?.
  eapply hoare_bind; [apply preserves_hoare, preserves_get|intros w1].
  eapply hoare_bind with (R := λ res w0, res ≠ None → spliced w0 self ∧ dag_inv w0);
    [|intros res; by apply hoare_ret].
  eapply hoare_try with (X' := λ _ _, True); [| |done].
  - unfold replace_job.
    eapply hoare_bind with (R := λ _ w0, dag_inv w0 ∧ live w0 self).
    { apply preserves_hoare. apply preserves_for. intros ? _.
      apply preserves_bind; [by apply dag_live___init__|intros ?; apply preserves_ret]. }
    intros ?. destruct (run_result _); [|by apply hoare_raise].
    eapply hoare_bind with (R := λ _ w0, spliced w0 self ∧ dag_inv w0).
    + eapply hoare_conseq; [by apply remove_from_dag_spliced|done..].
    + intros ?. by apply hoare_ret.
  - intros ex _. by apply hoare_ret.
Qed.

Lemma handle_dynamic_input_removes_job_witness :
  ∃ job cache w',
    handle_dynamic_input dynamic_externals 2%nat {["s" := {["a"]}]}
      [(([split_pattern], 0%nat), 0%nat)] dynamic_detached = Ok (Some job, cache) w'
    ∧ spliced w' 2%nat ∧ dag_inv w'.
Proof.
  exists 4%nat, [(([split_pattern], 0%nat), 0%nat)]. eexists. split; [by_compute|].
  apply (handle_dynamic_input_removes_job dynamic_externals 2%nat {["s" := {["a"]}]}
           [(([split_pattern], 0%nat), 0%nat)] dynamic_detached
           4%nat [(([split_pattern], 0%nat), 0%nat)]).
  - intros X. reflexivity.
  - assert (sys_inv dynamic_written) as (Hdag & _).
    { apply (reachable_sys_inv dynamic_externals false); [intros X; reflexivity|].
      apply reach_fs. reach_dynamic_6. }
    assert (hoare (λ w0, w0 = dynamic_written)
              (modify_job 0%nat (set_is_finished true);; depends_remove 2%nat 0%nat)
              (λ _, dag_inv) (λ _ _, True)) as H.
    { eapply hoare_bind with (R := λ _ w0, sys_inv w0 ∧ job_is_finished w0 0%nat).
      - eapply hoare_conseq with (P' := λ w0, sys_inv w0 ∧ ready w0 0%nat);
          [apply (sys_inv_set_is_finished 0%nat (λ _ _, True))| |done|done].
        intros w0 ->. split.
        + apply (reachable_sys_inv dynamic_externals false); [intros X; reflexivity|].
          apply reach_fs. reach_dynamic_6.
        + eexists. split; [by_compute|]. by_compute.
      - intros ?. eapply hoare_conseq; [apply sys_inv_depends_remove|done| |done].
        intros ? ? [[Hd _] _]. exact Hd. }
    assert ((modify_job 0%nat (set_is_finished true);; depends_remove 2%nat 0%nat)
              dynamic_written = Ok tt dynamic_detached) as Heq by by_compute.
    specialize (H dynamic_written eq_refl). rewrite Heq in H. exact H.
  - eexists. split; [by_compute|]. split; reflexivity.
  - by_compute.
Defined.

(** *** The job itself is not attached again *)

Lemma closed_not_scheduled self :
  closed_under calm (λ w, self ∉ scheduler_jobs w).
Proof. intros w w' [Hs _] Hw. unfold scheduler_jobs in *. by rewrite Hs. Qed.

Lemma add_jobs_not_scheduled E (X : gset JobId) self :
  set_iter_ok E → self ∉ X →
  preserves (λ w, self ∉ scheduler_jobs w) (add_jobs E X).
Proof.
  intros HE Hself. unfold add_jobs. apply preserves_for. intros k Hk.
  rewrite (HE _), elem_of_elements in Hk.
  apply preserves_bind.
  - apply hoare_modify_job. by intros w x Hw _.
  - intros ? w Hw. unfold scheduler_jobs in *.
    destruct (w_scheduler w) as [[s|s]|]; [| |done]; simpl; set_solver.
Qed.

(** [handle_dynamic_output] never puts the job whose output it expands
    into the job set of the scheduler. *)
Theorem handle_dynamic_output_leaves_self_out E fuel self w w' :
  set_iter_ok E → self ∉ scheduler_jobs w →
  handle_dynamic_output E fuel self w = Ok tt w' →
  self ∉ scheduler_jobs w'.
Proof.
  intros HE Hself Hrun.
  pose proof (hoare_run (λ w0, self ∉ scheduler_jobs w0) (handle_dynamic_output E fuel self)
                (λ _ w0, self ∉ scheduler_jobs w0) (λ _ _, True) w) as H.
  rewrite Hrun in H. apply H; [|done]. clear H Hrun.
  pose proof (closed_not_scheduled self) as HI.
  unfold handle_dynamic_output.
  eapply hoare_bind with (R := λ nd w0, (self ∉ fst nd) ∧ self ∉ scheduler_jobs w0).
  - eapply hoare_conseq with
      (P' := λ w0, True ∧ (self ∉ scheduler_jobs w0))
      (Q' := λ nd w0, (self ∉ fst nd) ∧ self ∉ scheduler_jobs w0)
      (X' := λ _ w0, True ∧ (self ∉ scheduler_jobs w0)); [|done..].
    apply hoare_and;
      [|apply (respects_preserves calm); [apply calm_dynamic_new_jobs|done]].
    unfold dynamic_new_jobs.
    eapply hoare_bind with (R := λ _ _, True); [by intros w0 _; destruct (collect_wildcards _ _ _)|].
    intros we.
    eapply hoare_bind with (R := λ _ _, True); [by intros w0 _; destruct (get_job _ _)|].
    intros j.
    eapply hoare_bind with (R := λ _ _, True);
      [by intros w0 _; destruct (ancestors_loop _ _ _ _ _ _)|].
    intros st. case_bool_decide.
    + eapply hoare_bind with (R := λ _ _, True); [by intros w0 _; destruct (get_job _ _)|].
      intros j'.
      eapply hoare_bind with (R := λ _ _, True); [by intros w0 _; destruct (for_ _ _ _)|].
      intros ?. apply hoare_ret. intros w0 _. simpl. set_solver.
    + by apply hoare_ret.
  - intros nd. apply hoare_pure. intros Hnd. unfold attach_new_jobs.
    apply preserves_hoare.
    pres ltac:(first [ by apply add_jobs_not_scheduled | calm_leaf HI ]).
Qed.

Lemma handle_dynamic_output_leaves_self_out_witness :
  ∃ w', handle_dynamic_output dynamic_externals 10 0%nat dynamic_detached = Ok tt w'
        ∧ 0%nat ∉ scheduler_jobs w'.
Proof.
  eexists. split; [by_compute|].
  apply (handle_dynamic_output_leaves_self_out dynamic_externals 10 0%nat dynamic_detached).
  - intros X. reflexivity.
  - by_evaluation.
  - by_compute.
Defined.

(** ** The rounds of the schedulers *)




(** A round of [ClusterJobScheduler.schedule] returns [False] exactly
    when a job has failed, and then only logs the warning; it returns
    [True] exactly when no job has failed and no job is left, and then
    changes nothing but [_open_jobs]; otherwise it goes round again. *)
Theorem Cluster_schedule_result E fuel w s r w' :
  w_scheduler w = Some (Cluster s) →
  Cluster_schedule E fuel w = Ok r w' →
  match r with
  | Some false =>
      cs_error s = true
      ∧ w' = emit (LogWarning "Will exit after finishing currently running jobs.")
               (set_sched (Some (Cluster (set_cs_open_jobs false s))) w)
  | Some true =>
      cs_error s = false ∧ cs_jobs s = ∅
      ∧ w' = set_sched (Some (Cluster (set_cs_open_jobs false s))) w
  | None => cs_error s = false ∧ cs_jobs s ≠ ∅
  end.
Proof.
  intros Hs. unfold Cluster_schedule.
  erewrite bind_Ok by (unfold modify_cluster; by rewrite Hs).
  erewrite bind_Ok by reflexivity. simpl.
  destruct (cs_error s) eqn:Herr.
  - unfold bind, log_event, modify, ret. simpl. intros [= <- <-]. done.
  - case_bool_decide as Hjobs.
    + unfold ret. intros [= <- <-]. done.
    + intros H.
      repeat (apply bind_Ok_inv in H as (? & ? & _ & H)).
      unfold ret in H. injection H as <- <-. done.
Qed.

Lemma Cluster_schedule_result_witness :
  cs_error (mkCluster ∅ "qsub" true false None []) = false
  ∧ cs_jobs (mkCluster ∅ "qsub" true false None []) = ∅
  ∧ set_sched (Some (Cluster (mkCluster ∅ "qsub" false false None []))) chain_2
    = set_sched (Some (Cluster (set_cs_open_jobs false
                                  (mkCluster ∅ "qsub" true false None [])))) chain_2.
Proof.
  apply (Cluster_schedule_result plain_externals 10
           (set_sched (Some (Cluster (mkCluster ∅ "qsub" true false None []))) chain_2)
           (mkCluster ∅ "qsub" true false None []) (Some true)
           (set_sched (Some (Cluster (mkCluster ∅ "qsub" false false None []))) chain_2));
    by_compute.
Defined.

(** *** A failed job stops the local scheduler *)

Ltac halted_leaf :=
  first
    [ apply hoare_modify_knapsack;
      let Hh := fresh in let Hs := fresh in
      intros ? ? Hh Hs; destruct Hh as (? & ? & ? & ?); simplify_eq;
      eexists; split; [reflexivity|]; simpl; done
    | apply hoare_modify_cluster;
      let Hh := fresh in let Hs := fresh in
      intros ? ? Hh Hs; destruct Hh as (? & ? & ? & ?); congruence
    | apply hoare_modify; let Hh := fresh in intros ? Hh; exact Hh ].

Lemma halted_call_error_callback c : preserves halted (call_error_callback c).
Proof. unfold call_error_callback, Knapsack_error. pres halted_leaf. Qed.

Lemma halts_Knapsack_error :
  hoare (λ w, ∃ s, w_scheduler w = Some (Knapsack s))
        (call_error_callback KnapsackError) (λ _, halted) (λ _ _, True).
Proof.
  unfold call_error_callback, Knapsack_error.
  eapply hoare_bind with (R := λ _ w, ∃ s, w_scheduler w = Some (Knapsack s));
    [by apply hoare_modify|].
  intros ?.
  eapply hoare_bind with
    (R := λ _ w, ∃ s, w_scheduler w = Some (Knapsack s) ∧ ks_errors s = true).
  { apply hoare_modify_knapsack. intros w s _ Hs. by eexists. }
  intros ?.
  eapply hoare_bind with (R := λ _, halted).
  { apply hoare_modify_knapsack. intros w s (s' & Hs' & Herr) Hs. simplify_eq.
    eexists. split; [reflexivity|]. done. }
  intros ?. apply preserves_hoare. halted_leaf.
Qed.

Lemma error_callbacks_halt l :
  hoare (λ w, halted w ∨ (KnapsackError ∈ l ∧ ∃ s, w_scheduler w = Some (Knapsack s)))
        (for_ l call_error_callback) (λ _, halted) (λ _ _, True).
Proof.
  induction l as [|c l IH]; simpl.
  - apply hoare_ret. intros w [?|[?%elem_of_nil _]]; done.
  - eapply hoare_bind; [|intros ?; apply IH].
    intros w [Hh|[Hin Hs]].
    + pose proof (halted_call_error_callback c w Hh) as H.
      destruct (call_error_callback c w); [by left|done..].
    + apply elem_of_cons in Hin as [<-|Hin].
      * pose proof (halts_Knapsack_error w Hs) as H.
        destruct (call_error_callback KnapsackError w); [by left|done..].
      * pose proof (respects_run kept_kind (call_error_callback c) w
                      (kind_call_error_callback c)) as H.
        destruct (call_error_callback c w) as [[] w1| |]; [|done..].
        right. split; [done|].
        destruct Hs as [s Hs].
        assert (kept_kind w w1) as Hk.
        { apply H.
          - intros w0. apply kept_kind_same. done.
          - intros w1' w2 w3 H12 H23. unfold kept_kind in *.
            destruct (w_scheduler w1') as [[?|?]|]; [| |done];
              destruct H12 as [? H12]; by rewrite H12 in H23. }
        unfold kept_kind in Hk. by rewrite Hs in Hk.
Qed.

(** At a state of a run of the local scheduler in which no exception has
    escaped and no job has failed, the completion of a pool job (neither
    ignored nor a pseudo job) whose worker reports an exception stops the
    scheduler: [_errors] is set and [_jobs] is empty when the call returns,
    and the next round of [schedule] returns [False]. *)
Theorem failed_job_stops_scheduler E fuel fuel' job ex w w' s x :
  set_iter_ok E → rule_run_fresh E → reachable E false w →
  w_scheduler w = Some (Knapsack s) → ks_errors s = false → job ∈ ks_pool s →
  w_jobs w !! job = Some x → ignore x = false → pseudo (init x) = false →
  Knapsack_complete E fuel job (FutureException ex) w = Ok tt w' →
  halted w' ∧ ∃ w'', Knapsack_schedule E fuel' w' = Ok (Some false) w''.
Proof.
  intros HE HF Hreach Hs Herr Hjob Hx Hign Hpseudo Hrun.
  destruct (reachable_knapsack_inv E w HE HF Hreach) as [_ Hinv].
  destruct (Hinv s Hs Herr) as [_ _ Harmed Hpool _ _].
  destruct (Harmed job) as (x1 & Hx1 & _ & Hcb & _); [set_solver|].
  destruct (Hpool job Hjob) as (x2 & Hx2 & Hneed).
  assert (x1 = x) as -> by congruence. assert (x2 = x) as -> by congruence.
  assert (halted w') as Hh.
  { pose proof (hoare_run (λ w0, w0 = w) (Knapsack_complete E fuel job (FutureException ex))
                  (λ _, halted) (λ _ _, True) w) as H.
    rewrite Hrun in H. apply H; [|done]. clear H Hrun.
    unfold Knapsack_complete.
    eapply hoare_bind with
      (R := λ _ w0, (∃ s0, w_scheduler w0 = Some (Knapsack s0)) ∧ w_jobs w0 !! job = Some x).
    { apply hoare_modify_knapsack. intros w0 s0 -> _. split; [by eexists|done]. }
    intros ?. unfold finished.
    eapply hoare_bind with
      (R := λ _ w0, (∃ s0, w_scheduler w0 = Some (Knapsack s0))
                    ∧ w_jobs w0 !! job = Some (set_is_finished true x)).
    { apply hoare_modify_job. intros w0 x0 [Hs0 Hx0] Hx0'.
      assert (x0 = x) as -> by congruence. split; [exact Hs0|].
      simpl. apply list_lookup_insert_eq. by eapply lookup_lt_Some. }
    intros ?.
    eapply hoare_bind with
      (R := λ x0 w0, x0 = set_is_finished true x
                     ∧ ((∃ s0, w_scheduler w0 = Some (Knapsack s0))
                        ∧ w_jobs w0 !! job = Some (set_is_finished true x))).
    { apply hoare_get_job. intros w0 x0 [Hs0 Hx0] Hx0'. split; [congruence|done]. }
    intros x0. apply hoare_pure. intros ->. simpl. rewrite Hign, Hneed, Hpseudo. simpl.
    eapply hoare_bind with (R := λ failed w0, failed = true ∧ halted w0).
    - eapply hoare_try with
        (X' := λ _ w0, (∃ s0, w_scheduler w0 = Some (Knapsack s0))
                       ∧ w_jobs w0 !! job = Some (set_is_finished true x)); [| |done].
      + eapply hoare_bind with (R := λ _ _, False); [|intros ?; apply hoare_false].
        unfold check_produced.
        eapply hoare_bind with
          (R := λ _ w0, (∃ s0, w_scheduler w0 = Some (Knapsack s0))
                        ∧ w_jobs w0 !! job = Some (set_is_finished true x));
          [by apply hoare_get_job|].
        intros ?.
        eapply hoare_bind with (R := λ _ _, False); [|intros ?; apply hoare_false].
        by apply hoare_raise.
      + intros ex' _. eapply hoare_bind with (R := λ _, halted);
          [|intros ?; by apply hoare_ret].
        unfold handle_error.
        eapply hoare_bind with
          (R := λ _ w0, (∃ s0, w_scheduler w0 = Some (Knapsack s0))
                        ∧ w_jobs w0 !! job = Some (set_is_finished true x)).
        { by apply hoare_modify. }
        intros ?.
        eapply hoare_bind with
          (R := λ _ w0, (∃ s0, w_scheduler w0 = Some (Knapsack s0))
                        ∧ w_jobs w0 !! job = Some (set_is_finished true x)).
        { unfold cleanup.
          eapply hoare_bind with
            (R := λ x0 w0, x0 = set_is_finished true x
                           ∧ ((∃ s0, w_scheduler w0 = Some (Knapsack s0))
                              ∧ w_jobs w0 !! job = Some (set_is_finished true x))).
          - apply hoare_get_job. intros w0 x0 [Hs0 Hx0] Hx0'. split; [congruence|done].
          - intros x0. apply hoare_pure. intros ->. simpl. by apply hoare_ret. }
        intros ?.
        eapply hoare_bind with
          (R := λ x0 w0, x0 = set_is_finished true x
                         ∧ ∃ s0, w_scheduler w0 = Some (Knapsack s0)).
        { apply hoare_get_job. intros w0 x0 [Hs0 Hx0] Hx0'. split; [congruence|done]. }
        intros x0. apply hoare_pure. intros ->. simpl.
        eapply hoare_conseq; [apply (error_callbacks_halt (_error_callbacks x))| |done|done].
        intros w0 Hs0. right. by split.
    - intros failed. apply hoare_pure. intros ->. by apply hoare_ret. }
  split; [done|].
  destruct Hh as (s' & Hs' & Herr' & _).
  unfold Knapsack_schedule.
  erewrite bind_Ok by (unfold modify_knapsack; by rewrite Hs').
  erewrite bind_Ok by reflexivity. simpl. rewrite Herr'.
  eexists. reflexivity.
Qed.

Lemma failed_job_stops_scheduler_witness :
  halted failing_4
  ∧ ∃ w'', Knapsack_schedule plain_externals 10 failing_4 = Ok (Some false) w''.
Proof.
  assert (set_iter_ok plain_externals) as HE by (intros X; reflexivity).
  assert (rule_run_fresh plain_externals) as HF.
  { intros w r target jobs forced. simpl. split_and!.
    - by intros a d ?%elem_of_nil.
    - by intros j ?.
    - intros d Hd. by left. }
  assert (reachable plain_externals false failing_3) as Hw.
  { apply (reach_knapsack_schedule _ false false failing_2 failing_3
             (knapsack_of failing_2) 10);
      [|by_compute|by_compute|by_compute|by_ends].
    apply (reach_knapsack _ false false failing_1 failing_2 {[0%nat]});
      [|by_compute|by_ends].
    apply (reach_new _ false false
             (mkWorld [] [compile_rule] {["in.txt"]} plain_workflow None [])
             failing_1 compile_init); [|by_ends].
    apply reach_start. }
  eapply (failed_job_stops_scheduler plain_externals 10 10 0%nat (RuleException "failed")
            failing_3 failing_4 (knapsack_of failing_3) _ HE HF Hw);
    [by_compute|reflexivity|by_evaluation|by_compute|reflexivity|reflexivity|by_compute].
Defined.

(** ** The watcher of a cluster job *)

(** When only the failure sentinel of a cluster job is on disk (and the
    script is there to be removed), one look of [_wait_for_job] removes
    the sentinel and the script, prints the exception, sets [_error],
    empties [_jobs] and sets [_open_jobs]; no job changes, so the job is not
    marked as finished and none of its callbacks is called; the next round
    of [schedule] returns [False]. *)
Theorem wait_for_job_failure_stops_cluster E fuel fuel' job
    (jobfinished jobfailed jobscript : string) w s :
  w_scheduler w = Some (Cluster s) →
  jobfinished ∉ w_fs w → jobfailed ∈ w_fs w → jobscript ∈ w_fs w →
  jobscript ≠ jobfailed →
  ∃ w', Cluster_wait_for_job E fuel job jobfinished jobfailed jobscript w = Ok true w'
    ∧ w_jobs w' = w_jobs w
    ∧ w_fs w' = w_fs w ∖ {[jobfailed]} ∖ {[jobscript]}
    ∧ w_scheduler w'
      = Some (Cluster (set_cs_open_jobs true (set_cs_jobs ∅ (set_cs_error true s))))
    ∧ w_trace w' = w_trace w ++ [PrintException (ClusterJobException job)]
    ∧ ∃ w'', Cluster_schedule E fuel' w' = Ok (Some false) w''.
Proof.
  intros Hs Hfin Hfail Hscript Hne.
  eexists. split.
  - unfold Cluster_wait_for_job.
    erewrite bind_Ok by reflexivity.
    rewrite bool_decide_eq_false_2 by done. rewrite bool_decide_eq_true_2 by done.
    erewrite bind_Ok; cycle 1.
    { unfold os_remove. erewrite bind_Ok by reflexivity.
      rewrite bool_decide_eq_true_2 by done. reflexivity. }
    erewrite bind_Ok; cycle 1.
    { unfold os_remove. erewrite bind_Ok by reflexivity.
      rewrite bool_decide_eq_true_2 by (simpl; set_solver). reflexivity. }
    erewrite bind_Ok by reflexivity.
    erewrite bind_Ok by (unfold modify_cluster; simpl; by rewrite Hs).
    erewrite bind_Ok by reflexivity.
    erewrite bind_Ok by reflexivity.
    reflexivity.
  - simpl. split_and!; try done.
    eexists. unfold Cluster_schedule.
    erewrite bind_Ok by reflexivity.
    erewrite bind_Ok by reflexivity. simpl. reflexivity.
Qed.

Lemma wait_for_job_failure_stops_cluster_witness :
  ∃ w', Cluster_wait_for_job plain_externals 10 0%nat
          ".snakemake.map..out_a.bam_b.bai.jobfinished"
          ".snakemake.map..out_a.bam_b.bai.jobfailed"
          ".snakemake.map..out_a.bam_b.bai.sh" watching_failed = Ok true w'
    ∧ w_jobs w' = w_jobs watching_failed
    ∧ w_fs w' = w_fs watching_failed ∖ {[".snakemake.map..out_a.bam_b.bai.jobfailed"]}
                  ∖ {[".snakemake.map..out_a.bam_b.bai.sh"]}
    ∧ w_scheduler w'
      = Some (Cluster (set_cs_open_jobs true (set_cs_jobs ∅ (set_cs_error true
          (mkCluster {[1%nat]} "qsub" false false None
            [(0%nat, (".snakemake.map..out_a.bam_b.bai.jobfinished",
                      (".snakemake.map..out_a.bam_b.bai.jobfailed",
                       ".snakemake.map..out_a.bam_b.bai.sh")))])))))
    ∧ w_trace w' = w_trace watching_failed ++ [PrintException (ClusterJobException 0%nat)]
    ∧ ∃ w'', Cluster_schedule plain_externals 10 w' = Ok (Some false) w''.
Proof.
  apply (wait_for_job_failure_stops_cluster plain_externals 10 10 0%nat
           ".snakemake.map..out_a.bam_b.bai.jobfinished"
           ".snakemake.map..out_a.bam_b.bai.jobfailed"
           ".snakemake.map..out_a.bam_b.bai.sh" watching_failed).
  - reflexivity.
  - by_evaluation.
  - by_evaluation.
  - by_evaluation.
  - by_evaluation.
Defined.

(** When the success sentinel of a cluster job is on disk but its script
    is not, one look of [_wait_for_job] removes the sentinel and then
    raises [OSError]: [finished] is not called, and nothing else has
    changed. *)
Theorem wait_for_job_without_script_raises E fuel job
    (jobfinished jobfailed jobscript : string) w :
  jobfinished ∈ w_fs w → jobscript ∉ w_fs w ∖ {[jobfinished]} →
  Cluster_wait_for_job E fuel job jobfinished jobfailed jobscript w
  = Raise (OSError jobscript) (set_fs (w_fs w ∖ {[jobfinished]}) w).
Proof.
  intros Hfin Hscript. unfold Cluster_wait_for_job.
  erewrite bind_Ok by reflexivity. rewrite bool_decide_eq_true_2 by done.
  erewrite bind_Ok; cycle 1.
  { unfold os_remove. erewrite bind_Ok by reflexivity.
    rewrite bool_decide_eq_true_2 by done. reflexivity. }
  unfold bind, os_remove, bind, get. simpl.
  by rewrite bool_decide_eq_false_2.
Qed.

Lemma wait_for_job_without_script_raises_witness :
  Cluster_wait_for_job plain_externals 10 0%nat
    ".snakemake.map..out_a.bam_b.bai.jobfinished"
    ".snakemake.map..out_a.bam_b.bai.jobfailed"
    ".snakemake.map..out_a.bam_b.bai.sh" watching_orphan
  = Raise (OSError ".snakemake.map..out_a.bam_b.bai.sh")
          (set_fs (w_fs watching_orphan ∖ {[".snakemake.map..out_a.bam_b.bai.jobfinished"]})
                  watching_orphan).
Proof.
  apply (wait_for_job_without_script_raises plain_externals 10 0%nat
           ".snakemake.map..out_a.bam_b.bai.jobfinished"
           ".snakemake.map..out_a.bam_b.bai.jobfailed"
           ".snakemake.map..out_a.bam_b.bai.sh" watching_orphan); by_evaluation.
Defined.

(** ** The knapsack outside its domain *)

Lemma table_loop_nop (l : list Z) (K : list (list Z)) :
  table_loop l (λ _ K', Some K') K = Some K.
Proof.
  unfold table_loop. induction l as [|x l IH] using rev_ind; [done|].
  by rewrite foldl_app, IH.
Qed.

(** With a negative number of cores, [_knapsack] returns the empty set
    for an empty list of jobs and fails with [IndexError] for any other
    list. *)
Theorem knapsack_negative_cores (jobs : list Job) (cores : Z) :
  cores < 0 →
  _knapsack cores jobs = match jobs with [] => Some ∅ | _ => None end.
Proof.
  intros Hc. unfold _knapsack, knapsack_table. cbv zeta.
  rewrite (seqZ_nil 1 (cores + 1 - 1)) by lia.
  replace (table_loop (seqZ 1 (Z.of_nat (length jobs) + 1 - 1))
             (λ i, table_loop [] (λ j, knapsack_cell jobs i j)))
    with (table_loop (seqZ 1 (Z.of_nat (length jobs) + 1 - 1)) (λ _ K', Some K')) by done.
  rewrite table_loop_nop. simpl.
  rewrite (Z2Nat.nonpos (cores + 1)) by lia. simpl.
  replace (Z.to_nat (Z.of_nat (length jobs) + 1 - 1)) with (length jobs) by lia.
  destruct jobs as [|job jobs]; [done|].
  cbn [length knapsack_solution].
  assert (K_get (replicate (Z.to_nat (Z.of_nat (S (length jobs)) + 1)) [])
            (Z.of_nat (S (length jobs))) (cores + 1 - 1) = None) as ->; [|done].
  unfold K_get. rewrite py_index_nat.
  rewrite lookup_replicate_2 by lia. simpl.
  unfold py_index. rewrite decide_False by lia. rewrite decide_False by (simpl; lia). done.
Qed.

Lemma knapsack_negative_cores_witness :
  _knapsack (-1) scenario_c = None.
Proof. apply (knapsack_negative_cores scenario_c (-1)). lia. Defined.

(** ** The picture of the DAG *)

Lemma foldl_discard (l : list (string * string)) (nw : gset (string * string)) :
  foldl (λ acc wildcard, acc ∖ {[wildcard]}) nw l = nw ∖ list_to_set l.
Proof.
  revert nw. induction l as [|x l IH]; intros nw; simpl; [set_solver|].
  rewrite IH. set_solver.
Qed.

Lemma new_wildcards_loop_elem (wildcards : JobId → list (string * string))
    (deps : list JobId) (nw : gset (string * string)) wv :
  wv ∈ new_wildcards_loop wildcards deps nw
  ↔ wv ∈ nw ∧ ∀ d, d ∈ deps → wv ∉ wildcards d.
Proof.
  revert nw. induction deps as [|d deps IH]; intros nw; simpl.
  - split; [|by intros [? _]]. intros H. split; [done|]. by intros d ?%elem_of_nil.
  - case_bool_decide as Hnw.
    + subst. set_solver.
    + rewrite IH, foldl_discard. split.
      * intros [Hwv Hdeps]. split; [set_solver|].
        intros d' [->|Hd']%elem_of_cons; [set_solver|by apply Hdeps].
      * intros [Hwv Hdeps]. split.
        -- apply elem_of_difference. split; [done|].
           rewrite elem_of_list_to_set. apply Hdeps. by left.
        -- intros d' Hd'. apply Hdeps. by right.
Qed.

Section Display.
Context (E : Externals) (HE : set_iter_ok E).
Context (wildcards : JobId → list (string * string)).
Context (items_iter : gset (string * string) → list (string * string)).

Lemma new_wildcards_eval self w j :
  w_jobs w !! self = Some j →
  new_wildcards E wildcards self w
  = Ok (new_wildcards_loop wildcards (set_iter E (depends j))
          (list_to_set (wildcards self))) w.
Proof.
  intros Hj. unfold new_wildcards.
  erewrite bind_Ok by (unfold get_job; by rewrite Hj). reflexivity.
Qed.

Lemma dot_edges_fold w self (l : list JobId) acc :
  (∀ d, d ∈ l → ∃ x, w_jobs w !! d = Some x ∧ jobid x = d) →
  fold_ l (λ d acc,
      do x <- get_job d;
      ret (if needrun (init x) then acc ++ [dot_edge (jobid x) self] else acc)) acc w
  = Ok (acc ++ dot_edges w self l) w.
Proof.
  revert acc. induction l as [|d l IH]; intros acc Hl.
  - simpl. unfold ret, dot_edges. simpl. by rewrite app_nil_r.
  - destruct (Hl d) as (x & Hx & Hid); [by left|].
    cbn [fold_]. erewrite bind_Ok; cycle 1.
    { erewrite bind_Ok by (unfold get_job; by rewrite Hx). reflexivity. }
    rewrite IH by (intros d' Hd'; apply Hl; by right).
    assert (needs_run w d = needrun (init x)) as Hrun by (unfold needs_run; by rewrite Hx).
    f_equal. unfold dot_edges. rewrite filter_cons, Hrun.
    destruct (needrun (init x)); simpl.
    + rewrite Hid. by rewrite <- app_assoc.
    + done.
Qed.

Lemma dot_run self w j r :
  items_iter_ok items_iter → dag_inv w →
  w_jobs w !! self = Some j → w_rules w !! rule (init j) = Some r →
  ∃ nw edges,
    new_wildcards E wildcards self w = Ok nw w
    ∧ dot E wildcards items_iter self w
      = Ok (dot_node self (dot_label (rule_name r) (items_iter nw)) :: edges) w
    ∧ edges = dot_edges w self (set_iter E (depends j)).
Proof.
  intros HI Hdag Hj Hr.
  pose proof (new_wildcards_eval self w j Hj) as Hnw.
  eexists. eexists. split; [exact Hnw|]. split; [|reflexivity].
  set (nw := new_wildcards_loop _ _ _) in *.
  unfold dot.
  erewrite bind_Ok by (unfold get_job; by rewrite Hj).
  erewrite bind_Ok by (unfold get_rule; by rewrite Hr).
  erewrite bind_Ok by exact Hnw.
  erewrite bind_Ok; cycle 1.
  { apply dot_edges_fold. intros d Hd. rewrite (HE _), elem_of_elements in Hd.
    assert (d ∈ job_depends w self) as Hdep by (by erewrite job_depends_lookup).
    assert (self ∈ job_depending w d) as Hin by (by apply (dag_fwd w Hdag)).
    apply job_depending_elem in Hin as (x & Hx & _).
    exists x. split; [done|]. by apply (dag_id w Hdag). }
  unfold ret. simpl. rewrite (dag_id w Hdag self j Hj). do 2 f_equal.
  destruct (bool_decide (depends j = ∅) || negb (bool_decide (nw = ∅))) eqn:Hc; [done|].
  apply orb_false_elim in Hc as [_ Hc]. apply negb_false_iff, bool_decide_eq_true in Hc.
  rewrite Hc. assert (items_iter ∅ = []) as ->; [|done].
  apply Permutation_nil_r. by rewrite (HI ∅), elements_empty.
Qed.
End Display.

Lemma pair_world_dag_inv : dag_inv pair_world.
Proof.
  apply (reachable_sys_inv plain_externals false pair_world); [intros X; reflexivity|].
  apply (reach_new _ false false pair_1 pair_world pair_second); [|by_ends].
  apply (reach_new _ false false chain_start pair_1 pair_first); [|by_ends].
  apply reach_start.
Qed.

(** [new_wildcards] returns the items of the job's own wildcards that no
    job of its [depends] has among its wildcards, in whatever order the set
    [depends] is walked; the state is as it was. *)
Theorem new_wildcards_are_not_inherited E wildcards self w j :
  set_iter_ok E → w_jobs w !! self = Some j →
  ∃ nw, new_wildcards E wildcards self w = Ok nw w
        ∧ ∀ wv, wv ∈ nw ↔ wv ∈ wildcards self ∧ ∀ d, d ∈ depends j → wv ∉ wildcards d.
Proof.
  intros HE Hj. eexists. split; [by apply new_wildcards_eval|].
  intros wv. rewrite new_wildcards_loop_elem, elem_of_list_to_set.
  split; intros [Hwv Hdeps]; (split; [done|]); intros d Hd; apply Hdeps.
  - by rewrite (HE _), elem_of_elements.
  - by rewrite (HE _), elem_of_elements in Hd.
Qed.

Lemma new_wildcards_are_not_inherited_witness :
  ∃ nw, new_wildcards plain_externals chain_wildcards 1%nat chain_2 = Ok nw chain_2
        ∧ ∀ wv, wv ∈ nw ↔ wv ∈ chain_wildcards 1%nat
                          ∧ ∀ d, d ∈ depends (new_job second_init 1%nat)
                                 → wv ∉ chain_wildcards d.
Proof.
  apply (new_wildcards_are_not_inherited plain_externals chain_wildcards 1%nat chain_2
           (new_job second_init 1%nat)).
  - intros X. reflexivity.
  - by_compute.
Defined.

(** In a state whose edges are in order, [dot] yields the node of the
    job, labelled with the name of its rule followed by the new wildcards
    (also when the job has dependencies and no new wildcard: the test
    before the loop changes nothing), and then one edge from every job of
    [depends] that needs to run, and from no other job. *)
Theorem dot_draws_edges_from_jobs_that_run E wildcards items_iter self w j r :
  set_iter_ok E → items_iter_ok items_iter → dag_inv w →
  w_jobs w !! self = Some j → w_rules w !! rule (init j) = Some r →
  ∃ nw edges,
    new_wildcards E wildcards self w = Ok nw w
    ∧ dot E wildcards items_iter self w
      = Ok (dot_node self (dot_label (rule_name r) (items_iter nw)) :: edges) w
    ∧ edges ≡ₚ dot_edges w self (elements (depends j)).
Proof.
  intros HE HI Hdag Hj Hr.
  destruct (dot_run E HE wildcards items_iter self w j r HI Hdag Hj Hr)
    as (nw & edges & Hnw & Hdot & ->).
  exists nw. eexists. split; [done|]. split; [done|].
  unfold dot_edges. by rewrite (HE _).
Qed.

Lemma dot_draws_edges_from_jobs_that_run_witness :
  ∃ nw edges,
    new_wildcards plain_externals chain_wildcards 1%nat pair_world = Ok nw pair_world
    ∧ dot plain_externals chain_wildcards elements 1%nat pair_world
      = Ok (dot_node 1%nat (dot_label (rule_name second_rule) (elements nw)) :: edges)
           pair_world
    ∧ edges ≡ₚ dot_edges pair_world 1%nat (elements (depends (new_job pair_second 1%nat))).
Proof.
  apply (dot_draws_edges_from_jobs_that_run plain_externals chain_wildcards elements
           1%nat pair_world (new_job pair_second 1%nat) second_rule).
  - intros X. reflexivity.
  - intros X. reflexivity.
  - exact pair_world_dag_inv.
  - by_compute.
  - by_compute.
Defined.

Lemma print_job_dag_fold E wildcards items_iter w (jobs : list JobId) out :
  set_iter_ok E → items_iter_ok items_iter → dag_inv w →
  (∀ k, k ∈ jobs → ∃ j r, w_jobs w !! k = Some j ∧ w_rules w !! rule (init j) = Some r) →
  ∃ lines,
    Forall2 (dot_lines E wildcards items_iter w) jobs lines
    ∧ fold_ jobs (λ job out,
        do edges <- dot E wildcards items_iter job;
        ret (out ++ ((λ edge, tab +:+ edge) <$> edges))) out w
      = Ok (out ++ ((λ edge, tab +:+ edge) <$> concat lines)) w.
Proof.
  intros HE HI Hdag. revert out. induction jobs as [|k jobs IH]; intros out Hjobs.
  - exists []. split; [constructor|]. simpl. unfold ret. by rewrite app_nil_r.
  - destruct (Hjobs k) as (j & r & Hj & Hr); [by left|].
    destruct (dot_run E HE wildcards items_iter k w j r HI Hdag Hj Hr)
      as (nw & edges & Hnw & Hdot & Hedges).
    set (ls := dot_node k (dot_label (rule_name r) (items_iter nw)) :: edges) in *.
    destruct (IH (out ++ ((λ edge, tab +:+ edge) <$> ls))) as (lines & Hlines & Hfold).
    { intros k' Hk'. apply Hjobs. by right. }
    exists (ls :: lines). split.
    + constructor; [|done]. exists j, r, nw, edges. split_and!; [done..|].
      rewrite Hedges. unfold dot_edges. by rewrite (HE _).
    + cbn [fold_]. erewrite bind_Ok; cycle 1.
      { erewrite bind_Ok by exact Hdot. reflexivity. }
      rewrite Hfold. f_equal. change (concat (ls :: lines)) with (ls ++ concat lines).
      by rewrite fmap_app, app_assoc.
Qed.

(** In a state whose edges are in order, [print_job_dag] prints the
    opening line, then, for the jobs of the list in their order, the lines
    of [dot], each after a tab: the node of the job, labelled with its
    rule and its new wildcards, and one edge for every job it depends
    on that needs to run; and then the closing brace.  The state is as it
    was. *)
Theorem print_job_dag_prints_nodes_and_edges E wildcards items_iter jobs w :
  set_iter_ok E → items_iter_ok items_iter → dag_inv w →
  (∀ k, k ∈ jobs → ∃ j r, w_jobs w !! k = Some j ∧ w_rules w !! rule (init j) = Some r) →
  ∃ lines,
    Forall2 (dot_lines E wildcards items_iter w) jobs lines
    ∧ print_job_dag E wildcards items_iter jobs w
      = Ok ("digraph snakemake_dag {"
              :: ((λ edge, tab +:+ edge) <$> concat lines) ++ ["}"]) w.
Proof.
  intros HE HI Hdag Hjobs.
  destruct (print_job_dag_fold E wildcards items_iter w jobs [] HE HI Hdag Hjobs)
    as (lines & Hlines & Hfold).
  exists lines. split; [done|].
  unfold print_job_dag. erewrite bind_Ok by exact Hfold. reflexivity.
Qed.

Lemma print_job_dag_prints_nodes_and_edges_witness :
  ∃ lines,
    Forall2 (dot_lines plain_externals chain_wildcards elements pair_world)
            [0%nat; 1%nat] lines
    ∧ print_job_dag plain_externals chain_wildcards elements [0%nat; 1%nat] pair_world
      = Ok ("digraph snakemake_dag {"
              :: ((λ edge, tab +:+ edge) <$> concat lines) ++ ["}"]) pair_world.
Proof.
  apply (print_job_dag_prints_nodes_and_edges plain_externals chain_wildcards elements
           [0%nat; 1%nat] pair_world).
  - intros X. reflexivity.
  - intros X. reflexivity.
  - exact pair_world_dag_inv.
  - intros k Hk. assert (k = 0 ∨ k = 1)%nat as [-> | ->] by set_solver.
    + eexists _, _. split; by_compute.
    + eexists _, _. split; by_compute.
Defined.

(** ** The knapsack with jobs of no thread *)

Section Idle.
Context (jobs : list Job) (c : nat).
Hypothesis threads_nonneg : ∀ job, job ∈ jobs → 0 ≤ threads job.

Lemma knapsack_cell_nonneg (K : list (list Z)) (i k : nat) :
  (i < length jobs)%nat → (S k ≤ c)%nat →
  K !! i = Some (opt_row jobs c i) →
  (S i < length K)%nat →
  knapsack_cell jobs (Z.of_nat (S i)) (Z.of_nat (S k))
                (<[S i := row_upto jobs c (S i) k]> K)
  = Some (<[S i := row_upto jobs c (S i) (S k)]> K).
Proof.
  intros Hi Hk Hrow Hlen. unfold knapsack_cell.
  replace (Z.of_nat (S i) - 1) with (Z.of_nat i) by lia.
  rewrite py_index_nat.
  destruct (jobs !! i) as [job|] eqn:Hjob; [|apply lookup_ge_None in Hjob; lia].
  simpl.
  assert (0 ≤ threads job) as Ht by (apply threads_nonneg; by eapply list_elem_of_lookup_2).
  assert (∀ j : nat, (j ≤ c)%nat →
            K_get (<[S i := row_upto jobs c (S i) k]> K) (Z.of_nat i) (Z.of_nat j)
            = Some (opt jobs i (Z.of_nat j))) as Hget.
  { intros j Hj. rewrite K_get_nat, list_lookup_insert_ne by lia.
    rewrite Hrow. simpl. by apply lookup_opt_row. }
  assert (∀ v, K_set (<[S i := row_upto jobs c (S i) k]> K) (Z.of_nat (S i))
                     (Z.of_nat (S k)) v
               = <[S i := <[S k := v]> (row_upto jobs c (S i) k)]> K) as Hset.
  { intros v. unfold K_set. rewrite !Nat2Z.id.
    apply list_eq. intros i'. destruct (decide (i' = S i)) as [->|Hne].
    - rewrite list_lookup_alter_eq, !list_lookup_insert_eq by done. done.
    - rewrite list_lookup_alter_ne, !list_lookup_insert_ne by done. done. }
  pose proof (opt_S jobs i (Z.of_nat (S k))) as HS. rewrite Hjob in HS.
  change (default 0 (threads <$> Some job)) with (threads job) in HS. cbv zeta in HS.
  destruct (decide (Z.of_nat (S k) ≤ 0)) as [?|_]; [lia|].
  destruct (decide (threads job > Z.of_nat (S k))) as [Hgt|Hgt].
  - rewrite Hget by lia. simpl. rewrite Hset. do 2 f_equal.
    rewrite <- row_upto_S by done. by rewrite HS.
  - rewrite Hget by lia. simpl.
    replace (Z.of_nat (S k) - threads job)
      with (Z.of_nat (Z.to_nat (Z.of_nat (S k) - threads job))) by lia.
    rewrite Hget by lia. simpl. rewrite Hset. do 2 f_equal.
    rewrite <- row_upto_S by done. rewrite HS.
    by rewrite Z2Nat.id by lia.
Qed.

Lemma inner_loop_nonneg (K : list (list Z)) (i k : nat) :
  (i < length jobs)%nat → (k ≤ c)%nat →
  K !! i = Some (opt_row jobs c i) →
  K !! S i = Some (replicate (S c) 0) →
  table_loop (seqZ 1 (Z.of_nat k)) (knapsack_cell jobs (Z.of_nat (S i))) K
  = Some (<[S i := row_upto jobs c (S i) k]> K).
Proof.
  intros Hi Hk Hrow Hzero. induction k as [|k IH].
  - simpl. rewrite row_upto_0. by rewrite list_insert_id.
  - rewrite seqZ_snoc, table_loop_snoc, IH by lia. simpl.
    apply knapsack_cell_nonneg; try done. by eapply lookup_lt_Some.
Qed.

Lemma outer_loop_nonneg (r : nat) :
  (r ≤ length jobs)%nat →
  table_loop (seqZ 1 (Z.of_nat r))
    (λ i, table_loop (seqZ 1 (Z.of_nat c)) (knapsack_cell jobs i))
    (replicate (S (length jobs)) (replicate (S c) 0))
  = Some (table_upto jobs (length jobs) c r).
Proof.
  intros Hr. induction r as [|r IH].
  - simpl. by rewrite table_upto_0.
  - rewrite seqZ_snoc, table_loop_snoc, IH by lia. simpl.
    rewrite inner_loop_nonneg; try lia.
    + by rewrite table_upto_S.
    + rewrite lookup_table_upto by lia. case_decide; [done|lia].
    + rewrite lookup_table_upto by lia. case_decide; [lia|done].
Qed.

Lemma knapsack_table_nonneg :
  knapsack_table jobs (Z.of_nat (length jobs) + 1) (Z.of_nat c + 1)
  = Some (table_upto jobs (length jobs) c (length jobs)).
Proof.
  unfold knapsack_table.
  replace (Z.to_nat (Z.of_nat (length jobs) + 1)) with (S (length jobs)) by lia.
  replace (Z.to_nat (Z.of_nat c + 1)) with (S c) by lia.
  replace (Z.of_nat (length jobs) + 1 - 1) with (Z.of_nat (length jobs)) by lia.
  replace (Z.of_nat c + 1 - 1) with (Z.of_nat c) by lia.
  by apply outer_loop_nonneg.
Qed.

(** The walk back through the table picks no job without threads, and
    none with more threads than there are cores. *)
Lemma knapsack_solution_fits (i : nat) (j : Z) (sol : gset JobId) :
  (i ≤ length jobs)%nat → 0 ≤ j ≤ Z.of_nat c →
  ∃ S : gset JobId,
    knapsack_solution jobs (table_upto jobs (length jobs) c (length jobs)) i j sol = Some S
    ∧ ∀ k, k ∈ S →
        k ∈ sol ∨ ∃ job, job ∈ jobs ∧ jobid job = k ∧ 0 < threads job ≤ Z.of_nat c.
Proof.
  revert j sol. induction i as [|i IH]; intros j sol Hi Hj.
  - exists sol. split; [done|]. by left.
  - cbn [knapsack_solution].
    assert (Z.of_nat (S i) - 1 = Z.of_nat i) as -> by lia.
    rewrite !table_get_Z by (done || lia). simpl.
    rewrite py_index_nat.
    destruct (jobs !! i) as [job|] eqn:Hjob; [|apply lookup_ge_None in Hjob; lia].
    assert (job ∈ jobs) as Hin by (by eapply list_elem_of_lookup_2).
    pose proof (threads_nonneg job Hin) as Ht.
    pose proof (opt_S jobs i j) as HS. rewrite Hjob in HS.
    change (default 0 (threads <$> Some job)) with (threads job) in HS.
    cbv zeta in HS. simpl.
    destruct (decide (opt jobs (S i) j ≠ opt jobs i j)) as [Hne|Hne].
    + assert (0 < threads job ≤ j) as Hfit.
      { destruct (decide (j ≤ 0)) as [Hj0|Hj0].
        { assert (j = 0) as -> by lia. by rewrite !opt_zero in Hne. }
        destruct (decide (threads job > j)) as [Hgt|Hgt]; [done|].
        destruct (decide (threads job = 0)) as [H0|H0]; [|lia].
        exfalso. apply Hne. rewrite HS, H0.
        replace (j - 0) with j by lia. lia. }
      destruct (IH (j - threads job) ({[jobid job]} ∪ sol)) as (S & Hrun & HS'); [lia..|].
      exists S. split; [done|]. intros k Hk.
      destruct (HS' k Hk) as [Hsol|?]; [|by right].
      apply elem_of_union in Hsol as [->%elem_of_singleton|?]; [|by left].
      right. exists job. split_and!; [done..|lia|lia].
    + destruct (IH j sol) as (S & Hrun & HS'); [lia..|]. by exists S.
Qed.
End Idle.

(** For jobs with [threads >= 0] and [cores >= 0], [_knapsack] returns a
    set of jobs of the list of which each has at least one thread and at
    most [cores]: a job without threads is never selected, and with no
    free core no job is. *)
Theorem knapsack_selects_jobs_with_threads (jobs : list Job) (cores : Z) :
  Forall (λ job, 0 ≤ threads job) jobs →
  0 ≤ cores →
  ∃ S : gset JobId,
    _knapsack cores jobs = Some S
    ∧ ∀ k, k ∈ S → ∃ job, job ∈ jobs ∧ jobid job = k ∧ 0 < threads job ≤ cores.
Proof.
  intros Hnn Hc. rewrite Forall_forall in Hnn.
  assert (∃ c : nat, cores = Z.of_nat c) as [c ->] by (exists (Z.to_nat cores); lia).
  destruct (knapsack_solution_fits jobs c Hnn (length jobs) (Z.of_nat c) ∅)
    as (S & Hrun & HS); [lia..|].
  exists S. split.
  - unfold _knapsack. rewrite knapsack_table_nonneg by done. simpl.
    replace (Z.to_nat (Z.of_nat (length jobs) + 1 - 1)) with (length jobs) by lia.
    replace (Z.of_nat c + 1 - 1) with (Z.of_nat c) by lia.
    done.
  - intros k Hk. destruct (HS k Hk) as [?|?]; [set_solver|done].
Qed.

Lemma knapsack_selects_jobs_with_threads_witness :
  ∃ S : gset JobId,
    _knapsack 2 [example_job 0 0; example_job 1 2] = Some S
    ∧ ∀ k, k ∈ S →
        ∃ job, job ∈ [example_job 0 0; example_job 1 2]
               ∧ jobid job = k ∧ 0 < threads job ≤ 2.
Proof.
  apply (knapsack_selects_jobs_with_threads [example_job 0 0; example_job 1 2] 2).
  - repeat constructor; simpl; lia.
  - lia.
Defined.
